(** * GLib: GArray (garray.c) and g_file_set_contents_full (gfileutils.c)

    A shallow embedding of the growable value array of [glib/garray.c] and of
    the file-writing protocol of [glib/gfileutils.c], with the properties of
    the specification stated and proved over them.

    Platform modelled: LP64 POSIX (guint is 32 bits, gsize is 64 bits,
    HAVE_FSYNC, HAVE_FALLOCATE and O_NOFOLLOW defined, G_OS_WIN32 not
    defined). *)

From Stdlib Require Import ZArith Lia Bool.
From stdpp Require Import base list gmap strings sorting.

Local Open Scope Z_scope.

(* ===================================================================== *)
(** * Part I: garray.c                                                     *)
(* ===================================================================== *)

Module GArray.

(** ** Machine integers *)

Definition G_MAXUINT : Z := 2 ^ 32 - 1.
Definition G_MAXSIZE : Z := 2 ^ 64 - 1.
Definition MIN_ARRAY_SIZE : Z := 16.

(** Conversion to [guint] and [gsize]: unsigned wrap-around. *)
Definition to_guint (z : Z) : Z := z mod 2 ^ 32.
Definition to_gsize (z : Z) : Z := z mod 2 ^ 64.

(** [MIN] and [MAX] of gmacros.h. *)
Definition MIN (a b : Z) : Z := if a <? b then a else b.
Definition MAX (a b : Z) : Z := if a >? b then a else b.

(** ** Memory

    A heap block is a list of cells; a cell that was never written holds an
    indeterminate value, [None]. *)

Definition cell : Type := option Z.
Definition block : Type := list cell.

(** The bytes of one array element, as handed to callbacks by pointer. *)
Definition elt : Type := list cell.

(** Read [n] cells at offset [pos]; cells past the end of the block are
    indeterminate. *)
Definition mem_read (b : block) (pos n : Z) : list cell :=
  take (Z.to_nat n) (drop (Z.to_nat pos) b ++ repeat None (Z.to_nat n)).

(** Overwrite the cells at offset [pos] with [src]; the block keeps its size
    (a store outside the block is dropped). *)
Definition mem_write (b : block) (pos : Z) (src : list cell) : block :=
  let p := Z.to_nat pos in
  take (length b) (take p b ++ src ++ drop (p + length src) b).

Definition memset (b : block) (pos c n : Z) : block :=
  mem_write b pos (repeat (Some c) (Z.to_nat n)).

Definition memmove (b : block) (dst src n : Z) : block :=
  mem_write b dst (mem_read b src n).

(** [memcpy] from a caller-owned buffer [src] into the block. *)
Definition memcpy (b : block) (dst : Z) (src : list cell) (n : Z) : block :=
  mem_write b dst (mem_read src 0 n).

(** [g_realloc]: the old contents are kept, new cells are indeterminate;
    a request of 0 bytes frees the block and returns NULL. *)
Definition g_realloc (old : option block) (n_bytes : Z) : option block :=
  if n_bytes =? 0 then None
  else Some (take (Z.to_nat n_bytes)
               (default [] old ++ repeat None (Z.to_nat n_bytes))).

(** Modelled from the spec: [g_nearest_pow] (gutilsprivate.h is not among the
    sources): "the next power-of-two number of bytes >= n". *)
Definition g_nearest_pow (num : Z) : Z := 2 ^ Z.log2_up num.

(** ** The array structure *)

Definition GDestroyNotify : Type := elt -> elt.
Definition GCompareFunc : Type := elt -> elt -> Z.
Definition GCompareDataFunc (U : Type) : Type := elt -> elt -> U -> Z.

Record GRealArray : Type := mkArray {
  data : option block;          (* guint8 *data; None is NULL *)
  len : Z;                      (* guint len *)
  elt_capacity : Z;             (* guint elt_capacity *)
  elt_size : Z;                 (* guint elt_size *)
  zero_terminated : bool;       (* guint zero_terminated : 1 *)
  clear_ : bool;                (* guint clear : 1 *)
  ref_count : Z;                (* gatomicrefcount ref_count *)
  clear_func : option GDestroyNotify
}.

Definition set_data (a : GRealArray) (d : option block) : GRealArray :=
  mkArray d (len a) (elt_capacity a) (elt_size a) (zero_terminated a)
          (clear_ a) (ref_count a) (clear_func a).
Definition set_len (a : GRealArray) (n : Z) : GRealArray :=
  mkArray (data a) n (elt_capacity a) (elt_size a) (zero_terminated a)
          (clear_ a) (ref_count a) (clear_func a).
Definition set_elt_capacity (a : GRealArray) (n : Z) : GRealArray :=
  mkArray (data a) (len a) n (elt_size a) (zero_terminated a)
          (clear_ a) (ref_count a) (clear_func a).
Definition set_ref_count (a : GRealArray) (n : Z) : GRealArray :=
  mkArray (data a) (len a) (elt_capacity a) (elt_size a) (zero_terminated a)
          (clear_ a) n (clear_func a).
Definition set_clear_func (a : GRealArray) (f : option GDestroyNotify)
  : GRealArray :=
  mkArray (data a) (len a) (elt_capacity a) (elt_size a) (zero_terminated a)
          (clear_ a) (ref_count a) f.

(** Apply a store to the data block; a store through NULL is dropped. *)
Definition on_data (a : GRealArray) (f : block -> block) : GRealArray :=
  set_data a (f <$> data a).

(** ** The macros of garray.c *)

Definition g_array_elt_len (a : GRealArray) (i : Z) : Z :=
  to_gsize (elt_size a * i).

(** [g_array_elt_pos] as a byte offset from [array->data]. *)
Definition g_array_elt_pos (a : GRealArray) (i : Z) : Z :=
  g_array_elt_len a i.

Definition g_array_elt_zero (a : GRealArray) (pos n : Z) : GRealArray :=
  on_data a (fun b => memset b (g_array_elt_pos a pos) 0 (g_array_elt_len a n)).

Definition g_array_zero_terminate (a : GRealArray) : GRealArray :=
  if zero_terminated a then g_array_elt_zero a (len a) 1 else a.

(** The element stored at index [i]. *)
Definition elt_at (a : GRealArray) (i : Z) : elt :=
  mem_read (default [] (data a)) (g_array_elt_pos a i) (elt_size a).

(** ** Effects: callbacks, frees, aborts

    Operations run in a small monad: they thread a log of observable events
    and either return or abort the process ([g_error], [g_assert]). *)

Inductive event : Type :=
| EvClear (pos : Z)            (* clear_func (array->data + pos) *)
| EvFree (seg : option block)  (* g_free (array->data) *)
| EvSliceFree                  (* g_slice_free1 (sizeof (GRealArray), array) *)
| EvCritical (check : string). (* a failed g_return_if_fail *)

Inductive outcome (A : Type) : Type :=
| Returns (a : A) (log : list event)
| Aborts (msg : string).
Arguments Returns {A} a log.
Arguments Aborts {A} msg.

Definition M (A : Type) : Type := list event -> outcome A.

Definition ret {A} (a : A) : M A := fun log => Returns a log.
Definition bind {A B} (m : M A) (k : A -> M B) : M B :=
  fun log => match m log with
             | Returns a log' => k a log'
             | Aborts msg => Aborts msg
             end.
Definition emit (e : event) : M unit := fun log => Returns tt (log ++ [e]).
Definition g_error {A} (msg : string) : M A := fun _ => Aborts msg.

Notation "'do' x <- m ; k" := (bind m (fun x => k))
  (at level 10, x name, m at level 100, k at level 200).
Notation "'do_' m ; k" := (bind m (fun _ => k))
  (at level 10, m at level 100, k at level 200).

(** [g_return_val_if_fail (cond, NULL)] on an array operation: when the check
    fails a critical warning is logged and the array is left as it was. *)
Definition return_if_fail (cond : bool) (check : string) (a : GRealArray)
    (k : M GRealArray) : M GRealArray :=
  if cond then k else (do_ emit (EvCritical check); ret a).

Section Ops.

(** The global [g_mem_gc_friendly] (set once at start-up from G_DEBUG). *)
Variable g_mem_gc_friendly : bool.

Definition g_array_maybe_expand (array : GRealArray) (len_ : Z)
  : M GRealArray :=
  let zt := Z.b2z (zero_terminated array) in
  let max_len :=
    to_guint (MIN (G_MAXSIZE / 2 / elt_size array) G_MAXUINT - zt) in
  (* Detect potential overflow *)
  if to_guint (max_len - len array) <? len_ then
    g_error "adding %u to array would overflow"
  else
    let want_len := to_guint (len array + len_ + zt) in
    if want_len >? elt_capacity array then
      let want_alloc := g_nearest_pow (g_array_elt_len array want_len) in
      if negb (want_alloc >=? g_array_elt_len array want_len) then
        g_error "assertion failed: (want_alloc >= g_array_elt_len (array, want_len))"
      else
        let want_alloc := MAX want_alloc MIN_ARRAY_SIZE in
        let array := set_data array (g_realloc (data array) want_alloc) in
        let array :=
          if g_mem_gc_friendly then
            on_data array (fun b =>
              memset b (g_array_elt_pos array (elt_capacity array)) 0
                (g_array_elt_len array
                   (to_guint (want_len - elt_capacity array))))
          else array in
        ret (set_elt_capacity array
               (to_guint (MIN (want_alloc / elt_size array) G_MAXUINT)))
    else ret array.

Definition g_array_sized_new (zero_terminated_ clear elt_size_ reserved_size : Z)
  : M (option GRealArray) :=
  if negb (elt_size_ >? 0) then
    do_ emit (EvCritical "elt_size > 0"); ret None
  else
    let array :=
      mkArray None 0 0 elt_size_
              (negb (zero_terminated_ =? 0)) (negb (clear =? 0)) 1 None in
    if zero_terminated array || negb (reserved_size =? 0) then
      do array <- g_array_maybe_expand array reserved_size;
      match data array with
      | None => g_error "assertion failed: (array->data != NULL)"
      | Some _ => ret (Some (g_array_zero_terminate array))
      end
    else ret (Some array).

Definition g_array_new (zero_terminated_ clear elt_size_ : Z)
  : M (option GRealArray) :=
  if negb (elt_size_ >? 0) then
    do_ emit (EvCritical "elt_size > 0"); ret None
  else g_array_sized_new zero_terminated_ clear elt_size_ 0.

(** [for (i = 0; i < n; i++) body] with a [guint] counter. *)
Fixpoint for_loop {S : Type} (n : nat) (i : Z) (body : Z -> S -> M S) (s : S)
  : M S :=
  match n with
  | O => ret s
  | S n' => do s' <- body i s; for_loop n' (to_guint (i + 1)) body s'
  end.

(** [array->clear_func (g_array_elt_pos (array, i))]: the callback receives a
    pointer to the element and may rewrite the element's bytes. *)
Definition call_clear_func (f : GDestroyNotify) (i : Z) (array : GRealArray)
  : M GRealArray :=
  let pos := g_array_elt_pos array i in
  do_ emit (EvClear pos);
  ret (on_data array (fun b =>
         mem_write b pos (mem_read (f (elt_at array i)) 0 (elt_size array)))).

Definition g_array_steal (array : GRealArray)
  : M (option block * Z * GRealArray) :=
  let segment := data array in
  let len_out := len array in
  let array := set_data array None in
  let array := set_len array 0 in
  let array := set_elt_capacity array 0 in
  ret (segment, len_out, array).

Definition g_array_set_clear_func (array : GRealArray)
    (f : option GDestroyNotify) : M GRealArray :=
  ret (set_clear_func array f).

Definition g_array_ref (array : GRealArray) : M GRealArray :=
  ret (set_ref_count array (ref_count array + 1)).

(** [g_atomic_ref_count_dec]: decrement, and tell whether zero was reached. *)
Definition g_atomic_ref_count_dec (array : GRealArray) : bool * GRealArray :=
  (ref_count array - 1 =? 0, set_ref_count array (ref_count array - 1)).

Definition FREE_SEGMENT : Z := Z.shiftl 1 0.
Definition PRESERVE_WRAPPER : Z := Z.shiftl 1 1.

(** [array_free]: returns the segment handed back to the caller and the
    wrapper, [None] once the wrapper itself has been released. *)
Definition array_free (array : GRealArray) (flags : Z)
  : M (option block * option GRealArray) :=
  do r <- (if negb (Z.land flags FREE_SEGMENT =? 0) then
             do array <- match clear_func array with
                         | Some f =>
                             for_loop (Z.to_nat (len array)) 0
                                      (call_clear_func f) array
                         | None => ret array
                         end;
             do_ emit (EvFree (data array));
             ret (None, array)
           else ret (data array, array));
  let segment := fst r in
  let array := snd r in
  if negb (Z.land flags PRESERVE_WRAPPER =? 0) then
    let array := set_data array None in
    let array := set_len array 0 in
    let array := set_elt_capacity array 0 in
    ret (segment, Some array)
  else
    do_ emit EvSliceFree;
    ret (segment, None).

Definition g_array_unref (array : GRealArray) : M (option GRealArray) :=
  let '(is_zero, array) := g_atomic_ref_count_dec array in
  if is_zero then
    do r <- array_free array FREE_SEGMENT; ret (snd r)
  else ret (Some array).

Definition g_array_free (farray : GRealArray) (free_segment : bool)
  : M (option block * option GRealArray) :=
  let flags := if free_segment then FREE_SEGMENT else 0 in
  (* if others are holding a reference, preserve the wrapper but do
     free/return the data *)
  let '(is_zero, array) := g_atomic_ref_count_dec farray in
  let flags := if negb is_zero then Z.lor flags PRESERVE_WRAPPER else flags in
  array_free array flags.

Definition g_array_append_vals (array : GRealArray) (data_ : list cell)
    (len_ : Z) : M GRealArray :=
  if len_ =? 0 then ret array
  else
    do array <- g_array_maybe_expand array len_;
    let array :=
      on_data array (fun b =>
        memcpy b (g_array_elt_pos array (len array)) data_
               (g_array_elt_len array len_)) in
    let array := set_len array (to_guint (len array + len_)) in
    ret (g_array_zero_terminate array).

Definition g_array_prepend_vals (array : GRealArray) (data_ : list cell)
    (len_ : Z) : M GRealArray :=
  if len_ =? 0 then ret array
  else
    do array <- g_array_maybe_expand array len_;
    let array :=
      on_data array (fun b =>
        memmove b (g_array_elt_pos array len_) (g_array_elt_pos array 0)
                (g_array_elt_len array (len array))) in
    let array :=
      on_data array (fun b =>
        memcpy b (g_array_elt_pos array 0) data_
               (g_array_elt_len array len_)) in
    let array := set_len array (to_guint (len array + len_)) in
    ret (g_array_zero_terminate array).

Definition g_array_remove_index (array : GRealArray) (index_ : Z)
  : M GRealArray :=
  return_if_fail (index_ <? len array) "index_ < array->len" array (
    do array <- match clear_func array with
                | Some f => call_clear_func f index_ array
                | None => ret array
                end;
    let array :=
      if negb (index_ =? to_guint (len array - 1)) then
        on_data array (fun b =>
          memmove b (g_array_elt_pos array index_)
                  (g_array_elt_pos array (to_guint (index_ + 1)))
                  (g_array_elt_len array
                     (to_guint (to_guint (len array - index_) - 1))))
      else array in
    let array := set_len array (to_guint (len array - 1)) in
    if g_mem_gc_friendly then ret (g_array_elt_zero array (len array) 1)
    else ret (g_array_zero_terminate array)).

Definition g_array_remove_index_fast (array : GRealArray) (index_ : Z)
  : M GRealArray :=
  return_if_fail (index_ <? len array) "index_ < array->len" array (
    do array <- match clear_func array with
                | Some f => call_clear_func f index_ array
                | None => ret array
                end;
    let array :=
      if negb (index_ =? to_guint (len array - 1)) then
        on_data array (fun b =>
          memmove b (g_array_elt_pos array index_)
                  (g_array_elt_pos array (to_guint (len array - 1)))
                  (g_array_elt_len array 1))
      else array in
    let array := set_len array (to_guint (len array - 1)) in
    if g_mem_gc_friendly then ret (g_array_elt_zero array (len array) 1)
    else ret (g_array_zero_terminate array)).

Definition g_array_remove_range (array : GRealArray) (index_ length_ : Z)
  : M GRealArray :=
  return_if_fail (index_ <=? len array) "index_ <= array->len" array (
  return_if_fail (index_ <=? to_guint (G_MAXUINT - length_))
                 "index_ <= G_MAXUINT - length" array (
  return_if_fail (to_guint (index_ + length_) <=? len array)
                 "index_ + length <= array->len" array (
    if length_ =? 0 then ret array
    else
      do array <- match clear_func array with
                  | Some f =>
                      for_loop (Z.to_nat length_) 0
                        (fun i => call_clear_func f (to_guint (index_ + i)))
                        array
                  | None => ret array
                  end;
      let array :=
        if negb (to_guint (index_ + length_) =? len array) then
          on_data array (fun b =>
            memmove b (g_array_elt_pos array index_)
                    (g_array_elt_pos array (to_guint (index_ + length_)))
                    (g_array_elt_len array
                       (to_guint (len array - to_guint (index_ + length_)))))
        else array in
      let array := set_len array (to_guint (len array - length_)) in
      if g_mem_gc_friendly then
        ret (g_array_elt_zero array (len array) length_)
      else ret (g_array_zero_terminate array)))).

Definition g_array_set_size (array : GRealArray) (length_ : Z)
  : M GRealArray :=
  do array <-
    (if length_ >? len array then
       do array <- g_array_maybe_expand array (to_guint (length_ - len array));
       if clear_ array then
         ret (g_array_elt_zero array (len array)
                (to_guint (length_ - len array)))
       else ret array
     else if length_ <? len array then
       g_array_remove_range array length_ (to_guint (len array - length_))
     else ret array);
  let array := set_len array length_ in
  match data array with
  | Some _ => ret (g_array_zero_terminate array)
  | None => ret array
  end.

Definition g_array_insert_vals (array : GRealArray) (index_ : Z)
    (data_ : list cell) (len_ : Z) : M GRealArray :=
  if len_ =? 0 then ret array
  else if index_ >=? len array then
    (* Is the index off the end of the array, and hence do we need to
       over-allocate and clear some elements? *)
    do array <- g_array_maybe_expand array
                  (to_guint (to_guint (index_ - len array) + len_));
    do array <- g_array_set_size array index_;
    g_array_append_vals array data_ len_
  else
    do array <- g_array_maybe_expand array len_;
    let array :=
      on_data array (fun b =>
        memmove b (g_array_elt_pos array (to_guint (len_ + index_)))
                (g_array_elt_pos array index_)
                (g_array_elt_len array (to_guint (len array - index_)))) in
    let array :=
      on_data array (fun b =>
        memcpy b (g_array_elt_pos array index_) data_
               (g_array_elt_len array len_)) in
    let array := set_len array (to_guint (len array + len_)) in
    ret (g_array_zero_terminate array).

End Ops.

(** ** Sorting *)

(** The [len] elements of the array, in index order. *)
Definition elements (a : GRealArray) : list elt :=
  (fun i : nat => elt_at a (Z.of_nat i)) <$> seq 0 (Z.to_nat (len a)).

Section Sort.
Context {U : Type}.
Variable compare_func : GCompareDataFunc U.
Variable user_data : U.

(** Merge two sorted runs; on a tie the element of the left run goes first. *)
Fixpoint merge_runs (l1 : list elt) : list elt -> list elt :=
  fix merge_aux (l2 : list elt) : list elt :=
    match l1, l2 with
    | [], _ => l2
    | _, [] => l1
    | x1 :: l1', x2 :: l2' =>
        if compare_func x1 x2 user_data <=? 0
        then x1 :: merge_runs l1' l2
        else x2 :: merge_aux l2'
    end.

Fixpoint msort (fuel : nat) (l : list elt) : list elt :=
  match fuel with
  | O => l
  | S fuel' =>
      if (length l <=? 1)%nat then l
      else
        let n1 := (length l / 2)%nat in
        merge_runs (msort fuel' (take n1 l)) (msort fuel' (drop n1 l))
  end.

(** Modelled from the spec: [g_sort_array] (gqsort.c is not among the
    sources): "sorts in place; MUST be a stable sort (ties preserve relative
    input order)", here a top-down merge sort over the [total_elems] elements
    of [size] bytes that start the block. *)
Definition g_sort_array (b : block) (total_elems size : Z) : block :=
  let elems :=
    (fun i : nat => mem_read b (to_gsize (size * Z.of_nat i)) size)
      <$> seq 0 (Z.to_nat total_elems) in
  mem_write b 0 (concat (msort (length elems) elems)).

Definition g_array_sort_with_data (array : GRealArray) : M GRealArray :=
  if len array >? 0 then
    ret (on_data array (fun b => g_sort_array b (len array) (elt_size array)))
  else ret array.

End Sort.

(** [g_array_sort] casts its two-argument comparison function to a
    [GCompareDataFunc] and passes NULL as the user data. *)
Definition g_array_sort (array : GRealArray) (compare_func : GCompareFunc)
  : M GRealArray :=
  if len array >? 0 then
    ret (on_data array (fun b =>
           g_sort_array (fun x y (_ : unit) => compare_func x y) tt
                        b (len array) (elt_size array)))
  else ret array.

(** ** Binary search *)

(** The [while (left <= right)] loop; [None] when the fuel runs out. The
    result is the pair of [result] and [middle] at loop exit. *)
Fixpoint bsearch_loop (fuel : nat) (a : GRealArray) (target : elt)
    (compare_func : GCompareFunc) (left right middle : Z)
  : option (bool * Z) :=
  if left <=? right then
    match fuel with
    | O => None
    | S fuel' =>
        let middle := to_guint (left + to_guint (right - left) / 2) in
        let val := compare_func (elt_at a middle) target in
        if val =? 0 then Some (true, middle)
        else if val <? 0 then
          bsearch_loop fuel' a target compare_func
                       (to_guint (middle + 1)) right middle
        else if middle >? 0 then
          bsearch_loop fuel' a target compare_func
                       left (to_guint (middle - 1)) middle
        else Some (false, middle) (* element not found *)
    end
  else Some (false, middle).

(** [g_array_binary_search] with a non-NULL [out_match_index]: the returned
    pair is the [gboolean] result and the value stored through
    [out_match_index], if any. The array is only read. *)
Definition g_array_binary_search (a : GRealArray) (target : elt)
    (compare_func : GCompareFunc) : option (bool * option Z) :=
  match (if negb (len a =? 0) then
           bsearch_loop (Z.to_nat (len a)) a target compare_func
                        0 (to_guint (len a - 1)) 0
         else Some (false, 0)) with
  | Some (result, middle) =>
      Some (result, if result then Some middle else None)
  | None => None
  end.

End GArray.

(* ===================================================================== *)
(** * garray.c: taking over and copying arrays                             *)
(* ===================================================================== *)

Module GArrayMore.
Import GArray.

Definition set_zero_terminated (a : GRealArray) (z : bool) : GRealArray :=
  mkArray (data a) (len a) (elt_capacity a) (elt_size a) z
          (clear_ a) (ref_count a) (clear_func a).

Definition g_array_get_element_size (array : GRealArray) : Z :=
  elt_size array.

(** [g_return_val_if_fail (cond, NULL)] of a constructor. *)
Definition new_if_fail (cond : bool) (check : string)
    (k : M (option GRealArray)) : M (option GRealArray) :=
  if cond then k else (do_ emit (EvCritical check); ret None).

(** The first index at or after [i] whose element is all zero:
    [*element_start == 0 && memcmp (element_start, element_start + 1,
    element_size - 1) == 0]. [None] when the scan leaves the block, where
    the C loop reads memory that is not the caller's. *)
Fixpoint zero_scan (fuel : nat) (b : block) (element_size i : Z) : option Z :=
  match fuel with
  | O => None
  | S fuel' =>
      let start := to_gsize (i * element_size) in
      if bool_decide (Z.to_nat start + Z.to_nat element_size
                      <= length b)%nat then
        if bool_decide (mem_read b start 1 = [Some 0]) &&
           bool_decide (mem_read b start (element_size - 1)
                        = mem_read b (start + 1) (element_size - 1))
        then Some i
        else zero_scan fuel' b element_size (to_gsize (i + 1))
      else None
  end.

Section Ops.

Variable g_mem_gc_friendly : bool.

(** [g_array_new_take (data, len, clear, element_size)]; [data_] is NULL
    ([None]) or the block handed over by the caller. *)
Definition g_array_new_take (data_ : option block) (len_ : Z) (clear : Z)
    (element_size : Z) : M (option GRealArray) :=
  new_if_fail (bool_decide (data_ <> None) || (len_ =? 0))
              "data != NULL || len == 0" (
  new_if_fail (len_ <=? G_MAXUINT) "len <= G_MAXUINT" (
  new_if_fail ((element_size >? 0) && (element_size <=? G_MAXUINT))
              "element_size > 0 && element_size <= G_MAXUINT" (
    do r <- g_array_sized_new g_mem_gc_friendly 0 clear
              (to_guint element_size) 0;
    match r with
    | None => g_error "NULL pointer dereference"
    | Some array =>
        let array := set_data array data_ in
        let array := set_len array (to_guint len_) in
        let array := set_elt_capacity array (to_guint len_) in
        ret (Some array)
    end))).

Definition g_array_new_take_zero_terminated (data_ : option block)
    (clear : Z) (element_size : Z) : M (option GRealArray) :=
  new_if_fail ((element_size >? 0) && (element_size <=? G_MAXUINT))
              "element_size > 0 && element_size <= G_MAXUINT" (
    match (match data_ with
           | Some b => zero_scan (S (length b)) b element_size 0
           | None => Some 0
           end) with
    | None => g_error "read past the end of data"
    | Some len_ =>
        new_if_fail (len_ <? G_MAXUINT) "len < G_MAXUINT" (
          do r <- g_array_new_take data_ len_ clear element_size;
          match r with
          | None => g_error "NULL pointer dereference"
          | Some array =>
              let array := set_zero_terminated array true in
              let array :=
                match data array with
                | Some _ => set_elt_capacity array (to_guint (len_ + 1))
                | None => array
                end in
              ret (Some array)
          end)
    end).

(** [g_array_copy]: a new array of the same geometry with the bytes of the
    elements copied; the clear function is not copied. *)
Definition g_array_copy (array : GRealArray) : M (option GRealArray) :=
  do r <- g_array_sized_new g_mem_gc_friendly
            (Z.b2z (zero_terminated array)) (Z.b2z (clear_ array))
            (elt_size array) (len array);
  match r with
  | None => g_error "NULL pointer dereference"
  | Some new_rarray =>
      let new_rarray := set_len new_rarray (len array) in
      let new_rarray :=
        if len array >? 0 then
          on_data new_rarray (fun b =>
            memcpy b 0 (default [] (data array))
                   (g_array_elt_len array (len array)))
        else new_rarray in
      ret (Some (g_array_zero_terminate new_rarray))
  end.

End Ops.

End GArrayMore.

(* ===================================================================== *)
(** * Part II: gfileutils.c, g_file_set_contents_full                      *)
(* ===================================================================== *)

Module FileUtils.

(** ** errno and GFileError *)

Inductive errno : Type :=
| EEXIST | EISDIR | EACCES | ENAMETOOLONG | ENOENT | ENOTDIR | ENXIO | ENODEV
| EROFS | ETXTBSY | EFAULT | ELOOP | ENOSPC | ENOMEM | EMFILE | ENFILE
| EBADF | EINVAL | EPIPE | EAGAIN | EINTR | EIO | EPERM | ENOSYS
| EOTHER (n : Z).

Global Instance errno_eq_dec : EqDecision errno.
Proof. solve_decision. Defined.

Inductive GFileError : Type :=
| G_FILE_ERROR_EXIST | G_FILE_ERROR_ISDIR | G_FILE_ERROR_ACCES
| G_FILE_ERROR_NAMETOOLONG | G_FILE_ERROR_NOENT | G_FILE_ERROR_NOTDIR
| G_FILE_ERROR_NXIO | G_FILE_ERROR_NODEV | G_FILE_ERROR_ROFS
| G_FILE_ERROR_TXTBSY | G_FILE_ERROR_FAULT | G_FILE_ERROR_LOOP
| G_FILE_ERROR_NOSPC | G_FILE_ERROR_NOMEM | G_FILE_ERROR_MFILE
| G_FILE_ERROR_NFILE | G_FILE_ERROR_BADF | G_FILE_ERROR_INVAL
| G_FILE_ERROR_PIPE | G_FILE_ERROR_AGAIN | G_FILE_ERROR_INTR
| G_FILE_ERROR_IO | G_FILE_ERROR_PERM | G_FILE_ERROR_NOSYS
| G_FILE_ERROR_FAILED.

Definition g_file_error_from_errno (err_no : errno) : GFileError :=
  match err_no with
  | EEXIST => G_FILE_ERROR_EXIST
  | EISDIR => G_FILE_ERROR_ISDIR
  | EACCES => G_FILE_ERROR_ACCES
  | ENAMETOOLONG => G_FILE_ERROR_NAMETOOLONG
  | ENOENT => G_FILE_ERROR_NOENT
  | ENOTDIR => G_FILE_ERROR_NOTDIR
  | ENXIO => G_FILE_ERROR_NXIO
  | ENODEV => G_FILE_ERROR_NODEV
  | EROFS => G_FILE_ERROR_ROFS
  | ETXTBSY => G_FILE_ERROR_TXTBSY
  | EFAULT => G_FILE_ERROR_FAULT
  | ELOOP => G_FILE_ERROR_LOOP
  | ENOSPC => G_FILE_ERROR_NOSPC
  | ENOMEM => G_FILE_ERROR_NOMEM
  | EMFILE => G_FILE_ERROR_MFILE
  | ENFILE => G_FILE_ERROR_NFILE
  | EBADF => G_FILE_ERROR_BADF
  | EINVAL => G_FILE_ERROR_INVAL
  | EPIPE => G_FILE_ERROR_PIPE
  | EAGAIN => G_FILE_ERROR_AGAIN
  | EINTR => G_FILE_ERROR_INTR
  | EIO => G_FILE_ERROR_IO
  | EPERM => G_FILE_ERROR_PERM
  | ENOSYS => G_FILE_ERROR_NOSYS
  | EOTHER _ => G_FILE_ERROR_FAILED
  end.

(** The format strings of the errors raised by g_file_set_contents_full. *)
Inductive message : Type :=
| MsgCreate     (* "Failed to create file ...: %s" *)
| MsgChmod      (* "Failed to set permissions of ...: %s" *)
| MsgWrite      (* "Failed to write file ...: write() failed: %s" *)
| MsgFsync      (* "Failed to write file ...: fsync() failed: %s" *)
| MsgTruncate   (* "Failed to write file ...: ftruncate() failed: %s" *)
| MsgRename     (* "Failed to rename file ... to ...: g_rename() failed: %s" *)
| MsgOpen       (* "Failed to open file ...: %s" *)
| MsgClose.     (* the error set by g_close *)

Record GError : Type := mkGError {
  err_code : GFileError;
  err_message : message;
  err_file : string;
  err_errno : errno
}.

Definition set_file_error (filename : string) (format_string : message)
    (saved_errno : errno) : GError :=
  mkGError (g_file_error_from_errno saved_errno) format_string filename
           saved_errno.

(** ** The file system and the system calls

    A file is its bytes and its permission bits; the file system maps paths
    to files. The behaviour of the operating system is an input: [script]
    lists what the next system calls will do (past its end every call
    succeeds), and [calls] records the calls made with their results. *)

Record file : Type := mkFile { f_bytes : list Z; f_mode : Z }.

Inductive decision : Type :=
| Succeed                (* the call succeeds *)
| Short (n : Z)          (* write() transfers at most [n] bytes *)
| Fail (e : errno).      (* the call fails with this errno *)

Inductive call : Type :=
| COpen (path : string) (creat excl : bool) (r : option errno)
| CStat (path : string) (r : option errno)
| CLstat (path : string) (r : errno + Z)    (* the size, or the error *)
| CFchmod (path : string) (mode : Z) (r : option errno)
| CFallocate (path : string) (n : Z) (r : option errno)
| CFtruncate (path : string) (n : Z) (r : option errno)
| CWrite (path : string) (r : errno + Z)    (* bytes written, or the error *)
| CFsync (path : string) (r : option errno)
| CClose (path : string) (r : option errno)
| CRename (old_name new_name : string) (r : option errno)
| CUnlink (path : string) (r : option errno)
| COpenDirOf (path : string) (r : option errno)
    (* g_open (g_path_get_dirname (path), O_RDONLY) *)
| CFsyncDirOf (path : string) (r : option errno)
| CCloseDirOf (path : string) (r : option errno).

Record world : Type := mkWorld {
  fs : gmap string file;
  script : list decision;
  calls : list call;
  now_us : Z;         (* what g_get_real_time returns *)
  counter : Z         (* the static guint counter of get_tmp_file *)
}.

Definition set_fs (w : world) (m : gmap string file) : world :=
  mkWorld m (script w) (calls w) (now_us w) (counter w).
Definition set_script (w : world) (s : list decision) : world :=
  mkWorld (fs w) s (calls w) (now_us w) (counter w).
Definition set_counter (w : world) (c : Z) : world :=
  mkWorld (fs w) (script w) (calls w) (now_us w) c.
Definition add_call (w : world) (c : call) : world :=
  mkWorld (fs w) (script w) (calls w ++ [c]) (now_us w) (counter w).

(** Computations over the world; [None] is a loop that ran out of fuel. *)
Definition W (A : Type) : Type := world -> option (A * world).

Definition wret {A} (a : A) : W A := fun w => Some (a, w).
Definition wbind {A B} (m : W A) (k : A -> W B) : W B :=
  fun w => match m w with
           | Some (a, w') => k a w'
           | None => None
           end.

Notation "'let*' x := m 'in' k" := (wbind m (fun x => k))
  (at level 10, x name, m at level 100, k at level 200).
Notation "'run' m 'in' k" := (wbind m (fun _ => k))
  (at level 10, m at level 100, k at level 200).

Definition trace (c : call) : W unit := fun w => Some (tt, add_call w c).
Definition get_fs : W (gmap string file) := fun w => Some (fs w, w).
Definition put_fs (m : gmap string file) : W unit :=
  fun w => Some (tt, set_fs w m).

(** The fate of the next system call. *)
Definition next_decision : W decision :=
  fun w => match script w with
           | [] => Some (Succeed, w)
           | d :: rest => Some (d, set_script w rest)
           end.

Definition failure (d : decision) : option errno :=
  match d with
  | Fail e => Some e
  | _ => None
  end.

(** An open file descriptor: the file it names and the file offset. *)
Record descriptor : Type := mkFd { fd_path : string; fd_pos : nat }.

(** [open (path, O_RDWR | flags, mode)] on a regular file. *)
Definition sys_open (path : string) (creat excl : bool) (mode : Z)
  : W (errno + descriptor) :=
  let* d := next_decision in
  let* m := get_fs in
  let r : errno + descriptor :=
    match failure d with
    | Some e => inl e
    | None =>
        match m !! path with
        | Some _ => if excl then inl EEXIST else inr (mkFd path 0)
        | None => if creat then inr (mkFd path 0) else inl ENOENT
        end
    end in
  run trace (COpen path creat excl
               (match r with inl e => Some e | inr _ => None end)) in
  match r, m !! path with
  | inr _, None => run put_fs (<[path := mkFile [] mode]> m) in wret r
  | _, _ => wret r
  end.

(** [stat] and [lstat]: the mode and the size, or an error. *)
Definition sys_stat (path : string) : W (errno + Z * Z) :=
  let* d := next_decision in
  let* m := get_fs in
  let r : errno + Z * Z :=
    match failure d with
    | Some e => inl e
    | None =>
        match m !! path with
        | Some f => inr (f_mode f, Z.of_nat (length (f_bytes f)))
        | None => inl ENOENT
        end
    end in
  run trace (CStat path (match r with inl e => Some e | inr _ => None end)) in
  wret r.

Definition sys_lstat (path : string) : W (errno + Z * Z) :=
  let* d := next_decision in
  let* m := get_fs in
  let r : errno + Z * Z :=
    match failure d with
    | Some e => inl e
    | None =>
        match m !! path with
        | Some f => inr (f_mode f, Z.of_nat (length (f_bytes f)))
        | None => inl ENOENT
        end
    end in
  run trace (CLstat path (match r with
                          | inl e => inl e
                          | inr (_, size) => inr size
                          end)) in
  wret r.

(** Update the file behind a descriptor; an unlinked file has no path and
    the update is not visible in the file system. *)
Definition update_file (path : string) (f : file -> file) : W unit :=
  let* m := get_fs in
  match m !! path with
  | Some old => put_fs (<[path := f old]> m)
  | None => wret tt
  end.

Definition sys_fchmod (fd : descriptor) (mode : Z) : W (option errno) :=
  let* d := next_decision in
  run trace (CFchmod (fd_path fd) mode (failure d)) in
  match failure d with
  | Some e => wret (Some e)
  | None =>
      run update_file (fd_path fd) (fun f => mkFile (f_bytes f) mode) in
      wret None
  end.

(** [bytes] resized to [n] bytes, zero-filled. *)
Definition resize (bytes : list Z) (n : nat) : list Z :=
  take n (bytes ++ repeat 0 n).

(** [fallocate (fd, 0, 0, n)]: the file is at least [n] bytes afterwards. *)
Definition sys_fallocate (fd : descriptor) (n : Z) : W (option errno) :=
  let* d := next_decision in
  run trace (CFallocate (fd_path fd) n (failure d)) in
  match failure d with
  | Some e => wret (Some e)
  | None =>
      run update_file (fd_path fd) (fun f =>
            mkFile (resize (f_bytes f) (length (f_bytes f) `max` Z.to_nat n))
                   (f_mode f)) in
      wret None
  end.

Definition sys_ftruncate (fd : descriptor) (n : Z) : W (option errno) :=
  let* d := next_decision in
  run trace (CFtruncate (fd_path fd) n (failure d)) in
  match failure d with
  | Some e => wret (Some e)
  | None =>
      run update_file (fd_path fd) (fun f =>
            mkFile (resize (f_bytes f) (Z.to_nat n)) (f_mode f)) in
      wret None
  end.

(** The bytes of a file after storing [src] at offset [pos]. *)
Definition store_at (bytes : list Z) (pos : nat) (src : list Z) : list Z :=
  resize bytes pos ++ src ++ drop (pos + length src) bytes.

(** [count] bytes read from the caller's buffer; reading past the end of
    the buffer is undefined in C, the model reads zeros. *)
Definition buffer_read (buf : list Z) (count : nat) : list Z :=
  take count (buf ++ repeat 0 count).

(** [write (fd, buf, count)]: the number of bytes written and the
    descriptor with its offset advanced, or an error. *)
Definition sys_write (fd : descriptor) (buf : list Z) (count : Z)
  : W (errno + Z * descriptor) :=
  let* d := next_decision in
  match d with
  | Fail e =>
      run trace (CWrite (fd_path fd) (inl e)) in wret (inl e)
  | _ =>
      let s := match d with
               | Short n => Z.min (Z.max n 0) count
               | _ => count
               end in
      let src := buffer_read buf (Z.to_nat s) in
      run trace (CWrite (fd_path fd) (inr s)) in
      run update_file (fd_path fd) (fun f =>
            mkFile (store_at (f_bytes f) (fd_pos fd) src) (f_mode f)) in
      wret (inr (s, mkFd (fd_path fd) (fd_pos fd + Z.to_nat s)))
  end.

Definition sys_fsync (fd : descriptor) : W (option errno) :=
  let* d := next_decision in
  run trace (CFsync (fd_path fd) (failure d)) in
  wret (failure d).

Definition sys_close (fd : descriptor) : W (option errno) :=
  let* d := next_decision in
  run trace (CClose (fd_path fd) (failure d)) in
  wret (failure d).

Definition sys_rename (old_name new_name : string) : W (option errno) :=
  let* d := next_decision in
  let* m := get_fs in
  let r : option errno :=
    match failure d with
    | Some e => Some e
    | None => match m !! old_name with
              | Some _ => None
              | None => Some ENOENT
              end
    end in
  run trace (CRename old_name new_name r) in
  match r, m !! old_name with
  | None, Some f =>
      run put_fs (<[new_name := f]> (delete old_name m)) in wret r
  | _, _ => wret r
  end.

Definition sys_unlink (path : string) : W (option errno) :=
  let* d := next_decision in
  let* m := get_fs in
  let r : option errno :=
    match failure d with
    | Some e => Some e
    | None => match m !! path with
              | Some _ => None
              | None => Some ENOENT
              end
    end in
  run trace (CUnlink path r) in
  match r with
  | None => run put_fs (delete path m) in wret r
  | Some _ => wret r
  end.

Definition sys_open_dir_of (path : string) : W (option errno) :=
  let* d := next_decision in
  run trace (COpenDirOf path (failure d)) in
  wret (failure d).

Definition sys_fsync_dir_of (path : string) : W (option errno) :=
  let* d := next_decision in
  run trace (CFsyncDirOf path (failure d)) in
  wret (failure d).

Definition sys_close_dir_of (path : string) : W (option errno) :=
  let* d := next_decision in
  run trace (CCloseDirOf path (failure d)) in
  wret (failure d).

(** ** Helpers of other GLib files

    [g_open], [g_stat], [g_lstat], [g_rename], [g_unlink] and [g_fsync]
    (gstdio.c, not among the sources) are taken as the system calls they
    wrap. *)

(** Modelled from the spec: [g_close] (gstdio.c is not among the sources):
    closes the descriptor; a failure other than EINTR is reported as a
    GError. *)
Definition g_close (fd : descriptor) : W (option GError) :=
  let* r := sys_close fd in
  match r with
  | None => wret None
  | Some e =>
      if decide (e = EINTR) then wret None
      else wret (Some (set_file_error (fd_path fd) MsgClose e))
  end.

(** Modelled from the spec: the [GFileSetContentsFlags] enumeration
    (gfileutils.h is not among the sources): "combinable flags" none,
    consistent, durable and only-existing, one bit each. *)
Definition G_FILE_SET_CONTENTS_NONE : Z := 0.
Definition G_FILE_SET_CONTENTS_CONSISTENT : Z := Z.shiftl 1 0.
Definition G_FILE_SET_CONTENTS_DURABLE : Z := Z.shiftl 1 1.
Definition G_FILE_SET_CONTENTS_ONLY_EXISTING : Z := Z.shiftl 1 2.

(** A flag test [flags & mask] used as a condition. *)
Definition has_flag (flags mask : Z) : bool := negb (Z.land flags mask =? 0).

Definition G_MAXSSIZE : Z := 2 ^ 63 - 1.
Definition to_guint64 (z : Z) : Z := z mod 2 ^ 64.
Definition to_guint32 (z : Z) : Z := z mod 2 ^ 32.
Definition G_USEC_PER_SEC : Z := 1000000.

(** [strlen] of a buffer: the bytes before the first NUL. *)
Fixpoint strlen (buf : list Z) : Z :=
  match buf with
  | [] => 0
  | c :: rest => if c =? 0 then 0 else 1 + strlen rest
  end.

(** ** Temporary files *)

Definition letters : string := "ABCDEFGHIJKLMNOPQRSTUVWXYZ0123456789".
Definition NLETTERS : Z := 36.

Definition letter (v : Z) : Ascii.ascii :=
  default (Ascii.ascii_of_nat 65) (String.get (Z.to_nat (v mod NLETTERS)) letters).

(** The six characters that replace "XXXXXX" for the value [v]. *)
Definition fill_in (v : Z) : string :=
  let c0 := letter v in let v := v / NLETTERS in
  let c1 := letter v in let v := v / NLETTERS in
  let c2 := letter v in let v := v / NLETTERS in
  let c3 := letter v in let v := v / NLETTERS in
  let c4 := letter v in let v := v / NLETTERS in
  let c5 := letter v in
  String c0 (String c1 (String c2 (String c3 (String c4 (String c5 ""))))).

Definition wrap_g_open (filename : string) (creat excl : bool) (mode : Z)
  : W (errno + descriptor) :=
  sys_open filename creat excl mode.

(** The loop of [get_tmp_file] with [n] attempts left. The template is given
    by the text before and after its last "XXXXXX"; [tmpl] is what the
    caller's buffer holds. Each attempt writes its six characters over the
    "XXXXXX" of that buffer, so the result comes with the buffer as the call
    leaves it: the name created, or the last name tried. *)
Fixpoint get_tmp_file_loop (n : nat) (before after : string) (value : Z)
    (f : string -> bool -> bool -> Z -> W (errno + descriptor))
    (creat excl : bool) (mode : Z) (tmpl : string)
  : W (errno * string + descriptor * string) :=
  match n with
  | O =>
      (* We got out of the loop because we ran out of combinations to try. *)
      wret (inl (EEXIST, tmpl))
  | S n' =>
      let tmpl := before +:+ fill_in value +:+ after in
      let* r := f tmpl creat excl mode in
      match r with
      | inr fd => wret (inr (fd, tmpl))
      | inl e =>
          if decide (e = EEXIST) then
            get_tmp_file_loop n' before after (to_guint64 (value + 7777))
                              f creat excl mode tmpl
          else wret (inl (e, tmpl))
      end
  end.

Definition get_tmp_file (before after : string)
    (f : string -> bool -> bool -> Z -> W (errno + descriptor))
    (creat excl : bool) (mode : Z)
  : W (errno * string + descriptor * string) :=
  let* now := (fun w => Some (to_guint64 (now_us w), w)) in
  let* c := (fun w => Some (counter w,
                            set_counter w (to_guint32 (counter w + 1)))) in
  let value :=
    to_guint64 (Z.lxor (now mod G_USEC_PER_SEC) (now / G_USEC_PER_SEC) + c) in
  get_tmp_file_loop 100 before after value f creat excl mode
                    (before +:+ "XXXXXX" +:+ after).

(** [g_mkstemp_full (tmpl, flags, mode)]: O_EXCL and O_CREAT are added. On
    failure the result carries the errno and the template as the call
    leaves it. *)
Definition g_mkstemp_full (before after : string) (mode : Z)
  : W (errno * string + descriptor * string) :=
  get_tmp_file before after wrap_g_open true true mode.

(** ** The steps of g_file_set_contents_full *)

Definition rename_file (old_name new_name : string) (do_fsync : bool)
  : W (option GError) :=
  let* r := sys_rename old_name new_name in
  match r with
  | Some save_errno =>
      wret (Some (mkGError (g_file_error_from_errno save_errno) MsgRename
                           old_name save_errno))
  | None =>
      (* In order to guarantee that the *new* contents of the file are seen
         in future, fsync() the directory containing the file. *)
      run (if do_fsync then
             let* dir_fd := sys_open_dir_of new_name in
             match dir_fd with
             | None =>
                 run sys_fsync_dir_of new_name in
                 run sys_close_dir_of new_name in
                 wret tt
             | Some _ => wret tt
             end
           else wret tt) in
      wret None
  end.

Definition fd_should_be_fsynced (fd : descriptor) (test_file : string)
    (flags : Z) : W bool :=
  if has_flag flags (Z.lor G_FILE_SET_CONTENTS_CONSISTENT
                           G_FILE_SET_CONTENTS_DURABLE)
     && has_flag flags G_FILE_SET_CONTENTS_ONLY_EXISTING then
    let* r := sys_lstat test_file in
    match r with
    | inr (_, st_size) => wret (st_size >? 0)
    | inl e =>
        if decide (e = ENOENT) then wret false
        else wret true (* lstat() failed; be cautious *)
    end
  else
    wret (has_flag flags (Z.lor G_FILE_SET_CONTENTS_CONSISTENT
                                G_FILE_SET_CONTENTS_DURABLE)).

(** The loop of [truncate_file]; [None] when the fuel runs out. *)
Fixpoint truncate_file_loop (fuel : nat) (fd : descriptor) (length_ : Z)
    (dest_file : string) : W (option GError) :=
  match fuel with
  | O => fun _ => None
  | S fuel' =>
      let* r := sys_ftruncate fd length_ in
      match r with
      | None => wret None
      | Some saved_errno =>
          if decide (saved_errno = EINTR) then
            truncate_file_loop fuel' fd length_ dest_file
          else wret (Some (set_file_error dest_file MsgTruncate saved_errno))
      end
  end.

(** [truncate_file]: [None] is TRUE, [Some] the error set with FALSE. *)
Definition truncate_file (fd : descriptor) (length_ : Z) (dest_file : string)
  : W (option GError) :=
  fun w => truncate_file_loop (S (length (script w))) fd length_ dest_file w.

(** The [while (length > 0)] loop of [write_to_file]: the error set, or the
    descriptor once everything is written. [write] never reports more than
    [count] bytes, so the [g_assert] of the loop body holds. *)
Fixpoint write_loop (fuel : nat) (contents : list Z) (length_ : Z)
    (fd : descriptor) (dest_file : string) : W (GError + descriptor) :=
  if length_ >? 0 then
    match fuel with
    | O => fun _ => None
    | S fuel' =>
        (* Limit count to G_MAXSSIZE to fit into the return value. *)
        let* r := sys_write fd contents (Z.min length_ G_MAXSSIZE) in
        match r with
        | inl saved_errno =>
            if decide (saved_errno = EINTR) then
              write_loop fuel' contents length_ fd dest_file
            else
              run sys_close fd in
              wret (inl (set_file_error dest_file MsgWrite saved_errno))
        | inr (s, fd') =>
            write_loop fuel' (drop (Z.to_nat s) contents) (length_ - s) fd'
                       dest_file
        end
    end
  else wret (inr fd).

(** [write_to_file]; closes [fd] once it is finished (on success or
    error). [None] is TRUE, [Some] the error set with FALSE. *)
Definition write_to_file (contents : list Z) (length_ : Z) (fd : descriptor)
    (dest_file : string) (do_fsync : bool) : W (option GError) :=
  run (if length_ >? 0 then
         (* We do this on a 'best effort' basis... It may not be supported
            on the underlying filesystem. *)
         run sys_fallocate fd length_ in wret tt
       else wret tt) in
  let* fuel := (fun w => Some (S (length (script w) + Z.to_nat length_), w)) in
  let* r := write_loop fuel contents length_ fd dest_file in
  match r with
  | inl err => wret (Some err)
  | inr fd =>
      let* synced := (if do_fsync then sys_fsync fd else wret None) in
      match synced with
      | Some saved_errno =>
          run sys_close fd in
          wret (Some (set_file_error dest_file MsgFsync saved_errno))
      | None => g_close fd
      end
  end.

(** The branch taken when G_FILE_SET_CONTENTS_CONSISTENT is set. *)
Definition set_contents_consistent (filename : string) (contents : list Z)
    (length_ : Z) (flags mode : Z) : W (bool * option GError) :=
  let* tmp := g_mkstemp_full (filename +:+ ".") "" mode in
  match tmp with
  | inl (saved_errno, tmp_filename) =>
      wret (false,
            Some (set_file_error tmp_filename MsgCreate saved_errno))
  | inr (fd, tmp_filename) =>
      (* Maintain the permissions of the file if it exists *)
      let* old_stat := sys_stat filename in
      let* chmod_failed :=
        match old_stat with
        | inr (st_mode, _) => sys_fchmod fd st_mode
        | inl _ => wret None
        end in
      match chmod_failed with
      | Some saved_errno =>
          run sys_unlink tmp_filename in
          wret (false,
                Some (set_file_error tmp_filename MsgChmod saved_errno))
      | None =>
          let* do_fsync := fd_should_be_fsynced fd filename flags in
          let* written :=
            write_to_file contents length_ fd tmp_filename do_fsync in
          match written with
          | Some err =>
              run sys_unlink tmp_filename in
              wret (false, Some err)
          | None =>
              let* renamed := rename_file tmp_filename filename do_fsync in
              match renamed with
              | Some rename_error =>
                  run sys_unlink tmp_filename in
                  wret (false, Some rename_error)
              | None => wret (true, None)
              end
          end
      end
  end.

(** [g_file_set_contents_full] with a bound on the depth of its recursion
    ([None] past the bound). [contents] is NULL or the caller's buffer. *)
Fixpoint g_file_set_contents_full_rec (depth : nat) (filename : string)
    (contents : option (list Z)) (length_ : Z) (flags mode : Z)
  : W (bool * option GError) :=
  match depth with
  | O => fun _ => None
  | S depth' =>
      (* g_return_val_if_fail (contents != NULL || length == 0, FALSE) *)
      if negb (bool_decide (contents <> None) || (length_ =? 0)) then
        wret (false, None)
      (* g_return_val_if_fail (length >= -1, FALSE) *)
      else if negb (length_ >=? -1) then wret (false, None)
      else
        let buf := default [] contents in
        let length_ := if length_ <? 0 then strlen buf else length_ in
        if has_flag flags G_FILE_SET_CONTENTS_CONSISTENT then
          set_contents_consistent filename buf length_ flags mode
        else
          let* direct_fd := sys_open filename true false mode in
          match direct_fd with
          | inl saved_errno =>
              (* ELOOP indicates that @filename is a symlink, since we used
                 O_NOFOLLOW. Try again on the CONSISTENT code path. *)
              if decide (saved_errno = ELOOP) then
                g_file_set_contents_full_rec depth' filename contents length_
                  (Z.lor flags G_FILE_SET_CONTENTS_CONSISTENT) mode
              else
                wret (false,
                      Some (set_file_error filename MsgOpen saved_errno))
          | inr direct_fd =>
              let* do_fsync := fd_should_be_fsynced direct_fd filename flags in
              let* truncated := truncate_file direct_fd 0 filename in
              match truncated with
              | Some err => wret (false, Some err)
              | None =>
                  let* written :=
                    write_to_file buf length_ direct_fd filename do_fsync in
                  match written with
                  | Some err => wret (false, Some err)
                  | None => wret (true, None)
                  end
              end
          end
  end.

Definition g_file_set_contents_full (filename : string)
    (contents : option (list Z)) (length_ : Z) (flags mode : Z)
  : W (bool * option GError) :=
  g_file_set_contents_full_rec 2 filename contents length_ flags mode.

Definition g_file_set_contents (filename : string)
    (contents : option (list Z)) (length_ : Z) : W (bool * option GError) :=
  g_file_set_contents_full filename contents length_
    (Z.lor G_FILE_SET_CONTENTS_CONSISTENT G_FILE_SET_CONTENTS_ONLY_EXISTING)
    438 (* 0666 *).


End FileUtils.


(* ===================================================================== *)
(** * Part III: properties of garray.c                                     *)
(* ===================================================================== *)

Module GArrayFacts.
Import GArray.

Lemma to_guint_small z : 0 <= z < 2 ^ 32 -> to_guint z = z.
Proof. intros H. unfold to_guint. by apply Z.mod_small. Qed.

Lemma to_gsize_small z : 0 <= z < 2 ^ 64 -> to_gsize z = z.
Proof. intros H. unfold to_gsize. by apply Z.mod_small. Qed.

Lemma to_guint_range z : 0 <= to_guint z < 2 ^ 32.
Proof. unfold to_guint. apply Z.mod_pos_bound. lia. Qed.

Lemma to_gsize_range z : 0 <= to_gsize z < 2 ^ 64.
Proof. unfold to_gsize. apply Z.mod_pos_bound. lia. Qed.

Lemma G_MAXUINT_val : G_MAXUINT = 4294967295.
Proof. reflexivity. Qed.

Lemma G_MAXSIZE_half : G_MAXSIZE / 2 = 9223372036854775807.
Proof. reflexivity. Qed.

(** ** Binary search *)

Section BinarySearch.
Variable a : GRealArray.
Variable target : elt.
Variable compare_func : GCompareFunc.

(** The comparison of the element at index [i] with the target. *)
Definition probe (i : Z) : Z := compare_func (elt_at a i) target.

(** What a sorted array gives the bisection: along the indices, the sign of
    the comparison with the target never decreases. *)
Definition sorted_for_target : Prop :=
  forall i j, 0 <= i -> i <= j -> j < len a ->
    Z.sgn (probe i) <= Z.sgn (probe j).

Hypothesis Hlen : 0 <= len a < 2 ^ 32.
Hypothesis Hsorted : sorted_for_target.

Lemma bsearch_loop_spec fuel left right middle :
  0 <= left -> right < len a -> left <= right + 1 ->
  (Z.to_nat (right - left + 1) <= fuel)%nat ->
  (forall i, 0 <= i < left -> probe i < 0) ->
  (forall i, right < i < len a -> probe i > 0) ->
  exists res m,
    bsearch_loop fuel a target compare_func left right middle = Some (res, m) /\
    if res then 0 <= m < len a /\ probe m = 0
    else forall i, 0 <= i < len a -> probe i <> 0.
Proof.
  revert left right middle.
  induction fuel as [|fuel IH]; intros left right middle Hl Hr Hlr Hfuel Hlo Hhi.
  - assert (right < left) by lia.
    simpl. destruct (Z.leb_spec left right); [lia|].
    exists false, middle. split; [done|].
    intros i Hi. destruct (Z.lt_ge_cases i left).
    + specialize (Hlo i). lia.
    + specialize (Hhi i). lia.
  - simpl. destruct (Z.leb_spec left right) as [Hle|Hgt].
    + rewrite (to_guint_small (right - left)) by lia.
      assert (Hdiv : 0 <= (right - left) / 2 <= right - left).
      { split; [apply Z.div_pos; lia|]. apply Z.div_le_upper_bound; lia. }
      rewrite (to_guint_small (left + (right - left) / 2)) by lia.
      set (mid := left + (right - left) / 2) in *.
      fold (probe mid).
      destruct (Z.eqb_spec (probe mid) 0) as [Heq|Hne].
      { exists true, mid. split; [done|]. split; [lia|done]. }
      destruct (Z.ltb_spec (probe mid) 0) as [Hneg|Hpos].
      * rewrite (to_guint_small (mid + 1)) by lia.
        apply IH; try lia; [|done].
        intros i Hi.
        assert (Z.sgn (probe i) <= Z.sgn (probe mid)) by (apply Hsorted; lia).
        rewrite (Z.sgn_neg (probe mid)) in * by lia.
        destruct (Z.sgn_spec (probe i)) as [[? ?]|[[? ?]|[? ?]]]; lia.
      * assert (Hmono : forall i, mid <= i < len a -> probe i > 0).
        { intros i Hi.
          assert (Z.sgn (probe mid) <= Z.sgn (probe i)) by (apply Hsorted; lia).
          rewrite (Z.sgn_pos (probe mid)) in * by lia.
          destruct (Z.sgn_spec (probe i)) as [[? ?]|[[? ?]|[? ?]]]; lia. }
        destruct (Z.gtb_spec mid 0) as [Hm|Hm].
        -- rewrite (to_guint_small (mid - 1)) by lia.
           apply IH; try lia; [done|].
           intros i Hi. apply Hmono. lia.
        -- exists false, mid. split; [done|].
           intros i Hi. specialize (Hmono i). lia.
    + exists false, middle. split; [done|].
      intros i Hi. destruct (Z.lt_ge_cases i left).
      * specialize (Hlo i). lia.
      * specialize (Hhi i). lia.
Qed.

End BinarySearch.

(** ** The representation invariant *)

(** The largest element count the address space allows for arrays of
    elements of [es] bytes. *)
Definition max_elements (es : Z) : Z := MIN (G_MAXSIZE / 2 / es) G_MAXUINT.

Definition zt_slot (a : GRealArray) : Z := Z.b2z (zero_terminated a).

(** The invariant claimed by the specification. *)
Definition capacity_inv (a : GRealArray) : Prop :=
  (data a <> None -> elt_capacity a >= len a + zt_slot a) /\
  (data a = None -> elt_capacity a = 0).

(** The invariant the code maintains: field ranges, the overflow bound on the
    length, and a block that really holds [elt_capacity] elements. *)
Record wf (a : GRealArray) : Prop := mkWf {
  wf_elt_size : 0 < elt_size a <= G_MAXUINT;
  wf_len : 0 <= len a;
  wf_max : len a + zt_slot a <= max_elements (elt_size a);
  wf_data :
    match data a with
    | None => len a = 0 /\ elt_capacity a = 0
    | Some b =>
        len a + zt_slot a <= elt_capacity a <= G_MAXUINT /\
        elt_capacity a * elt_size a <= Z.of_nat (length b)
    end
}.

Lemma wf_capacity_inv a : wf a -> capacity_inv a.
Proof.
  intros [_ _ _ Hd]. split; intros H.
  - destruct (data a); [lia|done].
  - rewrite H in Hd. lia.
Qed.

Lemma zt_slot_range a : 0 <= zt_slot a <= 1.
Proof. unfold zt_slot. destruct (zero_terminated a); simpl; lia. Qed.

Lemma max_elements_range es :
  0 < es <= G_MAXUINT -> 1 <= max_elements es <= G_MAXUINT.
Proof.
  intros Hes. unfold max_elements, MIN.
  assert (1 <= G_MAXSIZE / 2 / es).
  { apply Z.div_le_lower_bound; [lia|]. unfold G_MAXSIZE, G_MAXUINT in *.
    change (2 ^ 64 - 1) with 18446744073709551615.
    change (18446744073709551615 / 2) with 9223372036854775807.
    change (2 ^ 32 - 1) with 4294967295 in Hes. lia. }
  destruct (Z.ltb_spec (G_MAXSIZE / 2 / es) G_MAXUINT); unfold G_MAXUINT in *; lia.
Qed.

Lemma max_elements_bytes es n :
  0 < es -> 0 <= n <= max_elements es -> es * n <= G_MAXSIZE / 2.
Proof.
  intros Hes Hn. unfold max_elements, MIN in Hn.
  assert (n <= G_MAXSIZE / 2 / es).
  { destruct (Z.ltb_spec (G_MAXSIZE / 2 / es) G_MAXUINT); lia. }
  transitivity (es * (G_MAXSIZE / 2 / es)).
  - apply Z.mul_le_mono_nonneg_l; lia.
  - apply Z.mul_div_le. lia.
Qed.

Lemma g_nearest_pow_ge n : 1 <= n -> n <= g_nearest_pow n.
Proof.
  intros Hn. unfold g_nearest_pow.
  destruct (Z.eq_dec n 1) as [->|Hne]; [done|].
  apply Z.log2_up_spec. lia.
Qed.

Lemma length_mem_write b pos src : length (mem_write b pos src) = length b.
Proof.
  unfold mem_write. rewrite length_take, !length_app, length_take, length_drop.
  lia.
Qed.

Lemma length_mem_read b pos n : length (mem_read b pos n) = Z.to_nat n.
Proof.
  unfold mem_read. rewrite length_take, length_app, repeat_length. lia.
Qed.

Lemma length_memset b pos c n : length (memset b pos c n) = length b.
Proof. apply length_mem_write. Qed.

Lemma length_memmove b dst src n : length (memmove b dst src n) = length b.
Proof. apply length_mem_write. Qed.

Lemma length_memcpy b dst src n : length (memcpy b dst src n) = length b.
Proof. apply length_mem_write. Qed.

(** Two arrays have the same shape when they differ at most in the contents
    of the block. *)
Definition same_shape (a a' : GRealArray) : Prop :=
  length <$> data a' = length <$> data a /\
  len a' = len a /\ elt_capacity a' = elt_capacity a /\
  elt_size a' = elt_size a /\ zero_terminated a' = zero_terminated a /\
  clear_ a' = clear_ a /\ ref_count a' = ref_count a /\
  clear_func a' = clear_func a.

Lemma same_shape_refl a : same_shape a a.
Proof. by repeat split. Qed.

Lemma same_shape_trans a b c : same_shape a b -> same_shape b c -> same_shape a c.
Proof.
  unfold same_shape. intros (?&?&?&?&?&?&?&?) (?&?&?&?&?&?&?&?).
  repeat split; congruence.
Qed.

Lemma same_shape_on_data a f :
  (forall b, length (f b) = length b) -> same_shape a (on_data a f).
Proof.
  intros Hf. unfold same_shape, on_data; simpl. repeat split.
  destruct (data a); simpl; [by rewrite Hf|done].
Qed.

Lemma wf_same_shape a a' : same_shape a a' -> wf a -> wf a'.
Proof.
  intros (Hd&Hl&Hc&He&Hz&_) [H1 H2 H3 H4].
  assert (Hzt : zt_slot a' = zt_slot a) by (unfold zt_slot; by rewrite Hz).
  split; rewrite ?Hl, ?Hc, ?He, ?Hzt; try done.
  destruct (data a) as [b|], (data a') as [b'|]; simpl in Hd; try done.
  injection Hd as Hd. by rewrite Hd.
Qed.

Lemma same_shape_elt_zero a pos n : same_shape a (g_array_elt_zero a pos n).
Proof. apply same_shape_on_data. intros. apply length_memset. Qed.

Lemma same_shape_zero_terminate a : same_shape a (g_array_zero_terminate a).
Proof.
  unfold g_array_zero_terminate. destruct (zero_terminated a).
  - apply same_shape_elt_zero.
  - apply same_shape_refl.
Qed.

(** ** Growing the block *)

Section Grow.
Variable gc : bool.

(** The length the block must hold after adding [n] elements. *)
Definition want_length (a : GRealArray) (n : Z) : Z := len a + n + zt_slot a.

(** The size in bytes of the block after a reallocation for [n] more
    elements. *)
Definition want_bytes (a : GRealArray) (n : Z) : Z :=
  MAX (g_nearest_pow (elt_size a * want_length a n)) MIN_ARRAY_SIZE.

(** The overflow test of [g_array_maybe_expand], over the integers. *)
Definition overflows (a : GRealArray) (n : Z) : Prop :=
  max_elements (elt_size a) - zt_slot a - len a < n.

Lemma maybe_expand_overflow a n log :
  wf a -> 0 <= n <= G_MAXUINT -> overflows a n ->
  g_array_maybe_expand gc a n log = Aborts "adding %u to array would overflow".
Proof.
  intros [He Hl Hm Hd] Hn Hov. unfold overflows in Hov.
  pose proof (max_elements_range _ He) as Hme.
  pose proof (zt_slot_range a) as Hzt.
  unfold g_array_maybe_expand. fold (zt_slot a). fold (max_elements (elt_size a)).
  unfold G_MAXUINT in *.
  rewrite (to_guint_small (max_elements (elt_size a) - zt_slot a)) by lia.
  rewrite (to_guint_small (_ - len a)) by lia.
  destruct (Z.ltb_spec (max_elements (elt_size a) - zt_slot a - len a) n); [done|lia].
Qed.

Lemma maybe_expand_fits a n log :
  wf a -> 0 <= n <= G_MAXUINT -> ~ overflows a n ->
  want_length a n <= elt_capacity a ->
  g_array_maybe_expand gc a n log = Returns a log.
Proof.
  intros [He Hl Hm Hd] Hn Hov Hfit. unfold overflows in Hov.
  unfold want_length in Hfit.
  pose proof (max_elements_range _ He) as Hme.
  pose proof (zt_slot_range a) as Hzt.
  unfold g_array_maybe_expand. fold (zt_slot a). fold (max_elements (elt_size a)).
  unfold G_MAXUINT in *.
  rewrite (to_guint_small (max_elements (elt_size a) - zt_slot a)) by lia.
  rewrite (to_guint_small (_ - len a)) by lia.
  destruct (Z.ltb_spec (max_elements (elt_size a) - zt_slot a - len a) n); [lia|].
  rewrite (to_guint_small (len a + n + zt_slot a)) by lia.
  destruct (Z.gtb_spec (len a + n + zt_slot a) (elt_capacity a)); [lia|done].
Qed.

Lemma maybe_expand_grows a n log :
  wf a -> 0 <= n <= G_MAXUINT -> ~ overflows a n ->
  elt_capacity a < want_length a n ->
  exists b',
    g_array_maybe_expand gc a n log =
      Returns (mkArray (Some b') (len a)
                 (MIN (want_bytes a n / elt_size a) G_MAXUINT)
                 (elt_size a) (zero_terminated a) (clear_ a) (ref_count a)
                 (clear_func a)) log /\
    Z.of_nat (length b') = want_bytes a n /\
    want_length a n <= MIN (want_bytes a n / elt_size a) G_MAXUINT <= G_MAXUINT /\
    MIN (want_bytes a n / elt_size a) G_MAXUINT * elt_size a <= want_bytes a n.
Proof.
  intros [He Hl Hm Hd] Hn Hov Hgrow. unfold overflows in Hov.
  unfold want_bytes, want_length in *.
  pose proof (max_elements_range _ He) as Hme.
  pose proof (zt_slot_range a) as Hzt.
  assert (Hcap : 0 <= elt_capacity a).
  { destruct (data a); lia. }
  set (wl := len a + n + zt_slot a) in *.
  assert (Hwl : 1 <= wl <= max_elements (elt_size a)) by lia.
  pose proof (max_elements_bytes (elt_size a) wl ltac:(lia) ltac:(lia)) as Hbytes.
  assert (Hpos : 1 <= elt_size a * wl) by nia.
  pose proof (g_nearest_pow_ge _ Hpos) as Hpow.
  assert (Hsz : elt_size a * wl < 2 ^ 64).
  { unfold G_MAXSIZE in Hbytes.
    change ((2 ^ 64 - 1) / 2) with 9223372036854775807 in Hbytes.
    change (2 ^ 64) with 18446744073709551616. lia. }
  set (wa := MAX (g_nearest_pow (elt_size a * wl)) MIN_ARRAY_SIZE).
  assert (Hwa : elt_size a * wl <= wa /\ 16 <= wa).
  { unfold wa, MAX, MIN_ARRAY_SIZE.
    destruct (Z.gtb_spec (g_nearest_pow (elt_size a * wl)) 16); lia. }
  set (cap := MIN (wa / elt_size a) G_MAXUINT).
  assert (Hdiv : wl <= wa / elt_size a).
  { apply Z.div_le_lower_bound; lia. }
  assert (Hcapr : wl <= cap <= G_MAXUINT /\ cap * elt_size a <= wa).
  { unfold cap, MIN.
    destruct (Z.ltb_spec (wa / elt_size a) G_MAXUINT).
    - split; [lia|]. rewrite Z.mul_comm. apply Z.mul_div_le. lia.
    - split; [lia|].
      transitivity (wa / elt_size a * elt_size a); [nia|].
      rewrite Z.mul_comm. apply Z.mul_div_le. lia. }
  pose proof G_MAXUINT_val as HG.
  unfold g_array_maybe_expand. fold (zt_slot a). fold (max_elements (elt_size a)).
  rewrite (to_guint_small (max_elements (elt_size a) - zt_slot a)) by lia.
  rewrite (to_guint_small (_ - len a)) by lia.
  destruct (Z.ltb_spec (max_elements (elt_size a) - zt_slot a - len a) n); [lia|].
  fold wl. rewrite (to_guint_small wl) by lia.
  destruct (Z.gtb_spec wl (elt_capacity a)); [|lia].
  unfold g_array_elt_pos, g_array_elt_len.
  rewrite (to_gsize_small (elt_size a * wl)) by lia.
  destruct (Z.geb_spec (g_nearest_pow (elt_size a * wl)) (elt_size a * wl)); [|lia].
  simpl negb. cbv iota. fold wa.
  unfold g_realloc. destruct (Z.eqb_spec wa 0); [lia|].
  set (b0 := take (Z.to_nat wa) (default [] (data a) ++ repeat None (Z.to_nat wa))).
  assert (Hb0 : length b0 = Z.to_nat wa).
  { unfold b0. rewrite length_take, length_app, repeat_length. lia. }
  destruct gc;
    cbn [negb on_data set_data set_elt_capacity elt_size data fmap option_fmap
         option_map len elt_capacity zero_terminated clear_ ref_count
         clear_func];
    fold cap; rewrite (to_guint_small cap) by lia; unfold ret;
    eexists; (split; [reflexivity|]);
    rewrite ?length_memset, Hb0; (split; [lia|]); split; lia.
Qed.

End Grow.


(** ** Preservation of the invariant *)

Section Preservation.
Variable gc : bool.

(** What a returning [g_array_maybe_expand] guarantees. *)
Record expanded (a : GRealArray) (n : Z) (a' : GRealArray) : Prop := mkExpanded {
  ex_no_overflow : ~ overflows a n;
  ex_wf : wf a';
  ex_len : len a' = len a;
  ex_elt_size : elt_size a' = elt_size a;
  ex_zt : zero_terminated a' = zero_terminated a;
  ex_clear : clear_ a' = clear_ a;
  ex_ref_count : ref_count a' = ref_count a;
  ex_clear_func : clear_func a' = clear_func a;
  ex_capacity : want_length a n <= elt_capacity a'
}.

Lemma maybe_expand_returns a n log a' log' :
  wf a -> 0 <= n <= G_MAXUINT ->
  g_array_maybe_expand gc a n log = Returns a' log' ->
  log' = log /\ expanded a n a'.
Proof.
  intros Hwf Hn Hrun.
  destruct (Z.lt_ge_cases (max_elements (elt_size a) - zt_slot a - len a) n)
    as [Hov|Hnov].
  { rewrite maybe_expand_overflow in Hrun by done. discriminate. }
  assert (Hno : ~ overflows a n) by (unfold overflows; lia).
  destruct (Z.le_gt_cases (want_length a n) (elt_capacity a)) as [Hfit|Hgrow].
  - rewrite maybe_expand_fits in Hrun by done.
    injection Hrun as <- <-. split; [done|]. by split.
  - destruct (maybe_expand_grows gc a n log Hwf Hn Hno Hgrow)
      as (b' & Heq & Hlen & Hcap & Hblock).
    rewrite Heq in Hrun. injection Hrun as <- <-. split; [done|].
    destruct Hwf as [He Hl Hm Hd].
    pose proof (zt_slot_range a).
    split; simpl; try done; [|lia].
    split; simpl; change (zt_slot _) with (zt_slot a); try done.
    unfold want_length in Hcap. lia.
Qed.

Lemma wf_set_len a k :
  wf a -> 0 <= k ->
  (k <= len a \/
   (k + zt_slot a <= max_elements (elt_size a) /\
    k + zt_slot a <= elt_capacity a)) ->
  wf (set_len a k).
Proof.
  intros [He Hl Hm Hd] Hk Hcase.
  pose proof (zt_slot_range a).
  split; simpl; change (zt_slot (set_len a k)) with (zt_slot a); try done.
  - lia.
  - destruct (data a); lia.
Qed.

(** A callback loop only rewrites the contents of the block. *)
Lemma call_clear_func_shape f i a log :
  exists a', call_clear_func f i a log
             = Returns a' (log ++ [EvClear (g_array_elt_pos a i)]) /\
             same_shape a a'.
Proof.
  unfold call_clear_func, bind, emit, ret. eexists. split; [reflexivity|].
  apply same_shape_on_data. intros. apply length_mem_write.
Qed.

Lemma same_shape_elt_pos a a' i :
  same_shape a a' -> g_array_elt_pos a' i = g_array_elt_pos a i.
Proof.
  intros (_&_&_&He&_). unfold g_array_elt_pos, g_array_elt_len. by rewrite He.
Qed.

Lemma clear_loop_spec f (g : Z -> Z) n i a log :
  exists a',
    for_loop n i (fun j => call_clear_func f (g j)) a log
    = Returns a'
        (log ++ ((fun k : nat => EvClear (g_array_elt_pos a
                                   (g (Nat.iter k (fun j => to_guint (j + 1)) i))))
                 <$> seq 0 n)) /\
    same_shape a a'.
Proof.
  revert i a log. induction n as [|n IH]; intros i a log.
  - exists a. simpl. unfold ret. rewrite app_nil_r. split; [done|].
    apply same_shape_refl.
  - simpl. unfold bind.
    destruct (call_clear_func_shape f (g i) a log) as (a1 & -> & Hs1).
    destruct (IH (to_guint (i + 1)) a1 (log ++ [EvClear (g_array_elt_pos a (g i))]))
      as (a2 & -> & Hs2).
    exists a2. split; [|by eapply same_shape_trans].
    f_equal. rewrite <- app_assoc. f_equal. simpl. f_equal.
    rewrite <- seq_shift, <- list_fmap_compose.
    apply list_fmap_ext. intros _ k _. simpl.
    rewrite (same_shape_elt_pos a a1) by done.
    do 3 f_equal. clear. induction k as [|k IHk]; simpl; [done|].
    by rewrite IHk.
Qed.

Lemma clear_loop_all f n i a log :
  exists a',
    for_loop n i (call_clear_func f) a log
    = Returns a'
        (log ++ ((fun k : nat => EvClear (g_array_elt_pos a
                                   (Nat.iter k (fun j => to_guint (j + 1)) i)))
                 <$> seq 0 n)) /\
    same_shape a a'.
Proof. exact (clear_loop_spec f (fun j => j) n i a log). Qed.

End Preservation.


Lemma wf_fields a a' :
  length <$> data a' = length <$> data a ->
  len a' = len a -> elt_capacity a' = elt_capacity a ->
  elt_size a' = elt_size a -> zero_terminated a' = zero_terminated a ->
  wf a -> wf a'.
Proof.
  intros Hd Hl Hc He Hz [H1 H2 H3 H4].
  assert (Hzt : zt_slot a' = zt_slot a) by (unfold zt_slot; by rewrite Hz).
  split; rewrite ?Hl, ?Hc, ?He, ?Hzt; try done.
  destruct (data a) as [b|], (data a') as [b'|]; simpl in Hd; try done.
  injection Hd as Hd. by rewrite Hd.
Qed.

Lemma wf_reset a :
  wf a -> wf (set_elt_capacity (set_len (set_data a None) 0) 0).
Proof.
  intros [He Hl Hm Hd]. pose proof (max_elements_range _ He).
  pose proof (zt_slot_range a).
  split; simpl; try done.
  change (zt_slot _) with (zt_slot a). lia.
Qed.

Ltac destruct_inner_if :=
  match goal with
  | |- context [if ?c then _ else _] =>
      lazymatch c with
      | context [if _ then _ else _] => fail
      | _ => destruct c eqn:?
      end
  end.

(** Decide [same_shape] between an array and the result of stores into it. *)
Ltac shape :=
  unfold same_shape, g_array_zero_terminate, g_array_elt_zero;
  repeat (cbn [data len elt_capacity elt_size zero_terminated clear_
               ref_count clear_func set_data set_len set_elt_capacity
               set_ref_count set_clear_func on_data negb];
          destruct_inner_if);
  cbn [data len elt_capacity elt_size zero_terminated clear_
       ref_count clear_func set_data set_len set_elt_capacity
       set_ref_count set_clear_func on_data negb];
  repeat split; try done;
  lazymatch goal with
  | |- length <$> _ = length <$> data ?a =>
      destruct (data a); simpl; unfold memset, memmove, memcpy;
      rewrite ?length_mem_write; reflexivity
  | |- to_guint _ = _ => apply to_guint_small; lia
  end.

Section OpsPreserve.
Variable gc : bool.

(** The last steps shared by the mutators: set the new length on an array of
    the same shape, then rewrite cells only. *)
Lemma wf_finish a a1 a2 k :
  wf a -> same_shape a a1 -> 0 <= k ->
  (k <= len a \/
   (k + zt_slot a <= max_elements (elt_size a) /\
    k + zt_slot a <= elt_capacity a)) ->
  same_shape (set_len a1 k) a2 -> wf a2.
Proof.
  intros Hwf Hs Hk Hcase Hs2.
  apply (wf_same_shape (set_len a1 k)); [done|].
  pose proof Hs as (_&Hl&Hc&He&Hz&_).
  apply wf_set_len; [by apply (wf_same_shape a)|done|].
  assert (Hzt : zt_slot a1 = zt_slot a) by (unfold zt_slot; by rewrite Hz).
  rewrite Hl, Hc, He, Hzt. done.
Qed.

Lemma expanded_add a n a1 :
  wf a -> 0 <= n -> expanded a n a1 ->
  0 <= len a1 + n < 2 ^ 32 /\
  (len a1 + n <= len a1 \/
   (len a1 + n + zt_slot a1 <= max_elements (elt_size a1) /\
    len a1 + n + zt_slot a1 <= elt_capacity a1)).
Proof.
  intros [He Hl Hm Hd] Hn [Hov Hwf1 El Ee Ez _ _ _ Ecap].
  pose proof (max_elements_range _ He). pose proof (zt_slot_range a).
  assert (Hzt : zt_slot a1 = zt_slot a) by (unfold zt_slot; by rewrite Ez).
  unfold overflows in Hov. unfold want_length in Ecap.
  pose proof G_MAXUINT_val. rewrite El, Ee, Hzt. lia.
Qed.

Lemma append_vals_wf a d n log a' log' :
  wf a -> 0 <= n <= G_MAXUINT ->
  g_array_append_vals gc a d n log = Returns a' log' -> wf a'.
Proof.
  intros Hwf Hn. unfold g_array_append_vals.
  destruct (Z.eqb_spec n 0); [by intros [= <- <-]|].
  unfold bind. destruct (g_array_maybe_expand gc a n log) as [a1 log1|] eqn:E;
    [|done].
  apply maybe_expand_returns in E as [-> Hex]; [|done..].
  intros [= <- <-].
  destruct (expanded_add a n a1) as [Hr Hc]; [done|lia|done|].
  apply (wf_finish a1 a1 _ (len a1 + n));
    [by destruct Hex|apply same_shape_refl|lia|done|shape].
Qed.

Lemma prepend_vals_wf a d n log a' log' :
  wf a -> 0 <= n <= G_MAXUINT ->
  g_array_prepend_vals gc a d n log = Returns a' log' -> wf a'.
Proof.
  intros Hwf Hn. unfold g_array_prepend_vals.
  destruct (Z.eqb_spec n 0); [by intros [= <- <-]|].
  unfold bind. destruct (g_array_maybe_expand gc a n log) as [a1 log1|] eqn:E;
    [|done].
  apply maybe_expand_returns in E as [-> Hex]; [|done..].
  intros [= <- <-].
  destruct (expanded_add a n a1) as [Hr Hc]; [done|lia|done|].
  apply (wf_finish a1 a1 _ (len a1 + n));
    [by destruct Hex|apply same_shape_refl|lia|done|shape].
Qed.

Lemma clear_one_shape a i log :
  exists a1 log1,
    match clear_func a with
    | Some f => call_clear_func f i a
    | None => ret a
    end log = Returns a1 log1 /\ same_shape a a1.
Proof.
  destruct (clear_func a) as [f|].
  - destruct (call_clear_func_shape f i a log) as (a1 & E & Hs). eauto.
  - exists a, log. split; [done|apply same_shape_refl].
Qed.

Ltac run_returns H :=
  repeat match type of H with
         | (if ?c then _ else _) = Returns _ _ => destruct c
         | (if ?c then _ else _) _ = Returns _ _ => destruct c
         | Returns _ _ = Returns _ _ => injection H as <- <-
         | ret _ _ = Returns _ _ => unfold ret in H
         end.

Lemma remove_index_wf a i log a' log' :
  wf a -> 0 <= i -> g_array_remove_index gc a i log = Returns a' log' ->
  wf a' /\ (len a' = len a \/ len a' = len a - 1).
Proof.
  intros Hwf Hi0. unfold g_array_remove_index, return_if_fail.
  destruct (Z.ltb_spec i (len a)) as [Hi|Hi];
    [|intros [= <- <-]; split; [done|by left]].
  unfold bind at 1.
  destruct (clear_one_shape a i log) as (a1 & log1 & -> & Hs).
  pose proof Hs as (_&Hl&_).
  pose proof (wf_len a Hwf).
  pose proof (wf_data a Hwf) as Hd.
  assert (Hlen : 0 <= len a1 - 1 < 2 ^ 32).
  { pose proof G_MAXUINT_val. pose proof (zt_slot_range a).
    destruct (data a); lia. }
  intros Hrun.
  assert (same_shape (set_len a1 (len a1 - 1)) a') as Hs'.
  { run_returns Hrun; cbn [len set_len on_data set_data negb];
      rewrite ?to_guint_small by lia; shape. }
  split.
  - eapply (wf_finish a a1 a' (len a1 - 1)); [done|done|lia|lia|done].
  - destruct Hs' as (_&->&_). simpl. lia.
Qed.

Lemma remove_index_fast_wf a i log a' log' :
  wf a -> 0 <= i -> g_array_remove_index_fast gc a i log = Returns a' log' ->
  wf a' /\ (len a' = len a \/ len a' = len a - 1).
Proof.
  intros Hwf Hi0. unfold g_array_remove_index_fast, return_if_fail.
  destruct (Z.ltb_spec i (len a)) as [Hi|Hi];
    [|intros [= <- <-]; split; [done|by left]].
  unfold bind at 1.
  destruct (clear_one_shape a i log) as (a1 & log1 & -> & Hs).
  pose proof Hs as (_&Hl&_).
  pose proof (wf_len a Hwf).
  pose proof (wf_data a Hwf) as Hd.
  assert (Hlen : 0 <= len a1 - 1 < 2 ^ 32).
  { pose proof G_MAXUINT_val. pose proof (zt_slot_range a).
    destruct (data a); lia. }
  intros Hrun.
  assert (same_shape (set_len a1 (len a1 - 1)) a') as Hs'.
  { run_returns Hrun; shape. }
  split.
  - eapply (wf_finish a a1 a' (len a1 - 1)); [done|done|lia|lia|done].
  - destruct Hs' as (_&->&_). simpl. lia.
Qed.

Lemma remove_range_wf a i n log a' log' :
  wf a -> 0 <= i -> 0 <= n <= G_MAXUINT ->
  g_array_remove_range gc a i n log = Returns a' log' ->
  wf a' /\ (len a' = len a \/ len a' = len a - n).
Proof.
  intros Hwf Hi0 Hn. unfold g_array_remove_range, return_if_fail.
  pose proof G_MAXUINT_val as HG.
  assert (Hlmax : len a <= G_MAXUINT).
  { pose proof (wf_max a Hwf). pose proof (zt_slot_range a).
    pose proof (max_elements_range _ (wf_elt_size a Hwf)). lia. }
  destruct (Z.leb_spec i (len a)) as [Hi|Hi];
    [|intros [= <- <-]; split; [done|by left]].
  rewrite (to_guint_small (G_MAXUINT - n)) by lia.
  destruct (Z.leb_spec i (G_MAXUINT - n)) as [Hi2|Hi2];
    [|intros [= <- <-]; split; [done|by left]].
  rewrite !(to_guint_small (i + n)) by lia.
  destruct (Z.leb_spec (i + n) (len a)) as [Hi3|Hi3];
    [|intros [= <- <-]; split; [done|by left]].
  destruct (Z.eqb_spec n 0) as [Hn0|Hn0];
    [intros [= <- <-]; split; [done|by left]|].
  unfold bind at 1.
  assert (exists a1 log1,
    match clear_func a with
    | Some f => for_loop (Z.to_nat n) 0
                  (fun j => call_clear_func f (to_guint (i + j))) a
    | None => ret a
    end log = Returns a1 log1 /\ same_shape a a1) as (a1 & log1 & -> & Hs).
  { destruct (clear_func a) as [f|].
    - destruct (clear_loop_spec f (fun j => to_guint (i + j)) (Z.to_nat n) 0 a log)
        as (a1 & E & Hs). eauto.
    - exists a, log. split; [done|apply same_shape_refl]. }
  pose proof Hs as (_&Hl&_).
  intros Hrun.
  assert (same_shape (set_len a1 (len a1 - n)) a') as Hs'.
  { run_returns Hrun; shape. }
  split.
  - eapply (wf_finish a a1 a' (len a1 - n)); [done|done|lia|lia|done].
  - destruct Hs' as (_&->&_). simpl. lia.
Qed.

Lemma set_size_wf a k log a' log' :
  wf a -> 0 <= k <= G_MAXUINT ->
  g_array_set_size gc a k log = Returns a' log' -> wf a'.
Proof.
  intros Hwf Hk. unfold g_array_set_size.
  pose proof G_MAXUINT_val as HG.
  pose proof (wf_len a Hwf) as Hl0.
  assert (Hlmax : len a <= G_MAXUINT).
  { pose proof (wf_max a Hwf). pose proof (zt_slot_range a).
    pose proof (max_elements_range _ (wf_elt_size a Hwf)). lia. }
  unfold bind at 1.
  destruct (Z.gtb_spec k (len a)) as [Hgt|Hle].
  - rewrite !(to_guint_small (k - len a)) by lia.
    unfold bind at 1.
    destruct (g_array_maybe_expand gc a (k - len a) log) as [a1 log1|] eqn:E;
      [|done].
    apply maybe_expand_returns in E as [-> Hex]; [|done|lia].
    destruct (expanded_add a (k - len a) a1) as [Hr Hc]; [done|lia|done|].
    pose proof (ex_len _ _ _ Hex) as El.
    intros Hrun.
    assert (same_shape (set_len a1 k) a') as Hs'.
    { destruct (clear_ a1); unfold ret in Hrun;
        match type of Hrun with
        | match data ?x with _ => _ end _ = _ => destruct (data x) eqn:Ed
        end; injection Hrun as <- <-; shape. }
    apply (wf_finish a1 a1 a' k);
      [by destruct Hex|apply same_shape_refl|lia| |done].
    replace k with (len a1 + (k - len a)) by lia. done.
  - destruct (Z.ltb_spec k (len a)) as [Hlt|Hge].
    + destruct (g_array_remove_range gc a k (to_guint (len a - k)) log)
        as [a1 log1|] eqn:E; [|done].
      rewrite to_guint_small in E by lia.
      apply remove_range_wf in E as [Hwf1 Hlen1]; [|done|lia|lia].
      intros Hrun.
      assert (same_shape (set_len a1 k) a') as Hs'.
      { match type of Hrun with
        | match data ?x with _ => _ end _ = _ => destruct (data x) eqn:Ed
        end; injection Hrun as <- <-; shape. }
      apply (wf_finish a1 a1 a' k);
        [done|apply same_shape_refl|lia|left; lia|done].
    + assert (k = len a) as -> by lia. unfold ret at 1.
      intros Hrun.
      assert (same_shape (set_len a (len a)) a') as Hs'.
      { match type of Hrun with
        | match data ?x with _ => _ end _ = _ => destruct (data x) eqn:Ed
        end; injection Hrun as <- <-; shape. }
      apply (wf_finish a a a' (len a));
        [done|apply same_shape_refl|lia|left; lia|done].
Qed.

Lemma insert_vals_wf a i d n log a' log' :
  wf a -> 0 <= i <= G_MAXUINT -> 0 <= n <= G_MAXUINT ->
  g_array_insert_vals gc a i d n log = Returns a' log' -> wf a'.
Proof.
  intros Hwf Hi Hn. unfold g_array_insert_vals.
  pose proof G_MAXUINT_val as HG.
  destruct (Z.eqb_spec n 0); [by intros [= <- <-]|].
  destruct (Z.geb_spec i (len a)) as [Hge|Hlt].
  - unfold bind at 1.
    set (m := to_guint (to_guint (i - len a) + n)).
    assert (Hm : 0 <= m <= G_MAXUINT).
    { pose proof (to_guint_range (to_guint (i - len a) + n)). unfold m. lia. }
    destruct (g_array_maybe_expand gc a m log) as [a1 log1|] eqn:E; [|done].
    apply maybe_expand_returns in E as [-> Hex]; [|done..].
    unfold bind at 1.
    destruct (g_array_set_size gc a1 i log) as [a2 log2|] eqn:E2; [|done].
    apply set_size_wf in E2; [|by destruct Hex|done].
    by apply append_vals_wf.
  - unfold bind at 1.
    destruct (g_array_maybe_expand gc a n log) as [a1 log1|] eqn:E; [|done].
    apply maybe_expand_returns in E as [-> Hex]; [|done..].
    intros [= <- <-].
    destruct (expanded_add a n a1) as [Hr Hc]; [done|lia|done|].
    apply (wf_finish a1 a1 _ (len a1 + n));
      [by destruct Hex|apply same_shape_refl|lia|done|shape].
Qed.


Lemma sized_new_wf zt clr es rs log a log' :
  0 <= es <= G_MAXUINT -> 0 <= rs <= G_MAXUINT ->
  g_array_sized_new gc zt clr es rs log = Returns (Some a) log' -> wf a.
Proof.
  intros Hes Hrs. unfold g_array_sized_new.
  destruct (Z.gtb_spec es 0) as [Hpos|]; [|done]. cbn [negb].
  set (a0 := mkArray None 0 0 es (negb (zt =? 0)) (negb (clr =? 0)) 1 None).
  assert (Hwf0 : wf a0).
  { pose proof (max_elements_range es ltac:(lia)).
    pose proof (zt_slot_range a0).
    split; simpl; [lia|lia|lia|done]. }
  destruct (zero_terminated a0 || negb (rs =? 0)); [|by intros [= <- <-]].
  unfold bind at 1.
  destruct (g_array_maybe_expand gc a0 rs log) as [a1 log1|] eqn:E; [|done].
  apply maybe_expand_returns in E as [-> Hex]; [|done..].
  destruct (data a1) eqn:Ed; [|done].
  intros [= <- <-].
  apply (wf_same_shape a1); [shape|by destruct Hex].
Qed.

Lemma new_wf zt clr es log a log' :
  0 <= es <= G_MAXUINT ->
  g_array_new gc zt clr es log = Returns (Some a) log' -> wf a.
Proof.
  intros Hes. unfold g_array_new.
  destruct (negb (es >? 0)); [done|].
  apply sized_new_wf; [done|]. pose proof G_MAXUINT_val. lia.
Qed.

Lemma steal_wf a log seg n a' log' :
  wf a -> g_array_steal a log = Returns (seg, n, a') log' -> wf a'.
Proof. intros Hwf [= <- <- <- <-]. by apply wf_reset. Qed.

Lemma array_free_wf a flags log seg a' log' :
  wf a -> array_free a flags log = Returns (seg, Some a') log' -> wf a'.
Proof.
  intros Hwf. unfold array_free. unfold bind at 1.
  assert (exists r log1,
    (if negb (Z.land flags FREE_SEGMENT =? 0)
     then
       do array <- match clear_func a with
                   | Some f => for_loop (Z.to_nat (len a)) 0 (call_clear_func f) a
                   | None => ret a
                   end;
       do_ emit (EvFree (data array)); ret (None, array)
     else ret (data a, a)) log = Returns r log1 /\ same_shape a (snd r))
    as (r & log1 & -> & Hs).
  { destruct (negb (Z.land flags FREE_SEGMENT =? 0)).
    - destruct (clear_func a) as [f|].
      + destruct (clear_loop_all f (Z.to_nat (len a)) 0 a log)
          as (a1 & E & Hs).
        unfold bind at 1. rewrite E. eexists _, _. split; [reflexivity|done].
      + eexists _, _. split; [reflexivity|apply same_shape_refl].
    - eexists _, _. split; [reflexivity|apply same_shape_refl]. }
  destruct (negb (Z.land flags PRESERVE_WRAPPER =? 0)); [|done].
  intros [= <- <- <-]. apply wf_reset. by apply (wf_same_shape a).
Qed.

Lemma wf_set_ref_count a n : wf a -> wf (set_ref_count a n).
Proof. by apply wf_fields. Qed.

Lemma free_wf a fs log seg a' log' :
  wf a -> g_array_free a fs log = Returns (seg, Some a') log' -> wf a'.
Proof.
  intros Hwf. unfold g_array_free, g_atomic_ref_count_dec.
  apply array_free_wf. by apply wf_set_ref_count.
Qed.

Lemma unref_wf a log a' log' :
  wf a -> g_array_unref a log = Returns (Some a') log' -> wf a'.
Proof.
  intros Hwf. unfold g_array_unref, g_atomic_ref_count_dec.
  destruct (ref_count a - 1 =? 0).
  - unfold bind.
    destruct (array_free _ _ log) as [[seg [a1|]] log1|] eqn:E; try done.
    intros [= <- <-]. eapply array_free_wf; [|done]. by apply wf_set_ref_count.
  - intros [= <- <-]. by apply wf_set_ref_count.
Qed.

Lemma sort_with_data_wf {U} (cmp : GCompareDataFunc U) ud a log a' log' :
  wf a -> g_array_sort_with_data cmp ud a log = Returns a' log' -> wf a'.
Proof.
  intros Hwf. unfold g_array_sort_with_data.
  destruct (len a >? 0); intros [= <- <-]; [|done].
  apply (wf_same_shape a); [|done].
  apply same_shape_on_data. intros. apply length_mem_write.
Qed.

Lemma sort_wf cmp a log a' log' :
  wf a -> g_array_sort a cmp log = Returns a' log' -> wf a'.
Proof.
  intros Hwf. unfold g_array_sort.
  destruct (len a >? 0); intros [= <- <-]; [|done].
  apply (wf_same_shape a); [|done].
  apply same_shape_on_data. intros. apply length_mem_write.
Qed.

(** ** Reachable arrays *)

(** One call of the public API on a live array that returns with the array
    still alive. Arguments of type [guint] range over [0, G_MAXUINT]. *)
Inductive api_step (a : GRealArray) : GRealArray -> Prop :=
| step_append d n log a' log' :
    0 <= n <= G_MAXUINT ->
    g_array_append_vals gc a d n log = Returns a' log' -> api_step a a'
| step_prepend d n log a' log' :
    0 <= n <= G_MAXUINT ->
    g_array_prepend_vals gc a d n log = Returns a' log' -> api_step a a'
| step_insert i d n log a' log' :
    0 <= i <= G_MAXUINT -> 0 <= n <= G_MAXUINT ->
    g_array_insert_vals gc a i d n log = Returns a' log' -> api_step a a'
| step_remove_index i log a' log' :
    0 <= i <= G_MAXUINT ->
    g_array_remove_index gc a i log = Returns a' log' -> api_step a a'
| step_remove_index_fast i log a' log' :
    0 <= i <= G_MAXUINT ->
    g_array_remove_index_fast gc a i log = Returns a' log' -> api_step a a'
| step_remove_range i n log a' log' :
    0 <= i <= G_MAXUINT -> 0 <= n <= G_MAXUINT ->
    g_array_remove_range gc a i n log = Returns a' log' -> api_step a a'
| step_set_size k log a' log' :
    0 <= k <= G_MAXUINT ->
    g_array_set_size gc a k log = Returns a' log' -> api_step a a'
| step_steal log seg n a' log' :
    g_array_steal a log = Returns (seg, n, a') log' -> api_step a a'
| step_free fs log seg a' log' :
    g_array_free a fs log = Returns (seg, Some a') log' -> api_step a a'
| step_unref log a' log' :
    g_array_unref a log = Returns (Some a') log' -> api_step a a'
| step_ref log a' log' :
    g_array_ref a log = Returns a' log' -> api_step a a'
| step_set_clear_func f log a' log' :
    g_array_set_clear_func a f log = Returns a' log' -> api_step a a'
| step_sort cmp log a' log' :
    g_array_sort a cmp log = Returns a' log' -> api_step a a'
| step_sort_with_data (cmp : GCompareDataFunc unit) log a' log' :
    g_array_sort_with_data cmp tt a log = Returns a' log' -> api_step a a'.

Inductive reachable : GRealArray -> Prop :=
| reach_sized_new zt clr es rs log a log' :
    0 <= es <= G_MAXUINT -> 0 <= rs <= G_MAXUINT ->
    g_array_sized_new gc zt clr es rs log = Returns (Some a) log' ->
    reachable a
| reach_new zt clr es log a log' :
    0 <= es <= G_MAXUINT ->
    g_array_new gc zt clr es log = Returns (Some a) log' ->
    reachable a
| reach_step a a' : reachable a -> api_step a a' -> reachable a'.

Lemma api_step_wf a a' : wf a -> api_step a a' -> wf a'.
Proof.
  intros Hwf Hstep.
  destruct Hstep as [d n log a' log' Hn Hrun|d n log a' log' Hn Hrun
    |i d n log a' log' Hi Hn Hrun|i log a' log' Hi Hrun|i log a' log' Hi Hrun
    |i n log a' log' Hi Hn Hrun|k log a' log' Hk Hrun|log seg n a' log' Hrun
    |fs log seg a' log' Hrun|log a' log' Hrun|log a' log' Hrun
    |f log a' log' Hrun|cmp log a' log' Hrun|cmp log a' log' Hrun].
  - by apply append_vals_wf in Hrun.
  - by apply prepend_vals_wf in Hrun.
  - by apply insert_vals_wf in Hrun.
  - apply remove_index_wf in Hrun; [tauto|done|lia].
  - apply remove_index_fast_wf in Hrun; [tauto|done|lia].
  - apply remove_range_wf in Hrun; [tauto|done|lia|done].
  - by apply set_size_wf in Hrun.
  - exact (steal_wf _ _ _ _ _ _ Hwf Hrun).
  - exact (free_wf _ _ _ _ _ _ Hwf Hrun).
  - exact (unref_wf _ _ _ _ Hwf Hrun).
  - injection Hrun as <- <-. by apply (wf_fields a).
  - injection Hrun as <- <-. by apply (wf_fields a).
  - exact (sort_wf _ _ _ _ _ Hwf Hrun).
  - exact (sort_with_data_wf _ _ _ _ _ _ Hwf Hrun).
Qed.

Lemma reachable_wf a : reachable a -> wf a.
Proof.
  induction 1 as [zt clr es rs log a log' Hes Hrs Hrun
                 |zt clr es log a log' Hes Hrun|a a' _ IH Hstep].
  - by apply sized_new_wf in Hrun.
  - by apply new_wf in Hrun.
  - exact (api_step_wf a a' IH Hstep).
Qed.

(** C4: every array reachable through the API satisfies the capacity
    invariant: when [data] is not NULL the capacity is at least the length
    plus the terminator slot, and [data] is NULL only when the capacity is
    0. *)
Theorem reachable_capacity_inv (a : GRealArray) (H : reachable a) :
  (data a <> None ->
   elt_capacity a >= len a + (if zero_terminated a then 1 else 0)) /\
  (data a = None -> elt_capacity a = 0).
Proof.
  pose proof (wf_capacity_inv a (reachable_wf a H)) as [H1 H2].
  split; [|done]. intros Hd. specialize (H1 Hd).
  unfold zt_slot in H1. by destruct (zero_terminated a).
Qed.


(** ** Growth policy and overflow policy *)

Lemma g_nearest_pow_least n j :
  1 <= n -> 0 <= j -> n <= 2 ^ j -> g_nearest_pow n <= 2 ^ j.
Proof.
  intros Hn Hj Hle. unfold g_nearest_pow.
  apply Z.pow_le_mono_r; [lia|].
  apply Z.log2_up_le_pow2; lia.
Qed.

(** C5: when the wanted length [len + n + zt] exceeds the capacity, the
    block is reallocated to exactly max (P, 16) bytes, where P is the least
    power of two that is at least [want_len * elt_size]; when the wanted
    length fits, nothing is reallocated and the array is unchanged. *)
Theorem maybe_expand_growth_policy (a : GRealArray) (n : Z) (log : list event)
    (Hwf : wf a) (Hn : 0 <= n <= G_MAXUINT) (Hno : ~ overflows a n) :
  let want_len := len a + n + (if zero_terminated a then 1 else 0) in
  (want_len > elt_capacity a ->
   exists a' b' k,
     g_array_maybe_expand gc a n log = Returns a' log /\
     data a' = Some b' /\
     0 <= k /\ want_len * elt_size a <= 2 ^ k /\
     (forall j, 0 <= j -> want_len * elt_size a <= 2 ^ j -> 2 ^ k <= 2 ^ j) /\
     Z.of_nat (length b') = Z.max (2 ^ k) 16) /\
  (want_len <= elt_capacity a ->
   g_array_maybe_expand gc a n log = Returns a log).
Proof.
  intros want_len.
  assert (Hwl : want_len = want_length a n).
  { unfold want_len, want_length, zt_slot. by destruct (zero_terminated a). }
  rewrite Hwl. split.
  - intros Hgt.
    destruct (maybe_expand_grows gc a n log Hwf Hn Hno ltac:(lia))
      as (b' & E & Hlen & _ & _).
    assert (Hpos : 1 <= elt_size a * want_length a n).
    { pose proof (wf_elt_size a Hwf). pose proof (wf_data a Hwf) as Hd.
      pose proof (wf_len a Hwf). pose proof (zt_slot_range a).
      assert (0 <= elt_capacity a) by (destruct (data a); lia). nia. }
    eexists _, b', (Z.log2_up (elt_size a * want_length a n)).
    split; [exact E|]. split; [done|].
    split; [apply Z.log2_up_nonneg|].
    rewrite (Z.mul_comm (want_length a n)).
    split; [apply (g_nearest_pow_ge _ Hpos)|].
    split; [intros j Hj Hle; by apply (g_nearest_pow_least _ j Hpos)|].
    rewrite Hlen. unfold want_bytes, MAX, MIN_ARRAY_SIZE, g_nearest_pow.
    destruct (Z.gtb_spec (2 ^ Z.log2_up (elt_size a * want_length a n)) 16); lia.
  - intros Hle. by apply maybe_expand_fits.
Qed.

(** C6: a growth request of [n] elements with
    [(min (SIZE_MAX/2/es, UINT_MAX) - zt) - len < n] aborts the process with
    the overflow diagnostic; otherwise the call returns. *)
Theorem maybe_expand_overflow_policy (a : GRealArray) (n : Z)
    (log : list event) (Hwf : wf a) (Hn : 0 <= n <= G_MAXUINT) :
  let max_len :=
    Z.min (G_MAXSIZE / 2 / elt_size a) G_MAXUINT
    - (if zero_terminated a then 1 else 0) in
  (max_len - len a < n ->
   g_array_maybe_expand gc a n log
   = Aborts "adding %u to array would overflow") /\
  (~ max_len - len a < n ->
   exists a', g_array_maybe_expand gc a n log = Returns a' log).
Proof.
  intros max_len.
  assert (Hm : max_len = max_elements (elt_size a) - zt_slot a).
  { unfold max_len, max_elements, MIN, zt_slot.
    destruct (Z.ltb_spec (G_MAXSIZE / 2 / elt_size a) G_MAXUINT),
             (zero_terminated a); simpl; lia. }
  rewrite Hm. split.
  - intros Hov. by apply maybe_expand_overflow.
  - intros Hno.
    destruct (Z.le_gt_cases (want_length a n) (elt_capacity a)).
    + exists a. by apply maybe_expand_fits.
    + destruct (maybe_expand_grows gc a n log Hwf Hn Hno ltac:(lia))
        as (b' & E & _). eauto.
Qed.


(** ** Ownership transfer and destruction *)

Lemma iter_guint_succ (k : nat) :
  Z.of_nat k < 2 ^ 32 ->
  Nat.iter k (fun j => to_guint (j + 1)) 0 = Z.of_nat k.
Proof.
  induction k as [|k IH]; intros Hk; [done|].
  simpl Nat.iter. rewrite IH by lia. rewrite to_guint_small by lia. lia.
Qed.

(** The calls made on the elements [0 .. n-1], in index order. *)
Definition clear_calls (a : GRealArray) (n : Z) : list event :=
  (fun k : nat => EvClear (g_array_elt_pos a (Z.of_nat k)))
    <$> seq 0 (Z.to_nat n).

Lemma array_free_segment_log a f log :
  clear_func a = Some f -> 0 <= len a <= G_MAXUINT ->
  exists a1,
    array_free a FREE_SEGMENT log
    = Returns (None, None)
        (log ++ clear_calls a (len a) ++ [EvFree (data a1); EvSliceFree]) /\
    same_shape a a1.
Proof.
  intros Hf Hlen. unfold array_free. rewrite Hf.
  change (negb (Z.land FREE_SEGMENT FREE_SEGMENT =? 0)) with true.
  change (negb (Z.land FREE_SEGMENT PRESERVE_WRAPPER =? 0)) with false.
  cbv iota.
  destruct (clear_loop_all f (Z.to_nat (len a)) 0 a log) as (a1 & E & Hs).
  exists a1. split; [|done].
  unfold bind, emit, ret. rewrite E. simpl. f_equal.
  rewrite <- !app_assoc. f_equal. simpl. f_equal.
  unfold clear_calls. apply list_fmap_ext. intros i k Hk.
  apply lookup_seq in Hk as [-> Hk]. simpl.
  rewrite iter_guint_succ; [done|]. pose proof G_MAXUINT_val. lia.
Qed.



End OpsPreserve.

(** ** Elements as chunks of the block *)

Definition chunk (e : nat) (b : block) (i : nat) : elt :=
  take e (drop (e * i) b).

Lemma concat_chunks e m (b : block) :
  (e * m <= length b)%nat ->
  concat (chunk e b <$> seq 0 m) = take (e * m) b.
Proof.
  induction m as [|m IH]; intros Hm.
  - by rewrite Nat.mul_0_r, take_0.
  - rewrite seq_S, fmap_app, concat_app, IH by lia. simpl.
    rewrite app_nil_r. unfold chunk. rewrite take_take_drop.
    f_equal. lia.
Qed.

Lemma chunks_of_concat e (xs : list elt) (rest : block) :
  Forall (fun x => length x = e) xs ->
  chunk e (concat xs ++ rest) <$> seq 0 (length xs) = xs.
Proof.
  induction 1 as [|x xs Hx _ IH]; [done|].
  simpl. rewrite <- fmap_S_seq, <- list_fmap_compose. f_equal.
  - unfold chunk. rewrite Nat.mul_0_r, drop_0, <- app_assoc.
    by apply take_app_length'.
  - transitivity (chunk e (concat xs ++ rest) <$> seq 0 (length xs));
      [|exact IH].
    apply list_fmap_ext. intros _ i _. simpl.
    unfold chunk. f_equal. rewrite <- app_assoc.
    replace (e * S i)%nat with (length x + e * i)%nat by lia.
    by rewrite drop_app_add.
Qed.

Lemma mem_write_prefix (b : block) (src : list cell) :
  (length src <= length b)%nat ->
  mem_write b 0 src = src ++ drop (length src) b.
Proof.
  intros Hlen. unfold mem_write. change (Z.to_nat 0) with 0%nat.
  rewrite take_0. simpl.
  apply take_ge. rewrite length_app, length_drop. lia.
Qed.

(** The elements that [g_sort_array] and [elt_at] read from a block. *)
Definition elems_of (b : block) (n es : Z) : list elt :=
  (fun i : nat => mem_read b (to_gsize (es * Z.of_nat i)) es)
    <$> seq 0 (Z.to_nat n).

Lemma elems_of_chunks b n es :
  0 < es -> 0 <= n -> es * n <= Z.of_nat (length b) -> es * n < 2 ^ 64 ->
  elems_of b n es = chunk (Z.to_nat es) b <$> seq 0 (Z.to_nat n).
Proof.
  intros Hes Hn Hfit Hsz. unfold elems_of.
  apply list_fmap_ext. intros i k Hk.
  apply lookup_seq in Hk as [-> Hk]. simpl.
  assert (0 <= es * Z.of_nat i /\ es * Z.of_nat i + es <= es * n) as [? ?] by nia.
  unfold mem_read, chunk. rewrite to_gsize_small by lia.
  replace (Z.to_nat (es * Z.of_nat i)) with (Z.to_nat es * i)%nat by nia.
  apply take_app_le. rewrite length_drop. nia.
Qed.


Lemma length_concat_uniform e (xs : list elt) :
  Forall (fun x => length x = e) xs ->
  length (concat xs) = (e * length xs)%nat.
Proof.
  induction 1 as [|x xs Hx _ IH]; simpl; [lia|].
  rewrite length_app, IH, Hx. lia.
Qed.

Lemma elems_of_length b n es : length (elems_of b n es) = Z.to_nat n.
Proof. unfold elems_of. by rewrite length_fmap, length_seq. Qed.

Lemma elems_of_uniform b n es :
  Forall (fun x => length x = Z.to_nat es) (elems_of b n es).
Proof.
  unfold elems_of. apply Forall_fmap, Forall_forall. intros i _. simpl.
  apply length_mem_read.
Qed.


(** ** Sorting *)

Lemma filter_none {A} (P : A -> Prop) `{!forall x, Decision (P x)} (l : list A) :
  Forall (fun x => ~ P x) l -> filter P l = [].
Proof.
  induction 1 as [|x l Hx _ IH]; [done|].
  by rewrite filter_cons_False.
Qed.

Section SortFacts.
Context {U : Type}.
Variable compare_func : GCompareDataFunc U.
Variable user_data : U.

Local Abbreviation cmp x y := (compare_func x y user_data).
Local Abbreviation le := (fun x y => compare_func x y user_data <= 0).
Local Abbreviation merge := (merge_runs compare_func user_data).
Local Abbreviation sort := (msort compare_func user_data).

(** A qsort-style comparison function is consistent: swapping the arguments
    flips the sign, and "not greater" is transitive. *)
Hypothesis Hanti : forall x y, Z.sgn (cmp x y) = - Z.sgn (cmp y x).
Hypothesis Htrans : forall x y z, cmp x y <= 0 -> cmp y z <= 0 -> cmp x z <= 0.

Lemma cmp_gt_le x y : ~ cmp x y <= 0 -> cmp y x <= 0.
Proof.
  intros H. specialize (Hanti x y).
  destruct (Z.sgn_spec (cmp x y)) as [[? ?]|[[? ?]|[? ?]]],
           (Z.sgn_spec (cmp y x)) as [[? ?]|[[? ?]|[? ?]]]; lia.
Qed.

Lemma cmp_eq_sym x y : cmp x y = 0 -> cmp y x = 0.
Proof.
  intros H. specialize (Hanti x y).
  destruct (Z.sgn_spec (cmp x y)) as [[? ?]|[[? ?]|[? ?]]],
           (Z.sgn_spec (cmp y x)) as [[? ?]|[[? ?]|[? ?]]]; lia.
Qed.

Lemma merge_nil_l l : merge [] l = l.
Proof. by destruct l. Qed.

Lemma merge_nil_r l : merge l [] = l.
Proof. by destruct l. Qed.

Lemma merge_cons x1 l1 x2 l2 :
  merge (x1 :: l1) (x2 :: l2)
  = if cmp x1 x2 <=? 0 then x1 :: merge l1 (x2 :: l2)
    else x2 :: merge (x1 :: l1) l2.
Proof. reflexivity. Qed.

Lemma merge_perm l1 l2 : merge l1 l2 ≡ₚ l1 ++ l2.
Proof.
  revert l2. induction l1 as [|x1 l1 IH1]; intros l2.
  - by rewrite merge_nil_l.
  - induction l2 as [|x2 l2 IH2].
    + by rewrite merge_nil_r, app_nil_r.
    + rewrite merge_cons. destruct (cmp x1 x2 <=? 0).
      * simpl. by rewrite IH1.
      * rewrite IH2. simpl. rewrite <- Permutation_middle. apply perm_swap.
Qed.

Lemma merge_sorted l1 l2 :
  StronglySorted le l1 -> StronglySorted le l2 ->
  StronglySorted le (merge l1 l2).
Proof.
  revert l2. induction l1 as [|x1 l1 IH1]; intros l2 H1 H2.
  - by rewrite merge_nil_l.
  - induction l2 as [|x2 l2 IH2].
    + by rewrite merge_nil_r.
    + rewrite merge_cons.
      apply StronglySorted_inv in H1 as [H1 H1'].
      apply StronglySorted_inv in H2 as [H2 H2'].
      destruct (Z.leb_spec (cmp x1 x2) 0) as [Hle|Hgt].
      * constructor; [apply IH1; [done|by constructor]|].
        rewrite merge_perm. apply Forall_app. split; [done|].
        constructor; [done|].
        eapply Forall_impl; [exact H2'|]. intros y Hy. simpl in *.
        by apply (Htrans x1 x2 y).
      * assert (Hle : cmp x2 x1 <= 0) by (apply cmp_gt_le; lia).
        constructor; [apply IH2; done|].
        rewrite merge_perm. apply Forall_app. split; [|done].
        constructor; [done|].
        eapply Forall_impl; [exact H1'|]. intros y Hy. simpl in *.
        by apply (Htrans x2 x1 y).
Qed.

(** Stability of the merge: the elements that compare equal to a probe [e]
    come out in the order "left run, then right run". *)
Lemma merge_stable (e : elt) l1 l2 :
  StronglySorted le l1 ->
  filter (fun y => cmp e y = 0) (merge l1 l2)
  = filter (fun y => cmp e y = 0) l1 ++ filter (fun y => cmp e y = 0) l2.
Proof.
  revert l2. induction l1 as [|x1 l1 IH1]; intros l2 H1.
  - by rewrite merge_nil_l.
  - induction l2 as [|x2 l2 IH2].
    + by rewrite merge_nil_r, app_nil_r.
    + rewrite merge_cons.
      pose proof H1 as H1c.
      apply StronglySorted_inv in H1c as [H1' H1''].
      destruct (Z.leb_spec (cmp x1 x2) 0) as [Hle|Hgt].
      * rewrite !filter_cons. rewrite IH1 by done.
        rewrite filter_cons. by destruct (decide (cmp e x1 = 0)).
      * rewrite (filter_cons _ x2), IH2.
        destruct (decide (cmp e x2 = 0)) as [He2|He2].
        -- (* nothing in the left run compares equal to [e] *)
           assert (Hnone : filter (fun y => cmp e y = 0) (x1 :: l1) = []).
           { apply filter_none. apply Forall_forall. intros y Hy Hey.
             assert (Hx1y : cmp x1 y <= 0).
             { apply elem_of_cons in Hy as [Heq|Hy].
               - rewrite Heq. specialize (Hanti x1 x1).
                 destruct (Z.sgn_spec (cmp x1 x1))
                   as [[? ?]|[[? ?]|[? ?]]]; lia.
               - rewrite Forall_forall in H1''. by apply H1''. }
             apply cmp_eq_sym in Hey.
             assert (cmp x1 x2 <= 0); [|lia].
             apply (Htrans x1 y x2); [done|].
             apply (Htrans y e x2); simpl in *; lia. }
           rewrite Hnone. simpl. by rewrite filter_cons_True.
        -- by rewrite (filter_cons_False _ x2 l2).
Qed.

Lemma merge_sorted_app l1 l2 :
  StronglySorted le (l1 ++ l2) -> merge l1 l2 = l1 ++ l2.
Proof.
  revert l2. induction l1 as [|x1 l1 IH]; intros l2 Hs.
  - by rewrite merge_nil_l.
  - destruct l2 as [|x2 l2]; [by rewrite merge_nil_r, app_nil_r|].
    rewrite merge_cons. simpl in Hs.
    apply StronglySorted_inv in Hs as [Hs Hall].
    apply Forall_app in Hall as [_ Hall]. apply Forall_cons in Hall as [Hle _].
    destruct (Z.leb_spec (cmp x1 x2) 0); [|lia].
    simpl. f_equal. by apply IH.
Qed.

Lemma msort_perm fuel l : sort fuel l ≡ₚ l.
Proof.
  revert l. induction fuel as [|fuel IH]; intros l; [done|].
  cbn [msort]. destruct (length l <=? 1)%nat; [done|].
  by rewrite merge_perm, !IH, take_drop.
Qed.

Lemma msort_sorted fuel l :
  (length l <= fuel)%nat -> StronglySorted le (sort fuel l).
Proof.
  revert l. induction fuel as [|fuel IH]; intros l Hlen.
  - destruct l; [constructor|simpl in Hlen; lia].
  - cbn [msort]. destruct (Nat.leb_spec (length l) 1) as [Hle|Hgt].
    + destruct l as [|x [|y l]]; [constructor|repeat constructor|simpl in Hle; lia].
    + assert (1 <= length l / 2 < length l)%nat.
      { split; [apply Nat.div_le_lower_bound; lia|apply Nat.div_lt; lia]. }
      apply merge_sorted; apply IH; rewrite ?length_take, ?length_drop; lia.
Qed.

Lemma msort_stable fuel l (e : elt) :
  (length l <= fuel)%nat ->
  filter (fun y => cmp e y = 0) (sort fuel l)
  = filter (fun y => cmp e y = 0) l.
Proof.
  revert l. induction fuel as [|fuel IH]; intros l Hlen; [done|].
  cbn [msort]. destruct (Nat.leb_spec (length l) 1) as [Hle|Hgt]; [done|].
  assert (1 <= length l / 2 < length l)%nat.
  { split; [apply Nat.div_le_lower_bound; lia|apply Nat.div_lt; lia]. }
  rewrite merge_stable
    by (apply msort_sorted; rewrite length_take; lia).
  rewrite !IH by (rewrite ?length_take, ?length_drop; lia).
  by rewrite <- filter_app, take_drop.
Qed.

Lemma StronglySorted_app_l {A} (R : A -> A -> Prop) l1 l2 :
  StronglySorted R (l1 ++ l2) -> StronglySorted R l1.
Proof.
  induction l1 as [|x l1 IH]; [constructor|].
  simpl. intros Hs. apply StronglySorted_inv in Hs as [Hs Hall].
  apply Forall_app in Hall as [Hall _]. constructor; [by apply IH|done].
Qed.

Lemma StronglySorted_app_r {A} (R : A -> A -> Prop) l1 l2 :
  StronglySorted R (l1 ++ l2) -> StronglySorted R l2.
Proof.
  induction l1 as [|x l1 IH]; [done|].
  simpl. intros Hs. apply StronglySorted_inv in Hs as [Hs _]. by apply IH.
Qed.

Lemma msort_sorted_id fuel l : StronglySorted le l -> sort fuel l = l.
Proof.
  revert l. induction fuel as [|fuel IH]; intros l Hs; [done|].
  cbn [msort]. destruct (length l <=? 1)%nat; [done|].
  rewrite <- (take_drop (length l / 2) l) in Hs.
  rewrite !IH.
  - rewrite merge_sorted_app by done. apply take_drop.
  - by apply StronglySorted_app_r in Hs.
  - by apply StronglySorted_app_l in Hs.
Qed.


End SortFacts.


(** What it means for [a'] to be [a] sorted in place under the comparison
    [c]: same block size and fields, elements in ascending order, the same
    elements, and every class of elements that compare equal to a probe [e]
    in its original order. *)
Definition sorts_to (c : elt -> elt -> Z) (a a' : GRealArray) : Prop :=
  same_shape a a' /\
  StronglySorted (fun x y => c x y <= 0) (elements a') /\
  elements a' ≡ₚ elements a /\
  forall e : elt,
    filter (fun y => c e y = 0) (elements a')
    = filter (fun y => c e y = 0) (elements a).

(** A consistent qsort-style comparison: swapping the arguments flips the
    sign of the result, and "not greater" is transitive. *)
Definition consistent (c : elt -> elt -> Z) : Prop :=
  (forall x y, Z.sgn (c x y) = - Z.sgn (c y x)) /\
  (forall x y z, c x y <= 0 -> c y z <= 0 -> c x z <= 0).

Lemma sort_with_data_spec {U} (compare_func : GCompareDataFunc U)
    (user_data : U) a log :
  consistent (fun x y => compare_func x y user_data) -> wf a ->
  exists a',
    g_array_sort_with_data compare_func user_data a log = Returns a' log /\
    sorts_to (fun x y => compare_func x y user_data) a a' /\
    g_array_sort_with_data compare_func user_data a' log = Returns a' log.
Proof.
  intros [Hanti Htrans] Hwf. unfold g_array_sort_with_data.
  destruct (Z.gtb_spec (len a) 0) as [Hpos|Hzero].
  - pose proof (wf_data a Hwf) as Hd.
    pose proof (wf_elt_size a Hwf) as Hes.
    pose proof (zt_slot_range a) as Hzt.
    pose proof (wf_max a Hwf) as Hmax.
    destruct (data a) as [b|] eqn:Eb; [|lia].
    pose proof (max_elements_bytes (elt_size a) (len a) ltac:(lia) ltac:(lia))
      as Hbytes.
    rewrite G_MAXSIZE_half in Hbytes.
    assert (Hfit : elt_size a * len a <= Z.of_nat (length b)) by nia.
    set (E := elems_of b (len a) (elt_size a)).
    set (X := msort compare_func user_data (length E) E).
    assert (HE : elements a = E).
    { unfold elements, E, elems_of, elt_at. rewrite Eb. reflexivity. }
    assert (HlenE : length E = Z.to_nat (len a)) by apply elems_of_length.
    assert (HXperm : X ≡ₚ E) by apply msort_perm.
    assert (HlenX : length X = Z.to_nat (len a)) by (by rewrite HXperm).
    assert (HXu : Forall (fun x => length x = Z.to_nat (elt_size a)) X).
    { rewrite HXperm. apply elems_of_uniform. }
    assert (HcX : length (concat X)
                  = (Z.to_nat (elt_size a) * Z.to_nat (len a))%nat).
    { by rewrite (length_concat_uniform _ _ HXu), HlenX. }
    set (b' := g_sort_array compare_func user_data b (len a) (elt_size a)).
    assert (Hb' : b' = concat X ++ drop (length (concat X)) b).
    { unfold b', g_sort_array. fold (elems_of b (len a) (elt_size a)).
      fold E. fold X. apply mem_write_prefix. rewrite HcX. nia. }
    assert (HE' : elems_of b' (len a) (elt_size a) = X).
    { rewrite elems_of_chunks;
        [|lia|lia|unfold b', g_sort_array; rewrite length_mem_write; lia|lia].
      rewrite Hb', <- HlenX. by apply chunks_of_concat. }
    exists (on_data a (fun b => g_sort_array compare_func user_data b
                                  (len a) (elt_size a))).
    split; [done|].
    assert (Hel' : elements (on_data a (fun b =>
                     g_sort_array compare_func user_data b (len a) (elt_size a)))
                   = X).
    { unfold elements, on_data, elt_at; simpl. rewrite Eb. simpl. exact HE'. }
    split; [|].
    + split; [apply same_shape_on_data; intros; apply length_mem_write|].
      rewrite Hel', HE. split; [|split].
      * apply msort_sorted; [done..|lia].
      * done.
      * intros e. apply msort_stable; [done..|lia].
    + cbn [len on_data set_data elt_size data].
      destruct (Z.gtb_spec (len a) 0); [|lia].
      unfold ret. f_equal. unfold on_data, set_data; simpl. rewrite Eb. simpl.
      f_equal. f_equal.
      fold b'. unfold g_sort_array at 1. fold (elems_of b' (len a) (elt_size a)).
      rewrite HE'.
      rewrite (msort_sorted_id compare_func user_data) by
        (apply msort_sorted; [done..|lia]).
      rewrite mem_write_prefix
        by (rewrite Hb', length_app; lia).
      rewrite Hb' at 1. by rewrite drop_app_length.
  - assert (len a = 0) as Hl by (pose proof (wf_len a Hwf); lia).
    exists a. split; [done|]. split; [|by rewrite Hl].
    split; [apply same_shape_refl|].
    unfold elements. rewrite Hl. simpl. split; [constructor|done].
Qed.

(** C8: [g_array_sort] and [g_array_sort_with_data] sort the array in place
    into ascending order, keep elements that compare equal in their input
    order, and leave an already sorted array unchanged. *)
Theorem array_sort_stable_idempotent {U} (compare_data_func : GCompareDataFunc U)
    (user_data : U) (compare_func : GCompareFunc) (gc : bool)
    (a : GRealArray) (log : list event)
    (Hreach : reachable gc a)
    (Hcd : consistent (fun x y => compare_data_func x y user_data))
    (Hc : consistent compare_func) :
  (exists a',
     g_array_sort a compare_func log = Returns a' log /\
     sorts_to compare_func a a' /\
     g_array_sort a' compare_func log = Returns a' log) /\
  (exists a',
     g_array_sort_with_data compare_data_func user_data a log
     = Returns a' log /\
     sorts_to (fun x y => compare_data_func x y user_data) a a' /\
     g_array_sort_with_data compare_data_func user_data a' log
     = Returns a' log).
Proof.
  pose proof (reachable_wf gc a Hreach) as Hwf. split.
  - exact (sort_with_data_spec (fun x y (_ : unit) => compare_func x y) tt
             a log Hc Hwf).
  - by apply sort_with_data_spec.
Qed.


(** ** Concrete arrays *)

(** A byte array built through the API: [g_array_new (FALSE, FALSE, es)]
    followed by one [g_array_append_vals]. *)
Definition build (es : Z) (d : list cell) (n : Z) : option GRealArray :=
  match g_array_new false 0 0 es [] with
  | Returns (Some a) log =>
      match g_array_append_vals false a d n log with
      | Returns a' _ => Some a'
      | Aborts _ => None
      end
  | _ => None
  end.

Lemma build_reachable es d n a :
  0 <= es <= G_MAXUINT -> 0 <= n <= G_MAXUINT ->
  build es d n = Some a -> reachable false a.
Proof.
  intros Hes Hn. unfold build.
  destruct (g_array_new false 0 0 es []) as [[a0|] log0|] eqn:E0; try done.
  destruct (g_array_append_vals false a0 d n log0) as [a1 log1|] eqn:E1;
    try done.
  intros [= <-].
  eapply reach_step; [eapply reach_new; [exact Hes|exact E0]|].
  eapply step_append; [exact Hn|exact E1].
Qed.

(** Elements of one byte compared by value. *)
Definition u8_key (x : elt) : Z :=
  match x with
  | Some v :: _ => v
  | _ => 0
  end.

Definition cmp_u8 : GCompareFunc := fun x y => u8_key x - u8_key y.

Lemma cmp_u8_consistent : consistent cmp_u8.
Proof.
  unfold cmp_u8. split.
  - intros x y.
    destruct (Z.sgn_spec (u8_key x - u8_key y)) as [[? ?]|[[? ?]|[? ?]]],
             (Z.sgn_spec (u8_key y - u8_key x)) as [[? ?]|[[? ?]|[? ?]]]; lia.
  - intros x y z. lia.
Qed.

(** The byte array [1; 1; 1]. *)
Definition three_ones : GRealArray :=
  mkArray (Some ([Some 1; Some 1; Some 1] ++ repeat None 13)) 3 16 1
          false false 1 None.

Lemma three_ones_built :
  build 1 [Some 1; Some 1; Some 1] 3 = Some three_ones.
Proof. vm_compute. reflexivity. Qed.

(** C1: on the sorted array [1; 1; 1] every index holds the target 1, so the
    lowest matching index is 0; the search returns TRUE but reports index 1,
    the first midpoint it probes. *)
Theorem binary_search_reports_first_probe :
  reachable false three_ones /\
  StronglySorted (fun x y => cmp_u8 x y <= 0) (elements three_ones) /\
  cmp_u8 (elt_at three_ones 0) [Some 1] = 0 /\
  g_array_binary_search three_ones [Some 1] cmp_u8 = Some (true, Some 1).
Proof.
  split.
  { apply (build_reachable 1 [Some 1; Some 1; Some 1] 3);
      [rewrite G_MAXUINT_val; lia..|apply three_ones_built]. }
  split; [|split; reflexivity].
  change (elements three_ones) with [[Some 1]; [Some 1]; [Some 1]].
  repeat constructor; unfold cmp_u8; simpl; lia.
Qed.


(** X12: on an array whose elements are ordered consistently with the
    target, the search terminates, answers TRUE exactly when some element
    compares equal to the target, and then reports the index of such an
    element. *)
Lemma binary_search_found_iff (a : GRealArray) (target : elt)
    (compare_func : GCompareFunc) :
  0 <= len a < 2 ^ 32 -> sorted_for_target a target compare_func ->
  exists res out,
    g_array_binary_search a target compare_func = Some (res, out) /\
    if res then
      exists m, out = Some m /\ 0 <= m < len a /\
                probe a target compare_func m = 0
    else
      out = None /\
      forall i, 0 <= i < len a -> probe a target compare_func i <> 0.
Proof.
  intros Hlen Hs. unfold g_array_binary_search.
  destruct (Z.eqb_spec (len a) 0) as [Hz|Hnz]; simpl.
  - exists false, None. split; [done|]. split; [done|]. intros i Hi. lia.
  - rewrite (to_guint_small (len a - 1)) by lia.
    destruct (bsearch_loop_spec a target compare_func Hlen Hs
                (Z.to_nat (len a)) 0 (len a - 1) 0)
      as (res & m & -> & Hres); try lia.
    exists res. destruct res.
    + exists (Some m). split; [done|]. by exists m.
    + exists None. by split.
Qed.

(** ** Instances *)

Lemma three_ones_reachable : reachable false three_ones.
Proof.
  apply (build_reachable 1 [Some 1; Some 1; Some 1] 3);
    [rewrite G_MAXUINT_val; lia..|apply three_ones_built].
Qed.

Lemma three_ones_wf : wf three_ones.
Proof. exact (reachable_wf false three_ones three_ones_reachable). Qed.

Lemma reachable_capacity_inv_witness :
  reachable false three_ones /\
  (data three_ones <> None ->
   elt_capacity three_ones
   >= len three_ones + (if zero_terminated three_ones then 1 else 0)) /\
  (data three_ones = None -> elt_capacity three_ones = 0).
Proof.
  split; [exact three_ones_reachable|].
  exact (reachable_capacity_inv false three_ones three_ones_reachable).
Defined.

Lemma three_ones_no_overflow : ~ overflows three_ones 20.
Proof. vm_compute. discriminate. Qed.

Lemma maybe_expand_growth_policy_witness :
  wf three_ones /\ 0 <= 20 <= G_MAXUINT /\ ~ overflows three_ones 20 /\
  exists a' b' k,
    g_array_maybe_expand false three_ones 20 [] = Returns a' [] /\
    data a' = Some b' /\ 0 <= k /\ 23 <= 2 ^ k /\
    (forall j, 0 <= j -> 23 <= 2 ^ j -> 2 ^ k <= 2 ^ j) /\
    Z.of_nat (length b') = Z.max (2 ^ k) 16.
Proof.
  assert (Hn : 0 <= 20 <= G_MAXUINT) by (rewrite G_MAXUINT_val; lia).
  split; [exact three_ones_wf|]. split; [exact Hn|].
  split; [exact three_ones_no_overflow|].
  apply (maybe_expand_growth_policy false three_ones 20 [] three_ones_wf Hn
           three_ones_no_overflow).
  vm_compute. reflexivity.
Defined.

Lemma maybe_expand_overflow_policy_witness :
  wf three_ones /\ 0 <= G_MAXUINT <= G_MAXUINT /\
  g_array_maybe_expand false three_ones G_MAXUINT []
  = Aborts "adding %u to array would overflow".
Proof.
  assert (Hn : 0 <= G_MAXUINT <= G_MAXUINT) by (rewrite G_MAXUINT_val; lia).
  split; [exact three_ones_wf|]. split; [exact Hn|].
  apply (maybe_expand_overflow_policy false three_ones G_MAXUINT []
           three_ones_wf Hn).
  vm_compute. reflexivity.
Defined.

(** [three_ones] with a clear function that zeroes the element. *)
Definition three_ones_cleared : GRealArray :=
  set_clear_func three_ones (Some (fun _ => [Some 0])).


(** The byte array [3; 1; 2]. *)
Definition unsorted_bytes : GRealArray :=
  mkArray (Some ([Some 3; Some 1; Some 2] ++ repeat None 13)) 3 16 1
          false false 1 None.

Lemma unsorted_bytes_reachable : reachable false unsorted_bytes.
Proof.
  apply (build_reachable 1 [Some 3; Some 1; Some 2] 3);
    [rewrite G_MAXUINT_val; lia..|]. vm_compute. reflexivity.
Qed.

Lemma array_sort_stable_idempotent_witness :
  reachable false unsorted_bytes /\ consistent cmp_u8 /\
  exists a',
    g_array_sort unsorted_bytes cmp_u8 [] = Returns a' [] /\
    sorts_to cmp_u8 unsorted_bytes a' /\
    g_array_sort a' cmp_u8 [] = Returns a' [].
Proof.
  split; [exact unsorted_bytes_reachable|].
  split; [exact cmp_u8_consistent|].
  exact (proj1 (array_sort_stable_idempotent
                  (fun x y (_ : unit) => cmp_u8 x y) tt cmp_u8 false
                  unsorted_bytes [] unsorted_bytes_reachable
                  cmp_u8_consistent cmp_u8_consistent)).
Defined.

Example sort_unsorted_bytes :
  elements <$> (match g_array_sort unsorted_bytes cmp_u8 [] with
                | Returns a' _ => Some a'
                | Aborts _ => None
                end)
  = Some [[Some 1]; [Some 2]; [Some 3]].
Proof. vm_compute. reflexivity. Qed.


End GArrayFacts.

(* ===================================================================== *)
(** * Part IV: properties of g_file_set_contents_full                      *)
(* ===================================================================== *)

Module FileUtilsFacts.
Import FileUtils.

(** ** Summaries of the system calls *)

(** [w'] differs from [w] in the file system at most at path [p]. *)
Definition touches (p : string) (w w' : world) : Prop :=
  forall q, q <> p -> fs w' !! q = fs w !! q.

(** The script is consumed from the front. *)
Definition consumes (w w' : world) : Prop :=
  (length (script w') <= length (script w))%nat /\
  (script w = [] -> script w' = []).

Lemma touches_refl p w : touches p w w.
Proof. by intros q _. Qed.

Lemma touches_trans p w1 w2 w3 :
  touches p w1 w2 -> touches p w2 w3 -> touches p w1 w3.
Proof. intros H1 H2 q Hq. by rewrite H2, H1. Qed.

Lemma consumes_refl w : consumes w w.
Proof. by split. Qed.

Lemma consumes_trans w1 w2 w3 :
  consumes w1 w2 -> consumes w2 w3 -> consumes w1 w3.
Proof. intros [H1 H1'] [H2 H2']. split; [lia|auto]. Qed.

(** Unfold the primitives of the world monad in a hypothesis. *)
Ltac unfold_world H :=
  cbv beta iota zeta delta
      [wbind wret next_decision trace get_fs put_fs update_file failure] in H;
  cbn [fs script calls now_us counter set_fs set_script add_call set_counter]
    in H.

Ltac world_cases H w :=
  destruct w as [? [|[| |?] ?] ? ? ?]; unfold_world H.

Ltac lookup_cases H :=
  repeat match type of H with
         | context [match ?m !! ?p with _ => _ end] =>
             destruct (m !! p) eqn:?; unfold_world H
         end.

Ltac world_fields :=
  cbn [fs script calls now_us counter set_fs set_script add_call set_counter
       fd_path fd_pos].

Ltac solve_touches :=
  let q := fresh "q" in let Hq := fresh "Hq" in
  intros q Hq; world_fields;
  rewrite ?lookup_insert_ne, ?lookup_delete_ne by congruence; done.

Ltac solve_consumes :=
  split; world_fields; simpl; [lia|done].

(** One system call: the call is logged, at most one decision of the
    script is consumed, the clock and the counter are left alone. *)
Record io_step (w w' : world) (c : call) : Prop := mkIoStep {
  io_calls : calls w' = calls w ++ [c];
  io_consumes : consumes w w';
  io_strict : script w <> [] ->
              (length (script w') < length (script w))%nat;
  io_now : now_us w' = now_us w;
  io_counter : counter w' = counter w
}.

Ltac solve_io :=
  split;
  [world_fields; done
  |solve_consumes
  |world_fields; simpl; intros ?; try done; lia
  |world_fields; done
  |world_fields; done].

Ltac use_lookups :=
  repeat match goal with E : _ !! _ = _ |- _ => rewrite E end.

Lemma sys_write_spec fd buf count w r w' :
  sys_write fd buf count w = Some (r, w') ->
  io_step w w'
    (CWrite (fd_path fd) (match r with
                          | inl e => inl e
                          | inr (s, _) => inr s
                          end)) /\
  touches (fd_path fd) w w' /\
  match r with
  | inl e => fs w' = fs w
  | inr (s, fd') =>
      (0 <= count -> 0 <= s <= count) /\
      (script w = [] -> s = count) /\
      fd' = mkFd (fd_path fd) (fd_pos fd + Z.to_nat s) /\
      fs w' !! fd_path fd
      = (fun f => mkFile (store_at (f_bytes f) (fd_pos fd)
                                   (buffer_read buf (Z.to_nat s)))
                         (f_mode f)) <$> fs w !! fd_path fd
  end.
Proof.
  intros H. unfold sys_write in H. world_cases H w; lookup_cases H.
  all: injection H as <- <-; world_fields.
  all: split; [solve_io|]. all: split; [solve_touches|].
  all: rewrite ?lookup_insert_eq; try done.
  all: repeat split; try done; try lia.
  all: by use_lookups.
Qed.

Lemma sys_close_spec fd w r w' :
  sys_close fd w = Some (r, w') ->
  io_step w w' (CClose (fd_path fd) r) /\ fs w' = fs w.
Proof.
  intros H. unfold sys_close in H. world_cases H w.
  all: injection H as <- <-; world_fields.
  all: split; [solve_io|done].
Qed.

Lemma sys_fsync_spec fd w r w' :
  sys_fsync fd w = Some (r, w') ->
  io_step w w' (CFsync (fd_path fd) r) /\ fs w' = fs w.
Proof.
  intros H. unfold sys_fsync in H. world_cases H w.
  all: injection H as <- <-; world_fields.
  all: split; [solve_io|done].
Qed.

Lemma sys_open_dir_of_spec p w r w' :
  sys_open_dir_of p w = Some (r, w') ->
  io_step w w' (COpenDirOf p r) /\ fs w' = fs w.
Proof.
  intros H. unfold sys_open_dir_of in H. world_cases H w.
  all: injection H as <- <-; world_fields.
  all: split; [solve_io|done].
Qed.

Lemma sys_fsync_dir_of_spec p w r w' :
  sys_fsync_dir_of p w = Some (r, w') ->
  io_step w w' (CFsyncDirOf p r) /\ fs w' = fs w.
Proof.
  intros H. unfold sys_fsync_dir_of in H. world_cases H w.
  all: injection H as <- <-; world_fields.
  all: split; [solve_io|done].
Qed.

Lemma sys_close_dir_of_spec p w r w' :
  sys_close_dir_of p w = Some (r, w') ->
  io_step w w' (CCloseDirOf p r) /\ fs w' = fs w.
Proof.
  intros H. unfold sys_close_dir_of in H. world_cases H w.
  all: injection H as <- <-; world_fields.
  all: split; [solve_io|done].
Qed.

Lemma sys_fallocate_spec fd n w r w' :
  sys_fallocate fd n w = Some (r, w') ->
  io_step w w' (CFallocate (fd_path fd) n r) /\
  touches (fd_path fd) w w' /\
  match r with
  | Some _ => fs w' = fs w
  | None =>
      fs w' !! fd_path fd
      = (fun f => mkFile (resize (f_bytes f)
                            (length (f_bytes f) `max` Z.to_nat n))
                         (f_mode f)) <$> fs w !! fd_path fd
  end.
Proof.
  intros H. unfold sys_fallocate in H. world_cases H w; lookup_cases H.
  all: injection H as <- <-; world_fields.
  all: split; [solve_io|]. all: split; [solve_touches|].
  all: rewrite ?lookup_insert_eq; try done.
  all: by use_lookups.
Qed.

Lemma sys_ftruncate_spec fd n w r w' :
  sys_ftruncate fd n w = Some (r, w') ->
  io_step w w' (CFtruncate (fd_path fd) n r) /\
  touches (fd_path fd) w w' /\
  match r with
  | Some _ => fs w' = fs w
  | None =>
      fs w' !! fd_path fd
      = (fun f => mkFile (resize (f_bytes f) (Z.to_nat n)) (f_mode f))
          <$> fs w !! fd_path fd
  end.
Proof.
  intros H. unfold sys_ftruncate in H. world_cases H w; lookup_cases H.
  all: injection H as <- <-; world_fields.
  all: split; [solve_io|]. all: split; [solve_touches|].
  all: rewrite ?lookup_insert_eq; try done.
  all: by use_lookups.
Qed.

Lemma sys_fchmod_spec fd mode w r w' :
  sys_fchmod fd mode w = Some (r, w') ->
  io_step w w' (CFchmod (fd_path fd) mode r) /\
  touches (fd_path fd) w w' /\
  match r with
  | Some _ => fs w' = fs w
  | None =>
      fs w' !! fd_path fd
      = (fun f => mkFile (f_bytes f) mode) <$> fs w !! fd_path fd
  end.
Proof.
  intros H. unfold sys_fchmod in H. world_cases H w; lookup_cases H.
  all: injection H as <- <-; world_fields.
  all: split; [solve_io|]. all: split; [solve_touches|].
  all: rewrite ?lookup_insert_eq; try done.
  all: by use_lookups.
Qed.

Lemma sys_stat_spec p w r w' :
  sys_stat p w = Some (r, w') ->
  io_step w w' (CStat p (match r with inl e => Some e | inr _ => None end)) /\
  fs w' = fs w.
Proof.
  intros H. unfold sys_stat in H. world_cases H w; lookup_cases H.
  all: injection H as <- <-; world_fields.
  all: split; [solve_io|done].
Qed.

Lemma sys_lstat_spec p w r w' :
  sys_lstat p w = Some (r, w') ->
  io_step w w' (CLstat p (match r with
                          | inl e => inl e
                          | inr (_, size) => inr size
                          end)) /\
  fs w' = fs w.
Proof.
  intros H. unfold sys_lstat in H. world_cases H w; lookup_cases H.
  all: injection H as <- <-; world_fields.
  all: split; [solve_io|done].
Qed.

Lemma sys_open_spec p creat excl mode w r w' :
  sys_open p creat excl mode w = Some (r, w') ->
  io_step w w' (COpen p creat excl
                  (match r with inl e => Some e | inr _ => None end)) /\
  touches p w w' /\
  match r with
  | inl _ => fs w' = fs w
  | inr fd =>
      fd = mkFd p 0 /\
      match fs w !! p with
      | Some _ => excl = false /\ fs w' = fs w
      | None => creat = true /\ fs w' = <[p := mkFile [] mode]> (fs w)
      end
  end.
Proof.
  intros H. unfold sys_open in H. world_cases H w; lookup_cases H.
  all: destruct creat, excl; unfold_world H.
  all: injection H as <- <-; world_fields.
  all: split; [solve_io|]. all: split; [solve_touches|].
  all: use_lookups; done.
Qed.

Lemma sys_rename_spec old new w r w' :
  sys_rename old new w = Some (r, w') ->
  io_step w w' (CRename old new r) /\
  match r with
  | Some _ => fs w' = fs w
  | None => exists f, fs w !! old = Some f /\
                      fs w' = <[new := f]> (delete old (fs w))
  end.
Proof.
  intros H. unfold sys_rename in H. world_cases H w; lookup_cases H.
  all: injection H as <- <-; world_fields.
  all: split; [solve_io|]. all: try done.
  all: eexists; split; [eassumption|done].
Qed.

Lemma sys_unlink_spec p w r w' :
  sys_unlink p w = Some (r, w') ->
  io_step w w' (CUnlink p r) /\
  match r with
  | Some _ => fs w' = fs w
  | None => fs w' = delete p (fs w)
  end.
Proof.
  intros H. unfold sys_unlink in H. world_cases H w; lookup_cases H.
  all: injection H as <- <-; world_fields.
  all: split; [solve_io|done].
Qed.

(** ** Sequences of calls on one file *)

(** A run that logs the calls [cs] and changes the file system at most at
    path [p]. *)
Record on_path (p : string) (w w' : world) (cs : list call) : Prop := mkOnPath {
  op_calls : calls w' = calls w ++ cs;
  op_touches : touches p w w';
  op_consumes : consumes w w';
  op_now : now_us w' = now_us w;
  op_counter : counter w' = counter w
}.

Lemma on_path_refl p w : on_path p w w [].
Proof. split; [by rewrite app_nil_r|apply touches_refl|apply consumes_refl|done..]. Qed.

Lemma on_path_trans p w1 w2 w3 cs1 cs2 :
  on_path p w1 w2 cs1 -> on_path p w2 w3 cs2 -> on_path p w1 w3 (cs1 ++ cs2).
Proof.
  intros [C1 T1 S1 N1 K1] [C2 T2 S2 N2 K2]. split.
  - by rewrite C2, C1, app_assoc.
  - by eapply touches_trans.
  - by eapply consumes_trans.
  - congruence.
  - congruence.
Qed.

Lemma on_path_step p w w' c :
  io_step w w' c -> touches p w w' -> on_path p w w' [c].
Proof. intros [C S _ N K] T. by split. Qed.

Lemma touches_same p w w' : fs w' = fs w -> touches p w w'.
Proof. intros E q _. by rewrite E. Qed.

Lemma on_path_cons p w1 w2 w3 c cs :
  on_path p w1 w2 [c] -> on_path p w2 w3 cs -> on_path p w1 w3 (c :: cs).
Proof. apply (on_path_trans p w1 w2 w3 [c] cs). Qed.

(** ** The write loop *)

Lemma length_resize bytes n : length (resize bytes n) = n.
Proof.
  unfold resize. rewrite length_take, length_app, repeat_length. lia.
Qed.

Lemma resize_prefix bytes n : (n <= length bytes)%nat -> resize bytes n = take n bytes.
Proof. intros H. unfold resize. by rewrite take_app_le. Qed.

Lemma store_at_app bytes pos x y :
  store_at (store_at bytes pos x) (pos + length x) y
  = store_at bytes pos (x ++ y).
Proof.
  unfold store_at.
  assert (Hr : resize (resize bytes pos ++ x ++ drop (pos + length x) bytes)
                      (pos + length x)
               = resize bytes pos ++ x).
  { unfold resize at 1.
    rewrite (app_assoc (resize bytes pos) x), <- app_assoc.
    apply take_app_length'. rewrite length_app, length_resize. lia. }
  rewrite Hr, <- !app_assoc. do 3 f_equal.
  rewrite (app_assoc (resize bytes pos) x).
  rewrite drop_app_add'
    by (rewrite length_app, length_resize; lia).
  rewrite drop_drop, length_app. f_equal. lia.
Qed.

Lemma buffer_read_take buf n :
  (n <= length buf)%nat -> buffer_read buf n = take n buf.
Proof. intros H. unfold buffer_read. by rewrite take_app_le. Qed.

Definition is_write (p : string) (c : call) : Prop :=
  exists r, c = CWrite p r.

(** The calls of [write_to_file] on the descriptor's file. *)
Definition is_data_call (p : string) (c : call) : Prop :=
  (exists n r, c = CFallocate p n r) \/ (exists r, c = CWrite p r) \/
  (exists r, c = CFsync p r) \/ (exists r, c = CClose p r).

Lemma write_loop_spec fuel buf len_ fd dest w r w' :
  write_loop fuel buf len_ fd dest w = Some (r, w') ->
  exists cs,
    on_path (fd_path fd) w w' cs /\
    match r with
    | inl err =>
        exists pre e x,
          cs = pre ++ [CWrite (fd_path fd) (inl e); CClose (fd_path fd) x] /\
          Forall (is_write (fd_path fd)) pre /\
          err = set_file_error dest MsgWrite e
    | inr fd' =>
        Forall (is_write (fd_path fd)) cs /\
        fd_path fd' = fd_path fd /\
        forall f0,
          fs w !! fd_path fd = Some f0 ->
          (fd_pos fd <= length (f_bytes f0))%nat ->
          len_ <= Z.of_nat (length buf) ->
          fs w' !! fd_path fd
          = Some (mkFile (store_at (f_bytes f0) (fd_pos fd)
                                   (take (Z.to_nat len_) buf))
                         (f_mode f0))
    end.
Proof.
  revert buf len_ fd w r w'.
  induction fuel as [|fuel IH]; intros buf len_ fd w r w' H; simpl in H.
  - destruct (Z.gtb_spec len_ 0) as [Hpos|Hle]; [done|].
    injection H as <- <-. exists []. split; [apply on_path_refl|].
    split; [constructor|]. split; [done|].
    intros f0 Hf Hp Hl. rewrite Hf. f_equal.
    replace (Z.to_nat len_) with 0%nat by lia. rewrite take_0.
    unfold store_at. simpl. rewrite Nat.add_0_r, resize_prefix by done.
    by rewrite take_drop; destruct f0.
  - destruct (Z.gtb_spec len_ 0) as [Hpos|Hle].
    + unfold wbind at 1 in H.
      destruct (sys_write fd buf (Z.min len_ G_MAXSSIZE) w)
        as [[res w1]|] eqn:Ew; [|done].
      apply sys_write_spec in Ew as (Hio & Ht & Hres).
      pose proof (on_path_step _ _ _ _ Hio Ht) as Hop.
      destruct res as [e|[s fd1]].
      * destruct (decide (e = EINTR)) as [->|Hne].
        -- apply IH in H as (cs & Hcs & Hr).
           exists (CWrite (fd_path fd) (inl EINTR) :: cs).
           split; [by eapply on_path_cons|].
           destruct r as [err|fd'].
           ++ destruct Hr as (pre & e & x & -> & Hpre & ->).
              exists (CWrite (fd_path fd) (inl EINTR) :: pre), e, x.
              split; [done|]. split; [|done].
              constructor; [by eexists|done].
           ++ destruct Hr as (Hall & Hp & Hfs).
              split; [constructor; [by eexists|done]|]. split; [done|].
              intros f0 Hf Hpos0 Hl. rewrite <- Hres in Hf. by apply Hfs.
        -- unfold wbind at 1 in H.
           destruct (sys_close fd w1) as [[x w2]|] eqn:Ec; [|done].
           apply sys_close_spec in Ec as (Hio2 & Hfs2).
           injection H as <- <-.
           exists [CWrite (fd_path fd) (inl e); CClose (fd_path fd) x].
           split.
           { eapply on_path_cons; [done|].
             apply on_path_step; [done|by apply touches_same]. }
           exists [], e, x. done.
      * destruct Hres as (Hs & _ & -> & Hfs1).
        assert (Hmin : 0 <= Z.min len_ G_MAXSSIZE <= len_).
        { unfold G_MAXSSIZE. lia. }
        specialize (Hs ltac:(lia)).
        apply IH in H as (cs & Hcs & Hr). simpl in Hcs, Hr.
        exists (CWrite (fd_path fd) (inr s) :: cs).
        split; [by eapply on_path_cons|].
        destruct r as [err|fd'].
        -- destruct Hr as (pre & e & x & -> & Hpre & ->).
           exists (CWrite (fd_path fd) (inr s) :: pre), e, x.
           split; [done|]. split; [|done].
           constructor; [by eexists|done].
        -- destruct Hr as (Hall & Hp & Hfs).
           split; [constructor; [by eexists|done]|]. split; [done|].
           intros f0 Hf Hpos0 Hl.
           rewrite Hf in Hfs1. simpl in Hfs1.
           rewrite (buffer_read_take buf (Z.to_nat s)) in Hfs1 by lia.
           rewrite (Hfs _ Hfs1); simpl.
           ++ f_equal. f_equal.
              replace (fd_pos fd + Z.to_nat s)%nat
                with (fd_pos fd + length (take (Z.to_nat s) buf))%nat
                by (rewrite length_take; lia).
              rewrite store_at_app. f_equal.
              rewrite <- (take_drop (Z.to_nat s) (take (Z.to_nat len_) buf)).
              rewrite take_take, skipn_firstn_comm.
              f_equal; [f_equal; lia|f_equal; lia].
           ++ unfold store_at.
              rewrite !length_app, length_resize, length_take. lia.
           ++ rewrite length_drop. lia.
    + injection H as <- <-. exists []. split; [apply on_path_refl|].
      split; [constructor|]. split; [done|].
      intros f0 Hf Hp Hl. rewrite Hf. f_equal.
      replace (Z.to_nat len_) with 0%nat by lia. rewrite take_0.
      unfold store_at. simpl. rewrite Nat.add_0_r, resize_prefix by done.
      by rewrite take_drop; destruct f0.
Qed.


(** ** write_to_file *)

(** How a failing [write_to_file] ends: the failing call, the close, and
    the error that is reported. *)
Definition write_failure (p dest : string) (err : GError) (cs : list call)
  : Prop :=
  (exists pre e x,
     cs = pre ++ [CWrite p (inl e); CClose p x] /\
     err = set_file_error dest MsgWrite e) \/
  (exists pre e x,
     cs = pre ++ [CFsync p (Some e); CClose p x] /\
     err = set_file_error dest MsgFsync e) \/
  (exists pre e,
     cs = pre ++ [CClose p (Some e)] /\
     err = set_file_error p MsgClose e).

Ltac wstep H E :=
  unfold wbind at 1 in H; cbv beta in H;
  match type of H with
  | match ?m with _ => _ end = _ =>
      destruct m as [[? ?]|] eqn:E; [|discriminate H]
  end.

Tactic Notation "wstep_as" hyp(H) ident(r) ident(w) ident(E) :=
  unfold wbind at 1 in H; cbv beta in H;
  match type of H with
  | match ?m with _ => _ end = _ =>
      destruct m as [[r w]|] eqn:E; [|discriminate H]
  end.

Lemma dc_fallocate p n r : is_data_call p (CFallocate p n r).
Proof. left. by eexists _, _. Qed.
Lemma dc_write p r : is_data_call p (CWrite p r).
Proof. right. left. by eexists. Qed.
Lemma dc_fsync p r : is_data_call p (CFsync p r).
Proof. right. right. left. by eexists. Qed.
Lemma dc_close p r : is_data_call p (CClose p r).
Proof. right. right. right. by eexists. Qed.

Ltac data_calls :=
  repeat first
    [apply Forall_nil_2
    |apply Forall_cons_2;
     [first [apply dc_fallocate|apply dc_write|apply dc_fsync|apply dc_close]|]].

Lemma is_write_data_call p c : is_write p c -> is_data_call p c.
Proof. intros [r ->]. right. left. by exists r. Qed.

Lemma not_in_writes p x cs :
  Forall (is_write p) cs -> ~ In (CFsync p x) cs.
Proof.
  intros Hall Hin. rewrite Forall_forall in Hall.
  apply list_elem_of_In in Hin. by destruct (Hall _ Hin).
Qed.

Lemma store_at_fresh bytes src :
  (length bytes <= length src)%nat -> store_at bytes 0 src = src.
Proof.
  intros H. unfold store_at, resize. simpl.
  rewrite drop_ge by lia. by rewrite app_nil_r.
Qed.

Lemma g_close_spec fd w r w' :
  g_close fd w = Some (r, w') ->
  exists x,
    io_step w w' (CClose (fd_path fd) x) /\ fs w' = fs w /\
    match r with
    | Some err => exists e, x = Some e /\
                            err = set_file_error (fd_path fd) MsgClose e
    | None => True
    end.
Proof.
  intros H. unfold g_close in H. wstep H Ec.
  apply sys_close_spec in Ec as (Hio & Hfs).
  destruct o as [e|].
  - destruct (decide (e = EINTR)); injection H as <- <-;
      exists (Some e); (split; [done|split; [done|]]); [done|by exists e].
  - injection H as <- <-. by exists None.
Qed.

Lemma write_to_file_spec buf len_ fd dest do_fsync w r w' :
  write_to_file buf len_ fd dest do_fsync w = Some (r, w') ->
  exists data,
    on_path (fd_path fd) w w' data /\
    Forall (is_data_call (fd_path fd)) data /\
    (do_fsync = false -> forall x, ~ In (CFsync (fd_path fd) x) data) /\
    match r with
    | Some err => write_failure (fd_path fd) dest err data
    | None =>
        (do_fsync = true -> In (CFsync (fd_path fd) None) data) /\
        forall f0,
          fs w !! fd_path fd = Some f0 -> fd_pos fd = 0%nat ->
          f_bytes f0 = [] -> 0 <= len_ <= Z.of_nat (length buf) ->
          fs w' !! fd_path fd
          = Some (mkFile (take (Z.to_nat len_) buf) (f_mode f0))
    end.
Proof.
  intros H. unfold write_to_file in H.
  (* fallocate *)
  wstep H Ea.
  assert (exists pre,
    on_path (fd_path fd) w w0 pre /\
    Forall (is_data_call (fd_path fd)) pre /\
    (forall x, ~ In (CFsync (fd_path fd) x) pre) /\
    forall f0, fs w !! fd_path fd = Some f0 -> f_bytes f0 = [] ->
      exists b, fs w0 !! fd_path fd = Some (mkFile b (f_mode f0)) /\
                (Z.of_nat (length b) <= Z.max len_ 0))
    as (pre & Hpre & Hpre_all & Hpre_sync & Hpre_fs).
  { destruct (Z.gtb_spec len_ 0) as [Hpos|Hle].
    - wstep Ea Ef. injection Ea as <- <-.
      apply sys_fallocate_spec in Ef as (Hio & Ht & Hfs).
      exists [CFallocate (fd_path fd) len_ o].
      split; [by apply on_path_step|].
      split; [data_calls|].
      split; [intros x [Hx|[]]; discriminate|].
      intros f0 Hf Hb. destruct o as [e|].
      + rewrite Hfs, Hf. exists (f_bytes f0). destruct f0; simpl in *.
        subst. split; [done|simpl; lia].
      + rewrite Hfs, Hf. simpl. eexists. split; [reflexivity|].
        rewrite length_resize, Hb. simpl. lia.
    - injection Ea as <- <-. exists []. split; [apply on_path_refl|].
      split; [constructor|]. split; [by intros x []|].
      intros f0 Hf Hb. exists (f_bytes f0). destruct f0; simpl in *.
      subst. split; [done|simpl; lia]. }
  (* the loop *)
  unfold wbind at 1 in H.
  wstep H El. apply write_loop_spec in El as (cs & Hcs & Hr).
  destruct s as [err|fd'].
  - injection H as <- <-.
    destruct Hr as (pre' & e & x & -> & Hall & ->).
    exists (pre ++ pre' ++ [CWrite (fd_path fd) (inl e); CClose (fd_path fd) x]).
    split; [by eapply on_path_trans|].
    split.
    { apply Forall_app. split; [done|]. apply Forall_app. split.
      - eapply Forall_impl; [exact Hall|apply is_write_data_call].
      - data_calls. }
    split.
    { intros _ y Hin. apply in_app_or in Hin as [Hin|Hin]; [by eapply Hpre_sync|].
      apply in_app_or in Hin as [Hin|Hin]; [by eapply not_in_writes|].
      destruct Hin as [?|[?|[]]]; discriminate. }
    left. exists (pre ++ pre'), e, x. by rewrite <- app_assoc.
  - destruct Hr as (Hall & Hp & Hfs).
    assert (Hdata : Forall (is_data_call (fd_path fd)) (pre ++ cs)).
    { apply Forall_app. split; [done|].
      eapply Forall_impl; [exact Hall|apply is_write_data_call]. }
    assert (Hnosync : forall y, ~ In (CFsync (fd_path fd) y) (pre ++ cs)).
    { intros y Hin. apply in_app_or in Hin as [Hin|Hin];
        [by eapply Hpre_sync|by eapply not_in_writes]. }
    pose proof (on_path_trans _ _ _ _ _ _ Hpre Hcs) as Hop.
    assert (Hcontent : forall f0,
      fs w !! fd_path fd = Some f0 -> fd_pos fd = 0%nat ->
      f_bytes f0 = [] -> 0 <= len_ <= Z.of_nat (length buf) ->
      fs w1 !! fd_path fd
      = Some (mkFile (take (Z.to_nat len_) buf) (f_mode f0))).
    { intros f0 Hf Hpos Hb Hl.
      destruct (Hpre_fs f0 Hf Hb) as (b & Hb0 & Hblen).
      rewrite (Hfs _ Hb0); simpl; [|lia|lia].
      rewrite Hpos, store_at_fresh; [done|]. rewrite length_take. lia. }
    wstep H Es.
    destruct do_fsync.
    + apply sys_fsync_spec in Es as (Hio & Hfs').
      rewrite Hp in Hio.
      pose proof (on_path_step (fd_path fd) _ _ _ Hio (touches_same _ _ _ Hfs'))
        as Hop2.
      destruct o as [e|].
      * wstep H Ec. injection H as <- <-.
        apply sys_close_spec in Ec as (Hio3 & Hfs3). rewrite Hp in Hio3.
        pose proof (on_path_step (fd_path fd) _ _ _ Hio3
                      (touches_same _ _ _ Hfs3)) as Hop3.
        exists ((pre ++ cs) ++ [CFsync (fd_path fd) (Some e)]
                ++ [CClose (fd_path fd) o]).
        split; [eapply on_path_trans; [done|by eapply on_path_trans]|].
        split.
        { apply Forall_app. split; [done|].
          data_calls. }
        split; [done|].
        right. left. exists (pre ++ cs), e, o. done.
      * apply g_close_spec in H as (x & Hio3 & Hfs3 & Hr).
        rewrite Hp in Hio3, Hr.
        pose proof (on_path_step (fd_path fd) _ _ _ Hio3
                      (touches_same _ _ _ Hfs3)) as Hop3.
        exists ((pre ++ cs) ++ [CFsync (fd_path fd) None]
                ++ [CClose (fd_path fd) x]).
        split; [eapply on_path_trans; [done|by eapply on_path_trans]|].
        split.
        { apply Forall_app. split; [done|].
          data_calls. }
        split; [done|].
        destruct r as [err|].
        -- destruct Hr as (e & -> & ->). right. right.
           exists ((pre ++ cs) ++ [CFsync (fd_path fd) None]), e.
           by rewrite <- !app_assoc.
        -- split.
           { intros _. apply in_or_app. right. by left. }
           intros f0 Hf Hpos Hb Hl. rewrite Hfs3, Hfs'. by apply Hcontent.
    + injection Es as <- <-.
      apply g_close_spec in H as (x & Hio3 & Hfs3 & Hr).
      rewrite Hp in Hio3, Hr.
      pose proof (on_path_step (fd_path fd) _ _ _ Hio3
                    (touches_same _ _ _ Hfs3)) as Hop3.
      exists ((pre ++ cs) ++ [CClose (fd_path fd) x]).
      split; [by eapply on_path_trans|].
      split.
      { apply Forall_app. split; [done|].
        data_calls. }
      split.
      { intros _ y Hin. apply in_app_or in Hin as [Hin|Hin];
          [by eapply Hnosync|]. destruct Hin as [?|[]]; discriminate. }
      destruct r as [err|].
      * destruct Hr as (e & -> & ->). right. right.
        exists (pre ++ cs), e. done.
      * split; [done|].
        intros f0 Hf Hpos Hb Hl. rewrite Hfs3. by apply Hcontent.
Qed.


(** ** The other steps *)

(** What the result of [lstat] on the target means for the fsync. *)
(** Writing never removes a file. *)
Definition keeps_files (w w' : world) : Prop :=
  forall q, is_Some (fs w !! q) -> is_Some (fs w' !! q).

Lemma keeps_files_refl w : keeps_files w w.
Proof. by intros q. Qed.

Lemma keeps_files_trans w1 w2 w3 :
  keeps_files w1 w2 -> keeps_files w2 w3 -> keeps_files w1 w3.
Proof. intros H1 H2 q Hq. by apply H2, H1. Qed.

Lemma keeps_files_same w w' : fs w' = fs w -> keeps_files w w'.
Proof. intros E q. by rewrite E. Qed.

Lemma keeps_files_update p g w w' :
  touches p w w' -> fs w' !! p = g <$> fs w !! p -> keeps_files w w'.
Proof.
  intros T E q Hq. destruct (decide (q = p)) as [->|Hne].
  - rewrite E. by apply fmap_is_Some.
  - by rewrite T.
Qed.

Lemma write_loop_keeps_files fuel buf len_ fd dest w r w' :
  write_loop fuel buf len_ fd dest w = Some (r, w') -> keeps_files w w'.
Proof.
  revert buf len_ fd w.
  induction fuel as [|fuel IH]; intros buf len_ fd w H; simpl in H.
  - destruct (len_ >? 0); [done|]. injection H as <- <-.
    apply keeps_files_refl.
  - destruct (len_ >? 0); [|injection H as <- <-; apply keeps_files_refl].
    wstep_as H res w1 Ew.
    apply sys_write_spec in Ew as (_ & Ht & Hres).
    destruct res as [e|[s fd1]].
    + assert (K1 : keeps_files w w1) by (by apply keeps_files_same).
      destruct (decide (e = EINTR)) as [->|Hne].
      * eapply keeps_files_trans; [exact K1|]. by eapply IH.
      * wstep_as H x w2 Ec. apply sys_close_spec in Ec as (_ & Hfs2).
        injection H as <- <-.
        eapply keeps_files_trans; [exact K1|]. by apply keeps_files_same.
    + destruct Hres as (_ & _ & _ & Hfs1).
      eapply keeps_files_trans; [by eapply keeps_files_update|].
      by eapply IH.
Qed.

Lemma write_to_file_keeps_files buf len_ fd dest do_fsync w r w' :
  write_to_file buf len_ fd dest do_fsync w = Some (r, w') ->
  keeps_files w w'.
Proof.
  intros H. unfold write_to_file in H.
  wstep_as H u w1 Ea.
  assert (K1 : keeps_files w w1).
  { destruct (len_ >? 0); [|injection Ea as <- <-; apply keeps_files_refl].
    wstep_as Ea x w0 Ef. injection Ea as <- <-.
    apply sys_fallocate_spec in Ef as (_ & Ht & Hr).
    destruct x; [by apply keeps_files_same|by eapply keeps_files_update]. }
  unfold wbind at 1 in H. cbv beta iota in H.
  wstep_as H res w3 El. apply write_loop_keeps_files in El.
  assert (K3 : keeps_files w w3) by (by eapply keeps_files_trans).
  destruct res as [err|fd']; [by injection H as <- <-|].
  wstep_as H synced w4 Es.
  assert (K4 : keeps_files w w4).
  { eapply keeps_files_trans; [exact K3|]. apply keeps_files_same.
    destruct do_fsync; [|by injection Es as <- <-].
    by apply sys_fsync_spec in Es as (_ & ->). }
  destruct synced as [e|].
  - wstep_as H x w5 Ec. apply sys_close_spec in Ec as (_ & Hfs5).
    injection H as <- <-.
    eapply keeps_files_trans; [exact K4|]. by apply keeps_files_same.
  - apply g_close_spec in H as (x & _ & Hfs5 & _).
    eapply keeps_files_trans; [exact K4|]. by apply keeps_files_same.
Qed.

Definition lstat_wants_fsync (res : errno + Z) : bool :=
  match res with
  | inr st_size => st_size >? 0
  | inl e => negb (bool_decide (e = ENOENT))
  end.

Definition any_durability (flags : Z) : bool :=
  has_flag flags (Z.lor G_FILE_SET_CONTENTS_CONSISTENT
                        G_FILE_SET_CONTENTS_DURABLE).

Lemma fd_should_be_fsynced_spec fd test_file flags w b w' :
  fd_should_be_fsynced fd test_file flags w = Some (b, w') ->
  exists lst,
    calls w' = calls w ++ lst /\ fs w' = fs w /\ consumes w w' /\
    now_us w' = now_us w /\ counter w' = counter w /\
    if any_durability flags
       && has_flag flags G_FILE_SET_CONTENTS_ONLY_EXISTING
    then exists res, lst = [CLstat test_file res] /\ b = lstat_wants_fsync res
    else lst = [] /\ b = any_durability flags.
Proof.
  intros H. unfold fd_should_be_fsynced in H. fold (any_durability flags) in H.
  destruct (any_durability flags
            && has_flag flags G_FILE_SET_CONTENTS_ONLY_EXISTING).
  - wstep H El. apply sys_lstat_spec in El as ([C S _ N K] & Hfs).
    destruct s as [e|[m size]].
    + destruct (decide (e = ENOENT)) as [->|Hne]; injection H as <- <-;
        (eexists; split; [exact C|]; do 4 (split; [done|]));
        eexists; (split; [reflexivity|]); unfold lstat_wants_fsync.
      * by rewrite bool_decide_eq_true_2.
      * by rewrite bool_decide_eq_false_2.
    + injection H as <- <-.
      eexists; split; [exact C|]; do 4 (split; [done|]).
      by eexists.
  - injection H as <- <-. exists [].
    split; [by rewrite app_nil_r|]. split; [done|].
    split; [apply consumes_refl|]. done.
Qed.

Definition is_dir_call (p : string) (c : call) : Prop :=
  (exists r, c = COpenDirOf p r) \/ (exists r, c = CFsyncDirOf p r) \/
  (exists r, c = CCloseDirOf p r).

Lemma rename_file_spec old new do_fsync w r w' :
  rename_file old new do_fsync w = Some (r, w') ->
  exists x dirs,
    calls w' = calls w ++ [CRename old new x] ++ dirs /\
    Forall (is_dir_call new) dirs /\
    match r with
    | Some err =>
        exists e, x = Some e /\ dirs = [] /\ fs w' = fs w /\
                  err = mkGError (g_file_error_from_errno e) MsgRename old e
    | None =>
        x = None /\ (do_fsync = false -> dirs = []) /\
        exists f, fs w !! old = Some f /\
                  fs w' = <[new := f]> (delete old (fs w))
    end.
Proof.
  intros H. unfold rename_file in H. wstep H Er.
  apply sys_rename_spec in Er as ([C S _ N K] & Hfs).
  destruct o as [e|].
  - injection H as <- <-. exists (Some e), [].
    split; [done|]. split; [constructor|]. by exists e.
  - wstep H Ed. injection H as <- <-.
    assert (exists dirs,
      calls w1 = calls w0 ++ dirs /\ fs w1 = fs w0 /\
      Forall (is_dir_call new) dirs /\ (do_fsync = false -> dirs = []))
      as (dirs & Hc & Hf & Hall & Hno).
    { destruct do_fsync.
      - wstep Ed Eo. apply sys_open_dir_of_spec in Eo as ([C1 _ _ _ _] & F1).
        destruct o as [e|].
        + injection Ed as <- <-. eexists. split; [exact C1|]. split; [done|].
          split; [|done].
          apply Forall_cons_2; [left; by eexists|constructor].
        + wstep Ed Es. apply sys_fsync_dir_of_spec in Es as ([C2 _ _ _ _] & F2).
          wstep Ed Ec. apply sys_close_dir_of_spec in Ec as ([C3 _ _ _ _] & F3).
          injection Ed as <- <-.
          exists [COpenDirOf new None; CFsyncDirOf new o; CCloseDirOf new o0].
          split; [rewrite C3, C2, C1, <- !app_assoc; done|].
          split; [congruence|]. split; [|done].
          apply Forall_cons_2; [left; by eexists|].
          apply Forall_cons_2; [right; left; by eexists|].
          apply Forall_cons_2; [right; right; by eexists|constructor].
      - injection Ed as <- <-. exists []. split; [by rewrite app_nil_r|].
        split; [done|]. split; [constructor|done]. }
    exists None, dirs. split; [rewrite Hc, C, <- app_assoc; done|].
    split; [done|]. split; [done|]. split; [done|].
    destruct Hfs as (f & Hf1 & Hf2). exists f. split; [done|congruence].
Qed.

Lemma truncate_file_loop_spec fuel fd n dest w r w' :
  truncate_file_loop fuel fd n dest w = Some (r, w') ->
  exists cs,
    on_path (fd_path fd) w w' cs /\
    Forall (fun c => exists x, c = CFtruncate (fd_path fd) n x) cs /\
    match r with
    | Some err => True
    | None =>
        In (CFtruncate (fd_path fd) n None) cs /\
        fs w' !! fd_path fd
        = (fun f => mkFile (resize (f_bytes f) (Z.to_nat n)) (f_mode f))
            <$> fs w !! fd_path fd
    end.
Proof.
  revert w r w'. induction fuel as [|fuel IH]; intros w r w' H; [done|].
  simpl in H. wstep H Et.
  apply sys_ftruncate_spec in Et as (Hio & Ht & Hfs).
  pose proof (on_path_step _ _ _ _ Hio Ht) as Hop.
  destruct o as [e|].
  - destruct (decide (e = EINTR)) as [->|Hne].
    + apply IH in H as (cs & Hcs & Hall & Hr).
      exists (CFtruncate (fd_path fd) n (Some EINTR) :: cs).
      split; [by eapply on_path_cons|].
      split; [apply Forall_cons_2; [by eexists|done]|].
      destruct r; [done|]. destruct Hr as [Hin Hr].
      split; [by right|]. by rewrite Hr, Hfs.
    + injection H as <- <-. eexists. split; [exact Hop|].
      split; [|done]. apply Forall_cons_2; [by eexists|constructor].
  - injection H as <- <-. eexists. split; [exact Hop|].
    split; [apply Forall_cons_2; [by eexists|constructor]|].
    split; [by left|done].
Qed.

Lemma string_length_app (s1 s2 : string) :
  String.length (s1 +:+ s2) = (String.length s1 + String.length s2)%nat.
Proof. induction s1 as [|c s1 IH]; simpl; [done|]. by rewrite IH. Qed.

Lemma tmp_name_fresh filename v :
  (filename +:+ ".") +:+ fill_in v +:+ "" <> filename.
Proof.
  intros H. apply (f_equal String.length) in H.
  rewrite !string_length_app in H. simpl in H. lia.
Qed.

Definition is_failed_open (c : call) : Prop :=
  exists q e, c = COpen q true true (Some e).

Lemma get_tmp_file_loop_spec n before after value mode tmpl w r w' :
  get_tmp_file_loop n before after value wrap_g_open true true mode tmpl w
  = Some (r, w') ->
  exists opens,
    Forall is_failed_open opens /\ consumes w w' /\
    now_us w' = now_us w /\ counter w' = counter w /\
    match r with
    | inl (e, name) => calls w' = calls w ++ opens /\ fs w' = fs w
    | inr (fd, tmp) =>
        calls w' = calls w ++ opens ++ [COpen tmp true true None] /\
        fd = mkFd tmp 0 /\ fs w !! tmp = None /\
        fs w' = <[tmp := mkFile [] mode]> (fs w) /\
        exists v, tmp = before +:+ fill_in v +:+ after
    end.
Proof.
  revert value tmpl w r w'.
  induction n as [|n IH]; intros value tmpl w r w' H.
  - injection H as <- <-. exists []. split; [constructor|].
    split; [apply consumes_refl|]. by rewrite app_nil_r.
  - simpl in H. wstep H Eo. unfold wrap_g_open in Eo.
    apply sys_open_spec in Eo as ([C S _ N K] & Ht & Hr).
    destruct s as [e|fd].
    + destruct (decide (e = EEXIST)) as [->|Hne].
      * apply IH in H as (opens & Hall & S2 & N2 & K2 & Hres).
        exists (COpen (before +:+ fill_in value +:+ after) true true
                  (Some EEXIST) :: opens).
        split; [apply Forall_cons_2; [by eexists _, _|done]|].
        split; [by eapply consumes_trans|].
        split; [congruence|]. split; [congruence|].
        destruct r as [[e name]|[fd tmp]].
        -- destruct Hres as [-> ->]. split; [|done].
           by rewrite C, <- app_assoc.
        -- destruct Hres as (-> & -> & Hnone & -> & Hv).
           rewrite Hr in *. split; [by rewrite C, <- app_assoc|]. done.
      * injection H as <- <-. eexists [_].
        split; [apply Forall_cons_2; [by eexists _, _|constructor]|].
        done.
    + injection H as <- <-. exists [].
      destruct Hr as [-> Hr].
      destruct (fs w !! (before +:+ fill_in value +:+ after)) eqn:Ef;
        [by destruct Hr|].
      destruct Hr as [_ Hr].
      split; [constructor|]. do 3 (split; [done|]).
      split; [done|]. split; [done|]. split; [done|]. split; [done|].
      by eexists.
Qed.

Lemma g_mkstemp_full_spec before after mode w r w' :
  g_mkstemp_full before after mode w = Some (r, w') ->
  exists opens,
    Forall is_failed_open opens /\ consumes w w' /\
    match r with
    | inl (e, name) => calls w' = calls w ++ opens /\ fs w' = fs w
    | inr (fd, tmp) =>
        calls w' = calls w ++ opens ++ [COpen tmp true true None] /\
        fd = mkFd tmp 0 /\ fs w !! tmp = None /\
        fs w' = <[tmp := mkFile [] mode]> (fs w) /\
        exists v, tmp = before +:+ fill_in v +:+ after
    end.
Proof.
  intros H. unfold g_mkstemp_full, get_tmp_file in H.
  unfold wbind at 1 in H. unfold wbind at 1 in H.
  apply get_tmp_file_loop_spec in H as (opens & Hall & S & _ & _ & Hr).
  exists opens. split; [done|]. split; [done|]. exact Hr.
Qed.


(** ** The consistent branch *)

(** The calls between the creation of the temporary file and the write:
    [chm] is the permission copy, [lst] the [lstat] of the target, and
    [do_fsync] the decision of [fd_should_be_fsynced]. *)
Definition prelude (filename tmp : string) (flags : Z)
    (chm lst : list call) (do_fsync : bool) : Prop :=
  (chm = [] \/ exists m, chm = [CFchmod tmp m None]) /\
  if any_durability flags && has_flag flags G_FILE_SET_CONTENTS_ONLY_EXISTING
  then exists res, lst = [CLstat filename res] /\
                   do_fsync = lstat_wants_fsync res
  else lst = [] /\ do_fsync = any_durability flags.

Definition data_part (tmp : string) (do_fsync : bool) (data : list call)
  : Prop :=
  Forall (is_data_call tmp) data /\
  (do_fsync = false -> forall x, ~ In (CFsync tmp x) data).

(** The calls made once the temporary file [tmp] exists, by outcome. *)
Inductive consistent_tail (filename tmp : string) (flags : Z)
  : bool * option GError -> list call -> Prop :=
| tail_chmod_failed m e r :
    consistent_tail filename tmp flags
      (false, Some (set_file_error tmp MsgChmod e))
      [CStat filename None; CFchmod tmp m (Some e); CUnlink tmp r]
| tail_write_failed st chm lst do_fsync data err r :
    prelude filename tmp flags chm lst do_fsync ->
    data_part tmp do_fsync data ->
    write_failure tmp tmp err data ->
    consistent_tail filename tmp flags (false, Some err)
      ([CStat filename st] ++ chm ++ lst ++ data ++ [CUnlink tmp r])
| tail_rename_failed st chm lst do_fsync data e r :
    prelude filename tmp flags chm lst do_fsync ->
    data_part tmp do_fsync data ->
    (do_fsync = true -> In (CFsync tmp None) data) ->
    consistent_tail filename tmp flags
      (false, Some (mkGError (g_file_error_from_errno e) MsgRename tmp e))
      ([CStat filename st] ++ chm ++ lst ++ data
       ++ [CRename tmp filename (Some e); CUnlink tmp r])
| tail_renamed st chm lst do_fsync data dirs :
    prelude filename tmp flags chm lst do_fsync ->
    data_part tmp do_fsync data ->
    (do_fsync = true -> In (CFsync tmp None) data) ->
    Forall (is_dir_call filename) dirs ->
    (do_fsync = false -> dirs = []) ->
    consistent_tail filename tmp flags (true, None)
      ([CStat filename st] ++ chm ++ lst ++ data
       ++ [CRename tmp filename None] ++ dirs).

Lemma unlink_restores tmp (m0 mk : gmap string file) :
  m0 !! tmp = None -> (forall q, q <> tmp -> mk !! q = m0 !! q) ->
  delete tmp mk = m0.
Proof.
  intros Hnone Hagree. apply map_eq. intros q.
  destruct (decide (q = tmp)) as [->|Hne].
  - by rewrite lookup_delete_eq.
  - rewrite lookup_delete_ne by done. by apply Hagree.
Qed.

(** The effect on the file system of a failed run that created [tmp]: the
    last call is the unlink of [tmp]; when it succeeds the file system is as
    it was, and when it fails [tmp] is left behind and is the only
    change. *)
Definition cleaned_up (filename tmp : string) (w w' : world)
    (tail : list call) : Prop :=
  fs w' !! filename = fs w !! filename /\
  exists pre r,
    tail = pre ++ [CUnlink tmp r] /\ (r = None -> fs w' = fs w) /\
    (r <> None -> is_Some (fs w' !! tmp) /\ touches tmp w w').

Lemma unlink_cleans filename tmp w wk w' r pre :
  tmp <> filename -> fs w !! tmp = None -> touches tmp w wk ->
  is_Some (fs wk !! tmp) ->
  match r with
  | Some _ => fs w' = fs wk
  | None => fs w' = delete tmp (fs wk)
  end ->
  cleaned_up filename tmp w w' (pre ++ [CUnlink tmp r]).
Proof.
  intros Hne Hnone Ht Hex Hfs. split.
  - destruct r; rewrite Hfs.
    + apply Ht. congruence.
    + rewrite lookup_delete_ne by done. apply Ht. congruence.
  - exists pre, r. split; [done|]. split.
    + intros ->. rewrite Hfs. by apply unlink_restores.
    + destruct r as [e|]; [intros _|done]. rewrite Hfs.
      split; [done|]. intros q Hq. rewrite Hfs. by apply Ht.
Qed.

Lemma set_contents_consistent_spec filename buf len_ flags mode w ret w' :
  set_contents_consistent filename buf len_ flags mode w = Some (ret, w') ->
  exists opens,
    Forall is_failed_open opens /\
    ((exists e name,
        ret = (false, Some (set_file_error name MsgCreate e)) /\
        calls w' = calls w ++ opens /\ fs w' = fs w) \/
     (exists tmp tail,
        tmp <> filename /\ fs w !! tmp = None /\
        calls w' = calls w ++ opens ++ [COpen tmp true true None] ++ tail /\
        consistent_tail filename tmp flags ret tail /\
        if fst ret then
          0 <= len_ <= Z.of_nat (length buf) ->
          exists f, fs w' !! filename = Some f /\
                    f_bytes f = take (Z.to_nat len_) buf
        else cleaned_up filename tmp w w' tail)).
Proof.
  intros H. unfold set_contents_consistent in H.
  wstep_as H tmpr w0 Em.
  apply g_mkstemp_full_spec in Em as (opens & Hopens & _ & Hm).
  exists opens. split; [done|].
  destruct tmpr as [[e name]|[fd tmp]].
  { injection H as <- <-. left. exists e, name. by destruct Hm. }
  right. destruct Hm as (C0 & -> & Hnone & Hfs0 & v & Hv).
  assert (Hne : tmp <> filename) by (rewrite Hv; apply tmp_name_fresh).
  assert (T0 : touches tmp w w0).
  { intros q Hq. rewrite Hfs0. by rewrite lookup_insert_ne. }
  assert (F0 : fs w0 !! tmp = Some (mkFile [] mode)).
  { rewrite Hfs0. apply lookup_insert_eq. }
  exists tmp.
  (* stat *)
  wstep_as H s w1 Es. apply sys_stat_spec in Es as ([C1 _ _ _ _] & Hfs1).
  (* fchmod *)
  wstep_as H o w2 Ec.
  assert (exists chm,
    calls w2 = calls w1 ++ chm /\ touches tmp w1 w2 /\
    match o with
    | Some e =>
        exists m, s = inr m /\ chm = [CFchmod tmp (fst m) (Some e)] /\
                  fs w2 = fs w1
    | None =>
        (chm = [] \/ exists m, chm = [CFchmod tmp m None]) /\
        exists md, fs w2 !! tmp = Some (mkFile [] md)
    end) as (chm & C2 & T2 & Hchm).
  { destruct s as [e|[st_mode st_size]].
    - injection Ec as <- <-. exists []. split; [by rewrite app_nil_r|].
      split; [apply touches_refl|]. split; [by left|].
      exists mode. by rewrite Hfs1.
    - apply sys_fchmod_spec in Ec as ([C _ _ _ _] & T & Hr). simpl in *.
      eexists. split; [exact C|]. split; [done|].
      destruct o as [e|].
      + exists (st_mode, st_size). done.
      + split; [right; by eexists|].
        rewrite Hr, Hfs1, F0. simpl. by eexists. }
  assert (T02 : touches tmp w w2).
  { eapply touches_trans; [exact T0|].
    eapply touches_trans; [by apply touches_same|exact T2]. }
  destruct o as [e|].
  { (* the permission copy failed *)
    destruct Hchm as (m & -> & -> & Hfs2).
    wstep_as H ur w3 Eu. injection H as <- <-.
    apply sys_unlink_spec in Eu as ([C3 _ _ _ _] & Hfs3).
    eexists. split; [done|]. split; [done|].
    split.
    { rewrite C3, C2, C1, C0, <- ?app_assoc. simpl. reflexivity. }
    split; [apply tail_chmod_failed|].
    cbn [fst].
    apply (unlink_cleans filename tmp w w2 w3 ur
             [CStat filename None; CFchmod tmp (fst m) (Some e)]); try done.
    by rewrite Hfs2, Hfs1, F0. }
  destruct Hchm as (Hchm & md & F2).
  (* the fsync decision *)
  wstep_as H b w3 Ef.
  apply fd_should_be_fsynced_spec in Ef
    as (lst & C3 & Hfs3 & _ & _ & _ & Hlst).
  assert (Hprel : prelude filename tmp flags chm lst b) by (by split).
  (* the write *)
  wstep_as H wr w4 Ew.
  assert (F4 : is_Some (fs w4 !! tmp)).
  { apply (write_to_file_keeps_files _ _ _ _ _ _ _ _ Ew).
    by rewrite Hfs3, F2. }
  apply write_to_file_spec in Ew
    as (data & [C4 T4 _ _ _] & Hdata & Hnosync & Hwr).
  simpl in C4, T4, Hdata, Hnosync, Hwr.
  assert (Hdp : data_part tmp b data) by (by split).
  assert (T04 : touches tmp w w4).
  { eapply touches_trans; [exact T02|].
    eapply touches_trans; [by apply touches_same|exact T4]. }
  assert (Hcalls4 :
    calls w4 = calls w ++ opens ++ [COpen tmp true true None]
               ++ [CStat filename (match s with
                                   | inl e => Some e
                                   | inr _ => None
                                   end)] ++ chm ++ lst ++ data).
  { rewrite C4, C3, C2, C1, C0, <- ?app_assoc. reflexivity. }
  destruct wr as [err|].
  { (* the write failed *)
    wstep_as H ur w5 Eu. injection H as <- <-.
    apply sys_unlink_spec in Eu as ([C5 _ _ _ _] & Hfs5).
    exists ([CStat filename (match s with
                             | inl e => Some e
                             | inr _ => None
                             end)] ++ chm ++ lst ++ data ++ [CUnlink tmp ur]).
    split; [done|]. split; [done|].
    split; [rewrite C5, Hcalls4, <- ?app_assoc; reflexivity|].
    split; [by eapply tail_write_failed|].
    cbn [fst]. rewrite !app_assoc.
    eapply unlink_cleans; done. }
  destruct Hwr as (Hsynced & Hcontent).
  (* the rename *)
  wstep_as H rr w5 Er.
  apply rename_file_spec in Er as (x & dirs & C5 & Hdirs & Hren).
  destruct rr as [rename_error|].
  { destruct Hren as (e & -> & -> & Hfs5 & ->).
    wstep_as H ur w6 Eu. injection H as <- <-.
    apply sys_unlink_spec in Eu as ([C6 _ _ _ _] & Hfs6).
    exists ([CStat filename (match s with
                             | inl e => Some e
                             | inr _ => None
                             end)] ++ chm ++ lst ++ data
            ++ [CRename tmp filename (Some e); CUnlink tmp ur]).
    split; [done|]. split; [done|].
    split.
    { rewrite C6, C5, Hcalls4, <- ?app_assoc. simpl. reflexivity. }
    split; [by eapply tail_rename_failed|].
    cbn [fst].
    replace ([CStat filename (match s with
                              | inl e => Some e
                              | inr _ => None
                              end)] ++ chm ++ lst ++ data
             ++ [CRename tmp filename (Some e); CUnlink tmp ur])
      with (([CStat filename (match s with
                              | inl e => Some e
                              | inr _ => None
                              end)] ++ chm ++ lst ++ data
             ++ [CRename tmp filename (Some e)]) ++ [CUnlink tmp ur])
      by (rewrite <- ?app_assoc; reflexivity).
    eapply (unlink_cleans filename tmp w w5); [done|done| | |done].
    - eapply touches_trans; [exact T04|by apply touches_same].
    - by rewrite Hfs5. }
  destruct Hren as (-> & Hnodirs & f & Hf & Hfs5).
  injection H as <- <-.
  exists ([CStat filename (match s with
                           | inl e => Some e
                           | inr _ => None
                           end)] ++ chm ++ lst ++ data
          ++ [CRename tmp filename None] ++ dirs).
  split; [done|]. split; [done|].
  split; [rewrite C5, Hcalls4, <- ?app_assoc; reflexivity|].
  split; [by eapply tail_renamed|].
  cbn [fst]. intros Hlen.
  rewrite Hfs5, lookup_insert_eq. exists f. split; [done|].
  rewrite <- Hfs3 in F2.
  rewrite (Hcontent _ F2 eq_refl eq_refl Hlen) in Hf.
  by injection Hf as <-.
Qed.


(** ** The whole function *)

Lemma consistent_implies_any flags :
  has_flag flags G_FILE_SET_CONTENTS_CONSISTENT = true ->
  any_durability flags = true.
Proof.
  unfold any_durability, has_flag. intros H.
  apply negb_true_iff, Z.eqb_neq in H. apply negb_true_iff, Z.eqb_neq.
  intros H0. apply H.
  change G_FILE_SET_CONTENTS_CONSISTENT
    with (Z.land (Z.lor G_FILE_SET_CONTENTS_CONSISTENT
                        G_FILE_SET_CONTENTS_DURABLE)
                 G_FILE_SET_CONTENTS_CONSISTENT).
  by rewrite Z.land_assoc, H0.
Qed.

Lemma has_flag_lor_consistent flags :
  has_flag (Z.lor flags G_FILE_SET_CONTENTS_CONSISTENT)
           G_FILE_SET_CONTENTS_CONSISTENT = true.
Proof.
  unfold has_flag. apply negb_true_iff, Z.eqb_neq. intros H.
  apply (f_equal (fun z => Z.testbit z 0)) in H.
  rewrite Z.land_spec, Z.lor_spec in H. simpl in H.
  by rewrite orb_true_r in H.
Qed.

(** The length actually written: [strlen] when the caller passes -1. *)
Definition effective_length (contents : option (list Z)) (len_ : Z) : Z :=
  if len_ <? 0 then strlen (default [] contents) else len_.

(** The checks of the [g_return_val_if_fail] lines. *)
Definition accepted (contents : option (list Z)) (len_ : Z) : Prop :=
  (contents <> None \/ len_ = 0) /\ -1 <= len_.

Lemma strlen_range buf : 0 <= strlen buf <= Z.of_nat (length buf).
Proof.
  induction buf as [|c buf IH]; simpl; [lia|].
  destruct (c =? 0); lia.
Qed.

Lemma accepted_checks contents len_ :
  accepted contents len_ ->
  negb (bool_decide (contents <> None) || (len_ =? 0)) = false /\
  negb (len_ >=? -1) = false.
Proof.
  intros [[Hc|Hl] Hge]; split.
  - by rewrite bool_decide_eq_true_2.
  - destruct (Z.geb_spec len_ (-1)); [done|lia].
  - subst. by rewrite orb_true_r.
  - destruct (Z.geb_spec len_ (-1)); [done|lia].
Qed.

Lemma full_consistent filename contents len_ flags mode w :
  accepted contents len_ ->
  has_flag flags G_FILE_SET_CONTENTS_CONSISTENT = true ->
  g_file_set_contents_full filename contents len_ flags mode w
  = set_contents_consistent filename (default [] contents)
      (effective_length contents len_) flags mode w.
Proof.
  intros Hacc Hc. destruct (accepted_checks _ _ Hacc) as [H1 H2].
  unfold g_file_set_contents_full. simpl.
  rewrite H1, H2, Hc. reflexivity.
Qed.

Lemma rejected_result filename contents len_ flags mode w ret w' :
  g_file_set_contents_full filename contents len_ flags mode w
  = Some (ret, w') ->
  accepted contents len_ \/ (ret = (false, None) /\ w' = w).
Proof.
  intros H. unfold g_file_set_contents_full in H. simpl in H.
  destruct (bool_decide (contents <> None) || (len_ =? 0)) eqn:E1; simpl in H.
  - destruct (Z.geb_spec len_ (-1)) as [Hge|Hlt]; simpl in H.
    + left. split; [|lia].
      apply orb_true_iff in E1 as [E1|E1].
      * left. by apply bool_decide_eq_true in E1.
      * right. by apply Z.eqb_eq.
    + right. by injection H as <- <-.
  - right. by injection H as <- <-.
Qed.

(** The calls of the step whose failure the error [err] reports. *)
Inductive reported (filename tmp : string) (err : GError)
  : list call -> Prop :=
| rep_chmod m :
    err_message err = MsgChmod ->
    reported filename tmp err [CFchmod tmp m (Some (err_errno err))]
| rep_write x :
    err_message err = MsgWrite ->
    reported filename tmp err
      [CWrite tmp (inl (err_errno err)); CClose tmp x]
| rep_fsync x :
    err_message err = MsgFsync ->
    reported filename tmp err
      [CFsync tmp (Some (err_errno err)); CClose tmp x]
| rep_close :
    err_message err = MsgClose ->
    reported filename tmp err [CClose tmp (Some (err_errno err))]
| rep_rename :
    err_message err = MsgRename ->
    reported filename tmp err [CRename tmp filename (Some (err_errno err))].

Lemma write_failure_reported filename tmp err data :
  write_failure tmp tmp err data ->
  exists before step,
    data = before ++ step /\ reported filename tmp err step /\
    err_code err = g_file_error_from_errno (err_errno err).
Proof.
  intros [(pre & e & x & -> & ->)|[(pre & e & x & -> & ->)|(pre & e & -> & ->)]].
  - exists pre, [CWrite tmp (inl e); CClose tmp x].
    split; [done|]. split; [by apply rep_write|done].
  - exists pre, [CFsync tmp (Some e); CClose tmp x].
    split; [done|]. split; [by apply rep_fsync|done].
  - exists pre, [CClose tmp (Some e)].
    split; [done|]. split; [by apply rep_close|done].
Qed.

Lemma consistent_tail_failure filename tmp flags err tail :
  consistent_tail filename tmp flags (false, Some err) tail ->
  exists before step r,
    tail = before ++ step ++ [CUnlink tmp r] /\
    reported filename tmp err step /\
    err_code err = g_file_error_from_errno (err_errno err).
Proof.
  intros Htail.
  inversion Htail as [m e r0|st chm lst do_fsync data err0 r0 Hprel Hdp Hwf
                     |st chm lst do_fsync data e r0 Hprel Hdp Hsync|];
    subst.
  - exists [CStat filename None], [CFchmod tmp m (Some e)], r0.
    split; [done|]. split; [by apply rep_chmod|done].
  - destruct (write_failure_reported filename tmp err data Hwf)
      as (before & step & -> & Hrep & Hcode).
    exists ([CStat filename st] ++ chm ++ lst ++ before), step, r0.
    split; [by rewrite <- ?app_assoc|]. done.
  - exists ([CStat filename st] ++ chm ++ lst ++ data),
           [CRename tmp filename (Some e)], r0.
    split; [by rewrite <- ?app_assoc|]. split; [by apply rep_rename|done].
Qed.

(** C2: in consistent mode, a call that fails after the temporary file was
    created (permission copy, write, fsync, close or rename) reports the
    error of the failing step; its last system call is the unlink of the
    temporary file, whose result it ignores; the target is as it was. When
    that unlink succeeds the whole file system is as it was; when it fails
    the temporary file is left behind, and is the only change. *)
Theorem consistent_failure_cleans_up (filename : string)
    (contents : option (list Z)) (len_ flags mode : Z) (w w' : world)
    (err : GError)
    (Hflag : has_flag flags G_FILE_SET_CONTENTS_CONSISTENT = true)
    (Hrun : g_file_set_contents_full filename contents len_ flags mode w
            = Some ((false, Some err), w'))
    (Hcreated : err_message err <> MsgCreate) :
  exists tmp before step r,
    calls w' = calls w ++ before ++ step ++ [CUnlink tmp r] /\
    In (COpen tmp true true None) before /\
    reported filename tmp err step /\
    err_code err = g_file_error_from_errno (err_errno err) /\
    fs w !! tmp = None /\ tmp <> filename /\
    fs w' !! filename = fs w !! filename /\
    (r = None -> fs w' = fs w) /\
    (r <> None ->
     is_Some (fs w' !! tmp) /\
     forall q, q <> tmp -> fs w' !! q = fs w !! q).
Proof.
  destruct (rejected_result _ _ _ _ _ _ _ _ Hrun) as [Hacc|[Hret _]];
    [|discriminate].
  rewrite full_consistent in Hrun by done.
  apply set_contents_consistent_spec in Hrun
    as (opens & Hopens & [(e & name & Hret & _)
                           |(tmp & tail & Hne & Hnone & Hcalls
                             & Htail & Hclean)]).
  { injection Hret as ->. done. }
  cbn [fst] in Hclean.
  destruct Hclean as (Htarget & pre & r & Hpre & Hfs & Hleft).
  destruct (consistent_tail_failure _ _ _ _ _ Htail)
    as (before & step & r0 & Htl & Hrep & Hcode).
  rewrite Htl, !app_assoc in Hpre.
  apply app_inj_tail in Hpre as [_ [= ->]].
  exists tmp, (opens ++ [COpen tmp true true None] ++ before), step, r.
  split; [rewrite Hcalls, Htl, <- ?app_assoc; reflexivity|].
  split; [apply in_or_app; right; by left|].
  done.
Qed.

(** ** When the code calls fsync *)

Lemma data_call_fsync tmp p r data :
  Forall (is_data_call tmp) data -> In (CFsync p r) data -> p = tmp.
Proof.
  intros Hall Hin. rewrite Forall_forall in Hall.
  apply list_elem_of_In in Hin.
  destruct (Hall _ Hin) as [(n & x & E)|[(x & E)|[(x & E)|(x & E)]]];
    by inversion E.
Qed.

Lemma dir_call_not_fsync q p r dirs :
  Forall (is_dir_call q) dirs -> ~ In (CFsync p r) dirs.
Proof.
  intros Hall Hin. rewrite Forall_forall in Hall.
  apply list_elem_of_In in Hin.
  destruct (Hall _ Hin) as [(x & E)|[(x & E)|(x & E)]]; by inversion E.
Qed.

Lemma data_call_not_dir tmp p r data :
  Forall (is_data_call tmp) data -> ~ In (CFsyncDirOf p r) data.
Proof.
  intros Hall Hin. rewrite Forall_forall in Hall.
  apply list_elem_of_In in Hin.
  destruct (Hall _ Hin) as [(n & x & E)|[(x & E)|[(x & E)|(x & E)]]];
    by inversion E.
Qed.

Lemma failed_open_other c opens :
  Forall is_failed_open opens -> In c opens ->
  exists q e, c = COpen q true true (Some e).
Proof.
  intros Hall Hin. rewrite Forall_forall in Hall.
  apply list_elem_of_In in Hin. by apply Hall.
Qed.

(** Split a membership in a concatenation into its cases. *)
Ltac in_cases H :=
  repeat match type of H with
         | In _ (_ ++ _) => apply in_app_or in H as [H|H]
         | In _ (_ :: _) => destruct H as [H|H]
         | In _ [] => destruct H
         end.

Lemma prelude_no_fsync filename tmp flags chm lst do_fsync c :
  prelude filename tmp flags chm lst do_fsync ->
  In c (chm ++ lst) ->
  (exists m, c = CFchmod tmp m None) \/ (exists res, c = CLstat filename res).
Proof.
  intros [[->|(m & ->)] Hlst] Hin;
    destruct (any_durability flags
              && has_flag flags G_FILE_SET_CONTENTS_ONLY_EXISTING);
    [destruct Hlst as (res & -> & _)|destruct Hlst as (-> & _)
    |destruct Hlst as (res & -> & _)|destruct Hlst as (-> & _)];
    in_cases Hin; subst; eauto.
Qed.

Lemma prelude_fsync_reason filename tmp flags chm lst :
  any_durability flags = true ->
  prelude filename tmp flags chm lst true ->
  has_flag flags G_FILE_SET_CONTENTS_ONLY_EXISTING = false \/
  exists res, In (CLstat filename res) lst /\ lstat_wants_fsync res = true.
Proof.
  intros Hany [_ Hlst]. rewrite Hany in Hlst. simpl in Hlst.
  destruct (has_flag flags G_FILE_SET_CONTENTS_ONLY_EXISTING); [|by left].
  right. destruct Hlst as (res & -> & Hres). exists res.
  split; [by left|done].
Qed.

Lemma consistent_tail_fsync filename tmp flags ret tail :
  any_durability flags = true ->
  consistent_tail filename tmp flags ret tail ->
  (forall p r, In (CFsync p r) tail ->
     has_flag flags G_FILE_SET_CONTENTS_ONLY_EXISTING = false \/
     exists res, In (CLstat filename res) tail /\
                 lstat_wants_fsync res = true) /\
  (forall p r, In (CFsyncDirOf p r) tail ->
     In (CFsync tmp None) tail /\ In (CRename tmp filename None) tail).
Proof.
  intros Hany Htail.
  assert (Hdata : forall st chm lst do_fsync data rest p r,
    prelude filename tmp flags chm lst do_fsync ->
    data_part tmp do_fsync data ->
    (forall c, In c rest -> c <> CFsync p r) ->
    In (CFsync p r) ([CStat filename st] ++ chm ++ lst ++ data ++ rest) ->
    has_flag flags G_FILE_SET_CONTENTS_ONLY_EXISTING = false \/
    exists res,
      In (CLstat filename res)
         ([CStat filename st] ++ chm ++ lst ++ data ++ rest) /\
      lstat_wants_fsync res = true).
  { intros st chm lst do_fsync data rest p r Hprel [Hall Hno] Hrest Hin.
    rewrite (app_assoc chm) in Hin.
    apply in_app_or in Hin as [Hin|Hin]; [in_cases Hin; discriminate|].
    apply in_app_or in Hin as [Hin|Hin].
    { destruct (prelude_no_fsync _ _ _ _ _ _ _ Hprel Hin)
        as [(m & E)|(res & E)]; discriminate. }
    apply in_app_or in Hin as [Hin|Hin]; [|by destruct (Hrest _ Hin)].
    assert (p = tmp) as -> by (by eapply data_call_fsync).
    destruct do_fsync; [|by destruct (Hno eq_refl r)].
    destruct (prelude_fsync_reason _ _ _ _ _ Hany Hprel)
      as [?|(res & Hres & Hw)]; [by left|].
    right. exists res. split; [|done].
    apply in_or_app. right. apply in_or_app. right.
    apply in_or_app. by left. }
  inversion Htail as [m e r0|st chm lst do_fsync data err0 r0 Hprel Hdp Hwf
                     |st chm lst do_fsync data e r0 Hprel Hdp Hsync
                     |st chm lst do_fsync data dirs Hprel Hdp Hsync Hdirs
                        Hnodirs]; subst.
  - split; intros p r Hin; in_cases Hin; discriminate.
  - split.
    + intros p r Hin. eapply Hdata; [done..| |exact Hin].
      intros c Hc. in_cases Hc. by subst.
    + intros p r Hin. rewrite (app_assoc chm) in Hin.
      apply in_app_or in Hin as [Hin|Hin]; [in_cases Hin; discriminate|].
      apply in_app_or in Hin as [Hin|Hin].
      { destruct (prelude_no_fsync _ _ _ _ _ _ _ Hprel Hin)
          as [(m & E)|(res & E)]; discriminate. }
      apply in_app_or in Hin as [Hin|Hin];
        [by destruct (data_call_not_dir _ _ _ _ (proj1 Hdp) Hin)|].
      in_cases Hin; discriminate.
  - split.
    + intros p r Hin. eapply Hdata; [done..| |exact Hin].
      intros c Hc. in_cases Hc; by subst.
    + intros p r Hin. rewrite (app_assoc chm) in Hin.
      apply in_app_or in Hin as [Hin|Hin]; [in_cases Hin; discriminate|].
      apply in_app_or in Hin as [Hin|Hin].
      { destruct (prelude_no_fsync _ _ _ _ _ _ _ Hprel Hin)
          as [(m & E)|(res & E)]; discriminate. }
      apply in_app_or in Hin as [Hin|Hin];
        [by destruct (data_call_not_dir _ _ _ _ (proj1 Hdp) Hin)|].
      in_cases Hin; discriminate.
  - split.
    + intros p r Hin. eapply Hdata; [done..| |exact Hin].
      intros c Hc Hcc. subst c.
      apply in_app_or in Hc as [Hc|Hc]; [in_cases Hc; discriminate|].
      by eapply dir_call_not_fsync.
    + intros p r Hin.
      assert (do_fsync = true) as ->.
      { destruct do_fsync; [done|]. rewrite (Hnodirs eq_refl) in Hin.
        rewrite (app_assoc chm) in Hin.
        apply in_app_or in Hin as [Hin|Hin]; [in_cases Hin; discriminate|].
        apply in_app_or in Hin as [Hin|Hin].
        { destruct (prelude_no_fsync _ _ _ _ _ _ _ Hprel Hin)
            as [(m & E)|(res & E)]; discriminate. }
        apply in_app_or in Hin as [Hin|Hin];
          [by destruct (data_call_not_dir _ _ _ _ (proj1 Hdp) Hin)|].
        in_cases Hin; discriminate. }
      split.
      * apply in_or_app. right. apply in_or_app. right.
        apply in_or_app. right. apply in_or_app. left. by apply Hsync.
      * apply in_or_app. right. apply in_or_app. right.
        apply in_or_app. right. apply in_or_app. right. by left.
Qed.

(** What the code does in consistent mode: the data of the temporary file
    is fsynced only when the only-existing qualifier is unset, or lstat on
    the target reports a size above 0 or fails with an error other than
    ENOENT; the containing directory is fsynced only after a successful
    rename and a successful fsync of the temporary file's data. *)
Lemma consistent_fsync_policy (filename : string)
    (contents : option (list Z)) (len_ flags mode : Z) (w w' : world)
    (ret : bool * option GError) (new : list call)
    (Hflag : has_flag flags G_FILE_SET_CONTENTS_CONSISTENT = true)
    (Hrun : g_file_set_contents_full filename contents len_ flags mode w
            = Some (ret, w'))
    (Hnew : calls w' = calls w ++ new) :
  (forall p r, In (CFsync p r) new ->
     has_flag flags G_FILE_SET_CONTENTS_ONLY_EXISTING = false \/
     exists res, In (CLstat filename res) new /\
                 match res with
                 | inr st_size => 0 < st_size
                 | inl e => e <> ENOENT
                 end) /\
  (forall p r, In (CFsyncDirOf p r) new ->
     exists tmp, In (CFsync tmp None) new /\
                 In (CRename tmp filename None) new).
Proof.
  assert (Hwants : forall res, lstat_wants_fsync res = true ->
            match res with
            | inr st_size => 0 < st_size
            | inl e => e <> ENOENT
            end).
  { intros [e|size]; simpl; intros H.
    - apply negb_true_iff in H. by apply bool_decide_eq_false in H.
    - destruct (Z.gtb_spec size 0); [lia|done]. }
  destruct (rejected_result _ _ _ _ _ _ _ _ Hrun) as [Hacc|[_ ->]].
  2:{ rewrite <- (app_nil_r (calls w)) in Hnew at 1.
      apply app_inv_head in Hnew as <-. by split; intros p r []. }
  rewrite full_consistent in Hrun by done.
  apply set_contents_consistent_spec in Hrun
    as (opens & Hopens & [(e & name & _ & Hcalls & _)
                           |(tmp & tail & _ & _ & Hcalls & Htail & _)]).
  - rewrite Hcalls in Hnew. apply app_inv_head in Hnew as <-.
    split; intros p r Hin;
      destruct (failed_open_other _ _ Hopens Hin) as (q & x & E);
      discriminate.
  - rewrite Hcalls in Hnew. apply app_inv_head in Hnew as <-.
    destruct (consistent_tail_fsync _ _ _ _ _
                (consistent_implies_any _ Hflag) Htail) as [Hs Hd].
    assert (Hlift : forall c, In c tail ->
              In c (opens ++ [COpen tmp true true None] ++ tail)).
    { intros c Hc. apply in_or_app. right. apply in_or_app. by right. }
    assert (Hdown : forall c,
              (forall q a b x, c <> COpen q a b x) ->
              In c (opens ++ [COpen tmp true true None] ++ tail) ->
              In c tail).
    { intros c Hc Hin. apply in_app_or in Hin as [Hin|Hin].
      - destruct (failed_open_other _ _ Hopens Hin) as (q & x & E).
        by destruct (Hc q true true (Some x)).
      - destruct Hin as [E|Hin]; [|done]. by destruct (Hc tmp true true None). }
    split.
    + intros p r Hin. apply Hdown in Hin; [|done].
      destruct (Hs p r Hin) as [?|(res & Hres & Hw)]; [by left|].
      right. exists res. split; [by apply Hlift|by apply Hwants].
    + intros p r Hin. apply Hdown in Hin; [|done].
      destruct (Hd p r Hin) as [H1 H2].
      exists tmp. split; by apply Hlift.
Qed.


(** ** Successful calls *)

Lemma accepted_effective contents len_ :
  accepted contents len_ ->
  accepted contents (effective_length contents len_) /\
  effective_length contents (effective_length contents len_)
  = effective_length contents len_ /\
  0 <= effective_length contents len_.
Proof.
  intros [Hc Hl]. unfold effective_length.
  pose proof (strlen_range (default [] contents)) as Hs.
  destruct (Z.ltb_spec len_ 0) as [Hneg|Hpos].
  - destruct (Z.ltb_spec (strlen (default [] contents)) 0); [lia|].
    split; [|split; [done|lia]]. split; [|lia].
    destruct Hc as [?|?]; [by left|lia].
  - destruct (Z.ltb_spec len_ 0); [lia|]. split; [by split|]. split; [done|lia].
Qed.

(** The calls of a direct write: the open, the optional lstat, the
    truncation and the data calls. *)
Definition direct_calls (filename : string) (new : list call) : Prop :=
  exists x lst truncs data,
    new = [COpen filename true false x] ++ lst ++ truncs ++ data /\
    (lst = [] \/ exists res, lst = [CLstat filename res]) /\
    Forall (fun c => exists r, c = CFtruncate filename 0 r) truncs /\
    In (CFtruncate filename 0 None) truncs /\
    Forall (is_data_call filename) data.

Lemma set_contents_success filename contents len_ flags mode w e w' :
  g_file_set_contents_full filename contents len_ flags mode w
  = Some ((true, e), w') ->
  effective_length contents len_
  <= Z.of_nat (length (default [] contents)) ->
  (exists f,
     fs w' !! filename = Some f /\
     f_bytes f = take (Z.to_nat (effective_length contents len_))
                      (default [] contents)) /\
  exists new,
    calls w' = calls w ++ new /\
    (direct_calls filename new \/
     (has_flag flags G_FILE_SET_CONTENTS_CONSISTENT = true \/
      exists rest, new = COpen filename true false (Some ELOOP) :: rest) /\
     forall x, ~ In (CWrite filename x) new).
Proof.
  intros Hrun Hlen.
  destruct (rejected_result _ _ _ _ _ _ _ _ Hrun) as [Hacc|[Hret _]];
    [|discriminate].
  destruct (accepted_effective _ _ Hacc) as (Hacc' & Heff & Hpos).
  assert (Hcons : forall fl w0 e0 w0',
    has_flag fl G_FILE_SET_CONTENTS_CONSISTENT = true ->
    set_contents_consistent filename (default [] contents)
      (effective_length contents len_) fl mode w0 = Some ((true, e0), w0') ->
    (exists f,
       fs w0' !! filename = Some f /\
       f_bytes f = take (Z.to_nat (effective_length contents len_))
                        (default [] contents)) /\
    exists new,
      calls w0' = calls w0 ++ new /\
      forall x, ~ In (CWrite filename x) new).
  { intros fl w0 e0 w0' Hfl Hc.
    apply set_contents_consistent_spec in Hc
      as (opens & Hopens & [(x & name & Hret & _)
                             |(tmp & tail & Hne & _ & Hcalls & Htail & Hok)]);
      [discriminate|].
    cbn [fst] in Hok. split; [apply Hok; lia|].
    eexists. split; [exact Hcalls|].
    intros x Hin. apply in_app_or in Hin as [Hin|Hin].
    { destruct (failed_open_other _ _ Hopens Hin) as (q & y & E).
      discriminate. }
    apply in_app_or in Hin as [Hin|Hin]; [in_cases Hin; discriminate|].
    inversion Htail as [| | |st chm lst do_fsync data dirs Hprel Hdp Hsync
                               Hdirs Hnodirs]; subst.
    rewrite (app_assoc chm) in Hin.
    apply in_app_or in Hin as [Hin|Hin]; [in_cases Hin; discriminate|].
    apply in_app_or in Hin as [Hin|Hin].
    { destruct (prelude_no_fsync _ _ _ _ _ _ _ Hprel Hin)
        as [(m & E)|(res & E)]; discriminate. }
    apply in_app_or in Hin as [Hin|Hin].
    { destruct Hdp as [Hall _]. rewrite Forall_forall in Hall.
      apply list_elem_of_In in Hin.
      destruct (Hall _ Hin) as [(n & y & E)|[(y & E)|[(y & E)|(y & E)]]];
        inversion E; by subst. }
    destruct Hin as [E|Hin]; [discriminate|].
    rewrite Forall_forall in Hdirs. apply list_elem_of_In in Hin.
    destruct (Hdirs _ Hin) as [(y & E)|[(y & E)|(y & E)]]; discriminate. }
  destruct (has_flag flags G_FILE_SET_CONTENTS_CONSISTENT) eqn:Hflag.
  { rewrite full_consistent in Hrun by done.
    destruct (Hcons _ _ _ _ Hflag Hrun) as (Hf & new & Hc & Hw).
    split; [done|]. exists new. split; [done|]. right. split; [by left|done]. }
  destruct (accepted_checks _ _ Hacc) as [H1 H2].
  unfold g_file_set_contents_full in Hrun.
  cbn [g_file_set_contents_full_rec] in Hrun.
  rewrite H1, H2, Hflag in Hrun. fold (effective_length contents len_) in Hrun.
  wstep_as Hrun fdr w1 Eo.
  apply sys_open_spec in Eo as ([C1 _ _ _ _] & T1 & Hopen).
  destruct fdr as [eo|fd].
  { destruct (decide (eo = ELOOP)) as [->|Hne]; [|done].
    destruct (accepted_checks _ _ Hacc') as [H1' H2'].
    rewrite H1', H2', has_flag_lor_consistent in Hrun.
    fold (effective_length contents (effective_length contents len_)) in Hrun.
    rewrite Heff in Hrun.
    destruct (Hcons _ _ _ _ (has_flag_lor_consistent flags) Hrun)
      as (Hf & new & Hc & Hw).
    split; [done|].
    exists (COpen filename true false (Some ELOOP) :: new).
    split; [rewrite Hc, C1, <- app_assoc; done|].
    right. split; [right; by eexists|].
    intros x [E|Hin]; [discriminate|by eapply Hw]. }
  destruct Hopen as [-> Hopen].
  assert (exists f1, fs w1 !! filename = Some f1) as [f1 F1].
  { destruct (fs w !! filename) as [f|] eqn:Ef.
    - destruct Hopen as [_ ->]. by exists f.
    - destruct Hopen as [_ ->]. rewrite lookup_insert_eq. by eexists. }
  wstep_as Hrun b w2 Ef.
  apply fd_should_be_fsynced_spec in Ef
    as (lst & C2 & Hfs2 & _ & _ & _ & Hlst).
  wstep_as Hrun tr w3 Et. unfold truncate_file in Et.
  apply truncate_file_loop_spec in Et as (truncs & [C3 _ _ _ _] & Htr & Hr3).
  simpl in C3, Htr, Hr3.
  destruct tr as [err|]; [done|]. destruct Hr3 as [Hin3 Hfs3].
  wstep_as Hrun wr w4 Ew.
  apply write_to_file_spec in Ew as (data & [C4 _ _ _ _] & Hdata & _ & Hwr).
  simpl in C4, Hdata, Hwr.
  destruct wr as [err|]; [done|]. injection Hrun as <- <-.
  destruct Hwr as [_ Hcontent].
  rewrite Hfs2, F1 in Hfs3. simpl in Hfs3.
  split.
  - eexists. split; [apply (Hcontent _ Hfs3 eq_refl eq_refl); lia|done].
  - exists ([COpen filename true false None] ++ lst ++ truncs ++ data).
    split; [rewrite C4, C3, C2, C1, <- ?app_assoc; reflexivity|].
    left. exists None, lst, truncs, data. split; [done|].
    split; [|done].
    destruct (any_durability flags
              && has_flag flags G_FILE_SET_CONTENTS_ONLY_EXISTING).
    + destruct Hlst as (res & -> & _). right. by exists res.
    + destruct Hlst as [-> _]. by left.
Qed.


Lemma prefix_before {A} (l1 l2 pre post : list A) (c : A) :
  l1 ++ l2 = pre ++ c :: post -> ~ In c l1 -> exists k, pre = l1 ++ k.
Proof.
  revert pre. induction l1 as [|a l1 IH]; intros pre E Hc; [by exists pre|].
  destruct pre as [|b pre]; simpl in E; injection E as -> E.
  - destruct Hc. by left.
  - destruct (IH pre E) as [k ->]; [|by exists k].
    intros Hin. apply Hc. by right.
Qed.

Lemma direct_calls_truncate_first filename new pre x post :
  direct_calls filename new ->
  new = pre ++ CWrite filename x :: post ->
  In (CFtruncate filename 0 None) pre.
Proof.
  intros (y & lst & truncs & data & -> & Hlst & Htr & Hin & _) E.
  rewrite !app_assoc in E.
  apply prefix_before in E as [k ->].
  - apply in_or_app. left. apply in_or_app. by right.
  - intros Hw. in_cases Hw; try discriminate.
    + destruct Hlst as [->|(res & ->)]; in_cases Hw; discriminate.
    + rewrite Forall_forall in Htr. apply list_elem_of_In in Hw.
      destruct (Htr _ Hw) as [r Er]. discriminate.
Qed.

(** C9: in direct mode (the consistent flag unset) two successive
    successful calls on the same file leave it holding exactly the second
    contents, with no trailing bytes of the first; the second call begins
    by opening the target itself, and every write to the target comes
    after a successful truncation of it to length zero. *)
Theorem direct_mode_replaces_contents (filename : string)
    (first second : list Z) (flags mode : Z) (w w1 w2 : world)
    (e1 e2 : option GError)
    (Hflag : has_flag flags G_FILE_SET_CONTENTS_CONSISTENT = false)
    (Hfirst : g_file_set_contents_full filename (Some first)
                (Z.of_nat (length first)) flags mode w
              = Some ((true, e1), w1))
    (Hsecond : g_file_set_contents_full filename (Some second)
                 (Z.of_nat (length second)) flags mode w1
               = Some ((true, e2), w2)) :
  (exists f, fs w1 !! filename = Some f /\ f_bytes f = first) /\
  (exists f, fs w2 !! filename = Some f /\ f_bytes f = second) /\
  exists x rest,
    calls w2 = calls w1 ++ COpen filename true false x :: rest /\
    forall pre y post,
      COpen filename true false x :: rest
      = pre ++ CWrite filename y :: post ->
      In (CFtruncate filename 0 None) pre.
Proof.
  assert (Heff : forall buf : list Z,
            effective_length (Some buf) (Z.of_nat (length buf))
            = Z.of_nat (length buf)).
  { intros buf. unfold effective_length.
    by destruct (Z.ltb_spec (Z.of_nat (length buf)) 0); [lia|]. }
  apply set_contents_success in Hfirst as [(f1 & F1 & B1) _];
    [|rewrite Heff; simpl; lia].
  apply set_contents_success in Hsecond as [(f2 & F2 & B2) Hcalls];
    [|rewrite Heff; simpl; lia].
  rewrite Heff, Nat2Z.id in B1, B2. simpl in B1, B2.
  rewrite firstn_all in B1, B2.
  split; [by exists f1|]. split; [by exists f2|].
  destruct Hcalls as (new & Hc & [Hdirect|[[Hcons|(rest & ->)] Hnone]]).
  - pose proof Hdirect as (x & lst & truncs & data & -> & _).
    eexists x, _. split; [exact Hc|].
    intros pre y post E. by eapply direct_calls_truncate_first.
  - congruence.
  - eexists _, rest. split; [exact Hc|].
    intros pre y post E. destruct (Hnone y). rewrite E.
    apply in_or_app. right. by left.
Qed.


(** ** Concrete runs *)

(** A world with an empty file system in which the system calls meet the
    fates of [s], in order, and succeed afterwards. *)
Definition scripted (s : list decision) : world :=
  mkWorld ∅ s [] 1700000000123456 0.

Definition world_after {A} (m : W A) (w : world) : world :=
  match m w with
  | Some (_, w') => w'
  | None => w
  end.

(** The bytes of "abc" and of "de". *)
Definition abc : list Z := [97; 98; 99].
Definition de : list Z := [100; 101].

(** A world in which "f" holds "de" with the permission bits 0600. *)
Definition with_target (s : list decision) : world :=
  mkWorld {["f" := mkFile de 384]} s [] 1700000000123456 0.

(** Consistent mode over an existing file, on a disk that fills up: the
    temporary file is created and given the permission bits of the target,
    the first write is short, the second is interrupted and the third fails
    with ENOSPC; the close and the unlink succeed. *)
Definition no_space : world :=
  with_target [Succeed; Succeed; Succeed; Succeed;
               Short 1; Fail EINTR; Fail ENOSPC].

Definition no_space_after : world :=
  world_after (g_file_set_contents_full "f" (Some abc) 3
                 G_FILE_SET_CONTENTS_CONSISTENT 420) no_space.

Definition no_space_error : GError :=
  mkGError G_FILE_ERROR_NOSPC MsgWrite "f.6AKCE2" ENOSPC.

Lemma no_space_run :
  g_file_set_contents_full "f" (Some abc) 3 G_FILE_SET_CONTENTS_CONSISTENT
    420 no_space
  = Some ((false, Some no_space_error), no_space_after) /\
  calls no_space_after
  = [COpen "f.6AKCE2" true true None; CStat "f" None;
     CFchmod "f.6AKCE2" 384 None; CFallocate "f.6AKCE2" 3 None;
     CWrite "f.6AKCE2" (inr 1); CWrite "f.6AKCE2" (inl EINTR);
     CWrite "f.6AKCE2" (inl ENOSPC); CClose "f.6AKCE2" None;
     CUnlink "f.6AKCE2" None] /\
  fs no_space_after = fs no_space.
Proof.
  split; [vm_compute; reflexivity|].
  split; vm_compute; reflexivity.
Qed.

Lemma consistent_failure_cleans_up_witness :
  has_flag G_FILE_SET_CONTENTS_CONSISTENT G_FILE_SET_CONTENTS_CONSISTENT
  = true /\
  g_file_set_contents_full "f" (Some abc) 3 G_FILE_SET_CONTENTS_CONSISTENT
    420 no_space
  = Some ((false, Some no_space_error), no_space_after) /\
  exists tmp before step r,
    calls no_space_after = calls no_space ++ before ++ step ++ [CUnlink tmp r] /\
    In (COpen tmp true true None) before /\
    reported "f" tmp no_space_error step /\
    err_code no_space_error
    = g_file_error_from_errno (err_errno no_space_error) /\
    fs no_space !! tmp = None /\ tmp <> "f" /\
    fs no_space_after !! "f" = fs no_space !! "f" /\
    (r = None -> fs no_space_after = fs no_space) /\
    (r <> None ->
     is_Some (fs no_space_after !! tmp) /\
     forall q, q <> tmp -> fs no_space_after !! q = fs no_space !! q).
Proof.
  split; [reflexivity|]. split; [exact (proj1 no_space_run)|].
  apply (consistent_failure_cleans_up "f" (Some abc) 3
           G_FILE_SET_CONTENTS_CONSISTENT 420 no_space no_space_after
           no_space_error eq_refl (proj1 no_space_run)).
  discriminate.
Defined.

(** C2 as the specification words it: after a failure past the creation of
    the temporary file, no file is left that was not there before. *)
Definition no_stray_file (filename : string) (contents : option (list Z))
    (len_ flags mode : Z) (w : world) : Prop :=
  forall err w',
    g_file_set_contents_full filename contents len_ flags mode w
    = Some ((false, Some err), w') ->
    err_message err <> MsgCreate ->
    forall q, fs w !! q = None -> fs w' !! q = None.

(** The same run on a system that also refuses the unlink. *)
Definition unlink_denied : world :=
  with_target [Succeed; Succeed; Succeed; Succeed;
               Short 1; Fail EINTR; Fail ENOSPC; Succeed; Fail EACCES].

Definition unlink_denied_after : world :=
  world_after (g_file_set_contents_full "f" (Some abc) 3
                 G_FILE_SET_CONTENTS_CONSISTENT 420) unlink_denied.

(** The write fails with ENOSPC and the unlink of the temporary file with
    EACCES: the call reports the write error, and the temporary file stays
    in the file system with the byte that was written. *)
Lemma unlink_failure_leaves_temp :
  has_flag G_FILE_SET_CONTENTS_CONSISTENT G_FILE_SET_CONTENTS_CONSISTENT
  = true /\
  g_file_set_contents_full "f" (Some abc) 3 G_FILE_SET_CONTENTS_CONSISTENT
    420 unlink_denied
  = Some ((false, Some no_space_error), unlink_denied_after) /\
  calls unlink_denied_after
  = [COpen "f.6AKCE2" true true None; CStat "f" None;
     CFchmod "f.6AKCE2" 384 None; CFallocate "f.6AKCE2" 3 None;
     CWrite "f.6AKCE2" (inr 1); CWrite "f.6AKCE2" (inl EINTR);
     CWrite "f.6AKCE2" (inl ENOSPC); CClose "f.6AKCE2" None;
     CUnlink "f.6AKCE2" (Some EACCES)] /\
  fs unlink_denied !! "f.6AKCE2" = None /\
  fs unlink_denied_after !! "f.6AKCE2" = Some (mkFile [97; 0; 0] 384) /\
  fs unlink_denied_after !! "f" = Some (mkFile de 384) /\
  ~ no_stray_file "f" (Some abc) 3 G_FILE_SET_CONTENTS_CONSISTENT 420
      unlink_denied.
Proof.
  assert (Hrun : g_file_set_contents_full "f" (Some abc) 3
                   G_FILE_SET_CONTENTS_CONSISTENT 420 unlink_denied
                 = Some ((false, Some no_space_error), unlink_denied_after))
    by (vm_compute; reflexivity).
  assert (Hleft : fs unlink_denied_after !! "f.6AKCE2"
                  = Some (mkFile [97; 0; 0] 384))
    by (vm_compute; reflexivity).
  split; [reflexivity|]. split; [exact Hrun|].
  split; [vm_compute; reflexivity|]. split; [vm_compute; reflexivity|].
  split; [exact Hleft|]. split; [vm_compute; reflexivity|].
  intros Hclaim.
  assert (Hnone : fs unlink_denied_after !! "f.6AKCE2" = None).
  { apply (Hclaim no_space_error unlink_denied_after Hrun);
      [discriminate|vm_compute; reflexivity]. }
  rewrite Hleft in Hnone. discriminate.
Qed.

(** Consistent mode alone, every system call succeeding. *)
Definition consistent_only_after : world :=
  world_after (g_file_set_contents_full "f" (Some abc) 3
                 G_FILE_SET_CONTENTS_CONSISTENT 420) (scripted []).

Definition consistent_only_calls : list call :=
  [COpen "f.6AKCE2" true true None; CStat "f" (Some ENOENT);
   CFallocate "f.6AKCE2" 3 None; CWrite "f.6AKCE2" (inr 3);
   CFsync "f.6AKCE2" None; CClose "f.6AKCE2" None;
   CRename "f.6AKCE2" "f" None; COpenDirOf "f" None; CFsyncDirOf "f" None;
   CCloseDirOf "f" None].

Lemma consistent_only_run :
  g_file_set_contents_full "f" (Some abc) 3 G_FILE_SET_CONTENTS_CONSISTENT
    420 (scripted [])
  = Some ((true, None), consistent_only_after) /\
  calls consistent_only_after = calls (scripted []) ++ consistent_only_calls.
Proof. split; vm_compute; reflexivity. Qed.

(** C3 as the specification words it: the data of the temporary file is
    fsynced only when the durable flag is set (and, with the only-existing
    qualifier, only when the target exists with a size above 0), and the
    directory is fsynced only when the durable flag is set. *)
Definition fsync_requires_durable (filename : string)
    (contents : option (list Z)) (len_ flags mode : Z) (w : world) : Prop :=
  forall ret w' new,
    g_file_set_contents_full filename contents len_ flags mode w
    = Some (ret, w') ->
    calls w' = calls w ++ new ->
    (forall p r, In (CFsync p r) new ->
       has_flag flags G_FILE_SET_CONTENTS_DURABLE = true /\
       (has_flag flags G_FILE_SET_CONTENTS_ONLY_EXISTING = true ->
        exists f, fs w !! filename = Some f /\ f_bytes f <> [])) /\
    (forall p r, In (CFsyncDirOf p r) new ->
       has_flag flags G_FILE_SET_CONTENTS_DURABLE = true).

(** In consistent mode the durable flag changes nothing: the call with the
    flag added runs as the call without it. *)
Lemma has_flag_lor (flags extra mask : Z) :
  has_flag (Z.lor flags extra) mask = has_flag flags mask || has_flag extra mask.
Proof.
  unfold has_flag. rewrite Z.land_lor_distr_l.
  destruct (Z.eqb_spec (Z.land flags mask) 0) as [E1|E1],
           (Z.eqb_spec (Z.land extra mask) 0) as [E2|E2]; simpl;
    destruct (Z.eqb_spec (Z.lor (Z.land flags mask) (Z.land extra mask)) 0)
      as [E|E]; try done.
  - exfalso. apply E. by apply Z.lor_eq_0_iff.
  - apply Z.lor_eq_0_iff in E as [_ E]. done.
  - apply Z.lor_eq_0_iff in E as [E _]. done.
  - apply Z.lor_eq_0_iff in E as [E _]. done.
Qed.

Lemma fd_should_be_fsynced_durable fd test_file flags w :
  has_flag flags G_FILE_SET_CONTENTS_CONSISTENT = true ->
  fd_should_be_fsynced fd test_file
    (Z.lor flags G_FILE_SET_CONTENTS_DURABLE) w
  = fd_should_be_fsynced fd test_file flags w.
Proof.
  intros Hc. pose proof (consistent_implies_any flags Hc) as Hany.
  assert (Hany' : any_durability (Z.lor flags G_FILE_SET_CONTENTS_DURABLE)
                  = true).
  { apply consistent_implies_any. rewrite has_flag_lor, Hc. done. }
  unfold any_durability in Hany, Hany'. unfold fd_should_be_fsynced.
  rewrite Hany, Hany'.
  rewrite (has_flag_lor flags _ G_FILE_SET_CONTENTS_ONLY_EXISTING).
  change (has_flag G_FILE_SET_CONTENTS_DURABLE
            G_FILE_SET_CONTENTS_ONLY_EXISTING) with false.
  by rewrite orb_false_r.
Qed.

Lemma durable_ignored_when_consistent filename contents len_ flags mode w :
  has_flag flags G_FILE_SET_CONTENTS_CONSISTENT = true ->
  g_file_set_contents_full filename contents len_
    (Z.lor flags G_FILE_SET_CONTENTS_DURABLE) mode w
  = g_file_set_contents_full filename contents len_ flags mode w.
Proof.
  intros Hc.
  assert (Hc' : has_flag (Z.lor flags G_FILE_SET_CONTENTS_DURABLE)
                  G_FILE_SET_CONTENTS_CONSISTENT = true)
    by (rewrite has_flag_lor, Hc; done).
  unfold g_file_set_contents_full. cbn [g_file_set_contents_full_rec].
  destruct (negb (bool_decide (contents <> None) || (len_ =? 0))); [done|].
  destruct (negb (len_ >=? -1)); [done|].
  rewrite Hc, Hc'. unfold set_contents_consistent, wbind.
  destruct (g_mkstemp_full _ _ _ w) as [[[[e name]|[fd tmp]] w0]|]; try done.
  destruct (sys_stat filename w0) as [[st w1]|]; [|done].
  destruct (match st with
            | inl _ => wret None
            | inr (st_mode, _) => sys_fchmod fd st_mode
            end w1) as [[[e|] w2]|]; try done.
  by rewrite fd_should_be_fsynced_durable.
Qed.

(** C3: with the consistent flag alone, and every system call succeeding,
    the call fsyncs the data of the temporary file and then, after the
    rename, the containing directory, although the durable flag is not set;
    with the durable flag added the run is the same, call for call. *)
Theorem consistent_alone_fsyncs_directory :
  has_flag G_FILE_SET_CONTENTS_CONSISTENT G_FILE_SET_CONTENTS_CONSISTENT
  = true /\
  has_flag G_FILE_SET_CONTENTS_CONSISTENT G_FILE_SET_CONTENTS_DURABLE
  = false /\
  g_file_set_contents_full "f" (Some abc) 3 G_FILE_SET_CONTENTS_CONSISTENT
    420 (scripted [])
  = Some ((true, None), consistent_only_after) /\
  calls consistent_only_after
  = [COpen "f.6AKCE2" true true None; CStat "f" (Some ENOENT);
     CFallocate "f.6AKCE2" 3 None; CWrite "f.6AKCE2" (inr 3);
     CFsync "f.6AKCE2" None; CClose "f.6AKCE2" None;
     CRename "f.6AKCE2" "f" None; COpenDirOf "f" None; CFsyncDirOf "f" None;
     CCloseDirOf "f" None] /\
  g_file_set_contents_full "f" (Some abc) 3
    (Z.lor G_FILE_SET_CONTENTS_CONSISTENT G_FILE_SET_CONTENTS_DURABLE)
    420 (scripted [])
  = Some ((true, None), consistent_only_after) /\
  ~ fsync_requires_durable "f" (Some abc) 3 G_FILE_SET_CONTENTS_CONSISTENT
      420 (scripted []).
Proof.
  destruct consistent_only_run as [Hrun Hcalls].
  split; [reflexivity|]. split; [reflexivity|]. split; [exact Hrun|].
  split; [exact Hcalls|].
  split; [by rewrite durable_ignored_when_consistent|].
  intros Hclaim.
  destruct (Hclaim _ _ _ Hrun Hcalls) as [_ Hdir].
  assert (Hin : In (CFsyncDirOf "f" None) consistent_only_calls)
    by (do 8 right; by left).
  specialize (Hdir _ _ Hin). discriminate.
Qed.

Lemma consistent_fsync_policy_witness :
  has_flag G_FILE_SET_CONTENTS_CONSISTENT G_FILE_SET_CONTENTS_CONSISTENT
  = true /\
  (forall p r, In (CFsync p r) consistent_only_calls ->
     has_flag G_FILE_SET_CONTENTS_CONSISTENT
       G_FILE_SET_CONTENTS_ONLY_EXISTING = false \/
     exists res, In (CLstat "f" res) consistent_only_calls /\
                 match res with
                 | inr st_size => 0 < st_size
                 | inl e => e <> ENOENT
                 end) /\
  (forall p r, In (CFsyncDirOf p r) consistent_only_calls ->
     exists tmp, In (CFsync tmp None) consistent_only_calls /\
                 In (CRename tmp "f" None) consistent_only_calls).
Proof.
  split; [reflexivity|].
  exact (consistent_fsync_policy "f" (Some abc) 3
           G_FILE_SET_CONTENTS_CONSISTENT 420 (scripted [])
           consistent_only_after (true, None) consistent_only_calls
           eq_refl (proj1 consistent_only_run) (proj2 consistent_only_run)).
Defined.

(** Direct mode: "abc", then "de", written to the same path. *)
Definition abc_written : world :=
  world_after (g_file_set_contents_full "f" (Some abc) 3
                 G_FILE_SET_CONTENTS_NONE 420) (scripted []).

Definition de_written : world :=
  world_after (g_file_set_contents_full "f" (Some de) 2
                 G_FILE_SET_CONTENTS_NONE 420) abc_written.

Lemma direct_mode_replaces_contents_witness :
  has_flag G_FILE_SET_CONTENTS_NONE G_FILE_SET_CONTENTS_CONSISTENT = false /\
  g_file_set_contents_full "f" (Some abc) 3 G_FILE_SET_CONTENTS_NONE 420
    (scripted [])
  = Some ((true, None), abc_written) /\
  g_file_set_contents_full "f" (Some de) 2 G_FILE_SET_CONTENTS_NONE 420
    abc_written
  = Some ((true, None), de_written) /\
  (exists f, fs abc_written !! "f" = Some f /\ f_bytes f = abc) /\
  (exists f, fs de_written !! "f" = Some f /\ f_bytes f = de).
Proof.
  assert (Hfirst : g_file_set_contents_full "f" (Some abc)
                     (Z.of_nat (length abc)) G_FILE_SET_CONTENTS_NONE 420
                     (scripted [])
                   = Some ((true, None), abc_written))
    by (vm_compute; reflexivity).
  assert (Hsecond : g_file_set_contents_full "f" (Some de)
                      (Z.of_nat (length de)) G_FILE_SET_CONTENTS_NONE 420
                      abc_written
                    = Some ((true, None), de_written))
    by (vm_compute; reflexivity).
  split; [reflexivity|]. split; [exact Hfirst|]. split; [exact Hsecond|].
  pose proof (direct_mode_replaces_contents "f" abc de
                G_FILE_SET_CONTENTS_NONE 420 (scripted []) abc_written
                de_written None None eq_refl Hfirst Hsecond)
    as (H1 & H2 & _).
  split; [exact H1|exact H2].
Defined.

(** What is on the disk after the two writes, computed. *)
Example abc_then_de :
  fs de_written !! "f" = Some (mkFile de 420) /\
  calls de_written
  = calls abc_written
    ++ [COpen "f" true false None; CFtruncate "f" 0 None;
        CFallocate "f" 2 None; CWrite "f" (inr 2); CClose "f" None].
Proof. split; vm_compute; reflexivity. Qed.


End FileUtilsFacts.

(* ===================================================================== *)
(** * Part V: the contents of arrays (garray.c)                            *)
(* ===================================================================== *)

Module GArrayContents.
Import GArray GArrayMore GArrayFacts.

(** ** Reads and writes inside a block *)

(** Arithmetic after unfolding the names of the cell types. *)
Ltac clia := unfold elt, block, cell in *; lia.

Lemma mem_read_in (b : block) pos n :
  0 <= pos -> 0 <= n -> pos + n <= Z.of_nat (length b) ->
  mem_read b pos n = take (Z.to_nat n) (drop (Z.to_nat pos) b).
Proof.
  intros Hp Hn Hfit. unfold mem_read.
  apply take_app_le. rewrite length_drop. clia.
Qed.

Lemma mem_write_in (b : block) pos (src : list cell) :
  0 <= pos -> pos + Z.of_nat (length src) <= Z.of_nat (length b) ->
  mem_write b pos src
  = take (Z.to_nat pos) b ++ src ++ drop (Z.to_nat pos + length src) b.
Proof.
  intros Hp Hfit. unfold mem_write.
  apply take_ge. rewrite !length_app, length_take, length_drop. clia.
Qed.

(** The cell at offset [k] after a write. *)
Lemma lookup_mem_write (b : block) pos (src : list cell) (k : nat) :
  0 <= pos -> pos + Z.of_nat (length src) <= Z.of_nat (length b) ->
  mem_write b pos src !! k
  = if decide (Z.to_nat pos <= k < Z.to_nat pos + length src)%nat
    then src !! (k - Z.to_nat pos)%nat else b !! k.
Proof.
  intros Hp Hfit. rewrite mem_write_in by done. unfold block, cell in *.
  destruct (decide (Z.to_nat pos <= k < Z.to_nat pos + length src)%nat)
    as [Hin|Hout].
  - rewrite lookup_app_r by (rewrite length_take; clia).
    rewrite length_take, lookup_app_l by clia. f_equal. clia.
  - destruct (decide (k < Z.to_nat pos)%nat).
    + rewrite lookup_app_l by (rewrite length_take; clia).
      by rewrite lookup_take_lt by clia.
    + rewrite lookup_app_r by (rewrite length_take; clia).
      rewrite length_take, lookup_app_r by clia.
      rewrite lookup_drop. f_equal. clia.
Qed.

Lemma lookup_mem_read (b : block) pos n (k : nat) :
  0 <= pos -> 0 <= n -> pos + n <= Z.of_nat (length b) ->
  (k < Z.to_nat n)%nat ->
  mem_read b pos n !! k = b !! (Z.to_nat pos + k)%nat.
Proof.
  intros Hp Hn Hfit Hk. rewrite mem_read_in by done. unfold block, cell in *.
  rewrite lookup_take_lt by clia. by rewrite lookup_drop.
Qed.

(** Reading a range that a write covered, left alone, or that lies in the
    moved source. *)
Lemma mem_read_write_inside (b : block) pos (src : list cell) off n :
  0 <= pos -> pos + Z.of_nat (length src) <= Z.of_nat (length b) ->
  0 <= off -> 0 <= n -> off + n <= Z.of_nat (length src) ->
  mem_read (mem_write b pos src) (pos + off) n
  = take (Z.to_nat n) (drop (Z.to_nat off) src).
Proof.
  intros Hp Hfit Ho Hn Hin.
  rewrite mem_read_in by (rewrite ?length_mem_write; clia).
  unfold block, cell in *. apply list_eq. intros k.
  destruct (decide (k < Z.to_nat n)%nat) as [Hk|Hk].
  - rewrite !lookup_take_lt, !lookup_drop by clia.
    rewrite lookup_mem_write by done.
    rewrite decide_True by clia. f_equal. clia.
  - by rewrite !lookup_take_ge by clia.
Qed.

Lemma mem_read_write_outside (b : block) pos (src : list cell) p n :
  0 <= pos -> pos + Z.of_nat (length src) <= Z.of_nat (length b) ->
  0 <= p -> 0 <= n -> p + n <= Z.of_nat (length b) ->
  p + n <= pos \/ pos + Z.of_nat (length src) <= p ->
  mem_read (mem_write b pos src) p n = mem_read b p n.
Proof.
  intros Hp Hfit Hp' Hn Hin Hout.
  rewrite !mem_read_in by (rewrite ?length_mem_write; clia).
  unfold block, cell in *. apply list_eq. intros k.
  destruct (decide (k < Z.to_nat n)%nat) as [Hk|Hk].
  - rewrite !lookup_take_lt, !lookup_drop by clia.
    rewrite lookup_mem_write by done.
    by rewrite decide_False by clia.
  - by rewrite !lookup_take_ge by clia.
Qed.

Lemma mem_read_sub (b : block) pos cnt off n :
  0 <= pos -> 0 <= cnt -> pos + cnt <= Z.of_nat (length b) ->
  0 <= off -> 0 <= n -> off + n <= cnt ->
  take (Z.to_nat n) (drop (Z.to_nat off) (mem_read b pos cnt))
  = mem_read b (pos + off) n.
Proof.
  intros Hp Hc Hfit Ho Hn Hin.
  rewrite !mem_read_in by clia.
  unfold block, cell in *. apply list_eq. intros k.
  destruct (decide (k < Z.to_nat n)%nat) as [Hk|Hk].
  - rewrite !lookup_take_lt, !lookup_drop by clia.
    rewrite lookup_take_lt by clia. rewrite lookup_drop. f_equal. clia.
  - by rewrite !lookup_take_ge by clia.
Qed.

(** ** Elements of a well-formed array *)

(** The block of an array; the empty block when [data] is NULL. *)
Definition blk (a : GRealArray) : block := default [] (data a).

(** Bounds that hold for every index below the capacity. *)
Lemma wf_index a i :
  wf a -> 0 <= i -> i <= elt_capacity a ->
  0 <= elt_size a * i /\ elt_size a * i < 2 ^ 64 /\
  elt_size a * i <= Z.of_nat (length (blk a)).
Proof.
  intros [He Hl Hm Hd] Hi Hcap. pose proof G_MAXUINT_val as HG.
  unfold blk. destruct (data a) as [b|]; simpl.
  - assert (elt_size a * i <= elt_size a * elt_capacity a) by nia.
    assert (elt_size a * elt_capacity a <= 4294967295 * 4294967295) by nia.
    split; [nia|]. split; [lia|nia].
  - assert (i = 0) as -> by lia. lia.
Qed.

Lemma elt_pos_small a i :
  wf a -> 0 <= i -> i <= elt_capacity a ->
  g_array_elt_pos a i = elt_size a * i.
Proof.
  intros Hwf Hi Hcap. destruct (wf_index a i Hwf Hi Hcap) as (?&?&?).
  unfold g_array_elt_pos, g_array_elt_len. apply to_gsize_small. lia.
Qed.

Lemma elt_len_small a i :
  wf a -> 0 <= i -> i <= elt_capacity a ->
  g_array_elt_len a i = elt_size a * i.
Proof. apply elt_pos_small. Qed.

Lemma wf_capacity a : wf a -> 0 <= len a <= elt_capacity a.
Proof.
  intros [He Hl Hm Hd]. pose proof (zt_slot_range a).
  destruct (data a); lia.
Qed.

Lemma length_elements a : length (elements a) = Z.to_nat (len a).
Proof. unfold elements. by rewrite length_fmap, length_seq. Qed.

Lemma elements_lookup a (j : nat) :
  (j < Z.to_nat (len a))%nat ->
  elements a !! j = Some (elt_at a (Z.of_nat j)).
Proof.
  intros Hj. unfold elements. rewrite list_lookup_fmap.
  by rewrite lookup_seq_lt.
Qed.

(** Two arrays hold the same elements when they have the same length and
    agree at every index below it. *)
Lemma elements_ext a (f : nat -> elt) :
  (forall j : nat, (j < Z.to_nat (len a))%nat ->
                   elt_at a (Z.of_nat j) = f j) ->
  elements a = f <$> seq 0 (Z.to_nat (len a)).
Proof.
  intros H. unfold elements. apply list_fmap_ext. intros i j Hj.
  apply lookup_seq in Hj as [-> Hj]. by apply H.
Qed.

(** The element read at an index as a slice of the block. *)
Lemma elt_at_slice a i :
  wf a -> 0 <= i -> i < elt_capacity a ->
  elt_at a i = mem_read (blk a) (elt_size a * i) (elt_size a).
Proof.
  intros Hwf Hi Hcap. unfold elt_at. fold (blk a).
  by rewrite elt_pos_small by (done || lia).
Qed.

(** Elements an array of the same geometry reads from a changed block. *)
Lemma elt_at_eq a a' i :
  elt_size a' = elt_size a -> blk a' = blk a -> elt_at a' i = elt_at a i.
Proof.
  intros He Hb. unfold elt_at, g_array_elt_pos, g_array_elt_len.
  fold (blk a) (blk a'). by rewrite He, Hb.
Qed.

Lemma blk_on_data a f :
  data a <> None -> blk (on_data a f) = f (blk a).
Proof. unfold blk, on_data. destruct (data a); [done|by intros []]. Qed.

Lemma blk_on_data_none a f : data a = None -> blk (on_data a f) = [].
Proof. unfold blk, on_data. by intros ->. Qed.

(** The elements of a caller's buffer of [n] elements of [es] bytes. *)
Lemma elems_of_lookup (d : block) n es (j : nat) :
  (j < Z.to_nat n)%nat ->
  elems_of d n es !! j = Some (mem_read d (to_gsize (es * Z.of_nat j)) es).
Proof.
  intros Hj. unfold elems_of. rewrite list_lookup_fmap.
  by rewrite lookup_seq_lt.
Qed.

(** ** What growing the block keeps *)

Lemma take_mem_write (b : block) pos (src : list cell) (k : nat) :
  (k <= Z.to_nat pos)%nat -> take k (mem_write b pos src) = take k b.
Proof.
  intros Hk. unfold mem_write. rewrite take_take.
  rewrite take_app_le by (rewrite length_take; clia).
  rewrite take_take. destruct (decide (k <= length b)%nat).
  - f_equal. clia.
  - by rewrite !take_ge by clia.
Qed.

Section Expand.
Variable gc : bool.

(** A returning [g_array_maybe_expand] leaves every cell below the old
    capacity as it was. *)
Lemma maybe_expand_keeps a n log a' log' :
  wf a -> 0 <= n <= G_MAXUINT ->
  g_array_maybe_expand gc a n log = Returns a' log' ->
  take (Z.to_nat (elt_size a * elt_capacity a)) (blk a')
  = take (Z.to_nat (elt_size a * elt_capacity a)) (blk a) /\
  (len a + n + zt_slot a <= elt_capacity a' -> 0 < n -> data a' <> None) /\
  elt_capacity a <= elt_capacity a'.
Proof.
  intros Hwf Hn Hrun.
  enough (take (Z.to_nat (elt_size a * elt_capacity a)) (blk a')
          = take (Z.to_nat (elt_size a * elt_capacity a)) (blk a) /\
          (len a + n + zt_slot a <= elt_capacity a' -> 0 < n ->
           data a' <> None)) as [H1 H2].
  { split; [done|]. split; [done|].
    destruct (Z.le_gt_cases (want_length a n) (elt_capacity a)) as [Hfit|Hgrow].
    - destruct (Z.lt_ge_cases (max_elements (elt_size a) - zt_slot a - len a)
                  n) as [Hov|Hnov].
      { rewrite maybe_expand_overflow in Hrun by done. discriminate. }
      rewrite maybe_expand_fits in Hrun;
        [|done|done|unfold overflows; lia|done].
      injection Hrun as <- <-. lia.
    - apply maybe_expand_returns in Hrun as [_ Hex]; [|done..].
      pose proof (ex_capacity _ _ _ Hex). lia. }
  destruct (Z.lt_ge_cases (max_elements (elt_size a) - zt_slot a - len a) n)
    as [Hov|Hnov].
  { rewrite maybe_expand_overflow in Hrun by done. discriminate. }
  assert (Hno : ~ overflows a n) by (unfold overflows; lia).
  destruct (Z.le_gt_cases (want_length a n) (elt_capacity a)) as [Hfit|Hgrow].
  { rewrite maybe_expand_fits in Hrun by done.
    injection Hrun as <- <-. split; [done|].
    intros Hcap Hpos. pose proof (wf_data a Hwf) as Hd.
    pose proof (wf_len a Hwf). pose proof (zt_slot_range a).
    destruct (data a); [done|lia]. }
  pose proof Hwf as [He Hl Hm Hd]. unfold overflows in Hno.
  unfold want_length in *.
  pose proof (max_elements_range _ He) as Hme.
  pose proof (zt_slot_range a) as Hzt.
  assert (Hcap : 0 <= elt_capacity a) by (destruct (data a); lia).
  set (wl := len a + n + zt_slot a) in *.
  assert (Hwl : 1 <= wl <= max_elements (elt_size a)) by lia.
  pose proof (max_elements_bytes (elt_size a) wl ltac:(lia) ltac:(lia)) as Hbytes.
  assert (Hpos : 1 <= elt_size a * wl) by nia.
  pose proof (g_nearest_pow_ge _ Hpos) as Hpow.
  rewrite G_MAXSIZE_half in Hbytes.
  set (wa := MAX (g_nearest_pow (elt_size a * wl)) MIN_ARRAY_SIZE).
  assert (Hwa : elt_size a * wl <= wa /\ 16 <= wa).
  { unfold wa, MAX, MIN_ARRAY_SIZE.
    destruct (Z.gtb_spec (g_nearest_pow (elt_size a * wl)) 16); lia. }
  pose proof G_MAXUINT_val as HG.
  destruct (wf_index a (elt_capacity a) Hwf Hcap ltac:(lia)) as (Hc0 & Hc1 & Hc2).
  assert (Hcw : elt_size a * elt_capacity a <= elt_size a * wl) by nia.
  revert Hrun.
  unfold g_array_maybe_expand. fold (zt_slot a). fold (max_elements (elt_size a)).
  rewrite (to_guint_small (max_elements (elt_size a) - zt_slot a)) by lia.
  rewrite (to_guint_small (_ - len a)) by lia.
  destruct (Z.ltb_spec (max_elements (elt_size a) - zt_slot a - len a) n); [lia|].
  fold wl. rewrite (to_guint_small wl) by lia.
  destruct (Z.gtb_spec wl (elt_capacity a)); [|lia].
  unfold g_array_elt_pos, g_array_elt_len.
  rewrite (to_gsize_small (elt_size a * wl)) by lia.
  destruct (Z.geb_spec (g_nearest_pow (elt_size a * wl)) (elt_size a * wl)); [|lia].
  simpl negb. cbv iota. fold wa.
  unfold g_realloc. destruct (Z.eqb_spec wa 0); [lia|].
  fold (blk a).
  set (b0 := take (Z.to_nat wa) (blk a ++ repeat None (Z.to_nat wa))).
  assert (Hb0 : take (Z.to_nat (elt_size a * elt_capacity a)) b0
                = take (Z.to_nat (elt_size a * elt_capacity a)) (blk a)).
  { unfold b0. rewrite take_take.
    rewrite take_app_le by lia. f_equal. lia. }
  destruct gc;
    cbn [negb on_data set_data set_elt_capacity elt_size data fmap option_fmap
         option_map len elt_capacity zero_terminated clear_ ref_count
         clear_func];
    unfold ret; intros [= <- <-]; unfold blk at 1;
    cbn [data on_data set_data set_elt_capacity fmap option_fmap option_map
         default]; (split; [|done]).
  - unfold memset, id. rewrite take_mem_write; [done|].
    rewrite (to_gsize_small (elt_size a * elt_capacity a)) by lia. lia.
  - done.
Qed.

End Expand.

(** ** Stores of whole elements

    Every store of garray.c starts at an element boundary and covers whole
    elements; reading an element back gives the stored element, or the old
    one when the store lies elsewhere. *)

(** The element at index [j] of a block of elements of [es] bytes. *)
Definition elt_read (es : Z) (b : block) (j : Z) : elt :=
  mem_read b (to_gsize (es * j)) es.

Lemma elt_at_read a j : elt_at a j = elt_read (elt_size a) (blk a) j.
Proof. reflexivity. Qed.

Lemma lookup_repeat_lt {A} (x : A) (n i : nat) :
  (i < n)%nat -> repeat x n !! i = Some x.
Proof.
  revert i. induction n as [|n IH]; intros [|i] Hi; simpl; try lia; [done|].
  apply IH. lia.
Qed.

Section Aligned.
Variable es : Z.
Variable K : Z.
Hypothesis Hes : 0 < es.
Hypothesis HK : es * K < 2 ^ 64.

Lemma elt_read_slice (b : block) j :
  0 <= j < K -> es * K <= Z.of_nat (length b) ->
  elt_read es b j = take (Z.to_nat es) (drop (Z.to_nat (es * j)) b).
Proof.
  intros Hj Hb. unfold elt_read.
  rewrite to_gsize_small by nia. apply mem_read_in; nia.
Qed.

Lemma elt_read_write_out (b : block) X (src : list cell) j :
  es * K <= Z.of_nat (length b) -> 0 <= X ->
  es * X + Z.of_nat (length src) <= es * K -> 0 <= j < K ->
  es * (j + 1) <= es * X \/ es * X + Z.of_nat (length src) <= es * j ->
  elt_read es (mem_write b (es * X) src) j = elt_read es b j.
Proof.
  intros Hb HX Hsrc Hj Hout. unfold elt_read.
  rewrite to_gsize_small by nia.
  apply mem_read_write_outside; nia.
Qed.

Lemma elt_read_write_in (b : block) X (src : list cell) j :
  es * K <= Z.of_nat (length b) -> 0 <= X ->
  es * X + Z.of_nat (length src) <= es * K ->
  X <= j -> es * (j - X + 1) <= Z.of_nat (length src) ->
  elt_read es (mem_write b (es * X) src) j
  = take (Z.to_nat es) (drop (Z.to_nat (es * (j - X))) src).
Proof.
  intros Hb HX Hsrc Hj Hin. unfold elt_read.
  assert (j < K) by nia.
  rewrite to_gsize_small by nia.
  replace (es * j) with (es * X + es * (j - X)) by lia.
  apply mem_read_write_inside; nia.
Qed.

Lemma elt_of_moved (b : block) U Y k :
  es * K <= Z.of_nat (length b) -> 0 <= U -> 0 <= k < Y -> U + Y <= K ->
  take (Z.to_nat es) (drop (Z.to_nat (es * k)) (mem_read b (es * U) (es * Y)))
  = elt_read es b (U + k).
Proof.
  intros Hb HU Hk HY. unfold elt_read.
  rewrite to_gsize_small by nia.
  replace (es * (U + k)) with (es * U + es * k) by lia.
  apply mem_read_sub; nia.
Qed.

Lemma elt_of_zeros Y k :
  0 <= k < Y ->
  take (Z.to_nat es) (drop (Z.to_nat (es * k))
                        (repeat (Some 0) (Z.to_nat (es * Y))))
  = repeat (Some 0) (Z.to_nat es).
Proof.
  intros Hk. apply list_eq. intros i.
  destruct (decide (i < Z.to_nat es)%nat) as [Hi|Hi].
  - rewrite lookup_take_lt, lookup_drop by lia.
    by rewrite !lookup_repeat_lt by nia.
  - rewrite lookup_take_ge by lia. symmetry.
    apply lookup_ge_None. rewrite repeat_length. lia.
Qed.

Lemma elt_of_copied (d : block) Y k :
  es * Y <= Z.of_nat (length d) -> es * Y < 2 ^ 64 -> 0 <= k < Y ->
  take (Z.to_nat es) (drop (Z.to_nat (es * k)) (mem_read d 0 (es * Y)))
  = elt_read es d k.
Proof.
  intros Hd HY Hk. unfold elt_read.
  rewrite to_gsize_small by nia.
  replace (es * k) with (0 + es * k) at 2 by lia.
  apply mem_read_sub; nia.
Qed.

End Aligned.

Lemma mem_read_take_eq (b b' : block) (N : nat) p m :
  take N b' = take N b -> 0 <= p -> 0 <= m ->
  (Z.to_nat (p + m) <= N)%nat ->
  Z.of_nat N <= Z.of_nat (length b) -> Z.of_nat N <= Z.of_nat (length b') ->
  mem_read b' p m = mem_read b p m.
Proof.
  intros Heq Hp Hm HN Hb Hb'. rewrite !mem_read_in by lia.
  rewrite !take_drop_commute.
  replace (take (Z.to_nat p + Z.to_nat m) b')
    with (take (Z.to_nat p + Z.to_nat m) (take N b'))
    by (rewrite take_take; f_equal; lia).
  rewrite Heq, take_take. do 2 f_equal. lia.
Qed.

Lemma elt_read_take_eq es C (b b' : block) j :
  0 < es -> es * C < 2 ^ 64 ->
  take (Z.to_nat (es * C)) b' = take (Z.to_nat (es * C)) b ->
  es * C <= Z.of_nat (length b) -> es * C <= Z.of_nat (length b') ->
  0 <= j < C -> elt_read es b' j = elt_read es b j.
Proof.
  intros Hes HC Heq Hb Hb' Hj. unfold elt_read.
  rewrite to_gsize_small by nia.
  apply (mem_read_take_eq b b' (Z.to_nat (es * C))); try done; nia.
Qed.

(** ** The stores of the array operations

    An array [fits] [K] elements when it has a block that holds them. *)

Definition fits (a : GRealArray) (K : Z) : Prop :=
  0 < elt_size a /\ elt_size a * K < 2 ^ 64 /\
  exists b, data a = Some b /\ elt_size a * K <= Z.of_nat (length b).

Lemma wf_fits a : wf a -> data a <> None -> fits a (elt_capacity a).
Proof.
  intros Hwf Hd. pose proof (wf_capacity a Hwf).
  destruct (wf_index a (elt_capacity a) Hwf ltac:(lia) ltac:(lia))
    as (_ & HK & Hb).
  pose proof (wf_elt_size a Hwf). split; [lia|]. split; [done|].
  unfold blk in Hb. destruct (data a) as [b|]; [|done]. by exists b.
Qed.

Lemma fits_same_shape a a' K : same_shape a a' -> fits a K -> fits a' K.
Proof.
  intros (Hd & _ & _ & He & _) (Hes & HK & b & Eb & Hb).
  rewrite Eb in Hd. unfold fits. rewrite He.
  destruct (data a') as [b'|]; [|done]. injection Hd as Hd.
  split; [done|]. split; [done|]. exists b'. split; [done|]. clia.
Qed.

Lemma fits_set_len a k K : fits a K -> fits (set_len a k) K.
Proof. done. Qed.

Lemma fits_le a K K' : 0 <= K' <= K -> fits a K -> fits a K'.
Proof.
  intros HK (Hes & Hsz & b & Eb & Hb). split; [done|]. split; [nia|].
  exists b. split; [done|nia].
Qed.

Section Stores.
Variable a : GRealArray.
Variable K : Z.
Hypothesis Hfits : fits a K.

Local Abbreviation es := (elt_size a).

(** A store of [src] at the element index [X]. *)
Lemma store_elt X (src : list cell) j :
  0 <= X -> es * X + Z.of_nat (length src) <= es * K -> 0 <= j < K ->
  elt_at (on_data a (fun b => mem_write b (es * X) src)) j
  = if decide (es * X <= es * j /\ es * (j + 1)
                                   <= es * X + Z.of_nat (length src))
    then take (Z.to_nat es) (drop (Z.to_nat (es * (j - X))) src)
    else if decide (es * (j + 1) <= es * X
                    \/ es * X + Z.of_nat (length src) <= es * j)
         then elt_at a j
         else elt_at (on_data a (fun b => mem_write b (es * X) src)) j.
Proof.
  intros HX Hsrc Hj. destruct Hfits as (Hes & HK & b & Eb & Hb).
  rewrite !elt_at_read.
  assert (Hblk : blk (on_data a (fun b => mem_write b (es * X) src))
                 = mem_write b (es * X) src).
  { rewrite blk_on_data by (by rewrite Eb). unfold blk. by rewrite Eb. }
  rewrite Hblk. cbn [elt_size on_data set_data].
  assert (blk a = b) as -> by (unfold blk; by rewrite Eb).
  repeat case_decide; try done.
  - apply (elt_read_write_in es K); try done; nia.
  - apply (elt_read_write_out es K); try done; nia.
Qed.

Lemma store_memcpy X Y (d : block) j :
  0 <= X -> 0 <= Y -> X + Y <= K -> es * Y <= Z.of_nat (length d) ->
  0 <= j < K ->
  elt_at (on_data a (fun b =>
            memcpy b (g_array_elt_pos a X) d (g_array_elt_len a Y))) j
  = if decide (X <= j < X + Y) then elt_read es d (j - X) else elt_at a j.
Proof.
  intros HX HY HXY Hd Hj. pose proof Hfits as (Hes & HK & _).
  unfold memcpy, g_array_elt_pos, g_array_elt_len.
  rewrite !to_gsize_small by nia.
  assert (Hlen : Z.of_nat (length (mem_read d 0 (es * Y))) = es * Y)
    by (rewrite length_mem_read; nia).
  rewrite store_elt by (rewrite ?Hlen; (done || nia)). rewrite Hlen.
  repeat case_decide; try nia.
  - apply (elt_of_copied es); nia.
  - done.
Qed.

Lemma store_memmove X U Y j :
  0 <= X -> 0 <= U -> 0 <= Y -> X + Y <= K -> U + Y <= K -> 0 <= j < K ->
  elt_at (on_data a (fun b =>
            memmove b (g_array_elt_pos a X) (g_array_elt_pos a U)
                    (g_array_elt_len a Y))) j
  = if decide (X <= j < X + Y) then elt_at a (U + (j - X)) else elt_at a j.
Proof.
  intros HX HU HY HXY HUY Hj. pose proof Hfits as (Hes & HK & b & Eb & Hb).
  unfold g_array_elt_pos, g_array_elt_len.
  rewrite !to_gsize_small by nia.
  (* the source is read from the block the store goes to *)
  assert (Heq : on_data a (fun b => memmove b (es * X) (es * U) (es * Y))
                = on_data a (fun _ => mem_write b (es * X)
                                        (mem_read b (es * U) (es * Y)))).
  { unfold on_data. by rewrite Eb. }
  assert (Heq' : on_data a (fun _ => mem_write b (es * X)
                                       (mem_read b (es * U) (es * Y)))
                 = on_data a (fun b0 => mem_write b0 (es * X)
                                          (mem_read b (es * U) (es * Y)))).
  { unfold on_data. by rewrite Eb. }
  rewrite Heq, Heq'.
  assert (Hlen : Z.of_nat (length (mem_read b (es * U) (es * Y))) = es * Y)
    by (rewrite length_mem_read; nia).
  rewrite store_elt by (rewrite ?Hlen; (done || nia)). rewrite Hlen.
  repeat case_decide; try nia.
  - rewrite elt_at_read. assert (blk a = b) as -> by (unfold blk; by rewrite Eb).
    apply (elt_of_moved es K); try done; nia.
  - done.
Qed.

Lemma store_zero X Y j :
  0 <= X -> 0 <= Y -> X + Y <= K -> 0 <= j < K ->
  elt_at (g_array_elt_zero a X Y) j
  = if decide (X <= j < X + Y) then repeat (Some 0) (Z.to_nat es)
    else elt_at a j.
Proof.
  intros HX HY HXY Hj. pose proof Hfits as (Hes & HK & _).
  unfold g_array_elt_zero, memset, g_array_elt_pos, g_array_elt_len.
  rewrite !to_gsize_small by nia.
  rewrite store_elt by (rewrite ?repeat_length; (done || nia)).
  rewrite repeat_length.
  repeat case_decide; try nia.
  - apply (elt_of_zeros es); nia.
  - done.
Qed.

Lemma store_zero_terminate j :
  len a + zt_slot a <= K -> 0 <= len a -> 0 <= j < K -> j <> len a ->
  elt_at (g_array_zero_terminate a) j = elt_at a j.
Proof.
  intros Hlen Hl Hj Hne. unfold g_array_zero_terminate, zt_slot in *.
  destruct (zero_terminated a); [|done]. simpl in Hlen.
  rewrite store_zero by lia. by rewrite decide_False by lia.
Qed.

(** The terminator written by [g_array_zero_terminate]. *)
Lemma store_terminator :
  zero_terminated a = true -> 0 <= len a < K ->
  elt_at (g_array_zero_terminate a) (len a)
  = repeat (Some 0) (Z.to_nat es).
Proof.
  intros Hzt Hlen. unfold g_array_zero_terminate. rewrite Hzt.
  rewrite store_zero by lia. by rewrite decide_True by lia.
Qed.

(** A clear function called on the element [i] rewrites that element
    only. *)
Lemma store_clear_func f i j :
  0 <= i < K -> 0 <= j < K -> j <> i ->
  elt_at (on_data a (fun b =>
            mem_write b (g_array_elt_pos a i)
                      (mem_read (f (elt_at a i)) 0 es))) j
  = elt_at a j.
Proof.
  intros Hi Hj Hne. pose proof Hfits as (Hes & HK & _).
  unfold g_array_elt_pos, g_array_elt_len.
  rewrite !to_gsize_small by nia.
  assert (Hlen : Z.of_nat (length (mem_read (f (elt_at a i)) 0 es)) = es)
    by (rewrite length_mem_read; lia).
  rewrite store_elt by (rewrite ?Hlen; (done || nia)). rewrite Hlen.
  repeat case_decide; try nia. done.
Qed.

End Stores.

(** ** From indices to lists *)

Lemma elements_eq a (l : list elt) :
  length l = Z.to_nat (len a) ->
  (forall j : nat, (j < length l)%nat ->
                   l !! j = Some (elt_at a (Z.of_nat j))) ->
  elements a = l.
Proof.
  intros Hlen Hl. apply list_eq. intros j.
  destruct (decide (j < length l)%nat) as [Hj|Hj].
  - rewrite elements_lookup by lia. symmetry. by apply Hl.
  - rewrite !(proj2 (lookup_ge_None _ _)); [done|lia|].
    rewrite length_elements. lia.
Qed.

Lemma elems_of_lookup_read (d : block) n es (j : nat) :
  (j < Z.to_nat n)%nat ->
  elems_of d n es !! j = Some (elt_read es d (Z.of_nat j)).
Proof. apply elems_of_lookup. Qed.

Section Expanded.
Variable gc : bool.

(** What the operations that add elements know after the block has been
    grown for [n] more elements. *)
Record grown (a : GRealArray) (n : Z) (a1 : GRealArray) : Prop := mkGrown {
  gr_wf : wf a1;
  gr_fits : fits a1 (elt_capacity a1);
  gr_len : len a1 = len a;
  gr_elt_size : elt_size a1 = elt_size a;
  gr_zt : zero_terminated a1 = zero_terminated a;
  gr_clear : clear_ a1 = clear_ a;
  gr_clear_func : clear_func a1 = clear_func a;
  gr_ref_count : ref_count a1 = ref_count a;
  gr_room : len a + n + zt_slot a <= elt_capacity a1 <= G_MAXUINT;
  gr_max : len a + n + zt_slot a <= max_elements (elt_size a);
  gr_keeps : forall j, 0 <= j < len a -> elt_at a1 j = elt_at a j
}.

Lemma maybe_expand_grown a n log a1 log1 :
  wf a -> 0 < n <= G_MAXUINT ->
  g_array_maybe_expand gc a n log = Returns a1 log1 ->
  log1 = log /\ grown a n a1.
Proof.
  intros Hwf Hn E.
  pose proof (maybe_expand_keeps gc a n log a1 log1 Hwf ltac:(lia) E)
    as (Hkeep & Hdata & Hmono).
  apply maybe_expand_returns in E as [-> Hex]; [|done|lia].
  split; [done|].
  destruct Hex as [Hov Hwf1 El Ee Ez Ec Er Ef Ecap].
  unfold want_length in Ecap. unfold overflows in Hov.
  pose proof (wf_capacity a Hwf) as Hcapa.
  pose proof (wf_capacity a1 Hwf1) as Hcap1.
  pose proof (wf_elt_size a Hwf) as Hes.
  assert (Hd1 : data a1 <> None) by (apply Hdata; lia).
  pose proof (wf_fits a1 Hwf1 Hd1) as Hfits.
  pose proof (wf_data a1 Hwf1) as Hwd.
  split; try done.
  - destruct (data a1); [lia|done].
  - lia.
  - intros j Hj. rewrite !elt_at_read, Ee.
    destruct Hfits as (_ & HK & b1 & Eb1 & Hb1). rewrite Ee in HK, Hb1.
    destruct (wf_index a (elt_capacity a) Hwf ltac:(lia) ltac:(lia))
      as (_ & HKa & Hba).
    apply (elt_read_take_eq _ (elt_capacity a)); try done; try lia.
    unfold blk at 1. rewrite Eb1. simpl. nia.
Qed.

End Expanded.

Section Contents.
Variable gc : bool.

(** What [g_array_append_vals] does to the elements. *)
Lemma append_vals_contents (a : GRealArray) (d : block) (n : Z)
    (log : list event) (a' : GRealArray) (log' : list event) :
  wf a -> 0 <= n <= G_MAXUINT ->
  elt_size a * n <= Z.of_nat (length d) ->
  g_array_append_vals gc a d n log = Returns a' log' ->
  elements a' = elements a ++ elems_of d n (elt_size a) /\
  len a' = len a + n /\ elt_size a' = elt_size a /\ log' = log.
Proof.
  intros Hwf Hn Hd Hrun.
  revert Hrun. unfold g_array_append_vals.
  destruct (Z.eqb_spec n 0) as [->|Hnz].
  { intros [= <- <-]. unfold elems_of. simpl.
    rewrite app_nil_r. repeat split; lia. }
  unfold bind.
  destruct (g_array_maybe_expand gc a n log) as [a1 log1|] eqn:E; [|done].
  apply maybe_expand_grown in E as [-> G]; [|done|lia].
  destruct G as [Hwf1 Hfits El Ee Ez _ _ _ Hroom Hmax Hkeeps].
  pose proof (wf_capacity a Hwf) as Hcapa.
  pose proof (zt_slot_range a) as Hzt. pose proof G_MAXUINT_val as HG.
  intros [= <- <-].
  set (a2 := on_data a1 _).
  set (a3 := set_len a2 _).
  assert (Hs2 : same_shape a1 a2)
    by (apply same_shape_on_data; intros; apply length_mem_write).
  pose proof (fits_same_shape _ _ _ Hs2 Hfits) as Hfits2.
  pose proof Hs2 as (_ & El2 & Ec2 & Ee2 & Ez2 & _).
  assert (Hl3 : len a3 = len a + n).
  { unfold a3. cbn [len set_len]. rewrite ?El2, El.
    apply to_guint_small. lia. }
  assert (Hfits3 : fits a3 (elt_capacity a1)) by done.
  assert (Hzt3 : zt_slot a3 = zt_slot a).
  { unfold zt_slot, a3. cbn [zero_terminated set_len]. by rewrite Ez2, Ez. }
  pose proof (same_shape_zero_terminate a3) as (_ & El4 & _ & Ee4 & _).
  split; [|split; [by rewrite El4|split; [|done]]].
  2: { rewrite Ee4. unfold a3. cbn [elt_size set_len]. by rewrite Ee2. }
  apply elements_eq.
  { rewrite length_app, length_elements, elems_of_length, El4, Hl3. lia. }
  intros j Hj.
  rewrite length_app, length_elements, elems_of_length in Hj.
  rewrite (store_zero_terminate a3 (elt_capacity a1)) by (done || lia).
  change (elt_at a3 (Z.of_nat j)) with (elt_at a2 (Z.of_nat j)).
  unfold a2. rewrite (store_memcpy a1 (elt_capacity a1)) by (done || lia).
  rewrite El, Ee.
  destruct (decide (j < Z.to_nat (len a))%nat) as [Hlt|Hge].
  - rewrite decide_False by lia.
    rewrite lookup_app_l by (rewrite length_elements; lia).
    rewrite elements_lookup by lia. f_equal. symmetry. apply Hkeeps. lia.
  - rewrite decide_True by lia.
    rewrite lookup_app_r by (rewrite length_elements; lia).
    rewrite length_elements, elems_of_lookup_read by lia.
    do 2 f_equal. lia.
Qed.


(** X1: [g_array_append_vals] adds the [n] elements of the caller's buffer
    after the elements of the array, which keep their values and order; no
    callback runs. *)
Theorem append_vals_elements (a : GRealArray) (d : block) (n : Z)
    (log : list event) (a' : GRealArray) (log' : list event)
    (Hwf : wf a) (Hn : 0 <= n <= G_MAXUINT)
    (Hd : elt_size a * n <= Z.of_nat (length d))
    (Hrun : g_array_append_vals gc a d n log = Returns a' log') :
  elements a' = elements a ++ elems_of d n (elt_size a) /\
  len a' = len a + n /\ elt_size a' = elt_size a /\ log' = log.
Proof. by apply append_vals_contents. Qed.

(** X2: [g_array_prepend_vals] puts the [n] elements of the caller's buffer
    before the elements of the array, which keep their values and order. *)
Theorem prepend_vals_elements (a : GRealArray) (d : block) (n : Z)
    (log : list event) (a' : GRealArray) (log' : list event)
    (Hwf : wf a) (Hn : 0 <= n <= G_MAXUINT)
    (Hd : elt_size a * n <= Z.of_nat (length d))
    (Hrun : g_array_prepend_vals gc a d n log = Returns a' log') :
  elements a' = elems_of d n (elt_size a) ++ elements a /\
  len a' = len a + n /\ elt_size a' = elt_size a /\ log' = log.
Proof.
  revert Hrun. unfold g_array_prepend_vals.
  destruct (Z.eqb_spec n 0) as [->|Hnz].
  { intros [= <- <-]. unfold elems_of. simpl. repeat split; lia. }
  unfold bind.
  destruct (g_array_maybe_expand gc a n log) as [a1 log1|] eqn:E; [|done].
  apply maybe_expand_grown in E as [-> G]; [|done|lia].
  destruct G as [Hwf1 Hfits El Ee Ez _ _ _ Hroom Hmax Hkeeps].
  pose proof (wf_capacity a Hwf) as Hcapa.
  pose proof (zt_slot_range a) as Hzt. pose proof G_MAXUINT_val as HG.
  intros [= <- <-].
  set (a2 := on_data a1 _).
  set (a3 := on_data a2 _).
  set (a4 := set_len a3 _).
  assert (Hs2 : same_shape a1 a2)
    by (apply same_shape_on_data; intros; apply length_mem_write).
  assert (Hs3 : same_shape a2 a3)
    by (apply same_shape_on_data; intros; apply length_mem_write).
  pose proof (fits_same_shape _ _ _ Hs2 Hfits) as Hfits2.
  pose proof (fits_same_shape _ _ _ Hs3 Hfits2) as Hfits3.
  pose proof Hs2 as (_ & El2 & Ec2 & Ee2 & Ez2 & _).
  pose proof Hs3 as (_ & El3 & Ec3 & Ee3 & Ez3 & _).
  assert (Hl4 : len a4 = len a + n).
  { unfold a4. cbn [len set_len]. rewrite ?El3, ?El2, El.
    apply to_guint_small. lia. }
  assert (Hfits4 : fits a4 (elt_capacity a1)) by done.
  assert (Hzt4 : zt_slot a4 = zt_slot a).
  { unfold zt_slot, a4. cbn [zero_terminated set_len].
    by rewrite Ez3, Ez2, Ez. }
  pose proof (same_shape_zero_terminate a4) as (_ & El5 & _ & Ee5 & _).
  split; [|split; [by rewrite El5|split; [|done]]].
  2: { rewrite Ee5. unfold a4. cbn [elt_size set_len]. by rewrite Ee3, Ee2. }
  apply elements_eq.
  { rewrite length_app, length_elements, elems_of_length, El5, Hl4. lia. }
  intros j Hj.
  rewrite length_app, length_elements, elems_of_length in Hj.
  rewrite (store_zero_terminate a4 (elt_capacity a1)) by (done || lia).
  change (elt_at a4 (Z.of_nat j)) with (elt_at a3 (Z.of_nat j)).
  unfold a3. rewrite (store_memcpy a2 (elt_capacity a1))
    by (try done; rewrite ?Ee2, ?Ee; lia).
  rewrite Ee2, Ee.
  destruct (decide (j < Z.to_nat n)%nat) as [Hlt|Hge].
  - rewrite decide_True by lia.
    rewrite lookup_app_l by (rewrite elems_of_length; lia).
    rewrite elems_of_lookup_read by lia. do 2 f_equal. lia.
  - rewrite decide_False by lia.
    rewrite lookup_app_r by (rewrite elems_of_length; lia).
    rewrite elems_of_length, elements_lookup by lia.
    unfold a2. rewrite (store_memmove a1 (elt_capacity a1)) by (done || lia).
    rewrite El, decide_True by lia.
    rewrite Hkeeps by lia. do 2 f_equal. lia.
Qed.

Lemma ret_if {A} (c : bool) (x y : A) (log : list event) :
  (if c then ret x else ret y) log = Returns (if c then x else y) log.
Proof. by destruct c. Qed.

(** The call of the clear function on one element, if there is one. *)
Lemma clear_one a K i log :
  fits a K -> 0 <= i < K ->
  exists a1,
    match clear_func a with
    | Some f => call_clear_func f i a
    | None => ret a
    end log
    = Returns a1 (log ++ match clear_func a with
                         | Some _ => [EvClear (g_array_elt_pos a i)]
                         | None => []
                         end) /\
    same_shape a a1 /\
    forall j, 0 <= j < K -> j <> i -> elt_at a1 j = elt_at a j.
Proof.
  intros Hfits Hi. destruct (clear_func a) as [f|].
  - unfold call_clear_func, bind, emit, ret. eexists.
    split; [reflexivity|].
    split; [apply same_shape_on_data; intros; apply length_mem_write|].
    intros j Hj Hne. by apply (store_clear_func a K).
  - exists a. unfold ret. rewrite app_nil_r. split; [done|].
    split; [apply same_shape_refl|done].
Qed.

Lemma wf_len_max a : wf a -> len a + zt_slot a <= G_MAXUINT.
Proof.
  intros Hwf. pose proof (wf_max a Hwf).
  pose proof (max_elements_range _ (wf_elt_size a Hwf)). lia.
Qed.

Lemma wf_nonempty_fits a :
  wf a -> 0 < len a -> fits a (elt_capacity a) /\
                       len a + zt_slot a <= elt_capacity a.
Proof.
  intros Hwf Hlen. pose proof (wf_data a Hwf) as Hd.
  assert (data a <> None) by (destruct (data a); [done|lia]).
  split; [by apply wf_fits|]. destruct (data a); [lia|done].
Qed.

(** The final store of the removal functions: the vacated slots are zeroed
    (under [g_mem_gc_friendly]) or the terminator is rewritten. *)
Lemma removal_finish a K m j :
  fits a K -> 0 <= len a -> 1 <= m -> len a + m <= K ->
  0 <= j < len a ->
  elt_at (if gc then g_array_elt_zero a (len a) m
          else g_array_zero_terminate a) j
  = elt_at a j.
Proof.
  intros Hfits Hl Hm HK Hj. pose proof (zt_slot_range a).
  destruct gc.
  - rewrite (store_zero a K) by (done || lia). by rewrite decide_False by lia.
  - apply (store_zero_terminate a K); (done || lia).
Qed.

Lemma removal_finish_shape a m :
  same_shape a (if gc then g_array_elt_zero a (len a) m
                else g_array_zero_terminate a).
Proof.
  destruct gc; [apply same_shape_elt_zero|apply same_shape_zero_terminate].
Qed.

(** X3: [g_array_remove_index] deletes the element at the index and keeps
    the others in order; the clear function, if there is one, is called
    once, on the deleted element. An index that is not below the length
    leaves the array as it is and logs a critical warning. *)
Theorem remove_index_elements (a : GRealArray) (i : Z) (log : list event)
    (a' : GRealArray) (log' : list event)
    (Hwf : wf a) (Hi : 0 <= i)
    (Hrun : g_array_remove_index gc a i log = Returns a' log') :
  (i < len a ->
   elements a' = delete (Z.to_nat i) (elements a) /\
   len a' = len a - 1 /\
   log' = log ++ match clear_func a with
                 | Some _ => [EvClear (g_array_elt_pos a i)]
                 | None => []
                 end) /\
  (len a <= i ->
   a' = a /\ log' = log ++ [EvCritical "index_ < array->len"]).
Proof.
  revert Hrun. unfold g_array_remove_index, return_if_fail.
  destruct (Z.ltb_spec i (len a)) as [Hlt|Hge].
  2: { cbv [bind emit ret]. intros [= <- <-]. split; [lia|done]. }
  intros Hrun. split; [intros _|lia]. revert Hrun.
  destruct (wf_nonempty_fits a Hwf ltac:(lia)) as [Hfits Hroom].
  pose proof (wf_len_max a Hwf) as Hmax. pose proof (zt_slot_range a) as Hzt.
  pose proof G_MAXUINT_val as HG.
  set (K := elt_capacity a) in *.
  unfold bind at 1.
  destruct (clear_one a K i log Hfits ltac:(lia)) as (a1 & -> & Hs1 & Hk1).
  pose proof Hs1 as (_ & El1 & _ & Ee1 & _).
  pose proof (fits_same_shape _ _ _ Hs1 Hfits) as Hfits1.
  rewrite El1. rewrite !(to_guint_small (len a - 1)) by lia.
  rewrite (to_guint_small (i + 1)) by lia.
  rewrite (to_guint_small (len a - i)) by lia.
  rewrite (to_guint_small (len a - i - 1)) by lia.
  set (a2 := if negb (i =? len a - 1) then _ else a1).
  assert (Hs2 : same_shape a1 a2).
  { unfold a2. destruct (negb _); [|apply same_shape_refl].
    apply same_shape_on_data. intros. apply length_mem_write. }
  pose proof Hs2 as (_ & El2 & _ & Ee2 & _).
  pose proof (fits_same_shape _ _ _ Hs2 Hfits1) as Hfits2.
  rewrite El2, El1, (to_guint_small (len a - 1)) by lia.
  assert (H2 : forall j, 0 <= j < len a - 1 ->
                 elt_at a2 j = elt_at a (if decide (j < i) then j else j + 1)).
  { intros j Hj. unfold a2.
    destruct (Z.eqb_spec i (len a - 1)) as [->|Hne]; simpl negb; cbv iota.
    - rewrite decide_True by lia. apply Hk1; lia.
    - rewrite (store_memmove a1 K) by (done || lia).
      destruct (decide (j < i)).
      + rewrite decide_False by lia. apply Hk1; lia.
      + rewrite decide_True by lia. rewrite Hk1 by lia. f_equal. lia. }
  set (a3 := set_len a2 (len a - 1)).
  assert (Hfits3 : fits a3 K) by done.
  assert (Hl3 : len a3 = len a - 1) by done.
  pose proof (removal_finish_shape a3 1) as (_ & El4 & _).
  rewrite ret_if. intros [= <- <-].
  change (g_array_elt_zero a3 (len a - 1) 1)
    with (g_array_elt_zero a3 (len a3) 1).
  split; [|split; [by rewrite El4|done]].
  apply elements_eq.
  { rewrite length_delete, length_elements, El4, Hl3; [lia|].
    rewrite elements_lookup by lia. by eexists. }
  intros j Hj.
  rewrite length_delete, length_elements in Hj
    by (rewrite elements_lookup by lia; by eexists).
  rewrite (removal_finish a3 K) by (done || lia).
  change (elt_at a3 (Z.of_nat j)) with (elt_at a2 (Z.of_nat j)).
  rewrite H2 by lia. rewrite list_lookup_delete.
  repeat case_decide; try lia.
  - by rewrite elements_lookup by lia.
  - rewrite elements_lookup by lia. do 2 f_equal. lia.
Qed.

(** X4: [g_array_remove_index_fast] moves the last element into the place
    of the removed one and shortens the array by one, so the order of the
    remaining elements changes only there; the clear function, if there is
    one, is called once, on the removed element. *)
Theorem remove_index_fast_elements (a : GRealArray) (i : Z)
    (log : list event) (a' : GRealArray) (log' : list event)
    (Hwf : wf a) (Hi : 0 <= i)
    (Hrun : g_array_remove_index_fast gc a i log = Returns a' log') :
  (i < len a ->
   elements a'
   = take (Z.to_nat (len a - 1))
       (<[Z.to_nat i := elt_at a (len a - 1)]> (elements a)) /\
   len a' = len a - 1 /\
   log' = log ++ match clear_func a with
                 | Some _ => [EvClear (g_array_elt_pos a i)]
                 | None => []
                 end) /\
  (len a <= i ->
   a' = a /\ log' = log ++ [EvCritical "index_ < array->len"]).
Proof.
  revert Hrun. unfold g_array_remove_index_fast, return_if_fail.
  destruct (Z.ltb_spec i (len a)) as [Hlt|Hge].
  2: { cbv [bind emit ret]. intros [= <- <-]. split; [lia|done]. }
  intros Hrun. split; [intros _|lia]. revert Hrun.
  destruct (wf_nonempty_fits a Hwf ltac:(lia)) as [Hfits Hroom].
  pose proof (wf_len_max a Hwf) as Hmax. pose proof (zt_slot_range a) as Hzt.
  pose proof G_MAXUINT_val as HG.
  set (K := elt_capacity a) in *.
  unfold bind at 1.
  destruct (clear_one a K i log Hfits ltac:(lia)) as (a1 & -> & Hs1 & Hk1).
  pose proof Hs1 as (_ & El1 & _ & Ee1 & _).
  pose proof (fits_same_shape _ _ _ Hs1 Hfits) as Hfits1.
  rewrite El1. rewrite !(to_guint_small (len a - 1)) by lia.
  set (a2 := if negb (i =? len a - 1) then _ else a1).
  assert (Hs2 : same_shape a1 a2).
  { unfold a2. destruct (negb _); [|apply same_shape_refl].
    apply same_shape_on_data. intros. apply length_mem_write. }
  pose proof Hs2 as (_ & El2 & _ & Ee2 & _).
  pose proof (fits_same_shape _ _ _ Hs2 Hfits1) as Hfits2.
  rewrite El2, El1, (to_guint_small (len a - 1)) by lia.
  assert (H2 : forall j, 0 <= j < len a - 1 ->
                 elt_at a2 j
                 = elt_at a (if decide (j = i) then len a - 1 else j)).
  { intros j Hj. unfold a2.
    destruct (Z.eqb_spec i (len a - 1)) as [->|Hne]; simpl negb; cbv iota.
    - rewrite decide_False by lia. apply Hk1; lia.
    - rewrite (store_memmove a1 K) by (done || lia).
      destruct (decide (j = i)) as [->|Hji].
      + rewrite decide_True by lia. rewrite Hk1 by lia. f_equal. lia.
      + rewrite decide_False by lia. apply Hk1; lia. }
  set (a3 := set_len a2 (len a - 1)).
  assert (Hfits3 : fits a3 K) by done.
  assert (Hl3 : len a3 = len a - 1) by done.
  pose proof (removal_finish_shape a3 1) as (_ & El4 & _).
  rewrite ret_if. intros [= <- <-].
  change (g_array_elt_zero a3 (len a - 1) 1)
    with (g_array_elt_zero a3 (len a3) 1).
  split; [|split; [by rewrite El4|done]].
  apply elements_eq.
  { rewrite length_take, length_insert, length_elements, El4, Hl3. lia. }
  intros j Hj.
  rewrite length_take, length_insert, length_elements in Hj.
  rewrite (removal_finish a3 K) by (done || lia).
  change (elt_at a3 (Z.of_nat j)) with (elt_at a2 (Z.of_nat j)).
  rewrite H2 by lia. rewrite lookup_take_lt by lia.
  rewrite list_lookup_insert, length_elements.
  repeat case_decide; try lia; [done|].
  by rewrite elements_lookup by lia.
Qed.

(** The loop that calls the clear function on the elements
    [i + k0 .. i + k0 + m - 1]. *)
Lemma clear_loop_keeps f K i (m : nat) k0 a log a1 log1 :
  fits a K -> 0 <= i -> 0 <= k0 ->
  i + k0 + Z.of_nat m <= K -> i + k0 + Z.of_nat m <= G_MAXUINT ->
  for_loop m k0 (fun k => call_clear_func f (to_guint (i + k))) a log
  = Returns a1 log1 ->
  same_shape a a1 /\
  log1 = log ++ ((fun k : nat => EvClear (g_array_elt_pos a
                                   (i + k0 + Z.of_nat k))) <$> seq 0 m) /\
  forall j, 0 <= j < K -> j < i + k0 \/ i + k0 + Z.of_nat m <= j ->
            elt_at a1 j = elt_at a j.
Proof.
  revert k0 a log. induction m as [|m IH]; intros k0 a log Hfits Hi Hk HK HG.
  { intros [= <- <-]. split; [apply same_shape_refl|].
    split; [by rewrite app_nil_r|done]. }
  pose proof G_MAXUINT_val as HGv.
  cbn [for_loop]. unfold bind at 1.
  unfold call_clear_func at 1. cbv [bind emit ret].
  rewrite (to_guint_small (i + k0)) by lia.
  rewrite (to_guint_small (k0 + 1)) by lia.
  set (a2 := on_data a _). intros Hrun.
  assert (Hs2 : same_shape a a2)
    by (apply same_shape_on_data; intros; apply length_mem_write).
  apply IH in Hrun as (Hs & -> & Hkeep);
    [|by eapply fits_same_shape|lia..].
  split; [by eapply same_shape_trans|]. split.
  - rewrite <- app_assoc. f_equal. simpl. f_equal.
    + by rewrite Z.add_0_r.
    + rewrite <- seq_shift, <- list_fmap_compose.
      apply list_fmap_ext. intros _ k _. simpl.
      rewrite (same_shape_elt_pos a a2) by done. do 2 f_equal. lia.
  - intros j Hj Hout. rewrite Hkeep by lia.
    apply (store_clear_func a K); (done || lia).
Qed.

Lemma clear_range a K i n log :
  fits a K -> 0 <= i -> 0 <= n -> i + n <= K -> i + n <= G_MAXUINT ->
  exists a1,
    match clear_func a with
    | Some f => for_loop (Z.to_nat n) 0
                  (fun k => call_clear_func f (to_guint (i + k))) a
    | None => ret a
    end log
    = Returns a1
        (log ++ match clear_func a with
                | Some _ =>
                    (fun k : nat => EvClear (g_array_elt_pos a
                                               (i + Z.of_nat k)))
                      <$> seq 0 (Z.to_nat n)
                | None => []
                end) /\
    same_shape a a1 /\
    forall j, 0 <= j < K -> j < i \/ i + n <= j -> elt_at a1 j = elt_at a j.
Proof.
  intros Hfits Hi Hn HK HG. destruct (clear_func a) as [f|].
  - destruct (for_loop (Z.to_nat n) 0
                (fun k => call_clear_func f (to_guint (i + k))) a log)
      as [a1 log1|msg] eqn:E.
    + apply (clear_loop_keeps f K) in E as (Hs & -> & Hkeep);
        [|done|lia..].
      exists a1. split.
      * f_equal. f_equal. apply list_fmap_ext. intros _ k _. simpl.
        do 2 f_equal. lia.
      * split; [done|]. intros j Hj Hout. apply Hkeep; lia.
    + exfalso.
      destruct (clear_loop_spec f (fun k => to_guint (i + k)) (Z.to_nat n)
                  0 a log) as (a1 & E1 & _).
      rewrite E1 in E. discriminate.
  - exists a. unfold ret. rewrite app_nil_r. split; [done|].
    split; [apply same_shape_refl|done].
Qed.

(** What a [g_array_remove_range] whose checks pass does. *)
Lemma remove_range_contents a i n log a' log' :
  wf a -> 0 <= i -> 0 <= n -> i + n <= len a ->
  g_array_remove_range gc a i n log = Returns a' log' ->
  elements a' = take (Z.to_nat i) (elements a)
                ++ drop (Z.to_nat (i + n)) (elements a) /\
  len a' = len a - n /\
  log' = log ++ match clear_func a with
                | Some _ =>
                    (fun k : nat => EvClear (g_array_elt_pos a
                                               (i + Z.of_nat k)))
                      <$> seq 0 (Z.to_nat n)
                | None => []
                end /\
  (n = 0 -> a' = a) /\
  same_shape (set_len a (len a - n)) a'.
Proof.
  intros Hwf Hi Hn Hin.
  pose proof (wf_len_max a Hwf) as Hmax. pose proof (zt_slot_range a) as Hzt.
  pose proof G_MAXUINT_val as HG.
  unfold g_array_remove_range, return_if_fail.
  rewrite (to_guint_small (G_MAXUINT - n)) by lia.
  rewrite !(to_guint_small (i + n)) by lia.
  destruct (Z.leb_spec i (len a)); [|lia].
  destruct (Z.leb_spec i (G_MAXUINT - n)); [|lia].
  destruct (Z.leb_spec (i + n) (len a)); [|lia].
  destruct (Z.eqb_spec n 0) as [->|Hnz].
  { intros [= <- <-]. rewrite Z.add_0_r, take_drop, Z.sub_0_r.
    split; [done|]. split; [done|]. split.
    - simpl. destruct (clear_func a); by rewrite app_nil_r.
    - split; [done|]. by repeat split. }
  destruct (wf_nonempty_fits a Hwf ltac:(lia)) as [Hfits Hroom].
  set (K := elt_capacity a) in *.
  unfold bind at 1.
  destruct (clear_range a K i n log Hfits ltac:(lia) ltac:(lia) ltac:(lia)
              ltac:(lia)) as (a1 & -> & Hs1 & Hk1).
  pose proof Hs1 as (_ & El1 & _ & Ee1 & _).
  pose proof (fits_same_shape _ _ _ Hs1 Hfits) as Hfits1.
  rewrite !El1. rewrite (to_guint_small (len a - (i + n))) by lia.
  set (a2 := if negb (i + n =? len a) then _ else a1).
  assert (Hs2 : same_shape a1 a2).
  { unfold a2. destruct (negb _); [|apply same_shape_refl].
    apply same_shape_on_data. intros. apply length_mem_write. }
  pose proof Hs2 as (_ & El2 & _ & Ee2 & _).
  pose proof (fits_same_shape _ _ _ Hs2 Hfits1) as Hfits2.
  rewrite El2, El1, (to_guint_small (len a - n)) by lia.
  assert (H2 : forall j, 0 <= j < len a - n ->
                 elt_at a2 j = elt_at a (if decide (j < i) then j else j + n)).
  { intros j Hj. unfold a2.
    destruct (Z.eqb_spec (i + n) (len a)) as [Heq|Hne]; simpl negb; cbv iota.
    - rewrite decide_True by lia. apply Hk1; lia.
    - rewrite (store_memmove a1 K) by (done || lia).
      destruct (decide (j < i)).
      + rewrite decide_False by lia. apply Hk1; lia.
      + rewrite decide_True by lia. rewrite Hk1 by lia. f_equal. lia. }
  set (a3 := set_len a2 (len a - n)).
  assert (Hfits3 : fits a3 K) by done.
  assert (Hl3 : len a3 = len a - n) by done.
  pose proof (removal_finish_shape a3 n) as Hs4.
  pose proof Hs4 as (_ & El4 & _).
  rewrite ret_if. intros [= <- <-].
  change (g_array_elt_zero a3 (len a - n) n)
    with (g_array_elt_zero a3 (len a3) n).
  split; [|split; [by rewrite El4|split; [done|split; [lia|]]]].
  2: { eapply same_shape_trans; [|exact Hs4].
       destruct Hs1 as (?&?&?&?&?&?&?&?). destruct Hs2 as (?&?&?&?&?&?&?&?).
       unfold a3, same_shape. simpl. repeat split; congruence. }
  apply elements_eq.
  { rewrite length_app, length_take, length_drop, length_elements, El4, Hl3.
    lia. }
  intros j Hj.
  rewrite length_app, length_take, length_drop, length_elements in Hj.
  rewrite (removal_finish a3 K) by (done || lia).
  change (elt_at a3 (Z.of_nat j)) with (elt_at a2 (Z.of_nat j)).
  rewrite H2 by lia.
  destruct (decide (Z.of_nat j < i)).
  - rewrite lookup_app_l by (rewrite length_take, length_elements; lia).
    rewrite lookup_take_lt by lia. by rewrite elements_lookup by lia.
  - rewrite lookup_app_r by (rewrite length_take, length_elements; lia).
    rewrite length_take, length_elements, lookup_drop.
    rewrite elements_lookup by lia. do 2 f_equal. lia.
Qed.

(** X5: [g_array_remove_range] deletes the [n] elements from the index on
    and keeps the others in order; the clear function, if there is one, is
    called once on each deleted element, in index order. A range that does
    not lie within the array leaves it as it is and logs a critical
    warning. *)
Theorem remove_range_elements (a : GRealArray) (i n : Z) (log : list event)
    (a' : GRealArray) (log' : list event)
    (Hwf : wf a) (Hi : 0 <= i <= G_MAXUINT) (Hn : 0 <= n <= G_MAXUINT)
    (Hrun : g_array_remove_range gc a i n log = Returns a' log') :
  (i + n <= len a ->
   elements a' = take (Z.to_nat i) (elements a)
                 ++ drop (Z.to_nat (i + n)) (elements a) /\
   len a' = len a - n /\
   log' = log ++ match clear_func a with
                 | Some _ =>
                     (fun k : nat => EvClear (g_array_elt_pos a
                                                (i + Z.of_nat k)))
                       <$> seq 0 (Z.to_nat n)
                 | None => []
                 end) /\
  (len a < i + n -> a' = a /\ exists check, log' = log ++ [EvCritical check]).
Proof.
  split.
  - intros Hin.
    destruct (remove_range_contents a i n log a' log' Hwf ltac:(lia)
                ltac:(lia) Hin Hrun) as (H1 & H2 & H3 & _).
    done.
  - intros Hout. revert Hrun.
    pose proof (wf_len_max a Hwf) as Hmax.
    pose proof (zt_slot_range a) as Hzt. pose proof G_MAXUINT_val as HG.
    unfold g_array_remove_range, return_if_fail.
    rewrite (to_guint_small (G_MAXUINT - n)) by lia.
    destruct (Z.leb_spec i (len a));
      [|cbv [bind emit ret]; intros [= <- <-]; split; [done|by eexists]].
    destruct (Z.leb_spec i (G_MAXUINT - n));
      [|cbv [bind emit ret]; intros [= <- <-]; split; [done|by eexists]].
    rewrite !(to_guint_small (i + n)) by lia.
    destruct (Z.leb_spec (i + n) (len a)); [lia|].
    cbv [bind emit ret]. intros [= <- <-]. split; [done|by eexists].
Qed.

(** The last step of [g_array_set_size]. *)
Lemma set_size_finish x K log a' log' :
  (data x <> None -> fits x K /\ len x + zt_slot x <= K) -> 0 <= len x ->
  match data x with
  | Some _ => ret (g_array_zero_terminate x)
  | None => ret x
  end log = Returns a' log' ->
  log' = log /\ same_shape x a' /\
  forall j, 0 <= j < len x -> elt_at a' j = elt_at x j.
Proof.
  intros Hx Hl. destruct (data x) eqn:E; intros [= <- <-].
  - split; [done|]. split; [apply same_shape_zero_terminate|].
    destruct Hx as [Hfits HK]; [done|]. pose proof (zt_slot_range x).
    intros j Hj. apply (store_zero_terminate x K); (done || lia).
  - split; [done|]. split; [apply same_shape_refl|done].
Qed.

Lemma elements_same x a' :
  len a' = len x ->
  (forall j, 0 <= j < len x -> elt_at a' j = elt_at x j) ->
  elements a' = elements x.
Proof.
  intros Hl H. apply elements_eq; rewrite length_elements; [lia|].
  intros j Hj. rewrite elements_lookup by lia. f_equal. symmetry.
  apply H. lia.
Qed.

Lemma wf_data_fits a :
  wf a -> data a <> None ->
  fits a (elt_capacity a) /\ len a + zt_slot a <= elt_capacity a.
Proof.
  intros Hwf Hd. split; [by apply wf_fits|].
  pose proof (wf_data a Hwf). destruct (data a); [lia|done].
Qed.

(** The element that [g_array_set_size] gives to new places of an array
    created with [clear] set. *)
Definition zero_elt (a : GRealArray) : elt :=
  repeat (Some 0) (Z.to_nat (elt_size a)).

Lemma set_size_contents a k log a' log' :
  wf a -> 0 <= k <= G_MAXUINT ->
  g_array_set_size gc a k log = Returns a' log' ->
  wf a' /\ len a' = k /\ elt_size a' = elt_size a /\
  zero_terminated a' = zero_terminated a /\ clear_ a' = clear_ a /\
  (k <= len a ->
   elements a' = take (Z.to_nat k) (elements a) /\
   log' = log ++ match clear_func a with
                 | Some _ =>
                     (fun j : nat => EvClear (g_array_elt_pos a
                                                (k + Z.of_nat j)))
                       <$> seq 0 (Z.to_nat (len a - k))
                 | None => []
                 end) /\
  (len a < k ->
   take (Z.to_nat (len a)) (elements a') = elements a /\
   (clear_ a = true ->
    elements a'
    = elements a ++ replicate (Z.to_nat (k - len a)) (zero_elt a)) /\
   (data a' <> None /\ k + zt_slot a <= elt_capacity a') /\
   log' = log).
Proof.
  intros Hwf Hk Hrun.
  pose proof (set_size_wf gc a k log a' log' Hwf Hk Hrun) as Hwf'.
  split; [done|]. revert Hrun.
  pose proof (wf_len_max a Hwf) as Hmax. pose proof (zt_slot_range a) as Hzt.
  pose proof (wf_len a Hwf) as Hlen. pose proof G_MAXUINT_val as HG.
  unfold g_array_set_size.
  destruct (Z.gtb_spec k (len a)) as [Hgt|Hle].
  - (* growing *)
    rewrite !(to_guint_small (k - len a)) by lia.
    unfold bind at 1. unfold bind at 1.
    destruct (g_array_maybe_expand gc a (k - len a) log) as [a1 log1|] eqn:E;
      [|done].
    apply maybe_expand_grown in E as [-> G]; [|done|lia].
    destruct G as [Hwf1 Hfits El Ee Ez Ec _ _ Hroom Hmx Hkeeps].
    set (K := elt_capacity a1) in *.
    rewrite Ec, El. rewrite ?(to_guint_small (k - len a)) by lia.
    set (a2 := if clear_ a then g_array_elt_zero a1 (len a) (k - len a)
               else a1).
    assert (Hrw : (if clear_ a
                   then ret (g_array_elt_zero a1 (len a) (k - len a))
                   else ret a1) log = Returns a2 log) by (by rewrite ret_if).
    rewrite Hrw. clear Hrw.
    assert (Hs2 : same_shape a1 a2).
    { unfold a2. destruct (clear_ a);
        [apply same_shape_elt_zero|apply same_shape_refl]. }
    pose proof Hs2 as (_ & El2 & Ecap2 & Ee2 & Ez2 & Ecl2 & _).
    pose proof (fits_same_shape _ _ _ Hs2 Hfits) as Hfits2.
    assert (H2 : forall j, 0 <= j < k ->
              elt_at a2 j
              = if decide (j < len a) then elt_at a j
                else if clear_ a then zero_elt a else elt_at a1 j).
    { intros j Hj. unfold a2. destruct (clear_ a).
      - rewrite (store_zero a1 K) by (done || lia).
        destruct (decide (j < len a)).
        + rewrite decide_False by lia. apply Hkeeps. lia.
        + rewrite decide_True by lia. unfold zero_elt. by rewrite Ee.
      - destruct (decide (j < len a)); [apply Hkeeps; lia|done]. }
    set (a3 := set_len a2 k).
    assert (Hzt3 : zt_slot a3 = zt_slot a).
    { unfold zt_slot, a3. cbn [zero_terminated set_len]. by rewrite Ez2, Ez. }
    intros Hrun.
    apply (set_size_finish a3 K) in Hrun as (-> & Hs4 & Hk4);
      [|intros _; split; [done|rewrite Hzt3; simpl; lia]|simpl; lia].
    pose proof Hs4 as (_ & El4 & Ecap4 & Ee4 & Ez4 & Ecl4 & _).
    split; [by rewrite El4|]. split; [by rewrite Ee4, <- Ee, <- Ee2|].
    split; [by rewrite Ez4, <- Ez, <- Ez2|].
    split; [by rewrite Ecl4, <- Ec, <- Ecl2|].
    split; [lia|]. intros _.
    assert (Hlk : forall j : nat, (j < Z.to_nat k)%nat ->
              elements a' !! j
              = Some (if decide (Z.of_nat j < len a)
                      then elt_at a (Z.of_nat j)
                      else if clear_ a then zero_elt a
                           else elt_at a1 (Z.of_nat j))).
    { intros j Hj. rewrite elements_lookup by (rewrite El4; simpl; lia).
      rewrite Hk4 by (simpl; lia).
      change (elt_at a3 (Z.of_nat j)) with (elt_at a2 (Z.of_nat j)).
      by rewrite H2 by lia. }
    split; [|split; [|split; [|done]]].
    + apply list_eq. intros j.
      destruct (decide (j < Z.to_nat (len a))%nat).
      * rewrite lookup_take_lt, Hlk by lia. rewrite decide_True by lia.
        by rewrite elements_lookup by lia.
      * rewrite lookup_take_ge by lia. symmetry.
        apply lookup_ge_None. rewrite length_elements. lia.
    + intros Hclear. apply list_eq. intros j.
      destruct (decide (j < Z.to_nat k)%nat).
      * rewrite Hlk by lia. rewrite Hclear.
        destruct (decide (Z.of_nat j < len a)).
        -- rewrite lookup_app_l by (rewrite length_elements; lia).
           by rewrite elements_lookup by lia.
        -- rewrite lookup_app_r by (rewrite length_elements; lia).
           rewrite length_elements.
           by rewrite lookup_replicate_2 by lia.
      * rewrite !(proj2 (lookup_ge_None _ _)); [done|..].
        -- rewrite length_app, length_elements, length_replicate. lia.
        -- rewrite length_elements, El4. simpl. lia.
    + destruct Hs4 as (Hd4 & _). destruct Hfits2 as (_ & _ & b & Eb & _).
      split.
      * unfold a3 in Hd4. cbn [data set_len] in Hd4. rewrite Eb in Hd4.
        by destruct (data a').
      * rewrite Ecap4. cbn [elt_capacity set_len a3]. rewrite Ecap2. lia.
  - destruct (Z.ltb_spec k (len a)) as [Hlt|Hge].
    + (* shrinking *)
      rewrite (to_guint_small (len a - k)) by lia.
      unfold bind at 1.
      destruct (g_array_remove_range gc a k (len a - k) log)
        as [a2 log2|] eqn:E; [|done].
      apply remove_range_contents in E as (He2 & Hl2 & -> & _ & Hs2);
        [|done|lia..].
      replace (len a - (len a - k)) with k in * by lia.
      replace (k + (len a - k)) with (len a) in He2 by lia.
      rewrite drop_ge, app_nil_r in He2 by (rewrite length_elements; lia).
      pose proof Hs2 as (Hd2 & _ & Ecap2 & Ee2 & Ez2 & Ecl2 & _).
      set (a3 := set_len a2 k).
      destruct (wf_nonempty_fits a Hwf ltac:(lia)) as [Hfa Hra].
      assert (Hfits2 : fits a2 (elt_capacity a)).
      { eapply fits_same_shape; [exact Hs2|done]. }
      intros Hrun.
      apply (set_size_finish a3 (elt_capacity a)) in Hrun
        as (-> & Hs4 & Hk4); [|intros _; split; [done|]|simpl; lia].
      2: { unfold zt_slot, a3. cbn [len zero_terminated set_len].
           rewrite Ez2. cbn [zero_terminated set_len].
           fold (zt_slot a). lia. }
      pose proof Hs4 as (_ & El4 & Ecap4 & Ee4 & Ez4 & Ecl4 & _).
      split; [by rewrite El4|].
      split; [rewrite Ee4; unfold a3; cbn [elt_size set_len]; by rewrite Ee2|].
      split; [rewrite Ez4; unfold a3; cbn [zero_terminated set_len];
              by rewrite Ez2|].
      split; [rewrite Ecl4; unfold a3; cbn [clear_ set_len];
              by rewrite Ecl2|].
      split; [|lia]. intros _. split; [|done].
      rewrite <- He2. apply elements_same; [by rewrite El4|].
      intros j Hj. rewrite Hk4 by (simpl; lia). done.
    + (* the same length *)
      assert (k = len a) as -> by lia.
      unfold bind at 1. unfold ret at 1.
      set (a3 := set_len a (len a)).
      intros Hrun.
      apply (set_size_finish a3 (elt_capacity a)) in Hrun
        as (-> & Hs4 & Hk4);
        [|intros Hd; exact (wf_data_fits a Hwf Hd)|simpl; lia].
      pose proof Hs4 as (_ & El4 & Ecap4 & Ee4 & Ez4 & Ecl4 & _).
      split; [by rewrite El4|]. split; [by rewrite Ee4|].
      split; [by rewrite Ez4|]. split; [by rewrite Ecl4|].
      split; [|lia]. intros _. split.
      * rewrite take_ge by (rewrite length_elements; lia).
        apply elements_same; [by rewrite El4|].
        intros j Hj. by rewrite Hk4 by (simpl; lia).
      * rewrite Z.sub_diag. simpl. destruct (clear_func a);
          by rewrite app_nil_r.
Qed.

(** X6: [g_array_set_size] to a smaller length keeps the first elements and
    calls the clear function, if there is one, once on each element it
    drops, in index order; to a larger length it keeps the elements, and on
    an array created with [clear] set the new elements are zero; no clear
    function runs when the array grows. *)
Theorem set_size_elements (a : GRealArray) (k : Z) (log : list event)
    (a' : GRealArray) (log' : list event)
    (Hwf : wf a) (Hk : 0 <= k <= G_MAXUINT)
    (Hrun : g_array_set_size gc a k log = Returns a' log') :
  len a' = k /\
  (k <= len a ->
   elements a' = take (Z.to_nat k) (elements a) /\
   log' = log ++ match clear_func a with
                 | Some _ =>
                     (fun j : nat => EvClear (g_array_elt_pos a
                                                (k + Z.of_nat j)))
                       <$> seq 0 (Z.to_nat (len a - k))
                 | None => []
                 end) /\
  (len a < k ->
   take (Z.to_nat (len a)) (elements a') = elements a /\
   (clear_ a = true ->
    elements a'
    = elements a ++ replicate (Z.to_nat (k - len a)) (zero_elt a)) /\
   log' = log).
Proof.
  destruct (set_size_contents a k log a' log' Hwf Hk Hrun)
    as (_ & Hl & _ & _ & _ & Hshrink & Hgrow).
  split; [done|]. split; [done|].
  intros Hlt. destruct (Hgrow Hlt) as (H1 & H2 & _ & H3). done.
Qed.

(** X7: [g_array_insert_vals] at an index within the array puts the [n]
    new elements before the element at that index and keeps the order of
    the others; at an index past the end of an array created with [clear]
    set it first fills the gap with zero elements. With [n] = 0 the array
    is left as it is, whatever the index. No clear function runs. *)
Theorem insert_vals_elements (a : GRealArray) (i : Z) (d : block) (n : Z)
    (log : list event) (a' : GRealArray) (log' : list event)
    (Hwf : wf a) (Hi : 0 <= i) (Hn : 0 <= n) (Hin : i + n <= G_MAXUINT)
    (Hd : elt_size a * n <= Z.of_nat (length d))
    (Hrun : g_array_insert_vals gc a i d n log = Returns a' log') :
  log' = log /\
  (n = 0 -> a' = a) /\
  (i <= len a ->
   elements a' = take (Z.to_nat i) (elements a)
                 ++ elems_of d n (elt_size a)
                 ++ drop (Z.to_nat i) (elements a) /\
   len a' = len a + n) /\
  (len a < i -> 0 < n ->
   len a' = i + n /\
   take (Z.to_nat (len a)) (elements a') = elements a /\
   drop (Z.to_nat i) (elements a') = elems_of d n (elt_size a) /\
   (clear_ a = true ->
    elements a'
    = elements a ++ replicate (Z.to_nat (i - len a)) (zero_elt a)
      ++ elems_of d n (elt_size a))).
Proof.
  revert Hrun. unfold g_array_insert_vals.
  pose proof (wf_len_max a Hwf) as Hmax. pose proof (zt_slot_range a) as Hzt.
  pose proof (wf_len a Hwf) as Hlen. pose proof G_MAXUINT_val as HG.
  destruct (Z.eqb_spec n 0) as [->|Hnz].
  { intros [= <- <-]. split; [done|]. split; [done|]. split; [|lia].
    intros _. unfold elems_of. simpl. rewrite take_drop. split; [done|lia]. }
  destruct (Z.geb_spec i (len a)) as [Hge|Hlt].
  - (* at or past the end *)
    rewrite (to_guint_small (i - len a)) by lia.
    rewrite (to_guint_small (i - len a + n)) by lia.
    unfold bind at 1.
    destruct (g_array_maybe_expand gc a (i - len a + n) log)
      as [a1 log1|] eqn:E; [|done].
    apply maybe_expand_grown in E as [-> G]; [|done|lia].
    destruct G as [Hwf1 Hfits El Ee Ez Ec Ef _ Hroom Hmx Hkeeps].
    assert (He1 : elements a1 = elements a).
    { apply elements_same; [done|]. intros j Hj. by apply Hkeeps. }
    unfold bind at 1.
    destruct (g_array_set_size gc a1 i log) as [a2 log2|] eqn:E2; [|done].
    apply set_size_contents in E2
      as (Hwf2 & Hl2 & Ee2 & Ez2 & Ec2 & Hshrink & Hgrow); [|done|lia].
    intros Hrun.
    apply append_vals_contents in Hrun as (He' & Hl' & Ee' & ->);
      [|done|lia|rewrite Ee2, Ee; lia].
    rewrite Ee2, Ee in He'. rewrite Hl2 in Hl'.
    assert (Hlog2 : log2 = log).
    { destruct (Z.eq_dec i (len a)) as [Heq|Hne].
      - destruct Hshrink as [_ ->]; [lia|]. rewrite El, Heq, Z.sub_diag.
        simpl. destruct (clear_func a1); by rewrite app_nil_r.
      - destruct Hgrow as (_ & _ & _ & ->); [lia|done]. }
    split; [done|]. split; [lia|]. split.
    + intros Hle. assert (i = len a) as -> by lia.
      rewrite He'. destruct Hshrink as [-> _]; [lia|].
      rewrite He1.
      by rewrite drop_ge, app_nil_r by (rewrite length_elements; lia).
    + intros Hgt _. destruct Hgrow as (Htake & Hclear & _ & _); [lia|].
      rewrite El, He1 in Htake. rewrite El, He1, Ec in Hclear.
      split; [done|]. rewrite He'.
      assert (Hla2 : length (elements a2) = Z.to_nat i)
        by (by rewrite length_elements, Hl2).
      split; [|split].
      * rewrite take_app_le by lia. done.
      * by rewrite drop_app_length' by done.
      * intros Hc. rewrite (Hclear Hc), <- app_assoc.
        unfold zero_elt. by rewrite Ee.
  - (* in the middle *)
    unfold bind at 1.
    destruct (g_array_maybe_expand gc a n log) as [a1 log1|] eqn:E; [|done].
    apply maybe_expand_grown in E as [-> G]; [|done|lia].
    destruct G as [Hwf1 Hfits El Ee Ez _ _ _ Hroom Hmx Hkeeps].
    set (K := elt_capacity a1) in *.
    rewrite !El. rewrite (to_guint_small (n + i)) by lia.
    rewrite (to_guint_small (len a - i)) by lia.
    intros [= <- <-].
    set (a2 := on_data a1 _).
    set (a3 := on_data a2 _).
    set (a4 := set_len a3 _).
    assert (Hs2 : same_shape a1 a2)
      by (apply same_shape_on_data; intros; apply length_mem_write).
    assert (Hs3 : same_shape a2 a3)
      by (apply same_shape_on_data; intros; apply length_mem_write).
    pose proof (fits_same_shape _ _ _ Hs2 Hfits) as Hfits2.
    pose proof (fits_same_shape _ _ _ Hs3 Hfits2) as Hfits3.
    pose proof Hs2 as (_ & El2 & Ec2 & Ee2 & Ez2 & _).
    pose proof Hs3 as (_ & El3 & Ec3 & Ee3 & Ez3 & _).
    assert (Hl4 : len a4 = len a + n).
    { unfold a4. cbn [len set_len]. rewrite ?El3, ?El2, ?El.
      apply to_guint_small. lia. }
    assert (Hfits4 : fits a4 K) by done.
    assert (Hzt4 : zt_slot a4 = zt_slot a).
    { unfold zt_slot, a4. cbn [zero_terminated set_len].
      by rewrite Ez3, Ez2, Ez. }
    pose proof (same_shape_zero_terminate a4) as (_ & El5 & _ & Ee5 & _).
    split; [done|]. split; [lia|]. split; [|lia]. intros _.
    split; [|by rewrite El5].
    apply elements_eq.
    { rewrite !length_app, length_take, length_drop, length_elements,
        elems_of_length, El5, Hl4. lia. }
    intros j Hj.
    rewrite !length_app, length_take, length_drop, length_elements,
      elems_of_length in Hj.
    rewrite (store_zero_terminate a4 K) by (done || lia).
    change (elt_at a4 (Z.of_nat j)) with (elt_at a3 (Z.of_nat j)).
    unfold a3. rewrite (store_memcpy a2 K)
      by (try done; rewrite ?Ee2, ?Ee; lia).
    rewrite Ee2, Ee.
    destruct (decide (Z.of_nat j < i)) as [Hlo|Hhi].
    + rewrite decide_False by lia.
      rewrite lookup_app_l by (rewrite length_take, length_elements; lia).
      rewrite lookup_take_lt, elements_lookup by lia.
      unfold a2. rewrite (store_memmove a1 K) by (done || lia).
      rewrite decide_False by lia. by rewrite Hkeeps by lia.
    + rewrite lookup_app_r by (rewrite length_take, length_elements; lia).
      rewrite length_take, length_elements.
      destruct (decide (Z.of_nat j < i + n)) as [Hmid|Hend].
      * rewrite decide_True by lia.
        rewrite lookup_app_l by (rewrite elems_of_length; lia).
        rewrite elems_of_lookup_read by lia. do 2 f_equal. lia.
      * rewrite decide_False by lia.
        rewrite lookup_app_r by (rewrite elems_of_length; lia).
        rewrite elems_of_length, lookup_drop, elements_lookup by lia.
        unfold a2. rewrite (store_memmove a1 K) by (done || lia).
        rewrite decide_True by lia. rewrite Hkeeps by lia.
        do 2 f_equal. lia.
Qed.

(** ** The terminator of zero-terminated arrays *)

(** The element after the last one is zero. *)
Definition terminated (a : GRealArray) : Prop :=
  zero_terminated a = true -> data a <> None ->
  elt_at a (len a) = zero_elt a.

Lemma lookup_mem_write_any (b : block) pos (src : list cell) (k : nat) :
  0 <= pos -> (k < length b)%nat ->
  mem_write b pos src !! k
  = if decide (Z.to_nat pos <= k < Z.to_nat pos + length src)%nat
    then src !! (k - Z.to_nat pos)%nat else b !! k.
Proof.
  intros Hp Hk. unfold mem_write. unfold block, cell in *.
  rewrite lookup_take_lt by lia.
  destruct (decide (Z.to_nat pos <= k < Z.to_nat pos + length src)%nat)
    as [Hin|Hout].
  - rewrite lookup_app_r by (rewrite length_take; lia).
    rewrite length_take, lookup_app_l by lia. f_equal. lia.
  - destruct (decide (k < Z.to_nat pos)%nat).
    + rewrite lookup_app_l by (rewrite length_take; lia).
      by rewrite lookup_take_lt by lia.
    + rewrite lookup_app_r by (rewrite length_take; lia).
      rewrite length_take, lookup_app_r by lia.
      rewrite lookup_drop. f_equal. lia.
Qed.

(** Zeroing [m >= 1] elements from the index [X] on zeroes the element at
    [X], also when the store runs past the block. *)
Lemma elt_zero_first x K X m :
  fits x K -> 0 <= X < K -> 1 <= m <= G_MAXUINT ->
  elt_size x <= G_MAXUINT ->
  elt_at (g_array_elt_zero x X m) X = zero_elt x.
Proof.
  intros (Hes & HK & b & Eb & Hb) HX Hm Hmax. pose proof G_MAXUINT_val as HG.
  rewrite elt_at_read. unfold g_array_elt_zero.
  rewrite blk_on_data by (by rewrite Eb).
  assert (blk x = b) as -> by (unfold blk; by rewrite Eb).
  cbn [elt_size on_data set_data].
  unfold elt_read, memset, g_array_elt_pos, g_array_elt_len, zero_elt.
  assert (elt_size x * m <= 4294967295 * 4294967295) by nia.
  assert (elt_size x * (X + 1) <= elt_size x * K) by nia.
  assert (0 <= elt_size x * X) by nia.
  assert (elt_size x * 1 <= elt_size x * m) by nia.
  rewrite !to_gsize_small by lia.
  rewrite mem_read_in by (rewrite ?length_mem_write; lia).
  unfold block, cell in *. apply list_eq. intros k.
  destruct (decide (k < Z.to_nat (elt_size x))%nat) as [Hk|Hk].
  - rewrite lookup_take_lt, lookup_drop by lia.
    rewrite lookup_mem_write_any by clia. rewrite repeat_length.
    rewrite decide_True by clia.
    by rewrite !lookup_repeat_lt by clia.
  - rewrite lookup_take_ge by lia. symmetry. apply lookup_ge_None.
    rewrite repeat_length. lia.
Qed.

Lemma same_shape_sym a a' : same_shape a a' -> same_shape a' a.
Proof.
  unfold same_shape. intros (?&?&?&?&?&?&?&?). repeat split; congruence.
Qed.

Lemma terminated_elt_zero x m :
  wf (g_array_elt_zero x (len x) m) -> 1 <= m <= G_MAXUINT ->
  terminated (g_array_elt_zero x (len x) m).
Proof.
  intros Hwf' Hm Hzt Hd.
  pose proof (same_shape_elt_zero x (len x) m) as Hs.
  pose proof (wf_same_shape _ _ (same_shape_sym _ _ Hs) Hwf') as Hwf.
  pose proof Hs as (Hdl & El & _ & Ee & Ez & _).
  assert (Hdx : data x <> None).
  { intros E. rewrite E in Hdl. by destruct (data (g_array_elt_zero _ _ _)). }
  destruct (wf_data_fits x Hwf Hdx) as [Hfits Hroom].
  rewrite Ez in Hzt. unfold zt_slot in Hroom. rewrite Hzt in Hroom.
  simpl in Hroom. pose proof (wf_len x Hwf). pose proof (wf_elt_size x Hwf).
  rewrite El. unfold zero_elt. rewrite Ee.
  apply (elt_zero_first x (elt_capacity x)); (done || lia).
Qed.

Lemma terminated_zero_terminate x :
  wf (g_array_zero_terminate x) -> terminated (g_array_zero_terminate x).
Proof.
  intros Hwf' Hzt Hd.
  pose proof (same_shape_zero_terminate x) as (_ & _ & _ & _ & Ez & _).
  rewrite Ez in Hzt. revert Hwf' Hd. unfold g_array_zero_terminate.
  rewrite Hzt. intros Hwf' Hd. by apply terminated_elt_zero.
Qed.

Lemma terminated_removal x m :
  wf (if gc then g_array_elt_zero x (len x) m else g_array_zero_terminate x)
  -> 1 <= m <= G_MAXUINT ->
  terminated (if gc then g_array_elt_zero x (len x) m
              else g_array_zero_terminate x).
Proof.
  destruct gc; intros Hwf Hm;
    [by apply terminated_elt_zero|by apply terminated_zero_terminate].
Qed.

Lemma terminated_no_data a : data a = None -> terminated a.
Proof. by intros E _ Hd. Qed.

Lemma terminated_fields a a' :
  data a' = data a -> len a' = len a -> elt_size a' = elt_size a ->
  zero_terminated a' = zero_terminated a -> terminated a -> terminated a'.
Proof.
  intros Hd Hl He Hz Ht Hzt Hdata. rewrite Hz in Hzt. rewrite Hd in Hdata.
  specialize (Ht Hzt Hdata). unfold zero_elt in *. rewrite Hl, He, <- Ht.
  apply elt_at_eq; [done|]. unfold blk. by rewrite Hd.
Qed.

(** Sorting rewrites the [len] elements only. *)
Lemma sort_keeps_terminator {U} (cmp : GCompareDataFunc U) (ud : U) a :
  wf a -> terminated a ->
  terminated (on_data a (fun b => g_sort_array cmp ud b (len a) (elt_size a))).
Proof.
  intros Hwf Ht Hzt Hdata. cbn [zero_terminated on_data set_data] in Hzt.
  assert (Hd : data a <> None).
  { intros E. apply Hdata. unfold on_data. by rewrite E. }
  destruct (wf_data_fits a Hwf Hd) as [Hfits Hroom].
  unfold zt_slot in Hroom. rewrite Hzt in Hroom. simpl in Hroom.
  pose proof (wf_len a Hwf) as Hlen.
  pose proof Hfits as (Hes & HK & b & Eb & Hb).
  specialize (Ht Hzt Hd). unfold zero_elt in *.
  cbn [len on_data set_data elt_size].
  rewrite <- Ht. rewrite !elt_at_read.
  rewrite blk_on_data by done. cbn [elt_size on_data set_data].
  assert (blk a = b) as -> by (unfold blk; by rewrite Eb).
  unfold g_sort_array. fold (elems_of b (len a) (elt_size a)).
  set (E := elems_of b (len a) (elt_size a)).
  set (X := msort cmp ud (length E) E).
  assert (HlenX : Z.of_nat (length (concat X)) = elt_size a * len a).
  { assert (HX : Forall (fun x => length x = Z.to_nat (elt_size a)) X).
    { unfold X. rewrite msort_perm. apply elems_of_uniform. }
    rewrite (length_concat_uniform _ _ HX). unfold X.
    rewrite msort_perm. unfold E. rewrite elems_of_length. nia. }
  replace 0 with (elt_size a * 0) at 1 by lia.
  assert (elt_size a * len a <= elt_size a * elt_capacity a) by nia.
  apply (elt_read_write_out (elt_size a) (elt_capacity a)); try done;
    subst X E; clia.
Qed.

Lemma append_terminated a d n log a' log' :
  wf a' -> n <> 0 ->
  g_array_append_vals gc a d n log = Returns a' log' -> terminated a'.
Proof.
  intros Hwf' Hn. unfold g_array_append_vals.
  destruct (Z.eqb_spec n 0); [done|]. unfold bind.
  destruct (g_array_maybe_expand gc a n log); [|done].
  intros [= <- <-]. by apply terminated_zero_terminate.
Qed.

Lemma api_step_terminated a a' :
  wf a -> terminated a -> api_step gc a a' -> terminated a'.
Proof.
  intros Hwf Ht Hstep.
  pose proof (api_step_wf gc a a' Hwf Hstep) as Hwf'.
  pose proof G_MAXUINT_val as HG.
  destruct Hstep as [d n log a' log' Hn Hrun|d n log a' log' Hn Hrun
    |i d n log a' log' Hi Hn Hrun|i log a' log' Hi Hrun|i log a' log' Hi Hrun
    |i n log a' log' Hi Hn Hrun|k log a' log' Hk Hrun|log seg n a' log' Hrun
    |fs log seg a' log' Hrun|log a' log' Hrun|log a' log' Hrun
    |f log a' log' Hrun|cmp log a' log' Hrun|cmp log a' log' Hrun].
  - (* append *)
    destruct (Z.eq_dec n 0) as [->|Hnz];
      [by injection Hrun as <- <-|by eapply append_terminated].
  - (* prepend *)
    revert Hrun. unfold g_array_prepend_vals.
    destruct (Z.eqb_spec n 0); [by intros [= <- <-]|]. unfold bind.
    destruct (g_array_maybe_expand gc a n log); [|done].
    intros [= <- <-]. by apply terminated_zero_terminate.
  - (* insert *)
    revert Hrun. unfold g_array_insert_vals.
    destruct (Z.eqb_spec n 0); [by intros [= <- <-]|].
    destruct (i >=? len a).
    + unfold bind at 1. destruct (g_array_maybe_expand _ _ _ _); [|done].
      unfold bind at 1. destruct (g_array_set_size _ _ _ _); [|done].
      by apply append_terminated.
    + unfold bind. destruct (g_array_maybe_expand gc a n log); [|done].
      intros [= <- <-]. by apply terminated_zero_terminate.
  - (* remove_index *)
    revert Hrun. unfold g_array_remove_index, return_if_fail.
    destruct (i <? len a); [|cbv [bind emit ret]; by intros [= <- <-]].
    unfold bind at 1. destruct (match clear_func a with _ => _ end log);
      [|done].
    rewrite ret_if. intros [= <- <-]. apply terminated_removal; [done|lia].
  - (* remove_index_fast *)
    revert Hrun. unfold g_array_remove_index_fast, return_if_fail.
    destruct (i <? len a); [|cbv [bind emit ret]; by intros [= <- <-]].
    unfold bind at 1. destruct (match clear_func a with _ => _ end log);
      [|done].
    rewrite ret_if. intros [= <- <-]. apply terminated_removal; [done|lia].
  - (* remove_range *)
    revert Hrun. unfold g_array_remove_range, return_if_fail.
    destruct (i <=? len a); [|cbv [bind emit ret]; by intros [= <- <-]].
    destruct (i <=? _); [|cbv [bind emit ret]; by intros [= <- <-]].
    destruct (_ <=? len a); [|cbv [bind emit ret]; by intros [= <- <-]].
    destruct (Z.eqb_spec n 0); [by intros [= <- <-]|].
    unfold bind at 1. destruct (match clear_func a with _ => _ end log);
      [|done].
    rewrite ret_if. intros [= <- <-]. apply terminated_removal; [done|lia].
  - (* set_size *)
    revert Hrun. unfold g_array_set_size. unfold bind at 1.
    match goal with
    | |- match ?e with _ => _ end = _ -> _ => destruct e as [x logx|]
    end; [|done].
    destruct (data (set_len x k)) eqn:E; intros [= <- <-].
    + by apply terminated_zero_terminate.
    + by apply terminated_no_data.
  - (* steal *)
    injection Hrun as <- <- <- <-. by apply terminated_no_data.
  - (* free *)
    revert Hrun. unfold g_array_free, g_atomic_ref_count_dec, array_free.
    unfold bind at 1.
    match goal with
    | |- match ?e with _ => _ end = _ -> _ => destruct e as [r logr|]
    end; [|done].
    destruct (negb (Z.land _ PRESERVE_WRAPPER =? 0)); [|done].
    intros [= <- <- <-]. by apply terminated_no_data.
  - (* unref *)
    revert Hrun. unfold g_array_unref, g_atomic_ref_count_dec.
    destruct (ref_count a - 1 =? 0).
    + unfold array_free. unfold bind at 1. unfold bind at 1.
      match goal with
      | |- match match ?e with _ => _ end with _ => _ end = _ -> _ =>
          destruct e as [r logr|]
      end; [|done].
      change (negb (Z.land FREE_SEGMENT PRESERVE_WRAPPER =? 0)) with false.
      cbv [bind emit ret]. by intros [= <-].
    + intros [= <- <-]. by apply (terminated_fields a).
  - (* ref *)
    injection Hrun as <- <-. by apply (terminated_fields a).
  - (* set_clear_func *)
    injection Hrun as <- <-. by apply (terminated_fields a).
  - (* sort *)
    revert Hrun. unfold g_array_sort.
    destruct (len a >? 0); intros [= <- <-]; [|done].
    by apply sort_keeps_terminator.
  - (* sort_with_data *)
    revert Hrun. unfold g_array_sort_with_data.
    destruct (len a >? 0); intros [= <- <-]; [|done].
    by apply sort_keeps_terminator.
Qed.

(** X8: a zero-terminated array reachable through the API whose data is
    not NULL holds an all-zero element right after its last element. *)
Theorem reachable_zero_terminated (a : GRealArray)
    (Hreach : reachable gc a)
    (Hzt : zero_terminated a = true) (Hdata : data a <> None) :
  elt_at a (len a) = repeat (Some 0) (Z.to_nat (elt_size a)).
Proof.
  enough (terminated a) as H by (by apply H).
  clear Hzt Hdata.
  induction Hreach as [zt clr es rs log a log' Hes Hrs Hrun
                      |zt clr es log a log' Hes Hrun|a a' Hr IH Hstep].
  - pose proof (sized_new_wf gc _ _ _ _ _ _ _ Hes Hrs Hrun) as Hwf.
    revert Hrun. unfold g_array_sized_new.
    destruct (negb (es >? 0)); [done|].
    destruct (_ || _) eqn:Ez.
    + unfold bind at 1. destruct (g_array_maybe_expand _ _ _ _) as [a1 l1|];
        [|done].
      destruct (data a1); [|done]. intros [= <- <-].
      by apply terminated_zero_terminate.
    + intros [= <- <-]. by apply terminated_no_data.
  - pose proof (new_wf gc _ _ _ _ _ _ Hes Hrun) as Hwf.
    revert Hrun. unfold g_array_new, g_array_sized_new.
    destruct (negb (es >? 0)); [done|].
    destruct (_ || _) eqn:Ez.
    + unfold bind at 1. destruct (g_array_maybe_expand _ _ _ _) as [a1 l1|];
        [|done].
      destruct (data a1); [|done]. intros [= <- <-].
      by apply terminated_zero_terminate.
    + intros [= <- <-]. by apply terminated_no_data.
  - apply (api_step_terminated a); [by apply (reachable_wf gc)|done..].
Qed.

End Contents.

Section Copies.
Variable gc : bool.

(** ** New arrays with reserved room, and copies *)

Lemma b2z_flag (z : bool) : negb (Z.b2z z =? 0) = z.
Proof. by destruct z. Qed.

(** [g_array_sized_new] returns an empty array with room for the reserved
    elements and the terminator. *)
Lemma sized_new_reserves (zt clr : bool) (es n : Z) (log : list event) :
  0 < es <= G_MAXUINT -> 0 <= n -> n + Z.b2z zt <= max_elements es ->
  exists a,
    g_array_sized_new gc (Z.b2z zt) (Z.b2z clr) es n log
    = Returns (Some a) log /\
    wf a /\ len a = 0 /\ elt_size a = es /\ zero_terminated a = zt /\
    clear_ a = clr /\ ref_count a = 1 /\ clear_func a = None /\
    n + Z.b2z zt <= elt_capacity a /\
    (0 < n + Z.b2z zt -> data a <> None) /\
    (n + Z.b2z zt = 0 -> data a = None) /\ terminated a.
Proof.
  intros He Hn Hmax. pose proof G_MAXUINT_val as HG.
  pose proof (max_elements_range _ He) as Hme.
  assert (Hb2z : 0 <= Z.b2z zt <= 1) by (destruct zt; simpl; lia).
  unfold g_array_sized_new.
  destruct (Z.gtb_spec es 0) as [_|]; [|lia]. cbn [negb].
  rewrite !b2z_flag.
  set (a0 := mkArray None 0 0 es zt clr 1 None).
  assert (Hzt0 : zt_slot a0 = Z.b2z zt) by done.
  assert (Hwf0 : wf a0).
  { split; simpl; [lia|lia|rewrite Hzt0; lia|done]. }
  cbn [zero_terminated a0].
  destruct (zt || negb (n =? 0)) eqn:Hc.
  2: { apply orb_false_elim in Hc as [-> Hn0].
       apply negb_false_iff in Hn0. apply Z.eqb_eq in Hn0. subst n.
       exists a0. repeat split; try done; simpl; lia. }
  assert (Hpos : 0 < n + Z.b2z zt).
  { destruct zt; simpl in *; [lia|].
    apply negb_true_iff in Hc. apply Z.eqb_neq in Hc. lia. }
  destruct (maybe_expand_grows gc a0 n log Hwf0) as (b' & Heq & Hlen & Hcap & Hb).
  { lia. }
  { unfold overflows. simpl. rewrite Hzt0. lia. }
  { unfold want_length. simpl. rewrite Hzt0. lia. }
  unfold bind at 1. rewrite Heq. cbn [data].
  apply maybe_expand_returns in Heq as [_ Hex]; [|done|lia].
  set (a1 := mkArray (Some b') _ _ _ _ _ _ _) in *.
  pose proof (same_shape_zero_terminate a1) as Hs.
  pose proof Hs as (Hd & El & Ec & Ee & Ez & Ecl & Er & Ef).
  assert (Hwf2 : wf (g_array_zero_terminate a1))
    by (apply (wf_same_shape a1); [done|by destruct Hex]).
  exists (g_array_zero_terminate a1).
  split; [done|]. split; [done|].
  rewrite El, Ec, Ee, Ez, Ecl, Er, Ef.
  repeat split; try done.
  - unfold want_length in Hcap. simpl in Hcap. rewrite Hzt0 in Hcap.
    unfold a1. simpl. lia.
  - intros _ E. rewrite E in Hd. done.
  - lia.
  - by apply terminated_zero_terminate.
Qed.

Lemma copy_contents (a : GRealArray) (log : list event) :
  wf a ->
  exists a',
    g_array_copy gc a log = Returns (Some a') log /\
    wf a' /\ elements a' = elements a /\ len a' = len a /\
    elt_size a' = elt_size a /\ zero_terminated a' = zero_terminated a /\
    clear_ a' = clear_ a /\ ref_count a' = 1 /\ clear_func a' = None /\
    terminated a'.
Proof.
  intros Hwf. pose proof Hwf as [He Hl Hm Hd].
  pose proof G_MAXUINT_val as HG. pose proof (zt_slot_range a) as Hzt.
  pose proof (wf_capacity a Hwf) as Hcapa.
  destruct (sized_new_reserves (zero_terminated a) (clear_ a) (elt_size a)
              (len a) log He Hl Hm)
    as (a2 & Hnew & Hwf2 & El2 & Ee2 & Ez2 & Ec2 & Er2 & Ef2 & Hcap2
        & Hdata2 & Hnone2 & _).
  fold (zt_slot a) in Hcap2, Hdata2, Hnone2.
  unfold g_array_copy, bind. rewrite Hnew.
  set (a3 := set_len a2 (len a)).
  assert (Hzt3 : zt_slot a3 = zt_slot a) by (unfold zt_slot; by rewrite <- Ez2).
  assert (Hwf3 : wf a3).
  { apply wf_set_len; [done|done|]. right.
    replace (zt_slot a2) with (zt_slot a) by done. rewrite Ee2. lia. }
  set (a4 := if len a >? 0 then on_data a3 _ else a3).
  assert (Hs4 : same_shape a3 a4).
  { unfold a4. destruct (len a >? 0); [|apply same_shape_refl].
    apply same_shape_on_data. intros. apply length_memcpy. }
  pose proof (same_shape_zero_terminate a4) as Hs5.
  pose proof (same_shape_trans _ _ _ Hs4 Hs5) as Hs35.
  assert (Hwf5 : wf (g_array_zero_terminate a4))
    by (by apply (wf_same_shape a3)).
  pose proof Hs35 as (_ & El5 & Ecap5 & Ee5 & Ez5 & Ec5 & Er5 & Ef5).
  exists (g_array_zero_terminate a4).
  split; [done|]. split; [done|].
  rewrite El5, Ee5, Ez5, Ec5, Er5, Ef5.
  split; [|repeat split; try done; by apply terminated_zero_terminate].
  apply elements_eq; [by rewrite length_elements, El5|].
  intros j Hj. rewrite length_elements in Hj.
  assert (Hpos : 0 < len a) by lia.
  assert (Hd3 : data a3 <> None) by (apply Hdata2; lia).
  destruct (wf_data_fits a3 Hwf3 Hd3) as [Hfits3 Hroom3].
  change (len a3) with (len a) in Hroom3.
  change (elt_capacity a3) with (elt_capacity a2) in *.
  pose proof (fits_same_shape _ _ _ Hs4 Hfits3) as Hfits4.
  pose proof Hs4 as (_ & El4 & _ & _ & Ez4 & _).
  assert (Hzt4 : zt_slot a4 = zt_slot a)
    by (unfold zt_slot; rewrite Ez4; done).
  rewrite (store_zero_terminate a4 (elt_capacity a2))
    by (done || rewrite ?El4, ?Hzt4; change (len a3) with (len a); lia).
  unfold a4. destruct (Z.gtb_spec (len a) 0) as [_|]; [|lia].
  destruct (wf_index a (len a) Hwf ltac:(lia) ltac:(lia)) as (_ & _ & Hblk).
  assert (Heq : on_data a3 (fun b =>
                   memcpy b 0 (default [] (data a))
                          (g_array_elt_len a (len a)))
                = on_data a3 (fun b =>
                    memcpy b (g_array_elt_pos a3 0) (blk a)
                           (g_array_elt_len a3 (len a)))).
  { unfold g_array_elt_pos, g_array_elt_len. rewrite Z.mul_0_r.
    change (elt_size a3) with (elt_size a2). by rewrite Ee2. }
  rewrite Heq.
  rewrite (store_memcpy a3 (elt_capacity a2))
    by (done || change (elt_size a3) with (elt_size a2); rewrite ?Ee2; lia).
  rewrite decide_True by lia. rewrite elements_lookup by lia.
  rewrite elt_at_read. do 2 f_equal; [by rewrite <- Ee2|lia].
Qed.

(** X9: [g_array_copy] of a well-formed array always succeeds and returns an
    independent array with the same elements, element size and flags, a
    reference count of 1 and no clear function; the terminator of a
    zero-terminated copy is written. *)
Theorem copy_elements (a : GRealArray) (log : list event) (Hwf : wf a) :
  exists a',
    g_array_copy gc a log = Returns (Some a') log /\
    wf a' /\ elements a' = elements a /\ len a' = len a /\
    elt_size a' = elt_size a /\ zero_terminated a' = zero_terminated a /\
    clear_ a' = clear_ a /\ ref_count a' = 1 /\ clear_func a' = None /\
    (zero_terminated a' = true -> data a' <> None ->
     elt_at a' (len a') = repeat (Some 0) (Z.to_nat (elt_size a'))).
Proof. by apply copy_contents. Qed.

(** ** Arrays that take over a block *)

Lemma new_take_contents (d : block) (n clr es : Z) (log : list event) :
  0 < es <= G_MAXUINT -> 0 <= n <= G_MAXUINT ->
  es * n <= Z.of_nat (length d) ->
  Z.of_nat (length d) <= G_MAXSIZE / 2 ->
  exists a,
    g_array_new_take gc (Some d) n clr es log = Returns (Some a) log /\
    wf a /\ elements a = elems_of d n es /\
    data a = Some d /\ len a = n /\ elt_capacity a = n /\ elt_size a = es /\
    zero_terminated a = false /\ clear_ a = negb (clr =? 0) /\
    ref_count a = 1 /\ clear_func a = None.
Proof.
  intros He Hn Hd Hsize. pose proof G_MAXUINT_val as HG.
  pose proof (max_elements_range _ He) as Hme.
  unfold g_array_new_take, new_if_fail. cbn [orb bool_decide].
  rewrite bool_decide_eq_true_2 by done. cbn [orb].
  destruct (Z.leb_spec n G_MAXUINT) as [_|]; [|lia].
  destruct (Z.gtb_spec es 0) as [_|]; [|lia].
  destruct (Z.leb_spec es G_MAXUINT) as [_|]; [|lia]. cbn [andb].
  rewrite (to_guint_small es), (to_guint_small n) by lia.
  unfold g_array_sized_new, bind.
  destruct (Z.gtb_spec es 0) as [_|]; [|lia]. cbn.
  eexists. split; [reflexivity|]. cbn.
  split; [|split; [|done]].
  - split; cbn; try lia.
    unfold max_elements, MIN, zt_slot. cbn.
    assert (n <= G_MAXSIZE / 2 / es)
      by (apply Z.div_le_lower_bound; lia).
    destruct (_ <? _); lia.
  - apply elements_eq; [by rewrite elems_of_length|].
    intros j Hj. rewrite elems_of_length in Hj.
    by rewrite elems_of_lookup_read.
Qed.

(** X10: [g_array_new_take] on a block that holds [len] elements returns a
    well-formed array that owns the block and whose elements are the [len]
    elements of the block; without a block it returns an empty array for
    [len = 0] and refuses any other length. *)
Theorem new_take_elements (d : block) (n clr es : Z) (log : list event)
    (Hes : 0 < es <= G_MAXUINT) (Hn : 0 <= n <= G_MAXUINT)
    (Hd : es * n <= Z.of_nat (length d))
    (Hsize : Z.of_nat (length d) <= G_MAXSIZE / 2) :
  (exists a,
     g_array_new_take gc (Some d) n clr es log = Returns (Some a) log /\
     wf a /\ elements a = elems_of d n es /\
     data a = Some d /\ len a = n /\ elt_capacity a = n /\
     elt_size a = es /\ zero_terminated a = false /\
     ref_count a = 1 /\ clear_func a = None) /\
  (exists a0,
     g_array_new_take gc None 0 clr es log = Returns (Some a0) log /\
     wf a0 /\ data a0 = None /\ len a0 = 0 /\ elt_capacity a0 = 0) /\
  (n <> 0 ->
   g_array_new_take gc None n clr es log
   = Returns None (log ++ [EvCritical "data != NULL || len == 0"])).
Proof.
  pose proof G_MAXUINT_val as HG.
  pose proof (max_elements_range _ Hes) as Hme.
  split; [|split].
  - destruct (new_take_contents d n clr es log Hes Hn Hd Hsize)
      as (a & Hrun & Hwf & Hel & Ed & El & Ec & Ee & Ez & _ & Er & Ef).
    by exists a.
  - unfold g_array_new_take, new_if_fail. cbn [orb bool_decide].
    rewrite bool_decide_eq_false_2 by (by intros H). cbn.
    destruct (Z.gtb_spec es 0) as [_|]; [|lia].
    destruct (Z.leb_spec es G_MAXUINT) as [_|]; [|lia]. cbn [andb].
    rewrite (to_guint_small es) by lia.
    unfold g_array_sized_new, bind.
    destruct (Z.gtb_spec es 0) as [_|]; [|lia]. cbn.
    eexists. split; [reflexivity|]. cbn. split; [|done].
    split; cbn; try lia; try done. unfold zt_slot. cbn.
    change (to_guint 0) with 0. lia.
  - intros Hnz. unfold g_array_new_take, new_if_fail.
    rewrite bool_decide_eq_false_2 by (by intros H). cbn [orb].
    destruct (Z.eqb_spec n 0); [done|]. done.
Qed.

(** The test for the terminator in [g_array_new_take_zero_terminated]:
    a first byte 0 and every byte equal to the next one. *)
Lemma shift_equal (x : cell) (l : list cell) :
  take (length l) (x :: l) = l <-> l = repeat x (length l).
Proof.
  revert x. induction l as [|y l IH]; intros x; [done|].
  cbn [length take repeat]. split.
  - intros [= -> H]. f_equal. by apply IH.
  - intros [= -> H]. f_equal. by apply IH.
Qed.

Lemma zero_test (b : block) (es k : Z) :
  0 < es -> 0 <= k -> es * (k + 1) <= Z.of_nat (length b) ->
  es * (k + 1) < 2 ^ 64 ->
  bool_decide (mem_read b (es * k) 1 = [Some 0]) &&
  bool_decide (mem_read b (es * k) (es - 1)
               = mem_read b (es * k + 1) (es - 1))
  = bool_decide (elt_read es b k = repeat (Some 0) (Z.to_nat es)).
Proof.
  intros Hes Hk Hb Hmax. unfold elt_read. rewrite to_gsize_small by nia.
  pose proof (mem_read_sub b (es * k) es 0 1) as H1.
  pose proof (mem_read_sub b (es * k) es 0 (es - 1)) as H2.
  pose proof (mem_read_sub b (es * k) es 1 (es - 1)) as H3.
  rewrite Z.add_0_r in H1, H2.
  rewrite <- H1, <- H2, <- H3 by nia.
  pose proof (length_mem_read b (es * k) es) as Hlen.
  destruct (mem_read b (es * k) es) as [|x l]; simpl in Hlen; [lia|].
  replace (Z.to_nat es) with (S (length l)) by clia.
  replace (Z.to_nat (es - 1)) with (length l) by clia.
  change (Z.to_nat 0) with 0%nat. change (Z.to_nat 1) with 1%nat.
  cbn [drop take repeat]. rewrite take_0, drop_0, (take_ge l) by done.
  apply Bool.eq_iff_eq_true.
  rewrite andb_true_iff, !bool_decide_eq_true, shift_equal. split.
  - intros [[= ->] H]. f_equal. exact H.
  - intros [= -> H]. split; [done|exact H].
Qed.

Lemma zero_scan_finds (d : block) (es k : Z) (fuel : nat) (i : Z) :
  0 < es -> 0 <= i <= k -> es * (k + 1) <= Z.of_nat (length d) ->
  es * (k + 1) < 2 ^ 64 -> k + 1 < 2 ^ 64 ->
  elt_read es d k = repeat (Some 0) (Z.to_nat es) ->
  (forall j, i <= j < k -> elt_read es d j <> repeat (Some 0) (Z.to_nat es)) ->
  (Z.to_nat (k - i) < fuel)%nat ->
  zero_scan fuel d es i = Some k.
Proof.
  intros Hes Hi Hd Hmax Hk Hz. revert i Hi.
  induction fuel as [|fuel IH]; intros i Hi Hnz Hfuel; [lia|].
  cbn [zero_scan]. rewrite (Z.mul_comm i es).
  rewrite (to_gsize_small (es * i)) by nia.
  rewrite bool_decide_eq_true_2 by nia.
  rewrite zero_test by nia.
  destruct (decide (i = k)) as [->|Hne].
  - by rewrite bool_decide_eq_true_2.
  - rewrite bool_decide_eq_false_2 by (apply Hnz; lia).
    rewrite to_gsize_small by lia.
    apply IH; [lia| |lia]. intros j Hj. apply Hnz. lia.
Qed.

Lemma new_take_zero_terminated_contents (d : block) (clr es k : Z)
    (log : list event) :
  0 < es <= G_MAXUINT -> 0 <= k < G_MAXUINT ->
  es * (k + 1) <= Z.of_nat (length d) ->
  Z.of_nat (length d) <= G_MAXSIZE / 2 ->
  elt_read es d k = repeat (Some 0) (Z.to_nat es) ->
  (forall j, 0 <= j < k -> elt_read es d j <> repeat (Some 0) (Z.to_nat es)) ->
  exists a,
    g_array_new_take_zero_terminated gc (Some d) clr es log
    = Returns (Some a) log /\
    wf a /\ elements a = elems_of d k es /\ data a = Some d /\
    len a = k /\ elt_capacity a = k + 1 /\ elt_size a = es /\
    zero_terminated a = true /\ ref_count a = 1 /\ clear_func a = None /\
    terminated a.
Proof.
  intros He Hk Hd Hsize Hz Hnz. pose proof G_MAXUINT_val as HG.
  pose proof G_MAXSIZE_half as HS.
  unfold g_array_new_take_zero_terminated, new_if_fail.
  destruct (Z.gtb_spec es 0) as [_|]; [|lia].
  destruct (Z.leb_spec es G_MAXUINT) as [_|]; [|lia]. cbn [andb].
  rewrite (zero_scan_finds d es k) by (done || lia || nia).
  destruct (Z.ltb_spec k G_MAXUINT) as [_|]; [|lia].
  destruct (new_take_contents d k clr es log He ltac:(lia) ltac:(nia) Hsize)
    as (a & Hrun & Hwf & Hel & Ed & El & Ec & Ee & Ez & Ecl & Er & Ef).
  unfold bind. rewrite Hrun. cbn [data set_zero_terminated]. rewrite Ed.
  rewrite to_guint_small by lia.
  eexists. split; [reflexivity|].
  cbn [data len elt_capacity elt_size zero_terminated clear_ ref_count
       clear_func set_elt_capacity].
  assert (Hmaxk : k + 1 <= max_elements es).
  { unfold max_elements, MIN.
    assert (k + 1 <= G_MAXSIZE / 2 / es)
      by (apply Z.div_le_lower_bound; lia).
    destruct (_ <? _); lia. }
  split; [|split; [|repeat split; try done]].
  - split; cbn; rewrite ?Ed, ?El, ?Ee; unfold zt_slot; cbn; try lia; nia.
  - rewrite <- Hel. reflexivity.
  - intros _ _.
    change (elt_at a (len a) = repeat (Some 0) (Z.to_nat (elt_size a))).
    rewrite elt_at_read. unfold blk. rewrite Ed, El, Ee. exact Hz.
Qed.

(** X11: [g_array_new_take_zero_terminated] takes as length the index of
    the first all-zero element of the block and returns a well-formed
    zero-terminated array of the elements before it, with room for the
    terminator; without a block it returns an empty zero-terminated array
    that has no data. *)
Theorem new_take_zero_terminated_elements (d : block) (clr es k : Z)
    (log : list event)
    (Hes : 0 < es <= G_MAXUINT) (Hk : 0 <= k < G_MAXUINT)
    (Hd : es * (k + 1) <= Z.of_nat (length d))
    (Hsize : Z.of_nat (length d) <= G_MAXSIZE / 2)
    (Hz : elt_read es d k = repeat (Some 0) (Z.to_nat es))
    (Hnz : forall j, 0 <= j < k ->
                     elt_read es d j <> repeat (Some 0) (Z.to_nat es)) :
  (exists a,
     g_array_new_take_zero_terminated gc (Some d) clr es log
     = Returns (Some a) log /\
     wf a /\ elements a = elems_of d k es /\ data a = Some d /\
     len a = k /\ elt_capacity a = k + 1 /\ elt_size a = es /\
     zero_terminated a = true /\ ref_count a = 1 /\ clear_func a = None) /\
  (exists a0,
     g_array_new_take_zero_terminated gc None clr es log
     = Returns (Some a0) log /\
     wf a0 /\ data a0 = None /\ len a0 = 0 /\ elt_capacity a0 = 0 /\
     zero_terminated a0 = true).
Proof.
  pose proof G_MAXUINT_val as HG.
  pose proof (max_elements_range _ Hes) as Hme.
  split.
  - destruct (new_take_zero_terminated_contents d clr es k log
                Hes Hk Hd Hsize Hz Hnz)
      as (a & Hrun & Hwf & Hel & Ed & El & Ec & Ee & Ez & Er & Ef & _).
    by exists a.
  - unfold g_array_new_take_zero_terminated, new_if_fail.
    destruct (Z.gtb_spec es 0) as [_|]; [|lia].
    destruct (Z.leb_spec es G_MAXUINT) as [_|]; [|lia]. cbn [andb].
    destruct (Z.ltb_spec 0 G_MAXUINT) as [_|]; [|lia].
    unfold bind, g_array_new_take, new_if_fail.
    rewrite bool_decide_eq_false_2 by (by intros H). cbn [orb Z.eqb].
    destruct (Z.leb_spec 0 G_MAXUINT) as [_|]; [|lia].
    destruct (Z.gtb_spec es 0) as [_|]; [|lia].
    destruct (Z.leb_spec es G_MAXUINT) as [_|]; [|lia]. cbn [andb].
    rewrite (to_guint_small es) by lia.
    unfold g_array_sized_new, bind.
    destruct (Z.gtb_spec es 0) as [_|]; [|lia]. cbn.
    eexists. split; [reflexivity|]. cbn. split; [|done].
    split; cbn; try lia; try done. unfold zt_slot. cbn.
    change (to_guint 0) with 0. lia.
Qed.

End Copies.

(** ** Instances *)

(** The array a returning call leaves, and the log it leaves. *)
Definition array_after (m : M GRealArray) (log : list event) : GRealArray :=
  match m log with
  | Returns a' _ => a'
  | Aborts _ => mkArray None 0 0 1 false false 1 None
  end.

Definition log_after (m : M GRealArray) (log : list event) : list event :=
  match m log with
  | Returns _ log' => log'
  | Aborts _ => []
  end.

(** The byte array [1; 2; 3], built through the API. *)
Definition digits : GRealArray :=
  mkArray (Some ([Some 1; Some 2; Some 3] ++ repeat None 13)) 3 16 1
          false false 1 None.

Lemma digits_reachable : reachable false digits.
Proof.
  apply (build_reachable 1 [Some 1; Some 2; Some 3] 3);
    [rewrite G_MAXUINT_val; lia..|vm_compute; reflexivity].
Qed.

Lemma digits_wf : wf digits.
Proof. exact (reachable_wf false digits digits_reachable). Qed.

(** The same array with a clear function that overwrites the element with
    the byte 255. *)
Definition poison : GDestroyNotify := fun _ => [Some 255].

Definition digits_cleared : GRealArray := set_clear_func digits (Some poison).

Lemma digits_cleared_wf : wf digits_cleared.
Proof. by apply (wf_fields digits), digits_wf. Qed.

Lemma guint_2 : 0 <= 2 <= G_MAXUINT.
Proof. rewrite G_MAXUINT_val. lia. Qed.

Lemma guint_5 : 0 <= 5 <= G_MAXUINT.
Proof. rewrite G_MAXUINT_val. lia. Qed.

Definition digits_appended : GRealArray :=
  array_after (g_array_append_vals false digits [Some 4; Some 5] 2) [].

Lemma append_vals_elements_witness :
  elements digits_appended
  = elements digits ++ elems_of [Some 4; Some 5] 2 1 /\
  len digits_appended = 3 + 2 /\ elt_size digits_appended = 1 /\
  log_after (g_array_append_vals false digits [Some 4; Some 5] 2) [] = [].
Proof.
  apply (append_vals_elements false digits [Some 4; Some 5] 2 []
           _ _ digits_wf guint_2);
    [simpl; lia|vm_compute; reflexivity].
Defined.

Definition digits_prepended : GRealArray :=
  array_after (g_array_prepend_vals false digits [Some 4; Some 5] 2) [].

Lemma prepend_vals_elements_witness :
  elements digits_prepended
  = elems_of [Some 4; Some 5] 2 1 ++ elements digits /\
  len digits_prepended = 3 + 2 /\ elt_size digits_prepended = 1 /\
  log_after (g_array_prepend_vals false digits [Some 4; Some 5] 2) [] = [].
Proof.
  apply (prepend_vals_elements false digits [Some 4; Some 5] 2 []
           _ _ digits_wf guint_2);
    [simpl; lia|vm_compute; reflexivity].
Defined.

Definition digits_removed : GRealArray :=
  array_after (g_array_remove_index false digits_cleared 1) [].

Lemma remove_index_elements_witness :
  elements digits_removed = delete 1%nat (elements digits_cleared) /\
  len digits_removed = 2 /\
  log_after (g_array_remove_index false digits_cleared 1) [] = [EvClear 1].
Proof.
  destruct (remove_index_elements false digits_cleared 1 [] digits_removed
              (log_after (g_array_remove_index false digits_cleared 1) [])
              digits_cleared_wf ltac:(lia) ltac:(vm_compute; reflexivity))
    as [H _].
  apply H. simpl. lia.
Defined.

Definition digits_removed_fast : GRealArray :=
  array_after (g_array_remove_index_fast false digits 0) [].

Lemma remove_index_fast_elements_witness :
  elements digits_removed_fast = [[Some 3]; [Some 2]] /\
  len digits_removed_fast = 2 /\
  log_after (g_array_remove_index_fast false digits 0) [] = [].
Proof.
  destruct (remove_index_fast_elements false digits 0 [] digits_removed_fast
              (log_after (g_array_remove_index_fast false digits 0) [])
              digits_wf ltac:(lia) ltac:(vm_compute; reflexivity))
    as [H _].
  apply H. simpl. lia.
Defined.

Definition digits_without_range : GRealArray :=
  array_after (g_array_remove_range false digits_cleared 0 2) [].

Lemma remove_range_elements_witness :
  elements digits_without_range = [[Some 3]] /\
  len digits_without_range = 1 /\
  log_after (g_array_remove_range false digits_cleared 0 2) []
  = [EvClear 0; EvClear 1].
Proof.
  destruct (remove_range_elements false digits_cleared 0 2 []
              digits_without_range
              (log_after (g_array_remove_range false digits_cleared 0 2) [])
              digits_cleared_wf ltac:(rewrite G_MAXUINT_val; lia) guint_2
              ltac:(vm_compute; reflexivity))
    as [H _].
  apply H. simpl. lia.
Defined.

(** The array [1; 2; 3] created with [clear] set. *)
Definition digits_zeroing : GRealArray :=
  mkArray (Some ([Some 1; Some 2; Some 3] ++ repeat None 13)) 3 16 1
          false true 1 None.

Lemma digits_zeroing_wf : wf digits_zeroing.
Proof. by apply (wf_fields digits), digits_wf. Qed.

Definition digits_resized : GRealArray :=
  array_after (g_array_set_size false digits_zeroing 5) [].

Lemma set_size_elements_witness :
  len digits_resized = 5 /\
  elements digits_resized
  = elements digits_zeroing ++ [[Some 0]; [Some 0]] /\
  log_after (g_array_set_size false digits_zeroing 5) [] = [].
Proof.
  destruct (set_size_elements false digits_zeroing 5 [] digits_resized
              (log_after (g_array_set_size false digits_zeroing 5) [])
              digits_zeroing_wf guint_5 ltac:(vm_compute; reflexivity))
    as (Hlen & _ & Hgrow).
  destruct Hgrow as (_ & Hel & Hlog); [simpl; lia|].
  split; [exact Hlen|]. split; [exact (Hel eq_refl)|exact Hlog].
Defined.

Definition digits_inserted : GRealArray :=
  array_after (g_array_insert_vals false digits 1 [Some 4; Some 5] 2) [].

Lemma insert_vals_elements_witness :
  elements digits_inserted
  = [[Some 1]; [Some 4]; [Some 5]; [Some 2]; [Some 3]] /\
  len digits_inserted = 5 /\
  log_after (g_array_insert_vals false digits 1 [Some 4; Some 5] 2) [] = [].
Proof.
  destruct (insert_vals_elements false digits 1 [Some 4; Some 5] 2 []
              digits_inserted
              (log_after (g_array_insert_vals false digits 1
                            [Some 4; Some 5] 2) [])
              digits_wf ltac:(lia) ltac:(lia)
              ltac:(rewrite G_MAXUINT_val; lia) ltac:(simpl; lia)
              ltac:(vm_compute; reflexivity))
    as (Hlog & _ & Hin & _).
  destruct Hin as [Hel Hlen]; [simpl; lia|].
  split; [exact Hel|]. split; [exact Hlen|exact Hlog].
Defined.

(** The zero-terminated byte array [7]:
    [g_array_sized_new (TRUE, FALSE, 1, 0)] and one append. *)
Definition seven_terminated : GRealArray :=
  mkArray (Some ([Some 7; Some 0] ++ repeat None 14)) 1 16 1
          true false 1 None.

Lemma seven_terminated_reachable : reachable false seven_terminated.
Proof.
  pose proof G_MAXUINT_val as HG.
  eapply reach_step.
  - eapply (reach_sized_new false 1 0 1 0 []); [lia|lia|].
    vm_compute. reflexivity.
  - eapply (step_append false _ [Some 7] 1 []); [lia|].
    vm_compute. reflexivity.
Qed.

Lemma reachable_zero_terminated_witness :
  elt_at seven_terminated (len seven_terminated) = [Some 0].
Proof.
  apply (reachable_zero_terminated false seven_terminated
           seven_terminated_reachable); [reflexivity|discriminate].
Defined.

Lemma copy_elements_witness :
  exists a',
    g_array_copy false digits_cleared [] = Returns (Some a') [] /\
    wf a' /\ elements a' = elements digits_cleared /\ len a' = 3 /\
    elt_size a' = 1 /\ zero_terminated a' = false /\
    clear_ a' = false /\ ref_count a' = 1 /\ clear_func a' = None /\
    (zero_terminated a' = true -> data a' <> None ->
     elt_at a' (len a') = repeat (Some 0) (Z.to_nat (elt_size a'))).
Proof. exact (copy_elements false digits_cleared [] digits_cleared_wf). Defined.

Lemma block_size_4 : Z.of_nat (length [Some 1; Some 2; Some 3; Some 4])
                     <= G_MAXSIZE / 2.
Proof. rewrite G_MAXSIZE_half. simpl. lia. Qed.

Lemma new_take_elements_witness :
  (exists a,
     g_array_new_take false (Some [Some 1; Some 2; Some 3; Some 4]) 2 0 2 []
     = Returns (Some a) [] /\
     wf a /\
     elements a = elems_of [Some 1; Some 2; Some 3; Some 4] 2 2 /\
     data a = Some [Some 1; Some 2; Some 3; Some 4] /\
     len a = 2 /\ elt_capacity a = 2 /\
     elt_size a = 2 /\ zero_terminated a = false /\
     ref_count a = 1 /\ clear_func a = None) /\
  (exists a0,
     g_array_new_take false None 0 0 2 [] = Returns (Some a0) [] /\
     wf a0 /\ data a0 = None /\ len a0 = 0 /\ elt_capacity a0 = 0) /\
  (2 <> 0 ->
   g_array_new_take false None 2 0 2 []
   = Returns None ([] ++ [EvCritical "data != NULL || len == 0"])).
Proof.
  apply (new_take_elements false [Some 1; Some 2; Some 3; Some 4] 2 0 2 []);
    [rewrite G_MAXUINT_val; lia|exact guint_2|simpl; lia
    |exact block_size_4].
Defined.

Lemma new_take_zero_terminated_elements_witness :
  (exists a,
     g_array_new_take_zero_terminated false
       (Some [Some 1; Some 2; Some 0; Some 4]) 0 1 []
     = Returns (Some a) [] /\
     wf a /\
     elements a = elems_of [Some 1; Some 2; Some 0; Some 4] 2 1 /\
     data a = Some [Some 1; Some 2; Some 0; Some 4] /\
     len a = 2 /\ elt_capacity a = 2 + 1 /\ elt_size a = 1 /\
     zero_terminated a = true /\ ref_count a = 1 /\ clear_func a = None) /\
  (exists a0,
     g_array_new_take_zero_terminated false None 0 1 []
     = Returns (Some a0) [] /\
     wf a0 /\ data a0 = None /\ len a0 = 0 /\ elt_capacity a0 = 0 /\
     zero_terminated a0 = true).
Proof.
  apply (new_take_zero_terminated_elements false
           [Some 1; Some 2; Some 0; Some 4] 0 1 2 []).
  - rewrite G_MAXUINT_val. lia.
  - rewrite G_MAXUINT_val. lia.
  - simpl. lia.
  - rewrite G_MAXSIZE_half. simpl. lia.
  - reflexivity.
  - intros j Hj. assert (j = 0 \/ j = 1) as [->| ->] by lia; discriminate.
Defined.

Lemma digits_sorted_for_two : sorted_for_target digits [Some 2] cmp_u8.
Proof.
  intros i j Hi Hij Hj. change (len digits) with 3 in Hj.
  assert (i = 0 \/ i = 1 \/ i = 2) as [->|[->| ->]] by lia;
    assert (j = 0 \/ j = 1 \/ j = 2) as [->|[->| ->]] by lia;
    try lia; vm_compute; discriminate.
Qed.

Lemma binary_search_found_iff_witness :
  exists res out,
    g_array_binary_search digits [Some 2] cmp_u8 = Some (res, out) /\
    if res then
      exists m, out = Some m /\ 0 <= m < len digits /\
                probe digits [Some 2] cmp_u8 m = 0
    else
      out = None /\
      forall i, 0 <= i < len digits -> probe digits [Some 2] cmp_u8 i <> 0.
Proof.
  apply (binary_search_found_iff digits [Some 2] cmp_u8);
    [simpl; lia|exact digits_sorted_for_two].
Defined.

(** ** Releasing an array that has a clear function *)

(** The clear function called on the element [i] leaves what it returns in
    that element. *)
Lemma store_clear_func_at (a : GRealArray) (K : Z) (f : GDestroyNotify) i :
  fits a K -> 0 <= i < K ->
  elt_at (on_data a (fun b =>
            mem_write b (g_array_elt_pos a i)
                      (mem_read (f (elt_at a i)) 0 (elt_size a)))) i
  = mem_read (f (elt_at a i)) 0 (elt_size a).
Proof.
  intros Hfits Hi. pose proof Hfits as (Hes & HK & _).
  unfold g_array_elt_pos, g_array_elt_len.
  rewrite !to_gsize_small by nia.
  set (src := mem_read (f (elt_at a i)) 0 (elt_size a)).
  assert (Hlen : Z.of_nat (length src) = elt_size a)
    by (unfold src; rewrite length_mem_read; lia).
  rewrite (store_elt a K Hfits) by (rewrite ?Hlen; (done || nia)).
  rewrite Hlen. rewrite decide_True by nia.
  replace (elt_size a * (i - i)) with 0 by lia.
  change (Z.to_nat 0) with 0%nat. rewrite drop_0.
  apply take_ge. clia.
Qed.

(** The loop of [array_free] over the elements [k0 .. k0 + m - 1]: each of
    them holds what the clear function left in it, the others are as they
    were. *)
Lemma clear_loop_writes f K (m : nat) k0 a log a1 log1 :
  fits a K -> 0 <= k0 -> k0 + Z.of_nat m <= K ->
  k0 + Z.of_nat m <= G_MAXUINT ->
  for_loop m k0 (call_clear_func f) a log = Returns a1 log1 ->
  same_shape a a1 /\
  forall j, 0 <= j < K ->
    elt_at a1 j
    = if decide (k0 <= j < k0 + Z.of_nat m)
      then mem_read (f (elt_at a j)) 0 (elt_size a)
      else elt_at a j.
Proof.
  revert k0 a log. induction m as [|m IH]; intros k0 a log Hfits Hk HK HG.
  { intros [= <- <-]. split; [apply same_shape_refl|].
    intros j Hj. by rewrite decide_False by lia. }
  pose proof G_MAXUINT_val as HGv.
  cbn [for_loop]. unfold bind at 1.
  unfold call_clear_func at 1. cbv [bind emit ret].
  rewrite (to_guint_small (k0 + 1)) by lia.
  set (a2 := on_data a _). intros Hrun.
  assert (Hs2 : same_shape a a2)
    by (apply same_shape_on_data; intros; apply length_mem_write).
  pose proof Hs2 as (_ & _ & _ & Ee2 & _).
  apply IH in Hrun as (Hs & Hall); [|by eapply fits_same_shape|lia..].
  split; [by eapply same_shape_trans|].
  intros j Hj. rewrite (Hall j Hj), Ee2.
  destruct (decide (j = k0)) as [->|Hne].
  - rewrite decide_False by lia. rewrite decide_True by lia.
    by apply (store_clear_func_at a K).
  - assert (Hkeep : elt_at a2 j = elt_at a j)
      by (apply (store_clear_func a K); (done || lia)).
    rewrite Hkeep.
    destruct (decide (k0 + 1 <= j < k0 + 1 + Z.of_nat m)).
    + by rewrite decide_True by lia.
    + by rewrite decide_False by lia.
Qed.

(** C7: [g_array_steal] hands back the block and resets the array to length
    0, capacity 0 and NULL data without calling the clear function, and
    dropping the last reference after a steal calls it on nothing. Dropping
    the last reference of an array that has a clear function calls it once
    on each of the [len] elements, in index order, and then frees the block
    of the array: the block freed has the size of the array's block, each
    of its [len] elements holds what the clear function left in it, and the
    rest of it is as it was. *)
Theorem steal_and_release (a : GRealArray) (f : GDestroyNotify)
    (log : list event)
    (Hwf : wf a) (Hf : clear_func a = Some f) (Hrc : ref_count a = 1) :
  (exists a',
     g_array_steal a log = Returns (data a, len a, a') log /\
     data a' = None /\ len a' = 0 /\ elt_capacity a' = 0 /\
     g_array_unref a' log = Returns None (log ++ [EvFree None; EvSliceFree])) /\
  (exists a1,
     g_array_unref a log
     = Returns None
         (log ++
          ((fun k : nat => EvClear (g_array_elt_pos a (Z.of_nat k)))
             <$> seq 0 (Z.to_nat (len a)))
          ++ [EvFree (data a1); EvSliceFree]) /\
     length <$> data a1 = length <$> data a /\
     (forall j, 0 <= j < len a ->
        elt_at a1 j = mem_read (f (elt_at a j)) 0 (elt_size a)) /\
     (forall j, len a <= j < elt_capacity a -> elt_at a1 j = elt_at a j)).
Proof.
  pose proof G_MAXUINT_val as HG.
  pose proof (wf_len_max a Hwf) as Hmax.
  pose proof (wf_capacity a Hwf) as Hcap.
  pose proof (zt_slot_range a) as Hzt.
  split.
  - eexists. split; [reflexivity|]. do 3 (split; [reflexivity|]).
    unfold g_array_unref, g_atomic_ref_count_dec. simpl. rewrite Hrc. simpl.
    unfold bind, array_free, bind. simpl. rewrite Hf. simpl.
    unfold emit, ret, bind. simpl. by rewrite <- app_assoc.
  - unfold g_array_unref, g_atomic_ref_count_dec. rewrite Hrc.
    change (1 - 1) with 0. change (0 =? 0) with true. cbv iota.
    set (a0 := set_ref_count a 0).
    destruct (clear_loop_all f (Z.to_nat (len a0)) 0 a0 log)
      as (a1 & Eloop & Hs).
    exists a1. split; [|split].
    + unfold bind at 1. unfold array_free.
      change (clear_func a0) with (clear_func a). rewrite Hf.
      change (negb (Z.land FREE_SEGMENT FREE_SEGMENT =? 0)) with true.
      change (negb (Z.land FREE_SEGMENT PRESERVE_WRAPPER =? 0)) with false.
      cbv iota. unfold bind, emit, ret. rewrite Eloop. simpl. f_equal.
      rewrite <- !app_assoc. f_equal. simpl. f_equal.
      apply list_fmap_ext. intros i k Hk.
      apply lookup_seq in Hk as [-> Hk]. simpl.
      rewrite iter_guint_succ; [done|]. change (len a0) with (len a) in Hk.
      lia.
    + by destruct Hs as (Hd & _).
    + destruct (data a) as [b|] eqn:Ed.
      2: { pose proof (wf_data a Hwf) as Hd. rewrite Ed in Hd.
           split; intros j Hj; lia. }
      assert (Hfits : fits a0 (elt_capacity a)).
      { apply (wf_fits a); [done|by rewrite Ed]. }
      apply (clear_loop_writes f (elt_capacity a)) in Eloop
        as (_ & Hall); [|done|lia|change (len a0) with (len a); lia..].
      change (len a0) with (len a) in Hall.
      split; intros j Hj; rewrite (Hall j) by lia.
      * by rewrite decide_True by lia.
      * by rewrite decide_False by lia.
Qed.

(** [three_ones] with a clear function that zeroes the element: the block
    that is freed holds the three zeroes. *)
Lemma steal_and_release_witness :
  (exists a',
     g_array_steal three_ones_cleared []
     = Returns (data three_ones_cleared, len three_ones_cleared, a') [] /\
     data a' = None /\ len a' = 0 /\ elt_capacity a' = 0 /\
     g_array_unref a' [] = Returns None ([] ++ [EvFree None; EvSliceFree])) /\
  (exists a1,
     g_array_unref three_ones_cleared []
     = Returns None
         ([] ++
          ((fun k : nat =>
              EvClear (g_array_elt_pos three_ones_cleared (Z.of_nat k)))
             <$> seq 0 (Z.to_nat (len three_ones_cleared)))
          ++ [EvFree (data a1); EvSliceFree]) /\
     length <$> data a1 = length <$> data three_ones_cleared /\
     (forall j, 0 <= j < len three_ones_cleared ->
        elt_at a1 j
        = mem_read ((fun _ => [Some 0]) (elt_at three_ones_cleared j)) 0
                   (elt_size three_ones_cleared)) /\
     (forall j, len three_ones_cleared <= j < elt_capacity three_ones_cleared ->
        elt_at a1 j = elt_at three_ones_cleared j)).
Proof.
  apply (steal_and_release three_ones_cleared (fun _ => [Some 0]) []);
    [|reflexivity|reflexivity].
  by apply (wf_fields three_ones), three_ones_wf.
Defined.

(** The run of the witness, computed. *)
Example three_ones_released :
  g_array_unref three_ones_cleared []
  = Returns None
      [EvClear 0; EvClear 1; EvClear 2;
       EvFree (Some ([Some 0; Some 0; Some 0] ++ repeat None 13));
       EvSliceFree].
Proof. vm_compute. reflexivity. Qed.

End GArrayContents.

(* ===================================================================== *)
(** * Part VI: g_file_set_contents_full on a system that does not fail     *)
(* ===================================================================== *)

Module FileUtilsRuns.
Import FileUtils FileUtilsFacts.

(** ** Runs without faults

    With an empty script no system call fails for a reason of its own:
    the calls fail only for what the file system holds (a missing file, a
    name that is taken). *)

(** [m] returns from [w] with a result and a file system that satisfy [Q],
    and leaves the script empty. *)
Definition quietly {A} (m : W A) (w : world)
    (Q : A -> gmap string file -> Prop) : Prop :=
  exists a w', m w = Some (a, w') /\ script w' = [] /\ Q a (fs w').

Lemma quietly_ret {A} (a : A) w (Q : A -> gmap string file -> Prop) :
  script w = [] -> Q a (fs w) -> quietly (wret a) w Q.
Proof. intros Hs HQ. by exists a, w. Qed.

Lemma quietly_bind {A B} (m : W A) (k : A -> W B) w
    (P : A -> gmap string file -> Prop) (Q : B -> gmap string file -> Prop) :
  quietly m w P ->
  (forall a w1, script w1 = [] -> P a (fs w1) -> quietly (k a) w1 Q) ->
  quietly (wbind m k) w Q.
Proof.
  intros (a & w1 & E & Hs & HP) Hk.
  destruct (Hk a w1 Hs HP) as (b & w2 & E2 & Hs2 & HQ).
  exists b, w2. unfold wbind. by rewrite E.
Qed.

Lemma quietly_weaken {A} (m : W A) w (P Q : A -> gmap string file -> Prop) :
  quietly m w P -> (forall a fs1, P a fs1 -> Q a fs1) -> quietly m w Q.
Proof. intros (a & w1 & E & Hs & HP) H. exists a, w1. auto. Qed.

(** Evaluate a system call on a world whose script is empty. *)
Ltac quiet_call Hs :=
  unfold quietly;
  cbv beta iota zeta delta
    [wbind wret next_decision trace get_fs put_fs update_file failure];
  cbn [fs script calls now_us counter set_fs set_script add_call
       set_counter fd_path fd_pos];
  rewrite ?Hs;
  cbn [fs script calls now_us counter set_fs set_script add_call
       set_counter fd_path fd_pos].

Ltac quiet_done Hs :=
  eexists _, _; split; [reflexivity|];
  cbn [fs script calls now_us counter set_fs set_script add_call
       set_counter fd_path fd_pos];
  rewrite ?Hs; done.

Section Quiet.
Variable w : world.
Hypothesis Hs : script w = [].

Lemma quiet_open_new p excl mode :
  fs w !! p = None ->
  quietly (sys_open p true excl mode) w (fun r m =>
    r = inr (mkFd p 0) /\ m = <[p := mkFile [] mode]> (fs w)).
Proof.
  intros Hp. unfold sys_open. quiet_call Hs. rewrite Hp.
  destruct excl; quiet_done Hs.
Qed.

Lemma quiet_open_existing p creat mode f :
  fs w !! p = Some f ->
  quietly (sys_open p creat false mode) w (fun r m =>
    r = inr (mkFd p 0) /\ m = fs w).
Proof.
  intros Hp. unfold sys_open. quiet_call Hs. rewrite Hp.
  quiet_done Hs.
Qed.

Lemma quiet_open_taken p creat mode f :
  fs w !! p = Some f ->
  quietly (sys_open p creat true mode) w (fun r m =>
    r = inl EEXIST /\ m = fs w).
Proof.
  intros Hp. unfold sys_open. quiet_call Hs. rewrite Hp.
  quiet_done Hs.
Qed.

Lemma quiet_stat p :
  quietly (sys_stat p) w (fun r m =>
    m = fs w /\
    r = match fs w !! p with
        | Some f => inr (f_mode f, Z.of_nat (length (f_bytes f)))
        | None => inl ENOENT
        end).
Proof. unfold sys_stat. quiet_call Hs. quiet_done Hs. Qed.

Lemma quiet_lstat p :
  quietly (sys_lstat p) w (fun r m => m = fs w).
Proof. unfold sys_lstat. quiet_call Hs. quiet_done Hs. Qed.

Lemma quiet_fchmod fd mode f :
  fs w !! fd_path fd = Some f ->
  quietly (sys_fchmod fd mode) w (fun r m =>
    r = None /\ m = <[fd_path fd := mkFile (f_bytes f) mode]> (fs w)).
Proof.
  intros Hp. unfold sys_fchmod. quiet_call Hs. rewrite Hp.
  quiet_done Hs.
Qed.

Lemma quiet_fallocate fd n f :
  fs w !! fd_path fd = Some f ->
  quietly (sys_fallocate fd n) w (fun r m =>
    m = <[fd_path fd :=
            mkFile (resize (f_bytes f)
                      (length (f_bytes f) `max` Z.to_nat n)) (f_mode f)]>
          (fs w)).
Proof.
  intros Hp. unfold sys_fallocate. quiet_call Hs. rewrite Hp.
  quiet_done Hs.
Qed.

Lemma quiet_ftruncate fd n f :
  fs w !! fd_path fd = Some f ->
  quietly (sys_ftruncate fd n) w (fun r m =>
    r = None /\
    m = <[fd_path fd := mkFile (resize (f_bytes f) (Z.to_nat n)) (f_mode f)]>
          (fs w)).
Proof.
  intros Hp. unfold sys_ftruncate. quiet_call Hs. rewrite Hp.
  quiet_done Hs.
Qed.

Lemma quiet_write fd buf count f :
  fs w !! fd_path fd = Some f ->
  quietly (sys_write fd buf count) w (fun r m =>
    r = inr (count, mkFd (fd_path fd) (fd_pos fd + Z.to_nat count)) /\
    m = <[fd_path fd :=
            mkFile (store_at (f_bytes f) (fd_pos fd)
                      (buffer_read buf (Z.to_nat count))) (f_mode f)]>
          (fs w)).
Proof.
  intros Hp. unfold sys_write. quiet_call Hs. rewrite Hp.
  quiet_done Hs.
Qed.

Lemma quiet_fsync fd :
  quietly (sys_fsync fd) w (fun r m => r = None /\ m = fs w).
Proof. unfold sys_fsync. quiet_call Hs. quiet_done Hs. Qed.

Lemma quiet_close fd :
  quietly (sys_close fd) w (fun r m => r = None /\ m = fs w).
Proof. unfold sys_close. quiet_call Hs. quiet_done Hs. Qed.

Lemma quiet_g_close fd :
  quietly (g_close fd) w (fun r m => r = None /\ m = fs w).
Proof. unfold g_close, sys_close. quiet_call Hs. quiet_done Hs. Qed.

Lemma quiet_rename old new f :
  fs w !! old = Some f ->
  quietly (sys_rename old new) w (fun r m =>
    r = None /\ m = <[new := f]> (delete old (fs w))).
Proof.
  intros Hp. unfold sys_rename. quiet_call Hs. rewrite Hp.
  quiet_done Hs.
Qed.

Lemma quiet_open_dir_of p :
  quietly (sys_open_dir_of p) w (fun r m => r = None /\ m = fs w).
Proof. unfold sys_open_dir_of. quiet_call Hs. quiet_done Hs. Qed.

Lemma quiet_fsync_dir_of p :
  quietly (sys_fsync_dir_of p) w (fun r m => m = fs w).
Proof. unfold sys_fsync_dir_of. quiet_call Hs. quiet_done Hs. Qed.

Lemma quiet_close_dir_of p :
  quietly (sys_close_dir_of p) w (fun r m => m = fs w).
Proof. unfold sys_close_dir_of. quiet_call Hs. quiet_done Hs. Qed.

End Quiet.

(** ** The steps of g_file_set_contents_full without faults *)

Lemma quiet_fd_should_be_fsynced fd test_file flags w :
  script w = [] ->
  quietly (fd_should_be_fsynced fd test_file flags) w (fun _ m => m = fs w).
Proof.
  intros Hs. unfold fd_should_be_fsynced.
  destruct (_ && _).
  - eapply quietly_bind; [by apply quiet_lstat|].
    intros r w1 Hs1 Hm.
    destruct r as [e|[? ?]]; [destruct (decide (e = ENOENT))|];
      by apply quietly_ret.
  - by apply quietly_ret.
Qed.

Lemma quiet_truncate_file fd n dest w f :
  script w = [] -> fs w !! fd_path fd = Some f ->
  quietly (truncate_file fd n dest) w (fun r m =>
    r = None /\
    m = <[fd_path fd := mkFile (resize (f_bytes f) (Z.to_nat n)) (f_mode f)]>
          (fs w)).
Proof.
  intros Hs Hf.
  destruct (quiet_ftruncate w Hs fd n f Hf) as (r & w1 & E & Hs1 & -> & Hm).
  exists None, w1. unfold truncate_file. rewrite Hs. cbn [length].
  cbn [truncate_file_loop]. unfold wbind at 1. rewrite E. done.
Qed.

Lemma store_at_nil bytes pos :
  (pos <= length bytes)%nat -> store_at bytes pos [] = bytes.
Proof.
  intros Hp. unfold store_at. rewrite resize_prefix by done. simpl.
  rewrite Nat.add_0_r. apply take_drop.
Qed.

Lemma length_store_at bytes pos src :
  (pos + length src <= length (store_at bytes pos src))%nat.
Proof.
  unfold store_at. rewrite !length_app, length_resize. lia.
Qed.

Lemma file_eta (f : file) : mkFile (f_bytes f) (f_mode f) = f.
Proof. by destruct f. Qed.

(** Without faults [write] takes everything it is given, and the loop of
    [write_to_file] stores the first [len_] bytes of the buffer at the file
    offset. *)
Lemma quiet_write_loop fuel buf len_ fd dest w f :
  script w = [] -> fs w !! fd_path fd = Some f ->
  (fd_pos fd <= length (f_bytes f))%nat ->
  0 <= len_ <= Z.of_nat (length buf) ->
  (Z.to_nat len_ < fuel)%nat ->
  quietly (write_loop fuel buf len_ fd dest) w (fun r m =>
    exists fd', r = inr fd' /\ fd_path fd' = fd_path fd /\
    m = <[fd_path fd :=
            mkFile (store_at (f_bytes f) (fd_pos fd)
                      (take (Z.to_nat len_) buf)) (f_mode f)]> (fs w)).
Proof.
  revert buf len_ fd w f.
  induction fuel as [|fuel IH]; intros buf len_ fd w f Hs Hf Hpos Hlen Hfuel;
    [lia|].
  cbn [write_loop].
  destruct (Z.gtb_spec len_ 0) as [Hgt|Hle].
  2: { apply quietly_ret; [done|]. exists fd. split; [done|]. split; [done|].
       replace (Z.to_nat len_) with 0%nat by lia.
       rewrite take_0, store_at_nil, file_eta by done.
       by rewrite insert_id. }
  set (s := Z.min len_ G_MAXSSIZE).
  assert (Hs_range : 0 < s <= len_) by (unfold s, G_MAXSSIZE; lia).
  eapply quietly_bind; [by apply (quiet_write w Hs fd buf s f)|].
  intros r w1 Hs1 [-> Hm]. cbv beta iota.
  rewrite buffer_read_take in Hm by lia.
  set (f1 := mkFile (store_at (f_bytes f) (fd_pos fd) (take (Z.to_nat s) buf))
                    (f_mode f)) in *.
  set (fd1 := mkFd (fd_path fd) (fd_pos fd + Z.to_nat s)).
  assert (Hf1 : fs w1 !! fd_path fd1 = Some f1)
    by (rewrite Hm; apply lookup_insert_eq).
  assert (Hlt : length (take (Z.to_nat s) buf) = Z.to_nat s)
    by (rewrite length_take; lia).
  eapply quietly_weaken.
  - apply (IH (drop (Z.to_nat s) buf) (len_ - s) fd1 w1 f1 Hs1 Hf1).
    + unfold fd1, f1. cbn [fd_pos f_bytes].
      pose proof (length_store_at (f_bytes f) (fd_pos fd)
                    (take (Z.to_nat s) buf)). lia.
    + rewrite length_drop. lia.
    + lia.
  - intros r m (fd' & -> & Hp & ->). exists fd'. split; [done|].
    split; [done|]. unfold fd1, f1. cbn [fd_path fd_pos f_bytes f_mode].
    rewrite Hm, insert_insert_eq. do 2 f_equal.
    rewrite <- Hlt at 2. rewrite store_at_app. f_equal.
    rewrite <- (take_drop (Z.to_nat s) (take (Z.to_nat len_) buf)).
    rewrite take_take, take_drop_commute.
    replace (Z.to_nat s `min` Z.to_nat len_)%nat with (Z.to_nat s) by lia.
    do 3 f_equal. lia.
Qed.

(** [write_to_file] on an empty file, from offset 0. *)
Lemma quiet_write_to_file buf len_ fd dest do_fsync w f :
  script w = [] -> fs w !! fd_path fd = Some f ->
  fd_pos fd = 0%nat -> f_bytes f = [] ->
  0 <= len_ <= Z.of_nat (length buf) ->
  quietly (write_to_file buf len_ fd dest do_fsync) w (fun r m =>
    r = None /\
    m = <[fd_path fd := mkFile (take (Z.to_nat len_) buf) (f_mode f)]>
          (fs w)).
Proof.
  intros Hs Hf Hpos Hb Hlen. unfold write_to_file.
  set (f1 := mkFile (repeat 0 (Z.to_nat len_)) (f_mode f)).
  (* the preallocation *)
  eapply (quietly_bind _ _ _ (fun _ m => m = <[fd_path fd := f1]> (fs w))).
  { destruct (Z.gtb_spec len_ 0) as [Hgt|Hle].
    - eapply quietly_bind; [by apply (quiet_fallocate w Hs fd len_ f)|].
      intros r w1 Hs1 Hm. apply quietly_ret; [done|].
      rewrite Hm, Hb. unfold resize, f1. cbn [length app].
      rewrite Nat.max_0_l. f_equal. f_equal.
      apply take_ge. by rewrite repeat_length.
    - apply quietly_ret; [done|].
      unfold f1. replace (Z.to_nat len_) with 0%nat by lia.
      cbn [repeat]. rewrite <- Hb, file_eta. by rewrite insert_id. }
  intros _ w1 Hs1 Hm1.
  eapply (quietly_bind _ _ _ (fun fuel m =>
            fuel = S (Z.to_nat len_) /\ m = fs w1)).
  { exists (S (Z.to_nat len_)), w1. by rewrite Hs1. }
  intros fuel w1' Hs1' [-> Hm1']. rewrite <- Hm1' in Hm1.
  clear dependent w1. rename w1' into w1.
  assert (Hf1 : fs w1 !! fd_path fd = Some f1)
    by (rewrite Hm1; apply lookup_insert_eq).
  eapply quietly_bind.
  { apply (quiet_write_loop _ buf len_ fd dest w1 f1 Hs1' Hf1);
      [rewrite Hpos; lia|done|lia]. }
  intros r w2 Hs2 (fd' & -> & Hp & Hm2). cbv beta iota.
  assert (Hm2' : fs w2
                 = <[fd_path fd := mkFile (take (Z.to_nat len_) buf)
                                          (f_mode f)]> (fs w)).
  { rewrite Hm2, Hm1, insert_insert_eq, Hpos. unfold f1.
    cbn [f_bytes f_mode]. do 2 f_equal.
    apply store_at_fresh. rewrite repeat_length, length_take. lia. }
  eapply (quietly_bind _ _ _ (fun r m => r = None /\ m = fs w2)).
  { destruct do_fsync; [by apply quiet_fsync|by apply quietly_ret]. }
  intros r w3 Hs3 [-> Hm3].
  eapply quietly_weaken; [by apply quiet_g_close|].
  intros r m [-> ->]. split; [done|]. by rewrite Hm3.
Qed.

Lemma quiet_rename_file old new do_fsync w f :
  script w = [] -> fs w !! old = Some f ->
  quietly (rename_file old new do_fsync) w (fun r m =>
    r = None /\ m = <[new := f]> (delete old (fs w))).
Proof.
  intros Hs Hf. unfold rename_file.
  eapply quietly_bind; [by apply (quiet_rename w Hs old new f)|].
  intros r w1 Hs1 [-> Hm]. cbv beta iota.
  eapply (quietly_bind _ _ _ (fun _ m => m = fs w1)).
  - destruct do_fsync; [|by apply quietly_ret].
    eapply quietly_bind; [by apply quiet_open_dir_of|].
    intros r w2 Hs2 [-> Hm2].
    eapply quietly_bind; [by apply quiet_fsync_dir_of|].
    intros r w3 Hs3 Hm3.
    eapply quietly_bind; [by apply quiet_close_dir_of|].
    intros r' w4 Hs4 Hm4. apply quietly_ret; [done|]. congruence.
  - intros _ w2 Hs2 Hm2. apply quietly_ret; [done|]. split; [done|].
    congruence.
Qed.

(** ** Temporary names *)

(** The value tried after [v] by [get_tmp_file]. *)
Definition next_value (v : Z) : Z := to_guint64 (v + 7777).

(** The [k]-th name that [get_tmp_file] tries, from the value [v]. *)
Definition candidate (before after : string) (v : Z) (k : nat) : string :=
  before +:+ fill_in (Nat.iter k next_value v) +:+ after.

Lemma candidate_S before after v k :
  candidate before after v (S k) = candidate before after (next_value v) k.
Proof. unfold candidate. by rewrite Nat.iter_succ_r. Qed.

(** Without faults the loop of [get_tmp_file] creates the first candidate
    name that is free, and fails with EEXIST when the [n] names it may try
    are all taken. *)
Lemma quiet_get_tmp_file_loop n before after v mode tmpl w :
  script w = [] ->
  quietly (get_tmp_file_loop n before after v wrap_g_open true true mode
             tmpl) w
    (fun r m =>
       (exists k, (k < n)%nat /\
          (forall j, (j < k)%nat ->
                     is_Some (fs w !! candidate before after v j)) /\
          fs w !! candidate before after v k = None /\
          r = inr (mkFd (candidate before after v k) 0,
                   candidate before after v k) /\
          m = <[candidate before after v k := mkFile [] mode]> (fs w)) \/
       ((forall j, (j < n)%nat ->
                   is_Some (fs w !! candidate before after v j)) /\
        r = inl (EEXIST, match n with
                         | O => tmpl
                         | S n' => candidate before after v n'
                         end) /\
        m = fs w)).
Proof.
  revert v tmpl w. induction n as [|n IH]; intros v tmpl w Hs.
  { apply quietly_ret; [done|]. right. split; [lia|done]. }
  cbn [get_tmp_file_loop]. unfold wrap_g_open.
  change (before +:+ fill_in v +:+ after) with (candidate before after v 0).
  destruct (fs w !! candidate before after v 0) as [f|] eqn:E0.
  - eapply quietly_bind; [by apply (quiet_open_taken w Hs _ true mode f)|].
    intros r w1 Hs1 [-> Hm1]. cbv beta iota.
    rewrite decide_True by done.
    eapply quietly_weaken;
      [apply (IH (next_value v) (candidate before after v 0) w1 Hs1)|].
    intros r m [(k & Hk & Hbefore & Hfree & -> & ->)|(Hall & -> & ->)];
      rewrite Hm1 in *.
    + left. exists (S k). rewrite !candidate_S.
      split; [lia|]. split; [|done].
      intros [|j] Hj; [by rewrite E0|]. rewrite candidate_S. apply Hbefore.
      lia.
    + right. split.
      { intros [|j] Hj; [by rewrite E0|]. rewrite candidate_S. apply Hall.
        lia. }
      split; [|done]. destruct n as [|n']; [done|].
      by rewrite candidate_S.
  - eapply quietly_bind; [by apply (quiet_open_new w Hs _ true mode)|].
    intros r w1 Hs1 [-> Hm1]. cbv beta iota.
    apply quietly_ret; [done|]. left. exists 0%nat.
    split; [lia|]. split; [lia|done].
Qed.

(** The value from which [get_tmp_file] starts in the world [w]. *)
Definition first_value (w : world) : Z :=
  let now := to_guint64 (now_us w) in
  to_guint64 (Z.lxor (now mod G_USEC_PER_SEC) (now / G_USEC_PER_SEC)
              + counter w).

(** The names that [g_mkstemp_full] may try for [filename] in [w]. *)
Definition tmp_candidate (filename : string) (w : world) (k : nat) : string :=
  candidate (filename +:+ ".") "" (first_value w) k.

Lemma quiet_g_mkstemp_full filename mode w :
  script w = [] ->
  quietly (g_mkstemp_full (filename +:+ ".") "" mode) w (fun r m =>
    (exists k, (k < 100)%nat /\
       fs w !! tmp_candidate filename w k = None /\
       r = inr (mkFd (tmp_candidate filename w k) 0,
                tmp_candidate filename w k) /\
       m = <[tmp_candidate filename w k := mkFile [] mode]> (fs w)) \/
    ((forall j, (j < 100)%nat ->
                is_Some (fs w !! tmp_candidate filename w j)) /\
     r = inl (EEXIST, tmp_candidate filename w 99) /\ m = fs w)).
Proof.
  intros Hs. unfold g_mkstemp_full, get_tmp_file.
  set (w0 := set_counter w (to_guint32 (counter w + 1))).
  destruct (quiet_get_tmp_file_loop 100 (filename +:+ ".") ""
              (first_value w) mode ((filename +:+ ".") +:+ "XXXXXX" +:+ "")
              w0 Hs)
    as (r & w' & E & Hs' & H).
  exists r, w'. split; [exact E|]. split; [done|].
  destruct H as [(k & Hk & _ & Hfree & -> & ->)|(Hall & -> & ->)].
  - left. by exists k.
  - by right.
Qed.

(** The file that a successful call leaves at [filename]: the bytes
    written, with the permission bits of the file that was there before,
    or [mode] for a new file. *)
Definition written_file (filename : string) (buf : list Z) (len_ : Z)
    (mode : Z) (w : world) : file :=
  mkFile (take (Z.to_nat len_) buf)
         (match fs w !! filename with
          | Some f0 => f_mode f0
          | None => mode
          end).

(** The 100 names that the call may try for its temporary file are all
    taken. *)
Definition all_taken (filename : string) (w : world) : Prop :=
  forall k, (k < 100)%nat -> is_Some (fs w !! tmp_candidate filename w k).

Lemma quiet_set_contents_consistent filename buf len_ flags mode w :
  script w = [] -> 0 <= len_ <= Z.of_nat (length buf) ->
  quietly (set_contents_consistent filename buf len_ flags mode) w
    (fun ret m =>
       (~ all_taken filename w /\ ret = (true, None) /\
        m = <[filename := written_file filename buf len_ mode w]> (fs w)) \/
       (all_taken filename w /\
        ret = (false, Some (set_file_error (tmp_candidate filename w 99)
                                           MsgCreate EEXIST)) /\
        m = fs w)).
Proof.
  intros Hs Hlen. unfold set_contents_consistent.
  eapply quietly_bind; [by apply quiet_g_mkstemp_full|].
  intros r w1 Hs1 [(k & Hk & Hfree & -> & Hm1)|(Hall & -> & Hm1)];
    cbv beta iota.
  2: { apply quietly_ret; [done|]. by right. }
  set (tmp := tmp_candidate filename w k) in *.
  assert (Hne : tmp <> filename) by apply tmp_name_fresh.
  assert (Hnot : ~ all_taken filename w).
  { intros Hall. destruct (Hall k Hk) as [x Hx]. fold tmp in Hx.
    by rewrite Hfree in Hx. }
  set (mode' := match fs w !! filename with
                | Some f0 => f_mode f0
                | None => mode
                end).
  eapply quietly_bind; [by apply quiet_stat|].
  intros st w2 Hs2 [Hm2 ->]. rewrite Hm1 in Hm2.
  rewrite Hm1, lookup_insert_ne by done.
  (* the permission bits *)
  eapply (quietly_bind _ _ _ (fun r m =>
            r = None /\ m = <[tmp := mkFile [] mode']> (fs w))).
  { unfold mode'. destruct (fs w !! filename) as [f0|] eqn:E0.
    - eapply quietly_weaken.
      + apply (quiet_fchmod w2 Hs2 (mkFd tmp 0) (f_mode f0) (mkFile [] mode)).
        rewrite Hm2. apply lookup_insert_eq.
      + intros r m [-> ->]. split; [done|]. cbn [fd_path f_bytes].
        by rewrite Hm2, insert_insert_eq.
    - by apply quietly_ret. }
  intros r w3 Hs3 [-> Hm3]. cbv beta iota.
  eapply quietly_bind; [by apply quiet_fd_should_be_fsynced|].
  intros do_fsync w4 Hs4 Hm4. rewrite Hm3 in Hm4.
  eapply quietly_bind.
  { apply (quiet_write_to_file buf len_ (mkFd tmp 0) tmp do_fsync w4
             (mkFile [] mode') Hs4); try done.
    cbn [fd_path]. rewrite Hm4. apply lookup_insert_eq. }
  intros r w5 Hs5 [-> Hm5]. cbv beta iota. cbn [fd_path f_mode] in Hm5.
  rewrite Hm4, insert_insert_eq in Hm5.
  eapply quietly_bind.
  { apply (quiet_rename_file tmp filename do_fsync w5
             (mkFile (take (Z.to_nat len_) buf) mode') Hs5).
    rewrite Hm5. apply lookup_insert_eq. }
  intros r w6 Hs6 [-> Hm6]. cbv beta iota.
  apply quietly_ret; [done|]. left. split; [done|]. split; [done|].
  rewrite Hm6, Hm5, delete_insert_id by done. done.
Qed.

Lemma quiet_set_contents_direct filename buf len_ flags mode w
    (on_error : errno -> W (bool * option GError)) :
  script w = [] -> 0 <= len_ <= Z.of_nat (length buf) ->
  quietly
    (let* direct_fd := sys_open filename true false mode in
     match direct_fd with
     | inl saved_errno => on_error saved_errno
     | inr direct_fd =>
         let* do_fsync := fd_should_be_fsynced direct_fd filename flags in
         let* truncated := truncate_file direct_fd 0 filename in
         match truncated with
         | Some err => wret (false, Some err)
         | None =>
             let* written :=
               write_to_file buf len_ direct_fd filename do_fsync in
             match written with
             | Some err => wret (false, Some err)
             | None => wret (true, None)
             end
         end
     end) w
    (fun ret m =>
       ret = (true, None) /\
       m = <[filename := written_file filename buf len_ mode w]> (fs w)).
Proof.
  intros Hs Hlen.
  set (mode' := match fs w !! filename with
                | Some f0 => f_mode f0
                | None => mode
                end).
  eapply (quietly_bind _ _ _ (fun r m =>
            r = inr (mkFd filename 0) /\
            exists f1, m !! filename = Some f1 /\ f_mode f1 = mode' /\
                       <[filename := f1]> (fs w) = m)).
  { unfold mode'. destruct (fs w !! filename) as [f0|] eqn:E0.
    - eapply quietly_weaken; [by apply (quiet_open_existing w Hs _ _ _ f0)|].
      intros r m [-> ->]. split; [done|]. exists f0.
      split; [done|]. split; [done|]. by apply insert_id.
    - eapply quietly_weaken; [by apply (quiet_open_new w Hs)|].
      intros r m [-> ->]. split; [done|]. exists (mkFile [] mode).
      split; [apply lookup_insert_eq|done]. }
  intros r w1 Hs1 (-> & f1 & Hf1 & Hmode & Hm1). cbv beta iota.
  eapply quietly_bind; [by apply quiet_fd_should_be_fsynced|].
  intros do_fsync w2 Hs2 Hm2.
  eapply quietly_bind.
  { apply (quiet_truncate_file (mkFd filename 0) 0 filename w2 f1 Hs2).
    cbn [fd_path]. by rewrite Hm2. }
  intros r w3 Hs3 [-> Hm3]. cbv beta iota. cbn [fd_path] in Hm3.
  change (resize (f_bytes f1) (Z.to_nat 0)) with (@nil Z) in Hm3.
  eapply quietly_bind.
  { apply (quiet_write_to_file buf len_ (mkFd filename 0) filename do_fsync
             w3 (mkFile [] (f_mode f1)) Hs3); try done.
    cbn [fd_path]. rewrite Hm3. apply lookup_insert_eq. }
  intros r w4 Hs4 [-> Hm4]. cbv beta iota. cbn [fd_path f_mode] in Hm4.
  apply quietly_ret; [done|]. split; [done|].
  rewrite Hm4, Hm3, Hm2, <- Hm1, !insert_insert_eq.
  unfold written_file. fold mode'. by rewrite Hmode.
Qed.

(** What a call with accepted arguments does on a system whose calls do
    not fail. *)
Lemma set_contents_quiet (filename : string)
    (contents : option (list Z)) (len_ flags mode : Z) (w : world)
    (Hs : script w = []) (Hacc : accepted contents len_)
    (Hlen : len_ <= Z.of_nat (length (default [] contents))) :
  exists ret w',
    g_file_set_contents_full filename contents len_ flags mode w
    = Some (ret, w') /\
    (has_flag flags G_FILE_SET_CONTENTS_CONSISTENT = true /\
     all_taken filename w ->
     ret = (false, Some (mkGError G_FILE_ERROR_EXIST MsgCreate
                                  (tmp_candidate filename w 99) EEXIST)) /\
     fs w' = fs w) /\
    (~ (has_flag flags G_FILE_SET_CONTENTS_CONSISTENT = true /\
        all_taken filename w) ->
     ret = (true, None) /\
     fs w' = <[filename :=
                 written_file filename (default [] contents)
                   (effective_length contents len_) mode w]> (fs w)).
Proof.
  destruct (accepted_effective _ _ Hacc) as (_ & _ & Hpos).
  assert (Heff : 0 <= effective_length contents len_
                 <= Z.of_nat (length (default [] contents))).
  { split; [done|]. unfold effective_length.
    pose proof (strlen_range (default [] contents)).
    destruct (len_ <? 0); lia. }
  destruct (has_flag flags G_FILE_SET_CONTENTS_CONSISTENT) eqn:Hc.
  - rewrite full_consistent by done.
    destruct (quiet_set_contents_consistent filename (default [] contents)
                (effective_length contents len_) flags mode w Hs Heff)
      as (ret & w' & E & _ & H).
    exists ret, w'. split; [exact E|].
    destruct H as [(Hnot & -> & ->)|(Hall & -> & ->)]; split.
    + by intros [_ Hall].
    + done.
    + done.
    + intros Hn. destruct Hn. done.
  - destruct (accepted_checks _ _ Hacc) as [H1 H2].
    unfold g_file_set_contents_full.
    cbn [g_file_set_contents_full_rec]. rewrite H1, H2, Hc.
    fold (effective_length contents len_).
    destruct (quiet_set_contents_direct filename (default [] contents)
                (effective_length contents len_) flags mode w
                (fun saved_errno =>
                   if decide (saved_errno = ELOOP) then
                     g_file_set_contents_full_rec 1 filename contents
                       (effective_length contents len_)
                       (Z.lor flags G_FILE_SET_CONTENTS_CONSISTENT) mode
                   else
                     wret (false,
                           Some (set_file_error filename MsgOpen
                                                saved_errno)))
                Hs Heff)
      as (ret & w' & E & _ & Hret & Hfs).
    exists ret, w'. split; [exact E|]. split; [by intros [? _]|done].
Qed.

(** X13: on a system whose calls do not fail, g_file_set_contents_full
    with accepted arguments succeeds and changes the file system in one
    place only: [filename] holds the bytes written, with the permission bits
    of the file that was there before, or [mode] for a new file. The one
    exception is the consistent mode when the 100 names tried for the
    temporary file are all taken: the call then fails with
    G_FILE_ERROR_EXIST, naming the last name tried, and leaves the file
    system as it was. *)
Theorem set_contents_without_faults (filename : string)
    (contents : option (list Z)) (len_ flags mode : Z) (w : world)
    (Hs : script w = []) (Hacc : accepted contents len_)
    (Hlen : len_ <= Z.of_nat (length (default [] contents))) :
  exists ret w',
    g_file_set_contents_full filename contents len_ flags mode w
    = Some (ret, w') /\
    (has_flag flags G_FILE_SET_CONTENTS_CONSISTENT = true /\
     all_taken filename w ->
     ret = (false, Some (mkGError G_FILE_ERROR_EXIST MsgCreate
                                  (tmp_candidate filename w 99) EEXIST)) /\
     fs w' = fs w) /\
    (~ (has_flag flags G_FILE_SET_CONTENTS_CONSISTENT = true /\
        all_taken filename w) ->
     ret = (true, None) /\
     fs w' = <[filename :=
                 written_file filename (default [] contents)
                   (effective_length contents len_) mode w]> (fs w)).
Proof. by apply set_contents_quiet. Qed.

(** ** The files a call may touch *)












(** ** The protocol of get_tmp_file *)








(** ** The length argument *)

(** C10: a length of -1 stands for the length of the contents up to the
    first zero byte: the call behaves as the call with that length, on
    success the file holds exactly those bytes, and on a system whose calls
    do not fail it does succeed and leaves exactly those bytes in the file
    (unless, in consistent mode, the names for the temporary file are all
    taken). Absent contents with a length other than 0, and a length below
    -1, are rejected with a failure result, without an error and without
    any effect on the file system or any system call. *)
Theorem length_argument_checks (filename : string) (flags mode : Z)
    (w : world) :
  (forall c : list Z,
     g_file_set_contents_full filename (Some c) (-1) flags mode w
     = g_file_set_contents_full filename (Some c) (strlen c) flags mode w /\
     (forall e w',
        g_file_set_contents_full filename (Some c) (-1) flags mode w
        = Some ((true, e), w') ->
        exists f, fs w' !! filename = Some f /\
                  f_bytes f = take (Z.to_nat (strlen c)) c) /\
     (script w = [] ->
      ~ (has_flag flags G_FILE_SET_CONTENTS_CONSISTENT = true /\
         all_taken filename w) ->
      exists w',
        g_file_set_contents_full filename (Some c) (-1) flags mode w
        = Some ((true, None), w') /\
        fs w' = <[filename := written_file filename c (strlen c) mode w]>
                  (fs w))) /\
  (forall len_ : Z,
     len_ <> 0 ->
     g_file_set_contents_full filename None len_ flags mode w
     = Some ((false, None), w)) /\
  (forall (contents : option (list Z)) (len_ : Z),
     len_ < -1 ->
     g_file_set_contents_full filename contents len_ flags mode w
     = Some ((false, None), w)).
Proof.
  split; [|split].
  - intros c. pose proof (strlen_range c) as Hs. split; [|split].
    + unfold g_file_set_contents_full.
      cbn [g_file_set_contents_full_rec].
      rewrite bool_decide_eq_true_2 by done. cbn [orb negb].
      destruct (Z.geb_spec (strlen c) (-1)); [|lia].
      change (-1 >=? -1) with true. cbn [negb].
      change (-1 <? 0) with true. cbn iota.
      by destruct (Z.ltb_spec (strlen c) 0); [lia|].
    + intros e w' Hrun.
      apply set_contents_success in Hrun as [(f & F & B) _].
      * exists f. split; [done|]. exact B.
      * unfold effective_length. simpl. lia.
    + intros Hquiet Hfree.
      destruct (set_contents_quiet filename (Some c) (-1) flags mode w Hquiet)
        as (ret & w' & Hrun & _ & Hok).
      { split; [by left|lia]. }
      { lia. }
      destruct (Hok Hfree) as [-> Hfs]. by exists w'.
  - intros len_ Hne. unfold g_file_set_contents_full.
    cbn [g_file_set_contents_full_rec].
    rewrite bool_decide_eq_false_2 by (intros H; by apply H).
    destruct (Z.eqb_spec len_ 0); [done|]. reflexivity.
  - intros contents len_ Hlt. unfold g_file_set_contents_full.
    cbn [g_file_set_contents_full_rec].
    destruct (Z.geb_spec len_ (-1)); [lia|].
    by destruct (negb _).
Qed.

(** ** Instances *)

(** "ab", a NUL byte and "cd" written with a length of -1: the call
    succeeds and the file holds "ab". *)
Lemma length_argument_checks_witness :
  (exists w',
     g_file_set_contents_full "f" (Some [97; 98; 0; 99; 100]) (-1)
       G_FILE_SET_CONTENTS_NONE 420 (scripted [])
     = Some ((true, None), w') /\
     fs w' = <["f" := mkFile [97; 98] 420]> (fs (scripted []))) /\
  g_file_set_contents_full "f" (Some [97; 98; 0; 99; 100]) (-1)
    G_FILE_SET_CONTENTS_NONE 420 (scripted [])
  = g_file_set_contents_full "f" (Some [97; 98; 0; 99; 100]) 2
      G_FILE_SET_CONTENTS_NONE 420 (scripted []) /\
  g_file_set_contents_full "f" None 3 G_FILE_SET_CONTENTS_NONE 420
    (scripted [])
  = Some ((false, None), scripted []) /\
  g_file_set_contents_full "f" (Some abc) (-2) G_FILE_SET_CONTENTS_NONE 420
    (scripted [])
  = Some ((false, None), scripted []).
Proof.
  pose proof (length_argument_checks "f" G_FILE_SET_CONTENTS_NONE 420
                (scripted [])) as (Hlen & Hnull & Hneg).
  destruct (Hlen [97; 98; 0; 99; 100]) as (Heq & _ & Hquiet).
  split.
  { apply Hquiet; [reflexivity|]. intros [Hflag _]. discriminate. }
  split; [exact Heq|].
  split; [apply Hnull; lia|apply Hneg; lia].
Defined.

(** The default flags of [g_file_set_contents] over an existing file with
    the permission bits 0600: the contents are replaced and the bits
    kept. *)
Lemma set_contents_without_faults_witness :
  exists ret w',
    g_file_set_contents_full "f" (Some abc) 3
      (Z.lor G_FILE_SET_CONTENTS_CONSISTENT
             G_FILE_SET_CONTENTS_ONLY_EXISTING) 438 (with_target [])
    = Some (ret, w') /\
    (has_flag (Z.lor G_FILE_SET_CONTENTS_CONSISTENT
                     G_FILE_SET_CONTENTS_ONLY_EXISTING)
       G_FILE_SET_CONTENTS_CONSISTENT = true /\
     all_taken "f" (with_target []) ->
     ret = (false, Some (mkGError G_FILE_ERROR_EXIST MsgCreate
                                  (tmp_candidate "f" (with_target []) 99)
                                  EEXIST)) /\
     fs w' = fs (with_target [])) /\
    (~ (has_flag (Z.lor G_FILE_SET_CONTENTS_CONSISTENT
                        G_FILE_SET_CONTENTS_ONLY_EXISTING)
          G_FILE_SET_CONTENTS_CONSISTENT = true /\
        all_taken "f" (with_target [])) ->
     ret = (true, None) /\
     fs w' = <["f" := mkFile abc 384]> (fs (with_target []))).
Proof.
  apply (set_contents_without_faults "f" (Some abc) 3
           (Z.lor G_FILE_SET_CONTENTS_CONSISTENT
                  G_FILE_SET_CONTENTS_ONLY_EXISTING) 438 (with_target []));
    [reflexivity|split; [by left|lia]|simpl; lia].
Defined.





End FileUtilsRuns.
